(** * Deal or No Deal multiplayer server: game rules, scoring and engine

    A shallow embedding of the backend of the repository
    (game/constants.ts, game/points.ts, game/banker.ts, store/types.ts,
    store/rooms.ts and the socket handlers) together with the properties
    of its specification.

    Conventions of the embedding.
    - A JavaScript number that carries money is given by its value, an
      exact rational ([Q]); the ladder values and the amounts derived
      from them are compared and scored on these values.  The banker
      computes in IEEE 754 double precision, and his arithmetic is
      modelled as such ([Double]): each operation returns the double
      nearest to the exact result, ties to even, or an infinity on
      overflow, and [NaN] where JavaScript yields it.  The sign of a zero
      is not represented.
      Counters, round numbers, box numbers and indices are integers ([Z]).
    - A string is a sequence of code units below 256 (Latin-1), on which
      [trim], [toLowerCase], [slice], [includes] and [replace] are written
      out as JavaScript defines them.
    - [Math.random()] and [Date.now()] are explicit arguments.
    - A [Map] is the list of its values in insertion order; a plain object
      used as a dictionary is a [gmap].
    - The state is that of one room together with its pending timers.  A
      handler is a function from the state before the event to the state
      after it; an event that the code drops returns the state unchanged.
      What the handlers emit is not part of the state, except for the
      snapshot [createGameStateUpdate], which is a function of its own.
      The chat history, the global leaderboard and the table of rooms
      live outside the room; they are functions of their own on the
      stores of store/rooms.ts. *)

From Stdlib Require Import ZArith QArith Qround Qabs Qpower Qreduction Qcanon.
From Stdlib Require Import Lqa Lia Ascii String Sorted.
From stdpp Require Import base strings gmap list.

Local Open Scope Z_scope.

(* ================================================================== *)
(** * Definitions *)
(* ================================================================== *)

(** ** JavaScript numbers that may be NaN *)

Inductive number (A : Type) : Type :=
  | Fin (x : A)
  | NaN.
Arguments Fin {A} x.
Arguments NaN {A}.

(** [Math.round]: nearest integer, halves towards plus infinity. *)
Definition Math_round (x : Q) : Z := Qfloor (x + (1 # 2))%Q.

(** ** IEEE 754 double precision

    A double is given by its value: a rational for a finite double, an
    infinity with its sign, or NaN.  The zero of the model stands for
    both zeros of the format. *)
Module Double.

Inductive t : Type :=
  | Fin (x : Q)
  | Inf (negative : bool)
  | NaN.

Definition pow2 (e : Z) : Q := (2 ^ e)%Q.

(** [Number.MAX_VALUE] *)
Definition MAX_VALUE : Q := ((pow2 53 - 1) * pow2 971)%Q.

(** The integer [e] with [2^e <= x < 2^(e+1)], for [x > 0]: the
    difference of the bit lengths of numerator and denominator, or one
    less. *)
Definition ilog2 (x : Q) : Z :=
  let d := Z.log2 (Qnum x) - Z.log2 (Zpos (Qden x)) in
  if Qle_bool (pow2 d) x then d else d - 1.

(** The integer nearest to [m], the even one of two that are equally
    near. *)
Definition roundHalfEven (m : Q) : Z :=
  let f := Qfloor m in
  match (m - inject_Z f ?= 1 # 2)%Q with
  | Lt => f
  | Gt => f + 1
  | Eq => if Z.even f then f else f + 1
  end.

Definition isNegative (x : Q) : bool := negb (Qle_bool 0 x).

(** The double nearest to [x] (round to nearest, ties to even): the
    multiple of the unit in the last place of the binade of [x], with 53
    bits of precision and exponents from -1022 on (below, the spacing
    stays that of the subnormal numbers), an infinity from [2^1024] on.
    It is the value of a numeric literal and of each arithmetic
    operation on its exact result. *)
Definition round (x : Q) : t :=
  if Qeq_bool x 0 then Fin 0 else
  let e := Z.max (ilog2 (Qabs x)) (-1022) in
  let ulp := pow2 (e - 52) in
  let y := (inject_Z (roundHalfEven (x / ulp)) * ulp)%Q in
  if Qle_bool (pow2 1024) (Qabs y) then Inf (isNegative x) else Fin (Qred y).

(** [x + y] *)
Definition add (x y : t) : t :=
  match x, y with
  | Fin a, Fin b => round (a + b)
  | Fin _, Inf s | Inf s, Fin _ => Inf s
  | Inf s, Inf s' => if Bool.eqb s s' then Inf s else NaN
  | _, _ => NaN
  end.

(** [x * y] *)
Definition mul (x y : t) : t :=
  match x, y with
  | Fin a, Fin b => round (a * b)
  | Fin a, Inf s | Inf s, Fin a =>
      if Qeq_bool a 0 then NaN else Inf (xorb (isNegative a) s)
  | Inf s, Inf s' => Inf (xorb s s')
  | _, _ => NaN
  end.

(** [x / y]; a zero divisor counts as [+0]. *)
Definition div (x y : t) : t :=
  match x, y with
  | Fin a, Fin b =>
      if Qeq_bool b 0 then
        if Qeq_bool a 0 then NaN else Inf (isNegative a)
      else round (a / b)
  | Fin _, Inf _ => Fin 0
  | Inf s, Fin b => Inf (xorb s (isNegative b))
  | _, _ => NaN
  end.

(** [Math.round(x)]: the integer is computed exactly. *)
Definition Math_round (x : t) : t :=
  match x with
  | Fin a => Fin (inject_Z (Math_round a))
  | _ => x
  end.

(** [x >= y]; a comparison with [NaN] is false. *)
Definition ge (x y : t) : bool :=
  match x, y with
  | Fin a, Fin b => Qle_bool b a
  | Inf false, Fin _ | Inf false, Inf _ => true
  | Fin _, Inf true | Inf true, Inf true => true
  | _, _ => false
  end.

End Double.

(** An amount that the banker has computed, as the room state keeps it.
    The state holds amounts by their rational value or as [NaN]; an
    infinite amount, which arises only when the arithmetic overflows, on
    values of the order of [10^307], has no place in it and is kept as
    [NaN]. *)
Definition storedAmount (x : Double.t) : number Q :=
  match x with
  | Double.Fin q => Fin q
  | _ => NaN
  end.

(** [a > b] on rationals. *)
Definition Qgtb (a b : Q) : bool := negb (Qle_bool a b).

(** ** game/constants.ts *)

Definition BOX_VALUES : list Q :=
  [ 0.01; 1; 5; 10; 50; 100; 250; 500; 750; 1000;
    3000; 5000; 10000; 15000; 20000; 35000; 50000; 75000; 100000; 250000 ]%Q.

Record RoundConfig := { round : Z; boxesToOpen : Z }.

Definition ROUNDS : list RoundConfig :=
  [ {| round := 1; boxesToOpen := 5 |};
    {| round := 2; boxesToOpen := 4 |};
    {| round := 3; boxesToOpen := 3 |};
    {| round := 4; boxesToOpen := 2 |} ].

Definition getBoxesToOpenForRound (r : Z) : Z :=
  match List.find (fun c => round c =? r) ROUNDS with
  | Some roundConfig => boxesToOpen roundConfig
  | None => 1
  end.

Definition OFFER_TIMEOUT_MS : Z := 20000.
Definition BOX_OPEN_TIMEOUT_MS : Z := 20000.
Definition MAX_PLAYERS_PER_ROOM : Z := 6.
Definition MIN_PLAYERS_TO_START : Z := 2.
Definition MAX_NAME_LENGTH : nat := 16.

Definition BANNED_WORDS : list string :=
  [ "fuck"; "shit"; "bitch"; "cunt"; "dick"; "ass";
    "bastard"; "wanker"; "twat"; "bollocks"; "prick";
    "nigger"; "faggot"; "retard" ]%string.

(** *** String primitives (code units below 256) *)

(** White space and line terminators removed by [String.prototype.trim]:
    TAB, LF, VT, FF, CR, SPACE and NO-BREAK SPACE. *)
Definition isWhiteSpace (c : ascii) : bool :=
  let n := N_of_ascii c in
  ((9 <=? n) && (n <=? 13) || (n =? 32) || (n =? 160))%N.

(** [toLowerCase] on one code unit: A-Z, and the Latin-1 capitals
    U+00C0-U+00DE except the multiplication sign U+00D7. *)
Definition toLowerChar (c : ascii) : ascii :=
  let n := N_of_ascii c in
  if ((65 <=? n) && (n <=? 90)
      || (192 <=? n) && (n <=? 222) && negb (n =? 215))%N
  then ascii_of_N (n + 32) else c.

Fixpoint mapString (f : ascii -> ascii) (s : string) : string :=
  match s with
  | EmptyString => EmptyString
  | String c s' => String (f c) (mapString f s')
  end.

Definition toLowerCase (s : string) : string := mapString toLowerChar s.

Fixpoint trimStart (s : string) : string :=
  match s with
  | EmptyString => EmptyString
  | String c s' => if isWhiteSpace c then trimStart s' else s
  end.

Definition isEmptyString (s : string) : bool :=
  match s with EmptyString => true | _ => false end.

Fixpoint trimEnd (s : string) : string :=
  match s with
  | EmptyString => EmptyString
  | String c s' =>
      let r := trimEnd s' in
      if isWhiteSpace c && isEmptyString r then EmptyString else String c r
  end.

Definition trim (s : string) : string := trimEnd (trimStart s).

(** [s.slice(0, n)] *)
Fixpoint slice0 (n : nat) (s : string) : string :=
  match n, s with
  | O, _ => EmptyString
  | _, EmptyString => EmptyString
  | S n', String c s' => String c (slice0 n' s')
  end.

(** [s.includes(w)] *)
Fixpoint includes (s w : string) : bool :=
  String.prefix w s ||
  match s with
  | EmptyString => false
  | String _ s' => includes s' w
  end.

Definition isVowel (c : ascii) : bool :=
  existsb (Ascii.eqb c)
    (list_ascii_of_string "aeiouAEIOU").

(** [s.replace(/[aeiouAEIOU]/g, '*')] *)
Definition replaceVowels (s : string) : string :=
  mapString (fun c => if isVowel c then "*"%char else c) s.

Definition containsProfanity (name : string) : bool :=
  let lowerName := toLowerCase name in
  existsb (fun word => includes lowerName word) BANNED_WORDS.

Definition sanitiseName (name : string) : string :=
  let trimmed := slice0 MAX_NAME_LENGTH (trim name) in
  if containsProfanity trimmed then replaceVowels trimmed else trimmed.

(** ** game/points.ts *)

Definition calculatePoints
    (finalWinnings finalBoxValue : Q) (roundDealt : Z)
    (isLastStanding isHighestWinnings : bool) (timeoutCount : Z) : Z :=
  let points := 0 in
  let points := points + Z.min (Qfloor (finalWinnings / 100)) 3000 in
  let points := if Qgtb finalWinnings finalBoxValue then points + 200 else points in
  let points := if roundDealt >=? 4 then points + 150 else points in
  let points := if roundDealt <=? 2 then points - 50 else points in
  let points := if isLastStanding then points + 200 else points in
  let points := if isHighestWinnings then points + 200 else points in
  let points := points - timeoutCount * 50 in
  Z.max points 0.

(** ** game/banker.ts *)

Definition roundModifiers : list Q := [0.7; 0.8; 0.9; 0.95; 1.0; 1.05]%Q.

(** [arr[i]] for an integer index: [None] stands for [undefined]. *)
Definition arrayGet {A} (arr : list A) (i : Z) : option A :=
  if i <? 0 then None else arr !! Z.to_nat i.

(** [random] is the value returned by [Math.random()].  The remaining
    values and the draw are given by their values; a value that is not a
    double stands for the double nearest to it, as a literal does. *)
Definition getBankerOffer (remainingValues : list Q) (round : Z) (random : Q)
    : Double.t :=
  match remainingValues with
  | [] => Double.Fin 0
  | _ =>
      let avg :=
        Double.div
          (fold_left (fun sum v => Double.add sum (Double.round v))
             remainingValues (Double.Fin 0))
          (Double.round (inject_Z (Z.of_nat (length remainingValues)))) in
      match arrayGet roundModifiers
              (Z.min (round - 1) (Z.of_nat (length roundModifiers) - 1)) with
      | None => Double.NaN
      | Some baseModifier =>
          let randomFactor :=
            Double.add (Double.round 0.9)
              (Double.mul (Double.round random) (Double.round 0.2)) in
          let offer :=
            Double.mul (Double.mul avg (Double.round baseModifier))
              randomFactor in
          Double.mul (Double.Math_round (Double.div offer (Double.round 10)))
            (Double.round 10)
      end
  end.

Definition calculateBankerOffer (remainingValues : list Q) (round : Z)
    (random : Q) : Double.t :=
  getBankerOffer remainingValues round random.

(** *** The banker's rule in the words of the specification *)

Fixpoint Qsum (l : list Q) : Q :=
  match l with
  | [] => 0%Q
  | v :: l' => (v + Qsum l')%Q
  end.

Definition mean (l : list Q) : Q :=
  (Qsum l / inject_Z (Z.of_nat (length l)))%Q.

Definition spec_modifier (r : Z) : option Q :=
  [0.70; 0.80; 0.90; 0.95; 1.00; 1.05]%Q !! Z.to_nat (Z.min (r - 1) 5).

(** [k] is [x] rounded to the nearest multiple of ten. *)
Definition nearest10 (x : Q) (k : Q) : Prop :=
  (exists n : Z, k = inject_Z (n * 10)) /\ (Qabs (k - x) <= 5)%Q.

(** *** The accuracy of the banker's arithmetic *)

(** [q] to the power [j]. *)
Fixpoint Qpow (q : Q) (j : nat) : Q :=
  match j with
  | O => 1
  | S j' => q * Qpow q j'
  end.

(** The unit roundoff of double precision, [2^-53]: a rounding changes a
    number of the normal range by at most this fraction of it. *)
Definition unitRoundoff : Q := Double.pow2 (-53).

(** [x] is [X] after at most [j] roundings to double precision. *)
Definition within (j : nat) (X x : Q) : Prop :=
  (X * Qpow (1 - unitRoundoff) j <= x <= X * Qpow (1 + unitRoundoff) j)%Q.

(** The amounts for which the offer is analysed: from [10^-100] to
    [10^15]. *)
Definition amount (v : Q) : Prop :=
  (1 # 10 ^ 100 <= v <= inject_Z (10 ^ 15))%Q.

(** The double that JavaScript writes [563.4920634920635]. *)
Definition sample_double : Q := 4956528607752127 # 8796093022208.

(** The relative error of the offer before it is rounded to tens, for
    [n] remaining values: [(n + 10) * 2^-52]. *)
Definition bankerError (n : nat) : Q :=
  ((inject_Z (Z.of_nat n) + 10) * 2 * unitRoundoff)%Q.

(** *** The score in the words of the specification, as one expression *)

Definition spec_points
    (finalWinnings finalBoxValue : Q) (roundDealt : Z)
    (isLastStanding isHighestWinnings : bool) (timeoutCount : Z) : Z :=
  Z.max 0
    (Z.min (Qfloor (finalWinnings / 100)) 3000
     + (if Qlt_le_dec finalBoxValue finalWinnings then 200 else 0)
     + (if Z_ge_dec roundDealt 4 then 150 else 0)
     - (if Z_le_dec roundDealt 2 then 50 else 0)
     + (if isLastStanding then 200 else 0)
     + (if isHighestWinnings then 200 else 0)
     - 50 * timeoutCount).

(** *** Character tests used to reason about the profanity filter *)

Fixpoint anyChar (p : ascii -> bool) (s : string) : bool :=
  match s with
  | EmptyString => false
  | String c s' => p c || anyChar p s'
  end.

Definition isLowerVowel (c : ascii) : bool :=
  existsb (Ascii.eqb c) (list_ascii_of_string "aeiou").

(** ** store/types.ts *)

Inductive PlayerRole : Type := RolePlayer | RoleSpectator.

Inductive GamePhase : Type := Waiting | Selection | Playing | Offer | Finished.

(** [interface Player]; each field has its setter, so that [Object.assign]
    is a composition of setters. *)
Module Player.
Record t : Type := mk {
  id : string;
  socketId : string;
  name : string;
  isHost : bool;
  isReady : bool;
  role : PlayerRole;
  boxNumber : option Z;
  hasDealt : bool;
  dealAmount : option (number Q);
  boxValue : option Q;
  roundDealt : option Z;
  isLastStanding : bool;
  points : number Z;
  timeoutCount : Z;
  isConnected : bool
}.
Definition set_id (v : string) (x : t) : t :=
  mk v (socketId x) (name x) (isHost x) (isReady x) (role x) (boxNumber x)
    (hasDealt x) (dealAmount x) (boxValue x) (roundDealt x)
    (isLastStanding x) (points x) (timeoutCount x) (isConnected x).
Definition set_socketId (v : string) (x : t) : t :=
  mk (id x) v (name x) (isHost x) (isReady x) (role x) (boxNumber x)
    (hasDealt x) (dealAmount x) (boxValue x) (roundDealt x)
    (isLastStanding x) (points x) (timeoutCount x) (isConnected x).
Definition set_name (v : string) (x : t) : t :=
  mk (id x) (socketId x) v (isHost x) (isReady x) (role x) (boxNumber x)
    (hasDealt x) (dealAmount x) (boxValue x) (roundDealt x)
    (isLastStanding x) (points x) (timeoutCount x) (isConnected x).
Definition set_isHost (v : bool) (x : t) : t :=
  mk (id x) (socketId x) (name x) v (isReady x) (role x) (boxNumber x)
    (hasDealt x) (dealAmount x) (boxValue x) (roundDealt x)
    (isLastStanding x) (points x) (timeoutCount x) (isConnected x).
Definition set_isReady (v : bool) (x : t) : t :=
  mk (id x) (socketId x) (name x) (isHost x) v (role x) (boxNumber x)
    (hasDealt x) (dealAmount x) (boxValue x) (roundDealt x)
    (isLastStanding x) (points x) (timeoutCount x) (isConnected x).
Definition set_role (v : PlayerRole) (x : t) : t :=
  mk (id x) (socketId x) (name x) (isHost x) (isReady x) v (boxNumber x)
    (hasDealt x) (dealAmount x) (boxValue x) (roundDealt x)
    (isLastStanding x) (points x) (timeoutCount x) (isConnected x).
Definition set_boxNumber (v : option Z) (x : t) : t :=
  mk (id x) (socketId x) (name x) (isHost x) (isReady x) (role x) v
    (hasDealt x) (dealAmount x) (boxValue x) (roundDealt x)
    (isLastStanding x) (points x) (timeoutCount x) (isConnected x).
Definition set_hasDealt (v : bool) (x : t) : t :=
  mk (id x) (socketId x) (name x) (isHost x) (isReady x) (role x)
    (boxNumber x) v (dealAmount x) (boxValue x) (roundDealt x)
    (isLastStanding x) (points x) (timeoutCount x) (isConnected x).
Definition set_dealAmount (v : option (number Q)) (x : t) : t :=
  mk (id x) (socketId x) (name x) (isHost x) (isReady x) (role x)
    (boxNumber x) (hasDealt x) v (boxValue x) (roundDealt x)
    (isLastStanding x) (points x) (timeoutCount x) (isConnected x).
Definition set_boxValue (v : option Q) (x : t) : t :=
  mk (id x) (socketId x) (name x) (isHost x) (isReady x) (role x)
    (boxNumber x) (hasDealt x) (dealAmount x) v (roundDealt x)
    (isLastStanding x) (points x) (timeoutCount x) (isConnected x).
Definition set_roundDealt (v : option Z) (x : t) : t :=
  mk (id x) (socketId x) (name x) (isHost x) (isReady x) (role x)
    (boxNumber x) (hasDealt x) (dealAmount x) (boxValue x) v
    (isLastStanding x) (points x) (timeoutCount x) (isConnected x).
Definition set_isLastStanding (v : bool) (x : t) : t :=
  mk (id x) (socketId x) (name x) (isHost x) (isReady x) (role x)
    (boxNumber x) (hasDealt x) (dealAmount x) (boxValue x) (roundDealt x) v
    (points x) (timeoutCount x) (isConnected x).
Definition set_points (v : number Z) (x : t) : t :=
  mk (id x) (socketId x) (name x) (isHost x) (isReady x) (role x)
    (boxNumber x) (hasDealt x) (dealAmount x) (boxValue x) (roundDealt x)
    (isLastStanding x) v (timeoutCount x) (isConnected x).
Definition set_timeoutCount (v : Z) (x : t) : t :=
  mk (id x) (socketId x) (name x) (isHost x) (isReady x) (role x)
    (boxNumber x) (hasDealt x) (dealAmount x) (boxValue x) (roundDealt x)
    (isLastStanding x) (points x) v (isConnected x).
Definition set_isConnected (v : bool) (x : t) : t :=
  mk (id x) (socketId x) (name x) (isHost x) (isReady x) (role x)
    (boxNumber x) (hasDealt x) (dealAmount x) (boxValue x) (roundDealt x)
    (isLastStanding x) (points x) (timeoutCount x) v.
End Player.
Abbreviation Player := Player.t.

(** [interface Box] *)
Module Box.
Record t : Type := mk {
  number : Z;
  value : Q;
  isOpened : bool;
  openedByPlayerId : option string
}.
Definition set_number (v : Z) (x : t) : t :=
  mk v (value x) (isOpened x) (openedByPlayerId x).
Definition set_value (v : Q) (x : t) : t :=
  mk (number x) v (isOpened x) (openedByPlayerId x).
Definition set_isOpened (v : bool) (x : t) : t :=
  mk (number x) (value x) v (openedByPlayerId x).
Definition set_openedByPlayerId (v : option string) (x : t) : t :=
  mk (number x) (value x) (isOpened x) v.
End Box.
Abbreviation Box := Box.t.

(** [interface GameState]; [players] is the [Map] in insertion order. *)
Module GameState.
Record t : Type := mk {
  roomCode : string;
  phase : GamePhase;
  players : list Player;
  boxes : list Box;
  currentRound : Z;
  boxesOpenedThisRound : list Z;
  remainingValues : list Q;
  eliminatedValues : list Q;
  currentOffer : option (number Q);
  offerExpiresAt : option Z;
  offerEligiblePlayerIds : list string;
  offerResponses : gmap string bool;
  turnOrder : list string;
  currentTurnIndex : Z;
  currentTurnPlayerId : option string;
  turnExpiresAt : option Z;
  hostId : string;
  password : option string;
  createdAt : Z;
  startedAt : option Z;
  finishedAt : option Z
}.
Definition set_roomCode (v : string) (x : t) : t :=
  mk v (phase x) (players x) (boxes x) (currentRound x)
    (boxesOpenedThisRound x) (remainingValues x) (eliminatedValues x)
    (currentOffer x) (offerExpiresAt x) (offerEligiblePlayerIds x)
    (offerResponses x) (turnOrder x) (currentTurnIndex x)
    (currentTurnPlayerId x) (turnExpiresAt x) (hostId x) (password x)
    (createdAt x) (startedAt x) (finishedAt x).
Definition set_phase (v : GamePhase) (x : t) : t :=
  mk (roomCode x) v (players x) (boxes x) (currentRound x)
    (boxesOpenedThisRound x) (remainingValues x) (eliminatedValues x)
    (currentOffer x) (offerExpiresAt x) (offerEligiblePlayerIds x)
    (offerResponses x) (turnOrder x) (currentTurnIndex x)
    (currentTurnPlayerId x) (turnExpiresAt x) (hostId x) (password x)
    (createdAt x) (startedAt x) (finishedAt x).
Definition set_players (v : list Player) (x : t) : t :=
  mk (roomCode x) (phase x) v (boxes x) (currentRound x)
    (boxesOpenedThisRound x) (remainingValues x) (eliminatedValues x)
    (currentOffer x) (offerExpiresAt x) (offerEligiblePlayerIds x)
    (offerResponses x) (turnOrder x) (currentTurnIndex x)
    (currentTurnPlayerId x) (turnExpiresAt x) (hostId x) (password x)
    (createdAt x) (startedAt x) (finishedAt x).
Definition set_boxes (v : list Box) (x : t) : t :=
  mk (roomCode x) (phase x) (players x) v (currentRound x)
    (boxesOpenedThisRound x) (remainingValues x) (eliminatedValues x)
    (currentOffer x) (offerExpiresAt x) (offerEligiblePlayerIds x)
    (offerResponses x) (turnOrder x) (currentTurnIndex x)
    (currentTurnPlayerId x) (turnExpiresAt x) (hostId x) (password x)
    (createdAt x) (startedAt x) (finishedAt x).
Definition set_currentRound (v : Z) (x : t) : t :=
  mk (roomCode x) (phase x) (players x) (boxes x) v (boxesOpenedThisRound x)
    (remainingValues x) (eliminatedValues x) (currentOffer x)
    (offerExpiresAt x) (offerEligiblePlayerIds x) (offerResponses x)
    (turnOrder x) (currentTurnIndex x) (currentTurnPlayerId x)
    (turnExpiresAt x) (hostId x) (password x) (createdAt x) (startedAt x)
    (finishedAt x).
Definition set_boxesOpenedThisRound (v : list Z) (x : t) : t :=
  mk (roomCode x) (phase x) (players x) (boxes x) (currentRound x) v
    (remainingValues x) (eliminatedValues x) (currentOffer x)
    (offerExpiresAt x) (offerEligiblePlayerIds x) (offerResponses x)
    (turnOrder x) (currentTurnIndex x) (currentTurnPlayerId x)
    (turnExpiresAt x) (hostId x) (password x) (createdAt x) (startedAt x)
    (finishedAt x).
Definition set_remainingValues (v : list Q) (x : t) : t :=
  mk (roomCode x) (phase x) (players x) (boxes x) (currentRound x)
    (boxesOpenedThisRound x) v (eliminatedValues x) (currentOffer x)
    (offerExpiresAt x) (offerEligiblePlayerIds x) (offerResponses x)
    (turnOrder x) (currentTurnIndex x) (currentTurnPlayerId x)
    (turnExpiresAt x) (hostId x) (password x) (createdAt x) (startedAt x)
    (finishedAt x).
Definition set_eliminatedValues (v : list Q) (x : t) : t :=
  mk (roomCode x) (phase x) (players x) (boxes x) (currentRound x)
    (boxesOpenedThisRound x) (remainingValues x) v (currentOffer x)
    (offerExpiresAt x) (offerEligiblePlayerIds x) (offerResponses x)
    (turnOrder x) (currentTurnIndex x) (currentTurnPlayerId x)
    (turnExpiresAt x) (hostId x) (password x) (createdAt x) (startedAt x)
    (finishedAt x).
Definition set_currentOffer (v : option (number Q)) (x : t) : t :=
  mk (roomCode x) (phase x) (players x) (boxes x) (currentRound x)
    (boxesOpenedThisRound x) (remainingValues x) (eliminatedValues x) v
    (offerExpiresAt x) (offerEligiblePlayerIds x) (offerResponses x)
    (turnOrder x) (currentTurnIndex x) (currentTurnPlayerId x)
    (turnExpiresAt x) (hostId x) (password x) (createdAt x) (startedAt x)
    (finishedAt x).
Definition set_offerExpiresAt (v : option Z) (x : t) : t :=
  mk (roomCode x) (phase x) (players x) (boxes x) (currentRound x)
    (boxesOpenedThisRound x) (remainingValues x) (eliminatedValues x)
    (currentOffer x) v (offerEligiblePlayerIds x) (offerResponses x)
    (turnOrder x) (currentTurnIndex x) (currentTurnPlayerId x)
    (turnExpiresAt x) (hostId x) (password x) (createdAt x) (startedAt x)
    (finishedAt x).
Definition set_offerEligiblePlayerIds (v : list string) (x : t) : t :=
  mk (roomCode x) (phase x) (players x) (boxes x) (currentRound x)
    (boxesOpenedThisRound x) (remainingValues x) (eliminatedValues x)
    (currentOffer x) (offerExpiresAt x) v (offerResponses x) (turnOrder x)
    (currentTurnIndex x) (currentTurnPlayerId x) (turnExpiresAt x)
    (hostId x) (password x) (createdAt x) (startedAt x) (finishedAt x).
Definition set_offerResponses (v : gmap string bool) (x : t) : t :=
  mk (roomCode x) (phase x) (players x) (boxes x) (currentRound x)
    (boxesOpenedThisRound x) (remainingValues x) (eliminatedValues x)
    (currentOffer x) (offerExpiresAt x) (offerEligiblePlayerIds x) v
    (turnOrder x) (currentTurnIndex x) (currentTurnPlayerId x)
    (turnExpiresAt x) (hostId x) (password x) (createdAt x) (startedAt x)
    (finishedAt x).
Definition set_turnOrder (v : list string) (x : t) : t :=
  mk (roomCode x) (phase x) (players x) (boxes x) (currentRound x)
    (boxesOpenedThisRound x) (remainingValues x) (eliminatedValues x)
    (currentOffer x) (offerExpiresAt x) (offerEligiblePlayerIds x)
    (offerResponses x) v (currentTurnIndex x) (currentTurnPlayerId x)
    (turnExpiresAt x) (hostId x) (password x) (createdAt x) (startedAt x)
    (finishedAt x).
Definition set_currentTurnIndex (v : Z) (x : t) : t :=
  mk (roomCode x) (phase x) (players x) (boxes x) (currentRound x)
    (boxesOpenedThisRound x) (remainingValues x) (eliminatedValues x)
    (currentOffer x) (offerExpiresAt x) (offerEligiblePlayerIds x)
    (offerResponses x) (turnOrder x) v (currentTurnPlayerId x)
    (turnExpiresAt x) (hostId x) (password x) (createdAt x) (startedAt x)
    (finishedAt x).
Definition set_currentTurnPlayerId (v : option string) (x : t) : t :=
  mk (roomCode x) (phase x) (players x) (boxes x) (currentRound x)
    (boxesOpenedThisRound x) (remainingValues x) (eliminatedValues x)
    (currentOffer x) (offerExpiresAt x) (offerEligiblePlayerIds x)
    (offerResponses x) (turnOrder x) (currentTurnIndex x) v
    (turnExpiresAt x) (hostId x) (password x) (createdAt x) (startedAt x)
    (finishedAt x).
Definition set_turnExpiresAt (v : option Z) (x : t) : t :=
  mk (roomCode x) (phase x) (players x) (boxes x) (currentRound x)
    (boxesOpenedThisRound x) (remainingValues x) (eliminatedValues x)
    (currentOffer x) (offerExpiresAt x) (offerEligiblePlayerIds x)
    (offerResponses x) (turnOrder x) (currentTurnIndex x)
    (currentTurnPlayerId x) v (hostId x) (password x) (createdAt x)
    (startedAt x) (finishedAt x).
Definition set_hostId (v : string) (x : t) : t :=
  mk (roomCode x) (phase x) (players x) (boxes x) (currentRound x)
    (boxesOpenedThisRound x) (remainingValues x) (eliminatedValues x)
    (currentOffer x) (offerExpiresAt x) (offerEligiblePlayerIds x)
    (offerResponses x) (turnOrder x) (currentTurnIndex x)
    (currentTurnPlayerId x) (turnExpiresAt x) v (password x) (createdAt x)
    (startedAt x) (finishedAt x).
Definition set_password (v : option string) (x : t) : t :=
  mk (roomCode x) (phase x) (players x) (boxes x) (currentRound x)
    (boxesOpenedThisRound x) (remainingValues x) (eliminatedValues x)
    (currentOffer x) (offerExpiresAt x) (offerEligiblePlayerIds x)
    (offerResponses x) (turnOrder x) (currentTurnIndex x)
    (currentTurnPlayerId x) (turnExpiresAt x) (hostId x) v (createdAt x)
    (startedAt x) (finishedAt x).
Definition set_createdAt (v : Z) (x : t) : t :=
  mk (roomCode x) (phase x) (players x) (boxes x) (currentRound x)
    (boxesOpenedThisRound x) (remainingValues x) (eliminatedValues x)
    (currentOffer x) (offerExpiresAt x) (offerEligiblePlayerIds x)
    (offerResponses x) (turnOrder x) (currentTurnIndex x)
    (currentTurnPlayerId x) (turnExpiresAt x) (hostId x) (password x) v
    (startedAt x) (finishedAt x).
Definition set_startedAt (v : option Z) (x : t) : t :=
  mk (roomCode x) (phase x) (players x) (boxes x) (currentRound x)
    (boxesOpenedThisRound x) (remainingValues x) (eliminatedValues x)
    (currentOffer x) (offerExpiresAt x) (offerEligiblePlayerIds x)
    (offerResponses x) (turnOrder x) (currentTurnIndex x)
    (currentTurnPlayerId x) (turnExpiresAt x) (hostId x) (password x)
    (createdAt x) v (finishedAt x).
Definition set_finishedAt (v : option Z) (x : t) : t :=
  mk (roomCode x) (phase x) (players x) (boxes x) (currentRound x)
    (boxesOpenedThisRound x) (remainingValues x) (eliminatedValues x)
    (currentOffer x) (offerExpiresAt x) (offerEligiblePlayerIds x)
    (offerResponses x) (turnOrder x) (currentTurnIndex x)
    (currentTurnPlayerId x) (turnExpiresAt x) (hostId x) (password x)
    (createdAt x) (startedAt x) v.
End GameState.
Abbreviation GameState := GameState.t.

(** [interface PlayerPublicInfo] *)
Module PlayerPublicInfo.
Record t : Type := mk {
  id : string;
  name : string;
  isHost : bool;
  isReady : bool;
  role : PlayerRole;
  boxNumber : option Z;
  hasDealt : bool;
  dealAmount : option (number Q);
  isActive : bool;
  isConnected : bool
}.
End PlayerPublicInfo.
Abbreviation PlayerPublicInfo := PlayerPublicInfo.t.

(** [interface BoxPublicInfo] *)
Module BoxPublicInfo.
Record t : Type := mk {
  number : Z;
  isOpened : bool;
  value : option Q;
  isPlayerBox : bool;
  ownerId : option string
}.
End BoxPublicInfo.
Abbreviation BoxPublicInfo := BoxPublicInfo.t.

(** [interface GameStateUpdate] *)
Module GameStateUpdate.
Record t : Type := mk {
  phase : GamePhase;
  players : list PlayerPublicInfo;
  boxes : list BoxPublicInfo;
  currentRound : Z;
  boxesToOpenThisRound : Z;
  boxesOpenedThisRound : list Z;
  remainingValues : list Q;
  eliminatedValues : list Q;
  currentOffer : option (number Q);
  offerExpiresAt : option Z;
  currentTurnPlayerId : option string;
  turnExpiresAt : option Z;
  recentlyOpenedBox : option (Z * Q)
}.
End GameStateUpdate.
Abbreviation GameStateUpdate := GameStateUpdate.t.


(** ** The server state of one room

    [turnTimers] and [offerTimers] hold at most one pending timeout for
    the room; [turnTimer = Some pid] is a pending turn timeout armed for
    [pid].  [offerDelays] counts the pending 1.5 s pauses scheduled by the
    open-box handlers, which cannot be cancelled. *)

Record World : Type := mkWorld {
  gameState : GameState;
  turnTimer : option string;
  offerTimer : bool;
  offerDelays : nat
}.

Definition withState (w : World) (gs : GameState) : World :=
  mkWorld gs (turnTimer w) (offerTimer w) (offerDelays w).

Definition clearTurnTimer (w : World) : World :=
  mkWorld (gameState w) None (offerTimer w) (offerDelays w).

Definition clearOfferTimer (w : World) : World :=
  mkWorld (gameState w) (turnTimer w) false (offerDelays w).

Definition armTurnTimer (playerId : string) (w : World) : World :=
  mkWorld (gameState w) (Some playerId) (offerTimer w) (offerDelays w).

Definition armOfferTimer (w : World) : World :=
  mkWorld (gameState w) (turnTimer w) true (offerDelays w).

Definition scheduleOfferDelay (w : World) : World :=
  mkWorld (gameState w) (turnTimer w) (offerTimer w) (S (offerDelays w)).

(** ** Array and Map primitives *)

(** Mutate in place the first element that passes [test]
    ([arr.find(test)] followed by assignments to the object found). *)
Fixpoint updateFirst {A} (test : A -> bool) (f : A -> A) (l : list A) : list A :=
  match l with
  | [] => []
  | x :: l' => if test x then f x :: l' else x :: updateFirst test f l'
  end.

(** [arr.splice(arr.indexOf(v), 1)] when [v] occurs in [arr]. *)
Fixpoint removeFirst {A} (test : A -> bool) (l : list A) : list A :=
  match l with
  | [] => []
  | x :: l' => if test x then l' else x :: removeFirst test l'
  end.

(** [arr.indexOf(v)], [-1] when absent. *)
Fixpoint indexOfFrom {A} (test : A -> bool) (l : list A) (i : Z) : Z :=
  match l with
  | [] => -1
  | x :: l' => if test x then i else indexOfFrom test l' (i + 1)
  end.

Definition indexOf {A} (test : A -> bool) (l : list A) : Z :=
  indexOfFrom test l 0.

Definition hasId (playerId : string) (p : Player) : bool :=
  (Player.id p =? playerId)%string.

(** [players.get(playerId)] *)
Definition playersGet (players : list Player) (playerId : string) : option Player :=
  List.find (hasId playerId) players.

(** [players.set(playerId, player)] *)
Definition playersSet (players : list Player) (playerId : string) (player : Player)
    : list Player :=
  if existsb (hasId playerId) players
  then updateFirst (hasId playerId) (fun _ => player) players
  else players ++ [player].

(** [p.boxNumber === n] *)
Definition boxNumberIs (n : Z) (p : Player) : bool :=
  match Player.boxNumber p with
  | Some m => m =? n
  | None => false
  end.

Definition isRolePlayer (p : Player) : bool :=
  match Player.role p with RolePlayer => true | RoleSpectator => false end.

Definition hasBoxNumber (p : Player) : bool :=
  match Player.boxNumber p with Some _ => true | None => false end.

(** ** store/rooms.ts *)

(** [getPlayer(roomCode, playerId)] *)
Definition getPlayer (gs : GameState) (playerId : string) : option Player :=
  playersGet (GameState.players gs) playerId.

(** [updatePlayer(roomCode, playerId, updates)]: [Object.assign] on the
    player object held by the map. *)
Definition updatePlayer (gs : GameState) (playerId : string)
    (updates : Player -> Player) : GameState :=
  GameState.set_players
    (updateFirst (hasId playerId) updates (GameState.players gs)) gs.

(** [[a[i], a[j]] = [a[j], a[i]]] *)
Definition swap {A} (a : list A) (i j : nat) : list A :=
  match a !! i, a !! j with
  | Some x, Some y => <[i := y]> (<[j := x]> a)
  | _, _ => a
  end.

(** The loop of [shuffleArray]: [i] runs from [length - 1] down to 1 and
    call number [k] of [Math.random()] returns [random k]. *)
Fixpoint shuffleLoop {A} (random : nat -> Q) (k : nat) (i : nat)
    (shuffled : list A) : list A :=
  match i with
  | O => shuffled
  | S i' =>
      let j := Z.to_nat (Qfloor (random k * inject_Z (Z.of_nat (i + 1)))) in
      shuffleLoop random (S k) i' (swap shuffled i j)
  end.

Definition shuffleArray {A} (random : nat -> Q) (array : list A) : list A :=
  shuffleLoop random 0 (length array - 1) array.

Definition createInitialBoxes (random : nat -> Q) : list Box :=
  let shuffledValues := shuffleArray random BOX_VALUES in
  imap (fun index value =>
          Box.mk (Z.of_nat index + 1) value false None) shuffledValues.

(** [createRoom(hostSocketId, hostName)]; [roomCode] and [playerId] are
    the results of [generateRoomCode()] and [generatePlayerId()], [now] of
    [Date.now()]. *)
Definition createRoom (roomCode playerId : string) (random : nat -> Q) (now : Z)
    (hostSocketId hostName : string) : World :=
  let host :=
    Player.mk playerId hostSocketId (sanitiseName hostName) true false
      RolePlayer None false None None None false (Fin 0) 0 true in
  let gameState :=
    GameState.mk roomCode Waiting [host] (createInitialBoxes random)
      0 [] BOX_VALUES [] None None [] ∅ [] 0 None None
      playerId None now None None in
  mkWorld gameState None false 0.

(** The refusals of [joinRoom]; the lookup of the room by its code has
    succeeded before this code runs, so that "Room not found" never
    arises here. *)
Inductive JoinError : Type :=
  | IncorrectPassword | GameInProgress | RoomFull.

(** [joinRoom(roomCode, socketId, playerName, options)] on the room found;
    the result is the error, or the state with the new player. *)
Definition joinRoom (gs : GameState) (playerId socketId playerName : string)
    (password : option string) (asSpectator : bool) : JoinError + GameState :=
  let passwordSet :=
    match GameState.password gs with
    | Some pw => negb (isEmptyString pw)
    | None => false
    end in
  let passwordMatches :=
    match GameState.password gs, password with
    | Some pw, Some given => (pw =? given)%string
    | _, _ => false
    end in
  if passwordSet && negb passwordMatches then inl IncorrectPassword else
  let role := if asSpectator then RoleSpectator else RolePlayer in
  let isPlayer := negb asSpectator in
  let notWaiting :=
    match GameState.phase gs with Waiting => false | _ => true end in
  if isPlayer && notWaiting then inl GameInProgress else
  let playerCount :=
    Z.of_nat (length (List.filter isRolePlayer (GameState.players gs))) in
  if isPlayer && (playerCount >=? MAX_PLAYERS_PER_ROOM) then inl RoomFull else
  let player :=
    Player.mk playerId socketId (sanitiseName playerName) false asSpectator
      role None asSpectator None None None false (Fin 0) 0 true in
  inr (GameState.set_players
         (playersSet (GameState.players gs) playerId player) gs).

(** [handleDisconnect], on the player resolved from the socket. *)
Definition handleDisconnect (gs : GameState) (playerId : string) : GameState :=
  updatePlayer gs playerId (Player.set_isConnected false).

Definition reconnectPlayer (gs : GameState) (playerId newSocketId : string)
    : GameState :=
  updatePlayer gs playerId
    (fun p => Player.set_isConnected true (Player.set_socketId newSocketId p)).

Definition setRoomPassword (gs : GameState) (password : option string)
    : GameState :=
  GameState.set_password password gs.

(** ** The socket handlers file: game engine *)

Definition isPhase (ph : GamePhase) (gs : GameState) : bool :=
  match GameState.phase gs, ph with
  | Waiting, Waiting | Selection, Selection | Playing, Playing
  | Offer, Offer | Finished, Finished => true
  | _, _ => false
  end.

(** [p.role === 'player' && p.boxNumber !== null && !p.hasDealt] *)
Definition isActivePlayer (p : Player) : bool :=
  isRolePlayer p && hasBoxNumber p && negb (Player.hasDealt p).

(** [p.role === 'player' && p.boxNumber !== null] *)
Definition isContestant (p : Player) : bool :=
  isRolePlayer p && hasBoxNumber p.

Definition hasOpenableBoxes (gs : GameState) : bool :=
  let isReservedPlayerBox := fun boxNumber =>
    existsb (fun p => isRolePlayer p && boxNumberIs boxNumber p)
      (GameState.players gs) in
  existsb (fun b => negb (Box.isOpened b)
                    && negb (isReservedPlayerBox (Box.number b)))
    (GameState.boxes gs).

Definition createGameStateUpdate (gs : GameState) (forPlayerId : string)
    (recentlyOpenedBox : option (Z * Q)) : GameStateUpdate :=
  let players :=
    map (fun p =>
           PlayerPublicInfo.mk (Player.id p) (Player.name p) (Player.isHost p)
             (Player.isReady p) (Player.role p) (Player.boxNumber p)
             (Player.hasDealt p) (Player.dealAmount p)
             (negb (Player.hasDealt p) && hasBoxNumber p && isRolePlayer p)
             (Player.isConnected p))
      (GameState.players gs) in
  let currentPlayer := playersGet (GameState.players gs) forPlayerId in
  let boxes :=
    map (fun box =>
           BoxPublicInfo.mk (Box.number box) (Box.isOpened box)
             (if Box.isOpened box then Some (Box.value box) else None)
             (match currentPlayer with
              | Some cp => boxNumberIs (Box.number box) cp
              | None => false
              end)
             (match List.find (boxNumberIs (Box.number box))
                      (GameState.players gs) with
              | Some p =>
                  if isEmptyString (Player.id p) then None
                  else Some (Player.id p)
              | None => None
              end))
      (GameState.boxes gs) in
  GameStateUpdate.mk (GameState.phase gs) players boxes
    (GameState.currentRound gs)
    (getBoxesToOpenForRound (GameState.currentRound gs))
    (GameState.boxesOpenedThisRound gs)
    (GameState.remainingValues gs) (GameState.eliminatedValues gs)
    (GameState.currentOffer gs) (GameState.offerExpiresAt gs)
    (GameState.currentTurnPlayerId gs) (GameState.turnExpiresAt gs)
    recentlyOpenedBox.

Definition activePlayers (gs : GameState) : list Player :=
  List.filter isActivePlayer (GameState.players gs).

Definition checkGameEnd (gs : GameState) : bool :=
  (length (activePlayers gs) =? 0)%nat.

Definition getLastActivePlayer (gs : GameState) : option Player :=
  match activePlayers gs with
  | [p] => Some p
  | _ => None
  end.

Definition allPlayersReady (gs : GameState) : bool :=
  let players := List.filter isRolePlayer (GameState.players gs) in
  (Z.of_nat (length players) >=? MIN_PLAYERS_TO_START)
  && forallb (fun p => Player.isReady p && hasBoxNumber p) players.

(** The test of the loop body of [getNextActivePlayerIndex] at offset [i]. *)
Definition isActiveTurnAt (gs : GameState) (startIndex : Z) (i : Z) : bool :=
  let turnOrder := GameState.turnOrder gs in
  let idx := Z.rem (startIndex + i) (Z.of_nat (length turnOrder)) in
  match arrayGet turnOrder idx with
  | Some playerId =>
      match playersGet (GameState.players gs) playerId with
      | Some player => negb (Player.hasDealt player) && isRolePlayer player
      | None => false
      end
  | None => false
  end.

Definition getNextActivePlayerIndex (gs : GameState) (startIndex : Z) : Z :=
  let turnOrder := GameState.turnOrder gs in
  if (length turnOrder =? 0)%nat then -1 else
  match List.find (isActiveTurnAt gs startIndex)
          (map Z.of_nat (seq 0 (length turnOrder))) with
  | Some i => Z.rem (startIndex + i) (Z.of_nat (length turnOrder))
  | None => -1
  end.

(** [p.dealAmount || 0] *)
Definition amountOrZero (x : option (number Q)) : Q :=
  match x with
  | Some (Fin q) => q
  | _ => 0%Q
  end.

(** [p.boxValue || 0] *)
Definition valueOrZero (x : option Q) : Q :=
  match x with
  | Some q => q
  | None => 0%Q
  end.

(** [p.roundDealt || currentRound] *)
Definition roundOr (x : option Z) (currentRound : Z) : Z :=
  match x with
  | Some r => if r =? 0 then currentRound else r
  | None => currentRound
  end.

(** [Math.max(...amounts)] on a non-empty list, [0] on the empty one
    (the guard [finalAmounts.length > 0] of [finishGame]). *)
Definition highestOf (amounts : list Q) : Q :=
  match amounts with
  | [] => 0%Q
  | a :: rest => fold_left (fun m x => if Qgtb x m then x else m) rest a
  end.

(** Mark box [boxNumber] as opened by [playerId]:
    [box.isOpened = true; box.openedByPlayerId = playerId]. *)
Definition openBoxObject (playerId : string) (b : Box) : Box :=
  Box.set_openedByPlayerId (Some playerId) (Box.set_isOpened true b).

(** [valueIndex = remainingValues.indexOf(v); if (valueIndex > -1)
    { remainingValues.splice(valueIndex, 1); eliminatedValues.push(v) }] *)
Definition eliminateValue (v : Q) (gs : GameState) : GameState :=
  if indexOf (Qeq_bool v) (GameState.remainingValues gs) >? -1 then
    GameState.set_eliminatedValues (GameState.eliminatedValues gs ++ [v])
      (GameState.set_remainingValues
         (removeFirst (Qeq_bool v) (GameState.remainingValues gs)) gs)
  else gs.

Definition findBox (gs : GameState) (boxNumber : option Z) : option Box :=
  match boxNumber with
  | Some n => List.find (fun b => Box.number b =? n) (GameState.boxes gs)
  | None => None
  end.

Definition markBoxOpened (n : Z) (playerId : string) (gs : GameState)
    : GameState :=
  GameState.set_boxes
    (updateFirst (fun b => Box.number b =? n) (openBoxObject playerId)
       (GameState.boxes gs)) gs.

(** The points of one contestant at the end of the game. *)
Definition finalPoints (currentRound : Z) (highestWinnings : Q) (p : Player)
    : Z :=
  let finalWinnings := amountOrZero (Player.dealAmount p) in
  let finalBoxValue := valueOrZero (Player.boxValue p) in
  let roundDealt := roundOr (Player.roundDealt p) currentRound in
  calculatePoints finalWinnings finalBoxValue roundDealt
    (Player.isLastStanding p) (Qeq_bool finalWinnings highestWinnings)
    (Player.timeoutCount p).

(** [finishGame]; the global leaderboard and the emitted events are not
    part of the room state. *)
Definition finishGame (w : World) (now : Z) : World :=
  let w := clearOfferTimer (clearTurnTimer w) in
  let gs := gameState w in
  let players := List.filter isContestant (GameState.players gs) in
  let finalAmounts := map (fun p => amountOrZero (Player.dealAmount p)) players in
  let highestWinnings := highestOf finalAmounts in
  let scored :=
    map (fun p =>
           if isContestant p
           then Player.set_points
                  (Fin (finalPoints (GameState.currentRound gs) highestWinnings p)) p
           else p)
      (GameState.players gs) in
  withState w
    (GameState.set_offerResponses ∅
    (GameState.set_offerEligiblePlayerIds []
    (GameState.set_turnExpiresAt None
    (GameState.set_currentTurnPlayerId None
    (GameState.set_offerExpiresAt None
    (GameState.set_currentOffer None
    (GameState.set_finishedAt (Some now)
    (GameState.set_phase Finished
    (GameState.set_players scored gs))))))))).

Definition finishLastPlayer (w : World) (player : Player) (now : Z) : World :=
  let gs := gameState w in
  let gs :=
    updatePlayer gs (Player.id player)
      (fun p =>
         Player.set_isLastStanding true
         (Player.set_roundDealt (Some (GameState.currentRound gs))
         (Player.set_dealAmount (option_map Fin (Player.boxValue player))
         (Player.set_hasDealt true p)))) in
  let gs :=
    match findBox gs (Player.boxNumber player) with
    | Some box =>
        eliminateValue (Box.value box)
          (markBoxOpened (Box.number box) (Player.id player) gs)
    | None => gs
    end in
  finishGame (withState w gs) now.

Definition triggerBankerOffer (w : World) (now : Z) (random : Q) : World :=
  let w := clearOfferTimer (clearTurnTimer w) in
  let gs := gameState w in
  match getLastActivePlayer gs with
  | Some lastPlayer => finishLastPlayer w lastPlayer now
  | None =>
      if checkGameEnd gs then finishGame w now else
      let offer :=
        storedAmount
          (calculateBankerOffer (GameState.remainingValues gs)
             (GameState.currentRound gs) random) in
      let expiresAt := now + OFFER_TIMEOUT_MS in
      let eligiblePlayerIds := map Player.id (activePlayers gs) in
      armOfferTimer
        (withState w
           (GameState.set_turnExpiresAt None
           (GameState.set_currentTurnPlayerId None
           (GameState.set_offerResponses ∅
           (GameState.set_offerEligiblePlayerIds eligiblePlayerIds
           (GameState.set_offerExpiresAt (Some expiresAt)
           (GameState.set_currentOffer (Some offer)
           (GameState.set_phase Offer gs))))))))
  end.

Definition setCurrentTurn (w : World) (now : Z) (random : Q) : World :=
  let gs := gameState w in
  if negb (isPhase Playing gs) then w else
  if negb (hasOpenableBoxes gs) then triggerBankerOffer w now random else
  let w := clearTurnTimer w in
  let nextIdx := getNextActivePlayerIndex gs (GameState.currentTurnIndex gs) in
  if nextIdx =? -1 then w else
  match arrayGet (GameState.turnOrder gs) nextIdx with
  | Some playerId =>
      let expiresAt := now + BOX_OPEN_TIMEOUT_MS in
      armTurnTimer playerId
        (withState w
           (GameState.set_turnExpiresAt (Some expiresAt)
           (GameState.set_currentTurnPlayerId (Some playerId)
           (GameState.set_currentTurnIndex nextIdx gs))))
  | None => w (* not taken: [nextIdx] was found inside [turnOrder] *)
  end.

Definition handleTurnTimeout (w : World) (playerId : string) (now : Z)
    (random : Q) : World :=
  let gs := gameState w in
  if negb (isPhase Playing gs) then w else
  match GameState.currentTurnPlayerId gs with
  | None => w
  | Some current =>
      if negb (current =? playerId)%string then w else
      let gs :=
        updatePlayer gs playerId
          (fun p => Player.set_timeoutCount (Player.timeoutCount p + 1) p) in
      let w := withState w gs in
      let nextIdx :=
        getNextActivePlayerIndex gs (GameState.currentTurnIndex gs + 1) in
      if nextIdx =? -1 then
        let boxesToOpen := getBoxesToOpenForRound (GameState.currentRound gs) in
        if Z.of_nat (length (GameState.boxesOpenedThisRound gs)) >=? boxesToOpen
        then triggerBankerOffer w now random
        else w
      else
        setCurrentTurn
          (withState w (GameState.set_currentTurnIndex nextIdx gs)) now random
  end.

Definition startNewRound (w : World) (now : Z) (random : Q) : World :=
  let w := clearOfferTimer (clearTurnTimer w) in
  let gs := gameState w in
  match getLastActivePlayer gs with
  | Some lastPlayer => finishLastPlayer w lastPlayer now
  | None =>
      let newRound := GameState.currentRound gs + 1 in
      setCurrentTurn
        (withState w
           (GameState.set_turnExpiresAt None
           (GameState.set_currentTurnPlayerId None
           (GameState.set_offerResponses ∅
           (GameState.set_offerEligiblePlayerIds []
           (GameState.set_offerExpiresAt None
           (GameState.set_currentOffer None
           (GameState.set_phase Playing
           (GameState.set_boxesOpenedThisRound []
           (GameState.set_currentRound newRound gs))))))))))
        now random
  end.

Definition endOfferAndContinue (w : World) (now : Z) (random : Q) : World :=
  let w := clearOfferTimer w in
  let gs := gameState w in
  if checkGameEnd gs then finishGame w now else
  match getLastActivePlayer gs with
  | Some lastPlayer => finishLastPlayer w lastPlayer now
  | None => startNewRound w now random
  end.

(** One iteration of the [forEach] of [handleOfferTimeout]. *)
Definition defaultNoDeal (gs : GameState) (playerId : string) : GameState :=
  match GameState.offerResponses gs !! playerId with
  | None =>
      updatePlayer
        (GameState.set_offerResponses
           (<[playerId := false]> (GameState.offerResponses gs)) gs)
        playerId
        (fun p => Player.set_timeoutCount (Player.timeoutCount p + 1) p)
  | Some _ => gs
  end.

Definition applyOfferTimeout (gs : GameState) : GameState :=
  fold_left defaultNoDeal (GameState.offerEligiblePlayerIds gs) gs.

Definition handleOfferTimeout (w : World) (now : Z) (random : Q) : World :=
  if negb (isPhase Offer (gameState w)) then w else
  endOfferAndContinue (withState w (applyOfferTimeout (gameState w))) now random.

(** ** The socket handlers file: event handlers

    Every handler is given the player id that [getPlayerIdFromSocket]
    resolved for the sending socket; an event from a socket that resolves
    to no player of the room is dropped before any of this code runs. *)

(** [join-room] *)
Definition on_join_room (w : World) (playerId socketId playerName : string)
    (password : option string) (asSpectator : bool) : World :=
  if isEmptyString (trim playerName) then w else
  match joinRoom (gameState w) playerId socketId (trim playerName)
          password asSpectator with
  | inl _ => w
  | inr gs => withState w gs
  end.

(** [reconnect-player] *)
Definition on_reconnect_player (w : World) (playerId socketId : string) : World :=
  withState w (reconnectPlayer (gameState w) playerId socketId).

(** [disconnect] *)
Definition on_disconnect (w : World) (playerId : string) : World :=
  withState w (handleDisconnect (gameState w) playerId).

(** [select-box] *)
Definition on_select_box (w : World) (playerId : string) (boxNumber : Z) : World :=
  let gs := gameState w in
  match getPlayer gs playerId with
  | None => w
  | Some player =>
      if negb (isRolePlayer player) then w else
      if negb (isPhase Waiting gs) && negb (isPhase Selection gs) then w else
      if Player.isReady player then w else
      if (boxNumber <? 1) || (boxNumber >? Z.of_nat (length (GameState.boxes gs)))
      then w else
      let boxTaken :=
        existsb (fun p => boxNumberIs boxNumber p && negb (hasId playerId p))
          (GameState.players gs) in
      if boxTaken then w else
      withState w (updatePlayer gs playerId (Player.set_boxNumber (Some boxNumber)))
  end.

(** [!player.boxNumber] *)
Definition boxNumberFalsy (p : Player) : bool :=
  match Player.boxNumber p with
  | Some n => n =? 0
  | None => true
  end.

(** [player-ready] *)
Definition on_player_ready (w : World) (playerId : string) : World :=
  let gs := gameState w in
  match getPlayer gs playerId with
  | None => w
  | Some player =>
      if boxNumberFalsy player || negb (isRolePlayer player) then w else
      withState w (updatePlayer gs playerId (Player.set_isReady true))
  end.

(** The [forEach] of [start-game] that copies each contestant's box value. *)
Definition assignBoxValues (gs : GameState) : GameState :=
  GameState.set_players
    (map (fun player =>
            if hasBoxNumber player && isRolePlayer player then
              match findBox gs (Player.boxNumber player) with
              | Some box => Player.set_boxValue (Some (Box.value box)) player
              | None => player
              end
            else player)
       (GameState.players gs)) gs.

(** [start-game]; [random0] is the draw that picks the first player. *)
Definition on_start_game (w : World) (playerId : string) (random0 : Q)
    (now : Z) (random : Q) : World :=
  let gs := gameState w in
  if negb (GameState.hostId gs =? playerId)%string then w else
  if negb (allPlayersReady gs) then w else
  let activePlayers := List.filter isContestant (GameState.players gs) in
  let turnOrder := map Player.id activePlayers in
  let startIndex := Qfloor (random0 * inject_Z (Z.of_nat (length turnOrder))) in
  let gs := assignBoxValues gs in
  setCurrentTurn
    (withState w
       (GameState.set_offerResponses ∅
       (GameState.set_offerEligiblePlayerIds []
       (GameState.set_currentTurnIndex startIndex
       (GameState.set_turnOrder turnOrder
       (GameState.set_startedAt (Some now)
       (GameState.set_currentRound 1
       (GameState.set_phase Playing gs))))))))
    now random.

(** [set-room-password] *)
Definition on_set_room_password (w : World) (playerId : string)
    (password : option string) : World :=
  let gs := gameState w in
  if negb (GameState.hostId gs =? playerId)%string then w else
  if negb (isPhase Waiting gs) then w else
  let raw := match password with Some s => trim s | None => EmptyString end in
  let password := if isEmptyString raw then None else Some (slice0 64 raw) in
  withState w (setRoomPassword gs password).

(** [room.gameState.currentTurnPlayerId !== playerId] *)
Definition isCurrentTurn (gs : GameState) (playerId : string) : bool :=
  match GameState.currentTurnPlayerId gs with
  | Some current => (current =? playerId)%string
  | None => false
  end.

(** [open-box] *)
Definition on_open_box (w : World) (playerId : string) (boxNumber : Z)
    (now : Z) (random : Q) : World :=
  let gs := gameState w in
  if negb (isPhase Playing gs) then w else
  if negb (isCurrentTurn gs playerId) then w else
  match getPlayer gs playerId with
  | None => w
  | Some player =>
      if Player.hasDealt player || negb (isRolePlayer player) then w else
      let boxesToOpenForThisRound :=
        getBoxesToOpenForRound (GameState.currentRound gs) in
      if Z.of_nat (length (GameState.boxesOpenedThisRound gs))
         >=? boxesToOpenForThisRound
      then w else
      match findBox gs (Some boxNumber) with
      | None => w
      | Some box =>
          if Box.isOpened box then w else
          if existsb (boxNumberIs boxNumber) (GameState.players gs) then w else
          let w := clearTurnTimer w in
          let gs := markBoxOpened boxNumber playerId gs in
          let gs := eliminateValue (Box.value box) gs in
          let gs :=
            GameState.set_boxesOpenedThisRound
              (GameState.boxesOpenedThisRound gs ++ [boxNumber]) gs in
          let boxesToOpen := boxesToOpenForThisRound in
          let roundComplete :=
            (Z.of_nat (length (GameState.boxesOpenedThisRound gs)) >=? boxesToOpen)
            || negb (hasOpenableBoxes gs) in
          if roundComplete then
            let nextStartIdx :=
              getNextActivePlayerIndex gs (GameState.currentTurnIndex gs + 1) in
            scheduleOfferDelay
              (withState w
                 (GameState.set_turnExpiresAt None
                 (GameState.set_currentTurnPlayerId None
                 (GameState.set_currentTurnIndex
                    (if negb (nextStartIdx =? -1) then nextStartIdx
                     else GameState.currentTurnIndex gs) gs))))
          else
            let nextIdx :=
              getNextActivePlayerIndex gs (GameState.currentTurnIndex gs + 1) in
            if negb (nextIdx =? -1) then
              setCurrentTurn
                (withState w (GameState.set_currentTurnIndex nextIdx gs))
                now random
            else withState w gs
      end
  end.

(** [open-boxes] (legacy): the same state changes as [open-box] on the
    first box of the payload; the two handlers differ only in the moment
    of the broadcast. *)
Definition on_open_boxes (w : World) (playerId : string) (boxNumbers : list Z)
    (now : Z) (random : Q) : World :=
  match boxNumbers with
  | [] => w
  | boxNumber :: _ => on_open_box w playerId boxNumber now random
  end.

(** The block "Remove from turn order" of [deal-response]. *)
Definition removeFromTurnOrder (playerId : string) (gs : GameState)
    : GameState :=
  let turnIdx := indexOf (String.eqb playerId) (GameState.turnOrder gs) in
  if turnIdx >? -1 then
    let gs :=
      GameState.set_turnOrder
        (removeFirst (String.eqb playerId) (GameState.turnOrder gs)) gs in
    if turnIdx <? GameState.currentTurnIndex gs then
      GameState.set_currentTurnIndex
        (Z.max 0 (GameState.currentTurnIndex gs - 1)) gs
    else gs
  else gs.

(** The body of the [if (payload.accepted && currentOffer !== null)]
    branch of [deal-response]. *)
Definition acceptDeal (gs : GameState) (player : Player) (offer : number Q)
    : GameState :=
  let playerId := Player.id player in
  let points :=
    match offer with
    | Fin q =>
        Fin (calculatePoints q (valueOrZero (Player.boxValue player))
               (GameState.currentRound gs) false false
               (Player.timeoutCount player))
    | NaN => NaN
    end in
  let gs :=
    updatePlayer gs playerId
      (fun p =>
         Player.set_points points
         (Player.set_isLastStanding false
         (Player.set_roundDealt (Some (GameState.currentRound gs))
         (Player.set_dealAmount (Some offer)
         (Player.set_hasDealt true p))))) in
  let gs :=
    match findBox gs (Player.boxNumber player) with
    | Some box =>
        if negb (Box.isOpened box) then
          eliminateValue (Box.value box)
            (markBoxOpened (Box.number box) playerId gs)
        else gs
    | None => gs
    end in
  removeFromTurnOrder playerId gs.

(** The state that [deal-response] broadcasts once the guards have passed:
    the response is recorded and, on acceptance, the deal is settled. *)
Definition recordDealResponse (gs : GameState) (player : Player)
    (accepted : bool) : GameState :=
  let gs :=
    GameState.set_offerResponses
      (<[Player.id player := accepted]> (GameState.offerResponses gs)) gs in
  match accepted, GameState.currentOffer gs with
  | true, Some offer => acceptDeal gs player offer
  | _, _ => gs
  end.

Definition allResponded (gs : GameState) : bool :=
  forallb (fun pid => bool_decide (is_Some (GameState.offerResponses gs !! pid)))
    (GameState.offerEligiblePlayerIds gs).

(** [deal-response] *)
Definition on_deal_response (w : World) (playerId : string) (accepted : bool)
    (now : Z) (random : Q) : World :=
  let gs := gameState w in
  if negb (isPhase Offer gs) then w else
  match getPlayer gs playerId with
  | None => w
  | Some player =>
      if Player.hasDealt player || negb (isRolePlayer player) then w else
      if bool_decide (is_Some (GameState.offerResponses gs !! playerId)) then w else
      if negb (existsb (String.eqb playerId) (GameState.offerEligiblePlayerIds gs))
      then w else
      let gs := recordDealResponse gs player accepted in
      if allResponded gs then endOfferAndContinue (withState w gs) now random
      else withState w gs
  end.

(** ** Events and reachable states *)

Inductive Event : Type :=
  | JoinRoom (playerId socketId playerName : string)
             (password : option string) (asSpectator : bool)
  | ReconnectPlayer (playerId socketId : string)
  | Disconnect (playerId : string)
  | SelectBox (playerId : string) (boxNumber : Z)
  | PlayerReady (playerId : string)
  | StartGame (playerId : string) (random0 : Q)
  | SetRoomPassword (playerId : string) (password : option string)
  | OpenBox (playerId : string) (boxNumber : Z)
  | OpenBoxes (playerId : string) (boxNumbers : list Z)
  | DealResponse (playerId : string) (accepted : bool)
  | TurnTimerFires
  | OfferTimerFires
  | OfferDelayElapses.

(** One event handled at time [now]; [random] is the draw that the banker
    takes if the event leads to an offer. *)
Definition step (w : World) (now : Z) (random : Q) (ev : Event) : World :=
  match ev with
  | JoinRoom playerId socketId playerName password asSpectator =>
      on_join_room w playerId socketId playerName password asSpectator
  | ReconnectPlayer playerId socketId => on_reconnect_player w playerId socketId
  | Disconnect playerId => on_disconnect w playerId
  | SelectBox playerId boxNumber => on_select_box w playerId boxNumber
  | PlayerReady playerId => on_player_ready w playerId
  | StartGame playerId random0 => on_start_game w playerId random0 now random
  | SetRoomPassword playerId password => on_set_room_password w playerId password
  | OpenBox playerId boxNumber => on_open_box w playerId boxNumber now random
  | OpenBoxes playerId boxNumbers => on_open_boxes w playerId boxNumbers now random
  | DealResponse playerId accepted =>
      on_deal_response w playerId accepted now random
  | TurnTimerFires =>
      match turnTimer w with
      | Some playerId => handleTurnTimeout (clearTurnTimer w) playerId now random
      | None => w
      end
  | OfferTimerFires =>
      if offerTimer w then handleOfferTimeout (clearOfferTimer w) now random
      else w
  | OfferDelayElapses =>
      match offerDelays w with
      | S n =>
          triggerBankerOffer
            (mkWorld (gameState w) (turnTimer w) (offerTimer w) n) now random
      | O => w
      end
  end.

(** A draw of [Math.random()] lies in [0, 1). *)
Definition unitDraw (u : Q) : Prop := (0 <= u < 1)%Q.

(** What the environment may deliver: generated player ids are fresh and
    random draws lie in [0, 1). *)
Definition admissible (w : World) (random : Q) (ev : Event) : Prop :=
  unitDraw random /\
  match ev with
  | JoinRoom playerId _ _ _ _ =>
      getPlayer (gameState w) playerId = None
  | StartGame _ random0 => unitDraw random0
  | _ => True
  end.

Inductive reachable : World -> Prop :=
  | reach_create roomCode playerId random now hostSocketId hostName :
      (forall k, unitDraw (random k)) ->
      reachable (createRoom roomCode playerId random now hostSocketId hostName)
  | reach_step w now random ev :
      reachable w -> admissible w random ev ->
      reachable (step w now random ev).

(** ** Well-formed room states *)

Definition inLobby (gs : GameState) : Prop :=
  GameState.phase gs = Waiting \/ GameState.phase gs = Selection.

Definition boxesClosed (gs : GameState) : Prop :=
  Forall (fun b => Box.isOpened b = false) (GameState.boxes gs).

(** The two halves of the value invariant of the specification. *)
Definition partitioned (gs : GameState) : Prop :=
  Permutation
    (GameState.remainingValues gs ++ GameState.eliminatedValues gs) BOX_VALUES
  /\ Permutation (GameState.eliminatedValues gs)
       (map Box.value (List.filter Box.isOpened (GameState.boxes gs))).

Record wellFormed (gs : GameState) : Prop := mkWellFormed {
  wf_box_numbers :
    map Box.number (GameState.boxes gs)
    = map Z.of_nat (seq 1 (length BOX_VALUES));
  wf_box_values :
    Permutation (map Box.value (GameState.boxes gs)) BOX_VALUES;
  wf_partitioned : partitioned gs;
  wf_player_ids : List.NoDup (map Player.id (GameState.players gs));
  wf_box_owner : forall p n,
    In p (GameState.players gs) -> Player.boxNumber p = Some n ->
    1 <= n <= 20 /\ Player.role p = RolePlayer;
  wf_box_unique : forall p q n,
    In p (GameState.players gs) -> In q (GameState.players gs) ->
    Player.boxNumber p = Some n -> Player.boxNumber q = Some n ->
    Player.id p = Player.id q;
  wf_personal_closed : forall p n b,
    In p (GameState.players gs) -> isActivePlayer p = true ->
    Player.boxNumber p = Some n ->
    In b (GameState.boxes gs) -> Box.number b = n ->
    Box.isOpened b = false;
  wf_lobby : inLobby gs -> boxesClosed gs;
  wf_eligible : forall pid,
    In pid (GameState.offerEligiblePlayerIds gs) ->
    exists p, getPlayer gs pid = Some p /\ isContestant p = true
}.

(** What an update of a player object may change without disturbing
    well-formedness: anything but the id, the role and the box number,
    and [hasDealt] only from false to true. *)
Definition sameSeat (p p' : Player) : Prop :=
  Player.id p' = Player.id p
  /\ Player.role p' = Player.role p
  /\ Player.boxNumber p' = Player.boxNumber p
  /\ (Player.hasDealt p = true -> Player.hasDealt p' = true).

(** ** Vocabulary of the statements *)

(** [playerId] is eligible for the current offer and has no recorded
    response. *)
Definition unanswered (gs : GameState) (playerId : string) : bool :=
  existsb (String.eqb playerId) (GameState.offerEligiblePlayerIds gs)
  && negb (bool_decide (is_Some (GameState.offerResponses gs !! playerId))).

(** The outcome of the last-standing reveal for player [p] of [gs]: the
    game is finished, [p] is settled with the value of the own box and
    the own box is opened, with [p] as opener. *)
Definition lastStandingSettled (gs : GameState) (p : Player) (gs' : GameState)
    : Prop :=
  GameState.phase gs' = Finished
  /\ exists p' n box,
       getPlayer gs' (Player.id p) = Some p'
       /\ Player.hasDealt p' = true
       /\ Player.dealAmount p' = option_map Fin (Player.boxValue p)
       /\ Player.isLastStanding p' = true
       /\ Player.roundDealt p' = Some (GameState.currentRound gs)
       /\ Player.boxNumber p = Some n
       /\ findBox gs' (Some n) = Some box
       /\ Box.isOpened box = true
       /\ Box.openedByPlayerId box = Some (Player.id p).

(** A decision procedure for [admissible], to replay sample games. *)
Definition unitDrawb (u : Q) : bool := Qle_bool 0 u && negb (Qle_bool 1 u).

Definition admissibleb (w : World) (random : Q) (ev : Event) : bool :=
  unitDrawb random &&
  match ev with
  | JoinRoom playerId _ _ _ _ =>
      match getPlayer (gameState w) playerId with
      | None => true
      | Some _ => false
      end
  | StartGame _ random0 => unitDrawb random0
  | _ => true
  end.

Fixpoint replayable (w : World) (evs : list Event) : bool :=
  match evs with
  | [] => true
  | ev :: evs' =>
      admissibleb w 0.5%Q ev && replayable (step w 1000 0.5%Q ev) evs'
  end.

(** ** A sample game, used to exercise the statements on concrete states *)

Definition run (w : World) (evs : list Event) : World :=
  fold_left (fun w ev => step w 1000 0.5%Q ev) evs w.

(** A room with host [H]. *)
Definition sample_created : World :=
  createRoom "ROOM22" "H" (fun _ => 0.5%Q) 0 "sockH" "Host".

(** [J] and [K] have joined, the three have picked boxes 1, 20 and 10,
    and the host has started the game: it is [H]'s turn. *)
Definition sample_started : World :=
  run sample_created
    [ JoinRoom "J" "sockJ" "Joe" None false;
      JoinRoom "K" "sockK" "Kim" None false;
      SelectBox "H" 1; SelectBox "J" 20; SelectBox "K" 10;
      PlayerReady "H"; PlayerReady "J"; PlayerReady "K";
      StartGame "H" 0%Q ].

(** Five boxes have been opened: the quota of round 1 is met and the
    pause before the banker's offer is running. *)
Definition sample_round_done : World :=
  run sample_started
    [ OpenBox "H" 2; OpenBox "J" 3; OpenBox "K" 4; OpenBox "H" 5;
      OpenBox "J" 6 ].

(** The host sends start-game again during the pause: a turn is armed
    although the quota of the round is already met. *)
Definition sample_quota_met_turn : World :=
  run sample_round_done [ StartGame "H" 0%Q ].

(** The banker's first offer is on the table. *)
Definition sample_offer : World :=
  run sample_round_done [ OfferDelayElapses ].

(** [H] has rejected, [J] has accepted, [K] has not answered yet. *)
Definition sample_offer_two_answers : World :=
  run sample_offer [ DealResponse "H" false; DealResponse "J" true ].

(** [J] and [K] have accepted, [H] has not answered yet. *)
Definition sample_offer_one_left : World :=
  run sample_offer [ DealResponse "J" true; DealResponse "K" true ].

(** Player [H] in [sample_offer_one_left] once the offer deadline has
    counted the missing answer as a timeout. *)
Definition sample_last_standing : Player :=
  Player.mk "H" "sockH" "Host" true true RolePlayer (Some 1) false None
    (Some 0.01%Q) None false (Fin 0) 1 true.

(** Player [K] in [sample_offer]. *)
Definition sample_player_K : Player :=
  Player.mk "K" "sockK" "Kim" false true RolePlayer (Some 10) false None
    (Some 250000%Q) None false (Fin 0) 0 true.

(** Player [J] in [sample_offer]. *)
Definition sample_player_J : Player :=
  Player.mk "J" "sockJ" "Joe" false true RolePlayer (Some 20) false None
    (Some 3000%Q) None false (Fin 0) 0 true.

(* ================================================================== *)
(** * The rest of the store and of the scoring code *)
(* ================================================================== *)

(** ** game/banker.ts: fair value *)

Definition calculateFairValue (remainingValues : list Q) : Double.t :=
  match remainingValues with
  | [] => Double.Fin 0
  | _ =>
      let sum :=
        fold_left (fun acc val => Double.add acc (Double.round val))
          remainingValues (Double.Fin 0) in
      Double.div sum
        (Double.round (inject_Z (Z.of_nat (length remainingValues))))
  end.

(** [offer >= fairValue * 0.8] *)
Definition isGoodOffer (offer : Double.t) (remainingValues : list Q) : bool :=
  let fairValue := calculateFairValue remainingValues in
  Double.ge offer (Double.mul fairValue (Double.round 0.8)).

(** ** game/points.ts: leaderboard *)

(** [arr.sort(compare)].  The sort of ECMAScript is stable, and for a
    comparator that is a difference of integer keys the result is
    determined: non-decreasing for [compare], elements that compare equal
    in the order of [arr].  Insertion from the right computes it. *)
Fixpoint sortInsert {A} (compare : A -> A -> Z) (x : A) (sorted : list A)
    : list A :=
  match sorted with
  | [] => [x]
  | y :: rest =>
      if compare x y <=? 0 then x :: sorted
      else y :: sortInsert compare x rest
  end.

Definition arraySort {A} (compare : A -> A -> Z) (arr : list A) : list A :=
  fold_right (sortInsert compare) [] arr.

Module PlayerResult.
Record t : Type := mk {
  playerId : string;
  playerName : string;
  finalAmount : Q;
  finalBoxValue : Q;
  roundDealt : Z;
  isLastStanding : bool;
  timeoutCount : Z
}.
End PlayerResult.
Abbreviation PlayerResult := PlayerResult.t.

(** [interface LeaderboardEntry] of game/points.ts. *)
Module LeaderboardEntry.
Record t : Type := mk {
  playerId : string;
  playerName : string;
  amount : Q;
  points : Z;
  rank : Z
}.
Definition set_rank (v : Z) (x : t) : t :=
  mk (playerId x) (playerName x) (amount x) (points x) v.
End LeaderboardEntry.
Abbreviation LeaderboardEntry := LeaderboardEntry.t.

(** [generateLeaderboard(players)]; [Math.max] of no argument is only
    taken when there is no entry to compare it with. *)
Definition generateLeaderboard (players : list PlayerResult)
    : list LeaderboardEntry :=
  let highestWinnings := highestOf (map PlayerResult.finalAmount players) in
  let entries :=
    map (fun player =>
           LeaderboardEntry.mk
             (PlayerResult.playerId player) (PlayerResult.playerName player)
             (PlayerResult.finalAmount player)
             (calculatePoints
                (PlayerResult.finalAmount player)
                (PlayerResult.finalBoxValue player)
                (PlayerResult.roundDealt player)
                (PlayerResult.isLastStanding player)
                (Qeq_bool (PlayerResult.finalAmount player) highestWinnings)
                (PlayerResult.timeoutCount player))
             0)
      players in
  let entries :=
    arraySort
      (fun a b => LeaderboardEntry.points b - LeaderboardEntry.points a)
      entries in
  imap (fun index entry => LeaderboardEntry.set_rank (Z.of_nat index + 1) entry)
    entries.

(** ** The socket handlers file: the leaderboard of one game *)

(** The entries of the [leaderboard-update] and [game-ended] events. *)
Module GameLeaderboardEntry.
Record t : Type := mk {
  playerId : string;
  playerName : string;
  amount : Q;
  points : Z;
  wasBoxValue : bool;
  rank : Z
}.
Definition set_rank (v : Z) (x : t) : t :=
  mk (playerId x) (playerName x) (amount x) (points x) (wasBoxValue x) v.
End GameLeaderboardEntry.
Abbreviation GameLeaderboardEntry := GameLeaderboardEntry.t.

(** [p.points || 0] *)
Definition pointsOrZero (x : number Z) : Z :=
  match x with
  | Fin n => n
  | NaN => 0
  end.

(** The leaderboard that [emitLeaderboardUpdate] and
    [emitLeaderboardSnapshotToSocket] compute from the room; [finishGame]
    computes the same list from the players it has just scored. *)
Definition leaderboardOf (gs : GameState) : list GameLeaderboardEntry :=
  let entries :=
    map (fun p =>
           GameLeaderboardEntry.mk (Player.id p) (Player.name p)
             (amountOrZero (Player.dealAmount p))
             (pointsOrZero (Player.points p))
             (Player.isLastStanding p) 0)
      (List.filter isContestant (GameState.players gs)) in
  let entries :=
    arraySort
      (fun a b => GameLeaderboardEntry.points b - GameLeaderboardEntry.points a)
      entries in
  imap (fun index entry =>
          GameLeaderboardEntry.set_rank (Z.of_nat index + 1) entry)
    entries.

(** ** store/rooms.ts: room codes *)

Definition ROOM_CODE_LENGTH : nat := 6.

Definition roomCodeChars : string := "ABCDEFGHJKLMNPQRSTUVWXYZ23456789".

(** [s.charAt(i)] for an integer [i]: the empty string out of range. *)
Definition charAt (s : string) (i : Z) : string :=
  if i <? 0 then EmptyString else
  match String.get (Z.to_nat i) s with
  | Some c => String c EmptyString
  | None => EmptyString
  end.

(** The loop of [generateRoomCode] with [n] characters to go; call number
    [k] of [Math.random()] returns [random k]. *)
Fixpoint roomCodeLoop (random : nat -> Q) (k : nat) (n : nat) (code : string)
    : string :=
  match n with
  | O => code
  | S n' =>
      let chars := roomCodeChars in
      roomCodeLoop random (S k) n'
        (code ++ charAt chars
                   (Qfloor (random k
                            * inject_Z (Z.of_nat (String.length chars)))))
  end.

(** [generateRoomCode()]: [taken] are the keys of the room store.  The
    function calls itself until the code is free; [fuel] bounds the number
    of attempts and [None] is an unfinished run. *)
Fixpoint generateRoomCode (fuel : nat) (taken : list string)
    (random : nat -> Q) (k : nat) : option string :=
  match fuel with
  | O => None
  | S fuel' =>
      let code := roomCodeLoop random k ROOM_CODE_LENGTH EmptyString in
      if existsb (String.eqb code) taken
      then generateRoomCode fuel' taken random (k + ROOM_CODE_LENGTH)
      else Some code
  end.

(** ** store/rooms.ts: chat history *)

Module ChatMessage.
Record t : Type := mk {
  id : string;
  roomCode : string;
  senderId : string;
  senderName : string;
  content : string;
  timestamp : Z
}.
End ChatMessage.
Abbreviation ChatMessage := ChatMessage.t.

(** [chatMessages.get(roomCode) || []] *)
Definition getChatMessages (chatMessages : gmap string (list ChatMessage))
    (roomCode : string) : list ChatMessage :=
  default [] (chatMessages !! roomCode).

(** [messages.shift()] *)
Definition arrayShift {A} (l : list A) : list A :=
  match l with
  | [] => []
  | _ :: l' => l'
  end.

Definition addChatMessage (chatMessages : gmap string (list ChatMessage))
    (message : ChatMessage) : gmap string (list ChatMessage) :=
  let messages := getChatMessages chatMessages (ChatMessage.roomCode message) in
  let messages := messages ++ [message] in
  let messages :=
    if (100 <? length messages)%nat then arrayShift messages else messages in
  <[ChatMessage.roomCode message := messages]> chatMessages.

(** [chat-message] of a player of room [gs]; [id] is the generated
    message id and [now] the value of [Date.now()]. *)
Definition on_chat_message (chatMessages : gmap string (list ChatMessage))
    (gs : GameState) (playerId : string) (content : string)
    (id : string) (now : Z) : gmap string (list ChatMessage) :=
  match getPlayer gs playerId with
  | None => chatMessages
  | Some player =>
      match Player.role player with
      | RoleSpectator => chatMessages
      | RolePlayer =>
          let message :=
            ChatMessage.mk id (GameState.roomCode gs) playerId
              (Player.name player) (slice0 500 content) now in
          addChatMessage chatMessages message
      end
  end.

(** ** store/rooms.ts: global leaderboard *)

Module GlobalLeaderboardEntry.
Record t : Type := mk {
  playerId : string;
  playerName : string;
  publicId : string;
  totalPoints : Z;
  gamesPlayed : Z
}.
End GlobalLeaderboardEntry.
Abbreviation GlobalLeaderboardEntry := GlobalLeaderboardEntry.t.

Module GlobalLeaderboardEntryPublic.
Record t : Type := mk {
  rank : Z;
  publicId : string;
  playerName : string;
  totalPoints : Z;
  gamesPlayed : Z
}.
End GlobalLeaderboardEntryPublic.
Abbreviation GlobalLeaderboardEntryPublic := GlobalLeaderboardEntryPublic.t.

(** [s.slice(-n)]: the last [n] code units. *)
Definition sliceLast (n : nat) (s : string) : string :=
  string_of_list_ascii
    (drop (String.length s - n) (list_ascii_of_string s)).

Definition hasPlayerId (playerId : string) (e : GlobalLeaderboardEntry) : bool :=
  (GlobalLeaderboardEntry.playerId e =? playerId)%string.

Section UpperCase.

(** [String.prototype.toUpperCase] does not stay within the code units
    below 256 (it maps U+00DF to two letters, U+00B5 and U+00FF to code
    units above 255), so it is a parameter of the functions that call
    it. *)
Variable toUpperCase : string -> string.

(** [updateGlobalLeaderboard]; the map is the list of its entries in
    insertion order, keyed by [playerId]. *)
Definition updateGlobalLeaderboard
    (globalLeaderboard : list GlobalLeaderboardEntry)
    (playerId playerName : string) (pointsEarned : Z)
    : list GlobalLeaderboardEntry :=
  let publicId :=
    (playerName ++ "#" ++ toUpperCase (sliceLast 4 playerId))%string in
  if existsb (hasPlayerId playerId) globalLeaderboard then
    updateFirst (hasPlayerId playerId)
      (fun existing =>
         GlobalLeaderboardEntry.mk
           (GlobalLeaderboardEntry.playerId existing)
           playerName publicId
           (GlobalLeaderboardEntry.totalPoints existing + pointsEarned)
           (GlobalLeaderboardEntry.gamesPlayed existing + 1))
      globalLeaderboard
  else
    globalLeaderboard
    ++ [GlobalLeaderboardEntry.mk playerId playerName publicId pointsEarned 1].

End UpperCase.

Definition getGlobalLeaderboard
    (globalLeaderboard : list GlobalLeaderboardEntry)
    : list GlobalLeaderboardEntryPublic :=
  imap (fun idx entry =>
          GlobalLeaderboardEntryPublic.mk (Z.of_nat idx + 1)
            (GlobalLeaderboardEntry.publicId entry)
            (GlobalLeaderboardEntry.playerName entry)
            (GlobalLeaderboardEntry.totalPoints entry)
            (GlobalLeaderboardEntry.gamesPlayed entry))
    (take 100
       (arraySort
          (fun a b => GlobalLeaderboardEntry.totalPoints b
                      - GlobalLeaderboardEntry.totalPoints a)
          globalLeaderboard)).

(** ** store/rooms.ts: removal of stale rooms *)

(** [parsePositiveInt(raw, fallback)]; [n] is [Number(raw)], [None] when
    that is [NaN] or infinite. *)
Definition parsePositiveInt (n : option Q) (fallback : Z) : Z :=
  match n with
  | Some n => if Qgtb n 0 then Qfloor n else fallback
  | None => fallback
  end.

Module Room.
Record t : Type := mk {
  code : string;
  gameState : GameState
}.
End Room.
Abbreviation Room := Room.t.

(** The maps of the store; [rooms] is the list of the rooms in insertion
    order, keyed by [code]. *)
Record Store : Type := mkStore {
  rooms : list Room;
  playerToRoom : gmap string string;
  socketToPlayer : gmap string string;
  chatMessages : gmap string (list ChatMessage)
}.

Definition hasCode (code : string) (room : Room) : bool :=
  (Room.code room =? code)%string.

(** [rooms.get(code)] *)
Definition roomsGet (rooms : list Room) (code : string) : option Room :=
  List.find (hasCode code) rooms.

(** [rooms.delete(code)] *)
Definition roomsDelete (rooms : list Room) (code : string) : list Room :=
  List.filter (fun room => negb (hasCode code room)) rooms.

(** The three time-to-live settings, read from the environment when the
    module is loaded. *)
Record Ttl : Type := mkTtl {
  ROOM_WAITING_TTL_MS : Z;
  ROOM_SELECTION_TTL_MS : Z;
  ROOM_FINISHED_TTL_MS : Z
}.

(** The settings when the three environment variables convert to
    [waiting], [selection] and [finished]. *)
Definition ttlOfEnv (waiting selection finished : option Q) : Ttl :=
  mkTtl (parsePositiveInt waiting (12 * 60 * 60 * 1000))
        (parsePositiveInt selection (12 * 60 * 60 * 1000))
        (parsePositiveInt finished (2 * 60 * 60 * 1000)).

(** [x || y] on a time stamp. *)
Definition timeOr (x : option Z) (y : Z) : Z :=
  match x with
  | Some t => if t =? 0 then y else t
  | None => y
  end.

(** The test that [cleanupRooms] applies to one room. *)
Definition isStale (ttl : Ttl) (now : Z) (gs : GameState) : bool :=
  match GameState.phase gs with
  | Finished =>
      let finishedAge :=
        match GameState.finishedAt gs with
        | Some finishedAt =>
            if finishedAt =? 0
            then now - timeOr (GameState.startedAt gs) (GameState.createdAt gs)
            else now - finishedAt
        | None =>
            now - timeOr (GameState.startedAt gs) (GameState.createdAt gs)
        end in
      finishedAge >? ROOM_FINISHED_TTL_MS ttl
  | Waiting => now - GameState.createdAt gs >? ROOM_WAITING_TTL_MS ttl
  | Selection => now - GameState.createdAt gs >? ROOM_SELECTION_TTL_MS ttl
  | Playing | Offer => false
  end.

Section StoreUpperCase.
Variable toUpperCase : string -> string.

Definition deleteRoom (st : Store) (roomCode : string) : Store * bool :=
  let code := toUpperCase roomCode in
  match roomsGet (rooms st) code with
  | None => (st, false)
  | Some room =>
      let players := GameState.players (Room.gameState room) in
      (mkStore
         (roomsDelete (rooms st) code)
         (fold_left (fun m p => delete (Player.id p) m) players
            (playerToRoom st))
         (fold_left (fun m p => delete (Player.socketId p) m) players
            (socketToPlayer st))
         (delete code (chatMessages st)),
       true)
  end.

(** The loop of [cleanupRooms] over the entries of [rooms]; an entry that
    has been deleted before the iterator reaches it is not visited. *)
Fixpoint cleanupLoop (ttl : Ttl) (now : Z) (pending : list Room)
    (st : Store) (removedRooms : Z) : Store * Z :=
  match pending with
  | [] => (st, removedRooms)
  | room :: pending' =>
      if negb (existsb (hasCode (Room.code room)) (rooms st))
      then cleanupLoop ttl now pending' st removedRooms
      else if isStale ttl now (Room.gameState room) then
        let '(st', deleted) := deleteRoom st (Room.code room) in
        cleanupLoop ttl now pending' st'
          (if deleted then removedRooms + 1 else removedRooms)
      else cleanupLoop ttl now pending' st removedRooms
  end.

Definition cleanupRooms (ttl : Ttl) (st : Store) (now : Z) : Store * Z :=
  cleanupLoop ttl now (rooms st) st 0.

End StoreUpperCase.

(** ** Vocabulary of the further statements *)

(** The entry at index [idx] of the turn order is a seated player who
    has not dealt. *)
Definition activeTurn (gs : GameState) (idx : Z) : Prop :=
  exists playerId player,
    arrayGet (GameState.turnOrder gs) idx = Some playerId
    /\ getPlayer gs playerId = Some player
    /\ Player.hasDealt player = false
    /\ Player.role player = RolePlayer.

(** [l] is in descending order of [key]. *)
Definition descending {A} (key : A -> Z) (l : list A) : Prop :=
  forall (i j : nat) (x y : A),
    (i <= j)%nat -> l !! i = Some x -> l !! j = Some y -> key y <= key x.

(** The elements of [l] at position [i] carry the rank [i + 1]. *)
Definition ranked {A} (rank : A -> Z) (l : list A) : Prop :=
  forall (i : nat) (x : A), l !! i = Some x -> rank x = Z.of_nat i + 1.

(** ** Further sample states *)

(** Player [K] once [sample_offer_one_left] has been scored. *)
Definition sample_scored_K : Player :=
  Player.mk "K" "sockK" "Kim" false true RolePlayer (Some 10) true
    (Some (Fin 21960%Q)) (Some 250000%Q) (Some 1) false (Fin 369) 0 true.

(** The three contestants have accepted the first offer: the game is
    over. *)
Definition sample_finished : World :=
  run sample_offer
    [ DealResponse "H" true; DealResponse "J" true; DealResponse "K" true ].

(** The last [n] elements of [l]. *)
Definition lastN {A} (n : nat) (l : list A) : list A :=
  drop (length l - n) l.

(** A reported game result: player id, player name, points earned. *)
Definition Report : Type := string * string * Z.

Definition reportUpdate (toUpperCase : string -> string)
    (board : list GlobalLeaderboardEntry) (r : Report)
    : list GlobalLeaderboardEntry :=
  updateGlobalLeaderboard toUpperCase board (fst (fst r)) (snd (fst r)) (snd r).

(** The points of the reports that concern [playerId], in order. *)
Definition reportedPoints (playerId : string) (reports : list Report) : list Z :=
  map snd (List.filter (fun r => (fst (fst r) =? playerId)%string) reports).

Definition sumZ (l : list Z) : Z := fold_right Z.add 0 l.

(** What a public entry of the global leaderboard shows of an entry. *)
Definition publicView (e : GlobalLeaderboardEntry)
    : string * string * Z * Z :=
  (GlobalLeaderboardEntry.publicId e, GlobalLeaderboardEntry.playerName e,
   GlobalLeaderboardEntry.totalPoints e, GlobalLeaderboardEntry.gamesPlayed e).

Definition shownView (e : GlobalLeaderboardEntryPublic)
    : string * string * Z * Z :=
  (GlobalLeaderboardEntryPublic.publicId e,
   GlobalLeaderboardEntryPublic.playerName e,
   GlobalLeaderboardEntryPublic.totalPoints e,
   GlobalLeaderboardEntryPublic.gamesPlayed e).

(** No room keeps more than 100 chat messages. *)
Definition chatBounded (chatMessages : gmap string (list ChatMessage)) : Prop :=
  forall code, (length (getChatMessages chatMessages code) <= 100)%nat.

(** Attempt number [j] of [generateRoomCode] when the first call of
    [Math.random()] is call number [k]. *)
Definition roomCodeAttempt (random : nat -> Q) (k j : nat) : string :=
  roomCodeLoop random (k + j * ROOM_CODE_LENGTH) ROOM_CODE_LENGTH EmptyString.

(** The room is one that [cleanupRooms] leaves alone whatever its age. *)
Definition inPlay (room : Room) : Prop :=
  GameState.phase (Room.gameState room) = Playing
  \/ GameState.phase (Room.gameState room) = Offer.

(** The keys of the room map are distinct and in upper case. *)
Definition roomKeysOk (toUpperCase : string -> string) (st : Store) : Prop :=
  List.NoDup (map Room.code (rooms st))
  /\ Forall (fun room => toUpperCase (Room.code room) = Room.code room)
       (rooms st).

(** A store with a stale waiting room and a game in progress. *)
Definition sample_store : Store :=
  mkStore
    [ Room.mk "ROOM22" (gameState sample_started);
      Room.mk "ROOM33"
        (gameState (createRoom "ROOM33" "A" (fun _ => 0.5%Q) 0 "sockA" "Ann")) ]
    (<["A" := "ROOM33"]> (<["H" := "ROOM22"]> ∅))
    (<["sockA" := "A"]> (<["sockH" := "H"]> ∅))
    ∅.

(** ** Invariants of the reachable states *)

(** The game has left the lobby: the round counter has been started. *)
Definition running (gs : GameState) : Prop :=
  GameState.phase gs <> Waiting /\ GameState.phase gs <> Selection
  /\ 1 <= GameState.currentRound gs.

(** Values the banker computes on without overflow or underflow: a
    JavaScript array of amounts. *)
Definition bankable (values : list Q) : Prop :=
  Forall amount values /\ Z.of_nat (length values) < 2 ^ 32.

(** A finite banker's offer that is not negative. *)
Definition soundOffer (offer : option (number Q)) : Prop :=
  exists q, offer = Some (Fin q) /\ (0 <= q)%Q.

(** Phase, round and offer agree: the lobby has round 0 and no pending
    pause, every later phase has a round from 1 on, and in the offer
    phase a sound offer is on the table with its deadline pending. *)
Record phaseOk (w : World) : Prop := mkPhaseOk {
  ph_never_selection : GameState.phase (gameState w) <> Selection;
  ph_waiting :
    GameState.phase (gameState w) = Waiting ->
    offerDelays w = 0%nat /\ GameState.currentRound (gameState w) = 0;
  ph_round :
    GameState.phase (gameState w) <> Waiting ->
    1 <= GameState.currentRound (gameState w);
  ph_offer :
    GameState.phase (gameState w) = Offer ->
    offerTimer w = true
    /\ soundOffer (GameState.currentOffer (gameState w))
    /\ exists t, GameState.offerExpiresAt (gameState w) = Some t
}.

(** What an event may change of a player: never the id, the name, the
    role or the host flag; a player who has dealt stays so, a player with
    a box keeps one, and the timeout count does not go down. *)
Definition grows (p p' : Player) : Prop :=
  Player.id p' = Player.id p
  /\ Player.name p' = Player.name p
  /\ Player.role p' = Player.role p
  /\ Player.isHost p' = Player.isHost p
  /\ (Player.hasDealt p = true -> Player.hasDealt p' = true)
  /\ Player.timeoutCount p <= Player.timeoutCount p'
  /\ (hasBoxNumber p = true -> hasBoxNumber p' = true).

(** [grows], for an event that settles nobody. *)
Definition steady (p p' : Player) : Prop :=
  grows p p' /\ Player.hasDealt p' = Player.hasDealt p.

(** The players of [gs'] are those of [gs], each one grown, followed by
    at most one new player. *)
Definition playersGrow (gs gs' : GameState) : Prop :=
  exists kept joined,
    GameState.players gs' = kept ++ joined
    /\ Forall2 grows (GameState.players gs) kept
    /\ (length joined <= 1)%nat.

Definition seatedPlayers (gs : GameState) : list Player :=
  List.filter isRolePlayer (GameState.players gs).

(** The turn index is not negative and every entry of the turn order is
    a contestant of the room. *)
Definition orderOk (gs : GameState) : Prop :=
  0 <= GameState.currentTurnIndex gs
  /\ forall pid, In pid (GameState.turnOrder gs) ->
       exists p, getPlayer gs pid = Some p /\ isContestant p = true.

(** Player [pid] may take a turn: the game is in the playing phase and
    [pid] is an entry of the turn order and a contestant who has not
    dealt. *)
Definition mayPlay (gs : GameState) (pid : string) : Prop :=
  GameState.phase gs = Playing
  /\ In pid (GameState.turnOrder gs)
  /\ exists p, getPlayer gs pid = Some p /\ isActivePlayer p = true.

(** The turn and its timer agree: a turn timeout is pending exactly for
    the player whose turn it is, and that player may play. *)
Record turnOk (w : World) : Prop := mkTurnOk {
  tn_timer : turnTimer w = GameState.currentTurnPlayerId (gameState w);
  tn_order : orderOk (gameState w);
  tn_holder : forall pid,
    GameState.currentTurnPlayerId (gameState w) = Some pid ->
    mayPlay (gameState w) pid
}.

(** Every player of [gs] is found in [gs'] under the same id, related by
    [R]. *)
Definition playersKept (R : Player -> Player -> Prop) (gs gs' : GameState)
    : Prop :=
  forall pid p,
    getPlayer gs pid = Some p ->
    exists p', getPlayer gs' pid = Some p' /\ R p p'.

(** Box number [n] hides the value [v]. *)
Definition boxHolds (gs : GameState) (n : Z) (v : Q) : Prop :=
  In (n, v)
    (map (fun b => (Box.number b, Box.value b)) (GameState.boxes gs)).

(** What no event but a box selection or the start of the game changes
    of a player. *)
Definition settled (p p' : Player) : Prop :=
  Player.id p' = Player.id p
  /\ Player.role p' = Player.role p
  /\ Player.boxNumber p' = Player.boxNumber p
  /\ Player.boxValue p' = Player.boxValue p
  /\ (Player.isReady p = true -> Player.isReady p' = true).

(** The box value recorded for a player is the value hidden in the
    player's box; it is recorded from the start of the game on, for every
    seated player, who is then ready and owns a box. *)
Definition seatOk (gs : GameState) (p : Player) : Prop :=
  (forall v, Player.boxValue p = Some v ->
     exists n, Player.boxNumber p = Some n /\ boxHolds gs n v)
  /\ (GameState.phase gs = Waiting -> Player.boxValue p = None)
  /\ (GameState.phase gs <> Waiting -> isRolePlayer p = true ->
      Player.isReady p = true
      /\ exists n v, Player.boxNumber p = Some n /\ Player.boxValue p = Some v).

Definition seatsOk (gs : GameState) : Prop :=
  Forall (seatOk gs) (GameState.players gs)
  /\ (GameState.phase gs <> Waiting ->
      MIN_PLAYERS_TO_START <= Z.of_nat (length (seatedPlayers gs))).

(** The boxes keep their numbers and values, and a game that has left
    the waiting phase does not return to it. *)
Definition engineKept (gs gs' : GameState) : Prop :=
  map (fun b => (Box.number b, Box.value b)) (GameState.boxes gs')
  = map (fun b => (Box.number b, Box.value b)) (GameState.boxes gs)
  /\ (GameState.phase gs <> Waiting -> GameState.phase gs' <> Waiting).

(** The numbers of a player record are proper ones: the points are a
    non-negative integer, a deal amount is a non-negative amount, and a
    seated player has a deal amount exactly when the player has dealt. *)
Definition scoreOk (p : Player) : Prop :=
  (exists n, Player.points p = Fin n /\ 0 <= n)
  /\ (Player.dealAmount p = None \/ soundOffer (Player.dealAmount p))
  /\ (Player.dealAmount p <> None -> Player.hasDealt p = true)
  /\ (isRolePlayer p = true -> Player.hasDealt p = true ->
      Player.dealAmount p <> None).

Definition scoresOk (gs : GameState) : Prop :=
  Forall scoreOk (GameState.players gs).

(** Every seated player carries a box value that is not negative. *)
Definition valued (gs : GameState) : Prop :=
  Forall (fun p => isRolePlayer p = true ->
                   exists v, Player.boxValue p = Some v /\ (0 <= v)%Q)
    (GameState.players gs).

(** What the lobby and the connection events leave of a player. *)
Definition sameScore (p p' : Player) : Prop :=
  Player.points p' = Player.points p
  /\ Player.dealAmount p' = Player.dealAmount p
  /\ Player.hasDealt p' = Player.hasDealt p
  /\ Player.role p' = Player.role p.

(** In a finished game nobody is left to play. *)
Definition finishedOk (gs : GameState) : Prop :=
  GameState.phase gs = Finished -> activePlayers gs = [].

(* ================================================================== *)
(** * Theorems *)
(* ================================================================== *)


(* ================================================================== *)
(** * Scoring *)
(* ================================================================== *)

Lemma Qgtb_spec a b : Qgtb a b = true <-> (b < a)%Q.
Proof.
  unfold Qgtb. rewrite negb_true_iff.
  destruct (Qle_bool a b) eqn:E.
  - apply Qle_bool_iff in E. split; [discriminate | intros; lra].
  - split; [intros _ | reflexivity].
    destruct (Qlt_le_dec b a) as [|Hle]; [assumption|].
    apply Qle_bool_iff in Hle. congruence.
Qed.

Lemma Qgtb_false a b : Qgtb a b = false <-> (a <= b)%Q.
Proof.
  destruct (Qgtb a b) eqn:E.
  - apply Qgtb_spec in E. split; [discriminate | intros; lra].
  - split; [intros _ | reflexivity].
    destruct (Qlt_le_dec b a) as [Hlt|]; [|assumption].
    apply Qgtb_spec in Hlt. congruence.
Qed.

Section Scoring.
Variables (finalWinnings finalBoxValue : Q) (roundDealt : Z).
Variables (isLastStanding isHighestWinnings : bool) (timeoutCount : Z).

(** C2: [calculatePoints] computes the closed formula of the
    specification on every input, and its result is never negative. *)
Theorem calculatePoints_formula :
  calculatePoints finalWinnings finalBoxValue roundDealt
    isLastStanding isHighestWinnings timeoutCount
  = spec_points finalWinnings finalBoxValue roundDealt
      isLastStanding isHighestWinnings timeoutCount
  /\ 0 <= calculatePoints finalWinnings finalBoxValue roundDealt
            isLastStanding isHighestWinnings timeoutCount.
Proof.
  unfold calculatePoints, spec_points. split; [|lia].
  destruct (Qlt_le_dec finalBoxValue finalWinnings) as [Hlt|Hle].
  - apply Qgtb_spec in Hlt. rewrite Hlt.
    destruct (Z_ge_dec roundDealt 4), (Z_le_dec roundDealt 2),
      (Z.geb_spec roundDealt 4), (Z.leb_spec roundDealt 2),
      isLastStanding, isHighestWinnings; lia.
  - apply Qgtb_false in Hle. rewrite Hle.
    destruct (Z_ge_dec roundDealt 4), (Z_le_dec roundDealt 2),
      (Z.geb_spec roundDealt 4), (Z.leb_spec roundDealt 2),
      isLastStanding, isHighestWinnings; lia.
Qed.
End Scoring.

(* ================================================================== *)
(** * Double precision *)
(* ================================================================== *)

(** ** One rounding *)

Lemma pow2_pos e : (0 < Double.pow2 e)%Q.
Proof. apply Qpower_0_lt. reflexivity. Qed.

Lemma pow2_add a b : (Double.pow2 (a + b) == Double.pow2 a * Double.pow2 b)%Q.
Proof. apply Qpower_plus. discriminate. Qed.

Lemma pow2_le a b : a <= b -> (Double.pow2 a <= Double.pow2 b)%Q.
Proof. intros H. apply Qpower_le_compat_l; [exact H | discriminate]. Qed.

Lemma pow2_Z e : 0 <= e -> (Double.pow2 e == inject_Z (2 ^ e))%Q.
Proof. intros H. unfold Double.pow2. now rewrite (Zpower_Qpower 2 e H). Qed.

Lemma ilog2_le x : (0 < x)%Q -> (Double.pow2 (Double.ilog2 x) <= x)%Q.
Proof.
  destruct x as [a b]. intros Hx. unfold Double.ilog2. cbn [Qnum Qden].
  set (la := Z.log2 a). set (lb := Z.log2 (Z.pos b)).
  destruct (Qle_bool (Double.pow2 (la - lb)) (a # b)) eqn:E.
  - now apply Qle_bool_iff.
  - clear E.
    assert (Hnum : 0 < a) by (unfold Qlt in Hx; cbn in Hx; lia).
    destruct (Z.log2_spec a Hnum) as [Hla _]. fold la in Hla.
    destruct (Z.log2_spec (Z.pos b) ltac:(lia)) as [_ Hlb]. fold lb in Hlb.
    assert (H0a : 0 <= la) by apply Z.log2_nonneg.
    assert (H0b : 0 <= lb) by apply Z.log2_nonneg.
    replace (la - lb - 1) with (la - (lb + 1)) by lia.
    unfold Double.pow2. rewrite Qpower_minus by discriminate.
    fold (Double.pow2 la). fold (Double.pow2 (lb + 1)).
    rewrite (pow2_Z la H0a), (pow2_Z (lb + 1)) by lia.
    rewrite (Qmake_Qdiv a b).
    apply Qle_shift_div_r.
    { change 0%Q with (inject_Z 0). rewrite <- Zlt_Qlt. lia. }
    unfold Qdiv. rewrite <- Qmult_assoc, (Qmult_comm (/ _)), Qmult_assoc.
    apply Qle_shift_div_l.
    { change 0%Q with (inject_Z 0). rewrite <- Zlt_Qlt. lia. }
    rewrite <- !inject_Z_mult, <- Zle_Qle.
    apply Z.mul_le_mono_nonneg; lia.
Qed.

Lemma roundHalfEven_err m :
  (Qabs (inject_Z (Double.roundHalfEven m) - m) <= 1 # 2)%Q.
Proof.
  unfold Double.roundHalfEven.
  pose proof (Qfloor_le m) as Hlo. pose proof (Qlt_floor m) as Hhi.
  rewrite inject_Z_plus in Hhi. change (inject_Z 1) with 1%Q in Hhi.
  set (f := Qfloor m) in *.
  destruct (Qcompare_spec (m - inject_Z f) (1 # 2)) as [E|E|E].
  - destruct (Z.even f).
    + apply Qabs_Qle_condition. split; lra.
    + rewrite inject_Z_plus. change (inject_Z 1) with 1%Q.
      apply Qabs_Qle_condition. split; lra.
  - apply Qabs_Qle_condition. split; lra.
  - rewrite inject_Z_plus. change (inject_Z 1) with 1%Q.
    apply Qabs_Qle_condition. split; lra.
Qed.

Lemma roundHalfEven_Z m z :
  (m == inject_Z z)%Q -> Double.roundHalfEven m = z.
Proof.
  intros E. unfold Double.roundHalfEven.
  assert (Hf : Qfloor m = z) by (rewrite E; apply Qfloor_Z).
  rewrite Hf.
  destruct (Qcompare_spec (m - inject_Z z) (1 # 2)) as [E'|E'|E'];
    [exfalso; lra | reflexivity | exfalso; lra].
Qed.

Lemma roundHalfEven_le m z :
  (Qabs m <= inject_Z z)%Q -> Z.abs (Double.roundHalfEven m) <= z.
Proof.
  intros Hm. pose proof (roundHalfEven_err m) as Herr.
  set (n := Double.roundHalfEven m) in *.
  assert (H : (Qabs (inject_Z n) <= inject_Z z + (1 # 2))%Q).
  { assert (E : (inject_Z n == (inject_Z n - m) + m)%Q) by ring.
    rewrite E. eapply Qle_trans; [apply Qabs_triangle|]. lra. }
  assert (Hlt : (inject_Z (Z.abs n) < inject_Z (z + 1))%Q).
  { rewrite inject_Z_plus. change (inject_Z 1) with 1%Q.
    assert (E : (inject_Z (Z.abs n) == Qabs (inject_Z n))%Q).
    { unfold Qabs, inject_Z. reflexivity. }
    rewrite E. lra. }
  rewrite <- Zlt_Qlt in Hlt. lia.
Qed.

(** The result of [round] on a number that does not overflow. *)
Lemma round_core x :
  ~ (x == 0)%Q -> (Qabs x <= Double.MAX_VALUE)%Q ->
  let e := Z.max (Double.ilog2 (Qabs x)) (-1022) in
  let y := (inject_Z (Double.roundHalfEven (x / Double.pow2 (e - 52)))
            * Double.pow2 (e - 52))%Q in
  Double.round x = Double.Fin (Qred y)
  /\ (Qabs (y - x) <= Double.pow2 (e - 53))%Q
  /\ ((Double.pow2 e <= Qabs x)%Q \/ e = -1022)
  /\ e <= 1023.
Proof.
  intros Hx Hmax e.
  assert (Habs : (0 < Qabs x)%Q).
  { destruct (Qlt_le_dec x 0) as [Hneg|Hpos].
    - rewrite Qabs_neg by lra. lra.
    - rewrite Qabs_pos by lra.
      destruct (Qlt_le_dec 0 x) as [|Hle]; [assumption|].
      exfalso. apply Hx. lra. }
  assert (He : (Double.pow2 e <= Qabs x)%Q \/ e = -1022).
  { subst e. destruct (Z.max_spec (Double.ilog2 (Qabs x)) (-1022))
      as [[_ ->] | [_ ->]]; [now right | left; now apply ilog2_le]. }
  assert (HMAX : (Double.MAX_VALUE < Double.pow2 1024)%Q)
    by (vm_compute; reflexivity).
  assert (He1023 : e <= 1023).
  { destruct He as [He | ->]; [|lia].
    destruct (Z_le_gt_dec e 1023) as [|Hgt]; [assumption|].
    exfalso. assert (Double.pow2 1024 <= Double.pow2 e)%Q by (apply pow2_le; lia).
    lra. }
  set (ulp := Double.pow2 (e - 52)).
  assert (Hulp : (0 < ulp)%Q) by apply pow2_pos.
  set (n := Double.roundHalfEven (x / ulp)).
  pose proof (roundHalfEven_err (x / ulp)) as Herr. fold n in Herr.
  assert (Hhalf : (ulp * (1 # 2) == Double.pow2 (e - 53))%Q).
  { subst ulp. replace (e - 52) with ((e - 53) + 1) by lia.
    rewrite pow2_add. change (Double.pow2 1) with 2%Q. field. }
  assert (Hd : (Qabs (inject_Z n * ulp - x) <= Double.pow2 (e - 53))%Q).
  { rewrite <- Hhalf.
    assert (E : (inject_Z n * ulp - x == (inject_Z n - x / ulp) * ulp)%Q).
    { field. lra. }
    rewrite E, Qabs_Qmult, (Qabs_pos ulp) by lra.
    rewrite (Qmult_comm ulp). apply Qmult_le_compat_r; lra. }
  intros y. subst y. fold ulp. fold n.
  split; [|split; [exact Hd | split; [exact He | exact He1023]]].
  unfold Double.round.
  destruct (Qeq_bool x 0) eqn:E0; [apply Qeq_bool_iff in E0; contradiction|].
  fold e. fold ulp. fold n.
  destruct (Qle_bool (Double.pow2 1024) (Qabs (inject_Z n * ulp))) eqn:Eo;
    [|reflexivity].
  exfalso. apply Qle_bool_iff in Eo.
  destruct (Z.eq_dec e 1023) as [E1023|Hne].
  - (* top binade: the integer significand is below 2^53 *)
    assert (Hn : Z.abs n <= 2 ^ 53 - 1).
    { apply roundHalfEven_le. unfold Qdiv. rewrite Qabs_Qmult.
      rewrite (Qabs_pos (/ ulp)) by (apply Qlt_le_weak, Qinv_lt_0_compat, Hulp).
      apply Qle_shift_div_r; [exact Hulp|].
      eapply Qle_trans; [exact Hmax|]. unfold Double.MAX_VALUE.
      subst ulp. rewrite E1023. change (1023 - 52) with 971.
      apply Qmult_le_compat_r; [|apply Qlt_le_weak, pow2_pos].
      vm_compute. discriminate. }
    assert (Hy : (Qabs (inject_Z n * ulp) <= Double.MAX_VALUE)%Q).
    { rewrite Qabs_Qmult, (Qabs_pos ulp) by lra. unfold Double.MAX_VALUE.
      subst ulp. rewrite E1023. change (1023 - 52) with 971.
      apply Qmult_le_compat_r; [|apply Qlt_le_weak, pow2_pos].
      assert (E : (Qabs (inject_Z n) == inject_Z (Z.abs n))%Q) by reflexivity.
      rewrite E.
      assert (E' : (Double.pow2 53 - 1 == inject_Z (2 ^ 53 - 1))%Q)
        by (vm_compute; reflexivity).
      rewrite E'. now rewrite <- Zle_Qle. }
    lra.
  - assert (Hy : (Qabs (inject_Z n * ulp) <= Qabs x + Double.pow2 (e - 53))%Q).
    { assert (E : (inject_Z n * ulp == (inject_Z n * ulp - x) + x)%Q) by ring.
      rewrite E at 1. eapply Qle_trans; [apply Qabs_triangle|]. lra. }
    assert (Hsmall : (Double.pow2 (e - 53) <= Double.pow2 969)%Q)
      by (apply pow2_le; lia).
    assert (Double.MAX_VALUE + Double.pow2 969 < Double.pow2 1024)%Q
      by (vm_compute; reflexivity).
    lra.
Qed.

Lemma round_zero x : (x == 0)%Q -> Double.round x = Double.Fin 0.
Proof.
  intros E. unfold Double.round.
  apply Qeq_bool_iff in E. now rewrite E.
Qed.

Lemma round_not_NaN x : Double.round x <> Double.NaN.
Proof.
  unfold Double.round. destruct (Qeq_bool x 0); [discriminate|].
  destruct (Qle_bool _ _); discriminate.
Qed.

Lemma round_normal x :
  (Double.pow2 (-1022) <= Qabs x <= Double.MAX_VALUE)%Q ->
  exists y, Double.round x = Double.Fin y
            /\ (Qabs (y - x) <= Qabs x * Double.pow2 (-53))%Q.
Proof.
  intros [Hlo Hhi].
  assert (Hx : ~ (x == 0)%Q).
  { intros E. rewrite E in Hlo. pose proof (pow2_pos (-1022)).
    change (Qabs 0) with 0%Q in Hlo. lra. }
  destruct (round_core x Hx Hhi) as (Hr & Hd & He & _).
  eexists. split; [exact Hr|]. rewrite Qred_correct.
  eapply Qle_trans; [exact Hd|].
  set (e := Z.max _ _) in *.
  replace (e - 53) with (e + (-53)) by lia. rewrite pow2_add.
  apply Qmult_le_compat_r; [|apply Qlt_le_weak, pow2_pos].
  destruct He as [He | ->]; assumption.
Qed.

Lemma round_any x :
  (Qabs x <= Double.MAX_VALUE)%Q ->
  exists y, Double.round x = Double.Fin y
            /\ (Qabs (y - x)
                <= Qabs x * Double.pow2 (-53) + Double.pow2 (-1075))%Q.
Proof.
  intros Hhi. destruct (Qeq_dec x 0) as [E|Hx].
  - exists 0%Q. split; [now apply round_zero|]. rewrite E.
    vm_compute. discriminate.
  - destruct (round_core x Hx Hhi) as (Hr & Hd & He & _).
    eexists. split; [exact Hr|]. rewrite Qred_correct.
    eapply Qle_trans; [exact Hd|].
    set (e := Z.max _ _) in *.
    pose proof (pow2_pos (-1075)). pose proof (pow2_pos (-53)).
    pose proof (Qabs_nonneg x).
    destruct He as [He | ->].
    + replace (e - 53) with (e + (-53)) by lia. rewrite pow2_add.
      assert (Double.pow2 e * Double.pow2 (-53)
              <= Qabs x * Double.pow2 (-53))%Q
        by (apply Qmult_le_compat_r; lra).
      lra.
    + change (-1022 - 53) with (-1075).
      assert (0 <= Qabs x * Double.pow2 (-53))%Q
        by (apply Qmult_le_0_compat; lra).
      lra.
Qed.

Lemma Qred_inject_Z z : Qred (inject_Z z) = inject_Z z.
Proof. apply Qred_identity. cbn. apply Z.gcd_1_r. Qed.

Lemma round_int x z :
  (x == inject_Z z)%Q -> Z.abs z < 2 ^ 53 ->
  Double.round x = Double.Fin (inject_Z z).
Proof.
  intros E Hz. destruct (Z.eq_dec z 0) as [->|Hnz].
  - now apply round_zero.
  - assert (Hx : ~ (x == 0)%Q).
    { rewrite E. intros H. apply Hnz. unfold Qeq in H. cbn in H. lia. }
    assert (Habs : (Qabs x == inject_Z (Z.abs z))%Q) by (rewrite E; reflexivity).
    assert (Hhi : (Qabs x <= Double.MAX_VALUE)%Q).
    { rewrite Habs.
      assert (inject_Z (2 ^ 53) <= Double.MAX_VALUE)%Q by (vm_compute; discriminate).
      assert (inject_Z (Z.abs z) <= inject_Z (2 ^ 53))%Q
        by (rewrite <- Zle_Qle; lia).
      lra. }
    destruct (round_core x Hx Hhi) as (Hr & _ & He & _).
    rewrite Hr. f_equal.
    transitivity (Qred (inject_Z z)); [apply Qred_complete | apply Qred_inject_Z].
    set (e := Z.max _ _) in *.
    assert (He52 : -1022 <= e <= 52).
    { split; [subst e; lia|].
      destruct He as [He | ->]; [|lia].
      destruct (Z_le_gt_dec e 52) as [|Hgt]; [assumption|]. exfalso.
      assert (Double.pow2 53 <= Double.pow2 e)%Q by (apply pow2_le; lia).
      assert (inject_Z (Z.abs z) < Double.pow2 53)%Q.
      { rewrite (pow2_Z 53) by lia. rewrite <- Zlt_Qlt. exact Hz. }
      lra. }
    assert (Hinv : (/ Double.pow2 (e - 52) == inject_Z (2 ^ (52 - e)))%Q).
    { rewrite <- (pow2_Z (52 - e)) by lia. unfold Double.pow2.
      replace (52 - e) with (- (e - 52)) by lia.
      rewrite Qpower_opp. reflexivity. }
    assert (Hm : (x / Double.pow2 (e - 52) == inject_Z (z * 2 ^ (52 - e)))%Q).
    { unfold Qdiv. rewrite Hinv, E, inject_Z_mult. reflexivity. }
    rewrite (roundHalfEven_Z _ _ Hm), inject_Z_mult, <- Hinv.
    field. pose proof (pow2_pos (e - 52)). lra.
Qed.

(** ** Accumulated rounding errors *)

Lemma unitRoundoff_range : (0 < unitRoundoff <= 1 # 2)%Q.
Proof. split; [apply pow2_pos | vm_compute; discriminate]. Qed.

Lemma Qpow_pos q j : (0 < q)%Q -> (0 < Qpow q j)%Q.
Proof.
  intros Hq. induction j as [|j IH]; cbn [Qpow]; [reflexivity|].
  apply Qmult_lt_0_compat; assumption.
Qed.

Lemma Qpow_add q j k : (Qpow q (j + k) == Qpow q j * Qpow q k)%Q.
Proof.
  induction j as [|j IH]; cbn [Qpow Nat.add]; [ring|]. rewrite IH. ring.
Qed.

Lemma Qpow_up_mono j k :
  (j <= k)%nat ->
  (Qpow (1 + unitRoundoff) j <= Qpow (1 + unitRoundoff) k)%Q.
Proof.
  pose proof unitRoundoff_range as Hu.
  induction 1 as [|k _ IH]; [apply Qle_refl|].
  cbn [Qpow]. pose proof (Qpow_pos (1 + unitRoundoff) k ltac:(lra)).
  assert (0 <= unitRoundoff * Qpow (1 + unitRoundoff) k)%Q
    by (apply Qmult_le_0_compat; lra).
  lra.
Qed.

Lemma Qpow_down_mono j k :
  (j <= k)%nat ->
  (Qpow (1 - unitRoundoff) k <= Qpow (1 - unitRoundoff) j)%Q.
Proof.
  pose proof unitRoundoff_range as Hu.
  induction 1 as [|k _ IH]; [apply Qle_refl|].
  cbn [Qpow]. pose proof (Qpow_pos (1 - unitRoundoff) k ltac:(lra)).
  assert (0 <= unitRoundoff * Qpow (1 - unitRoundoff) k)%Q
    by (apply Qmult_le_0_compat; lra).
  lra.
Qed.

(** Bernoulli's inequality, and its counterpart from above. *)
Lemma Qpow_down_ge j :
  (1 - inject_Z (Z.of_nat j) * unitRoundoff <= Qpow (1 - unitRoundoff) j)%Q.
Proof.
  pose proof unitRoundoff_range as Hu.
  induction j as [|j IH];
    [cbn [Qpow]; change (inject_Z (Z.of_nat 0)) with 0%Q; lra|].
  rewrite Nat2Z.inj_succ. unfold Z.succ. rewrite inject_Z_plus.
  change (inject_Z 1) with 1%Q. cbn [Qpow].
  pose proof (Qpow_pos (1 - unitRoundoff) j ltac:(lra)) as Hp.
  assert (0 <= inject_Z (Z.of_nat j))%Q
    by (change 0%Q with (inject_Z 0); rewrite <- Zle_Qle; lia).
  set (n := inject_Z (Z.of_nat j)) in *. set (p := Qpow _ j) in *.
  destruct (Qlt_le_dec (1 - n * unitRoundoff) 0) as [Hneg|Hpos].
  - assert (0 <= (1 - unitRoundoff) * p)%Q by nra. nra.
  - nra.
Qed.

Lemma Qpow_up_le j :
  (2 * inject_Z (Z.of_nat j) * unitRoundoff <= 1)%Q ->
  (Qpow (1 + unitRoundoff) j
   <= 1 + 2 * inject_Z (Z.of_nat j) * unitRoundoff)%Q.
Proof.
  pose proof unitRoundoff_range as Hu.
  induction j as [|j IH];
    [cbn [Qpow]; change (inject_Z (Z.of_nat 0)) with 0%Q; lra|].
  rewrite Nat2Z.inj_succ. unfold Z.succ. rewrite inject_Z_plus.
  change (inject_Z 1) with 1%Q. cbn [Qpow].
  assert (0 <= inject_Z (Z.of_nat j))%Q
    by (change 0%Q with (inject_Z 0); rewrite <- Zle_Qle; lia).
  set (n := inject_Z (Z.of_nat j)) in *. set (p := Qpow _ j) in *.
  intros Hj. assert (Hj' : (2 * n * unitRoundoff <= 1)%Q) by nra.
  specialize (IH Hj'). nra.
Qed.

Lemma within_refl X : within 0 X X.
Proof. unfold within. cbn [Qpow]. split; lra. Qed.

Lemma within_nonneg j X x : (0 <= X)%Q -> within j X x -> (0 <= x)%Q.
Proof.
  pose proof unitRoundoff_range as Hu. intros HX [Hlo _].
  pose proof (Qpow_pos (1 - unitRoundoff) j ltac:(lra)). nra.
Qed.

Lemma within_weaken j k X x :
  (j <= k)%nat -> (0 <= X)%Q -> within j X x -> within k X x.
Proof.
  intros Hjk HX [Hlo Hhi].
  pose proof (Qpow_up_mono j k Hjk). pose proof (Qpow_down_mono j k Hjk).
  split; nra.
Qed.

Lemma within_eq j X Y x : (X == Y)%Q -> within j X x -> within j Y x.
Proof. unfold within. intros ->. auto. Qed.

Lemma within_add j X Y x y :
  within j X x -> within j Y y -> within j (X + Y) (x + y).
Proof. unfold within. intros [? ?] [? ?]. split; nra. Qed.

Lemma within_mul j k X Y x y :
  (0 <= X)%Q -> (0 <= Y)%Q ->
  within j X x -> within k Y y -> within (j + k) (X * Y) (x * y).
Proof.
  pose proof unitRoundoff_range as Hu. intros HX HY Hx Hy.
  pose proof (within_nonneg _ _ _ HX Hx). pose proof (within_nonneg _ _ _ HY Hy).
  destruct Hx as [Hxl Hxh], Hy as [Hyl Hyh]. unfold within.
  rewrite !Qpow_add.
  pose proof (Qpow_pos (1 - unitRoundoff) j ltac:(lra)).
  pose proof (Qpow_pos (1 - unitRoundoff) k ltac:(lra)).
  pose proof (Qpow_pos (1 + unitRoundoff) j ltac:(lra)).
  pose proof (Qpow_pos (1 + unitRoundoff) k ltac:(lra)).
  set (a := Qpow (1 - unitRoundoff) j) in *.
  set (b := Qpow (1 - unitRoundoff) k) in *.
  set (c := Qpow (1 + unitRoundoff) j) in *.
  set (d := Qpow (1 + unitRoundoff) k) in *.
  split.
  - assert (0 <= X * a)%Q by nra. assert (0 <= Y * b)%Q by nra.
    assert ((X * a) * (Y * b) <= x * y)%Q by nra. nra.
  - assert (x * y <= (X * c) * (Y * d))%Q by nra. nra.
Qed.

Lemma within_div j X x d :
  (0 < d)%Q -> within j X x -> within j (X / d) (x / d).
Proof.
  intros Hd [Hlo Hhi]. unfold within.
  assert (Hi : (0 < / d)%Q) by now apply Qinv_lt_0_compat.
  unfold Qdiv. split.
  - rewrite <- Qmult_assoc, (Qmult_comm (/ d)), Qmult_assoc.
    apply Qmult_le_compat_r; lra.
  - rewrite <- (Qmult_assoc X), (Qmult_comm (/ d)), Qmult_assoc.
    apply Qmult_le_compat_r; lra.
Qed.

(** The size of the error after [j] roundings. *)
Lemma within_error j X x :
  (0 <= X)%Q -> (2 * inject_Z (Z.of_nat j) * unitRoundoff <= 1)%Q ->
  within j X x ->
  (Qabs (x - X) <= X * (2 * inject_Z (Z.of_nat j) * unitRoundoff))%Q.
Proof.
  intros HX Hj [Hlo Hhi].
  pose proof (Qpow_down_ge j). pose proof (Qpow_up_le j Hj).
  pose proof unitRoundoff_range.
  assert (0 <= inject_Z (Z.of_nat j))%Q
    by (change 0%Q with (inject_Z 0); rewrite <- Zle_Qle; lia).
  apply Qabs_Qle_condition. split; nra.
Qed.

Lemma Qmult_le_l' (x y z : Q) : (0 <= z)%Q -> (x <= y)%Q -> (z * x <= z * y)%Q.
Proof.
  intros Hz Hxy. rewrite (Qmult_comm z x), (Qmult_comm z y).
  now apply Qmult_le_compat_r.
Qed.

(** One more rounding of a positive number in the normal range. *)
Lemma within_round j X x :
  (Double.pow2 (-1021) <= X <= Double.pow2 1022)%Q ->
  (2 * inject_Z (Z.of_nat j) * unitRoundoff <= 1)%Q ->
  within j X x ->
  exists y, Double.round x = Double.Fin y /\ within (S j) X y.
Proof.
  intros [HXl HXh] Hj Hx.
  pose proof unitRoundoff_range as Hu.
  pose proof (pow2_pos (-1021)) as Hp.
  assert (HX : (0 <= X)%Q) by lra.
  pose proof (Qpow_down_ge j) as Hdn. pose proof (Qpow_up_le j Hj) as Hup.
  assert (Hxl : (X * (1 # 2) <= x)%Q).
  { destruct Hx as [Hlo _].
    assert (X * (1 # 2) <= X * Qpow (1 - unitRoundoff) j)%Q
      by (apply Qmult_le_l' ; lra). lra. }
  assert (Hxh : (x <= X * 2)%Q).
  { destruct Hx as [_ Hhi].
    assert (X * Qpow (1 + unitRoundoff) j <= X * 2)%Q
      by (apply Qmult_le_l'; lra). lra. }
  assert (H1 : (Double.pow2 (-1021) == Double.pow2 (-1022) * 2)%Q)
    by (vm_compute; reflexivity).
  assert (H2 : (Double.pow2 1022 * 2 <= Double.MAX_VALUE)%Q)
    by (vm_compute; discriminate).
  destruct (round_normal x) as (y & Hr & Hd).
  { rewrite Qabs_pos by lra. split; lra. }
  exists y. split; [exact Hr|].
  rewrite (Qabs_pos x) in Hd by lra. fold unitRoundoff in Hd.
  apply Qabs_Qle_condition in Hd.
  destruct Hx as [Hlo Hhi]. unfold within. cbn [Qpow].
  pose proof (Qpow_pos (1 - unitRoundoff) j ltac:(lra)).
  pose proof (Qpow_pos (1 + unitRoundoff) j ltac:(lra)).
  split; nra.
Qed.


(* ================================================================== *)
(** * Name sanitisation *)
(* ================================================================== *)

Lemma slice0_length n s : (String.length (slice0 n s) <= n)%nat.
Proof.
  revert s. induction n as [|n IH]; intros [|c s]; simpl; try lia.
  specialize (IH s). lia.
Qed.

Lemma slice0_all n s : (String.length s <= n)%nat -> slice0 n s = s.
Proof.
  revert s. induction n as [|n IH]; intros [|c s]; simpl; intros H;
    try reflexivity; try lia.
  f_equal. apply IH. lia.
Qed.

Lemma mapString_length f s : String.length (mapString f s) = String.length s.
Proof. induction s; simpl; congruence. Qed.

Lemma prefix_anyChar p w s :
  String.prefix w s = true -> anyChar p w = true -> anyChar p s = true.
Proof.
  revert s. induction w as [|c w IH]; intros s Hpre Hany; simpl in Hany.
  - discriminate.
  - destruct s as [|d s]; simpl in Hpre; [discriminate|].
    destruct (ascii_dec c d) as [->|]; [|discriminate].
    simpl. apply orb_true_iff in Hany as [Hc | Hw].
    + now rewrite Hc.
    + rewrite (IH s Hpre Hw). apply orb_true_r.
Qed.

Lemma includes_anyChar p s w :
  includes s w = true -> anyChar p w = true -> anyChar p s = true.
Proof.
  induction s as [|d s IH]; simpl; intros Hinc Hany.
  - rewrite orb_false_r in Hinc. now apply (prefix_anyChar p w "").
  - apply orb_true_iff in Hinc as [Hpre | Hrest].
    + now apply (prefix_anyChar p w (String d s)).
    + rewrite (IH Hrest Hany). apply orb_true_r.
Qed.

Lemma banned_words_have_vowel :
  forallb (anyChar isLowerVowel) BANNED_WORDS = true.
Proof. reflexivity. Qed.

Lemma starred_char_not_vowel c :
  isLowerVowel (toLowerChar (if isVowel c then "*"%char else c)) = false.
Proof. destruct c as [[] [] [] [] [] [] [] []]; reflexivity. Qed.

Lemma starred_no_vowel s :
  anyChar isLowerVowel (toLowerCase (replaceVowels s)) = false.
Proof.
  induction s as [|c s IH]; [reflexivity|].
  unfold toLowerCase, replaceVowels in *. simpl.
  now rewrite starred_char_not_vowel, IH.
Qed.

Lemma starred_not_profane s : containsProfanity (replaceVowels s) = false.
Proof.
  unfold containsProfanity.
  apply not_true_is_false. intros H.
  apply existsb_exists in H as (w & Hw & Hinc).
  pose proof banned_words_have_vowel as Hall.
  rewrite forallb_forall in Hall. specialize (Hall w Hw).
  pose proof (includes_anyChar _ _ _ Hinc Hall) as Hv.
  rewrite starred_no_vowel in Hv. discriminate.
Qed.

Lemma sanitiseName_length x :
  (String.length (sanitiseName x) <= MAX_NAME_LENGTH)%nat.
Proof.
  unfold sanitiseName.
  destruct (containsProfanity _); unfold replaceVowels;
    rewrite ?mapString_length; apply slice0_length.
Qed.

Lemma sanitiseName_not_profane x : containsProfanity (sanitiseName x) = false.
Proof.
  unfold sanitiseName.
  destruct (containsProfanity (slice0 _ _)) eqn:E;
    [apply starred_not_profane | exact E].
Qed.

(** C9 (as the code has it): sanitising twice gives the same name as
    sanitising once whenever the sanitised name itself has no white space
    left at its ends, that is, whenever the cut at 16 characters did not
    expose a trailing blank. *)
Theorem sanitiseName_idempotent_when_trimmed (x : string) :
  trim (sanitiseName x) = sanitiseName x ->
  sanitiseName (sanitiseName x) = sanitiseName x.
Proof.
  intros Htrim.
  unfold sanitiseName at 1. rewrite Htrim.
  rewrite (slice0_all _ _ (sanitiseName_length x)).
  now rewrite sanitiseName_not_profane.
Qed.

Lemma sanitiseName_idempotent_when_trimmed_witness :
  sanitiseName (sanitiseName "  shitHEAD ") = sanitiseName "  shitHEAD ".
Proof.
  apply (sanitiseName_idempotent_when_trimmed "  shitHEAD ").
  reflexivity.
Defined.

(** C9 as stated fails: a name whose 16th character is a blank keeps that
    blank after the first pass and loses it in the second. *)
Lemma sanitiseName_not_idempotent :
  sanitiseName (sanitiseName "aaaaaaaaaaaaaaa b")
  <> sanitiseName "aaaaaaaaaaaaaaa b".
Proof. vm_compute. discriminate. Qed.

(** *** How tight the condition is *)

Lemma trimStart_length s :
  (String.length (trimStart s) <= String.length s)%nat
  /\ (String.length (trimStart s) = String.length s -> trimStart s = s).
Proof.
  induction s as [|c s [IHle IHeq]]; simpl; [auto|].
  destruct (isWhiteSpace c); simpl; [|auto].
  split; [lia | intros H; lia].
Qed.

Lemma trimEnd_length s :
  (String.length (trimEnd s) <= String.length s)%nat
  /\ (String.length (trimEnd s) = String.length s -> trimEnd s = s).
Proof.
  induction s as [|c s [IHle IHeq]]; simpl; [auto|].
  destruct (isWhiteSpace c && isEmptyString (trimEnd s)); simpl.
  - split; [lia | discriminate].
  - split; [lia|]. intros H. f_equal. apply IHeq. lia.
Qed.

Lemma trim_length s :
  (String.length (trim s) <= String.length s)%nat
  /\ (String.length (trim s) = String.length s -> trim s = s).
Proof.
  unfold trim.
  destruct (trimStart_length s) as [Hs Hs'].
  destruct (trimEnd_length (trimStart s)) as [He He'].
  split; [lia|]. intros H.
  rewrite He' by lia. apply Hs'. lia.
Qed.

Lemma slice0_length_le n s :
  (String.length (slice0 n s) <= String.length s)%nat.
Proof.
  revert s. induction n as [|n IH]; intros [|c s]; simpl; try lia.
  specialize (IH s). lia.
Qed.

Lemma sanitiseName_length_le x :
  (String.length (sanitiseName x) <= String.length (trim x))%nat.
Proof.
  unfold sanitiseName.
  destruct (containsProfanity _); unfold replaceVowels;
    rewrite ?mapString_length; apply slice0_length_le.
Qed.

(** Conversely, a sanitised name that a second pass leaves alone has no
    white space at its ends: the condition of the theorem is necessary. *)
Lemma sanitiseName_fixed_is_trimmed (x : string) :
  sanitiseName (sanitiseName x) = sanitiseName x ->
  trim (sanitiseName x) = sanitiseName x.
Proof.
  intros Hfix. apply trim_length.
  pose proof (sanitiseName_length_le (sanitiseName x)) as Hle.
  rewrite Hfix in Hle.
  destruct (trim_length (sanitiseName x)) as [Hle' _]. lia.
Qed.

Lemma trimEnd_idempotent s : trimEnd (trimEnd s) = trimEnd s.
Proof.
  induction s as [|c s IH]; simpl; [reflexivity|].
  destruct (isWhiteSpace c && isEmptyString (trimEnd s)) eqn:E; simpl;
    [reflexivity|].
  now rewrite IH, E.
Qed.

Lemma trimStart_head s :
  trimStart s = EmptyString
  \/ exists c s', trimStart s = String c s' /\ isWhiteSpace c = false.
Proof.
  induction s as [|c s IH]; simpl; [auto|].
  destruct (isWhiteSpace c) eqn:E; [exact IH | right; eauto].
Qed.

Lemma trim_idempotent s : trim (trim s) = trim s.
Proof.
  unfold trim.
  destruct (trimStart_head s) as [-> | (c & s' & -> & Hc)]; [reflexivity|].
  simpl. rewrite Hc. simpl. rewrite Hc. simpl.
  rewrite trimEnd_idempotent. now rewrite Hc.
Qed.

Lemma star_keeps_space c :
  isWhiteSpace (if isVowel c then "*"%char else c) = isWhiteSpace c.
Proof. destruct c as [[] [] [] [] [] [] [] []]; reflexivity. Qed.

Lemma mapString_empty f s :
  isEmptyString (mapString f s) = isEmptyString s.
Proof. now destruct s. Qed.

Lemma trimStart_replaceVowels s :
  trimStart (replaceVowels s) = replaceVowels (trimStart s).
Proof.
  unfold replaceVowels. induction s as [|c s IH]; simpl; [reflexivity|].
  rewrite star_keeps_space. now destruct (isWhiteSpace c).
Qed.

Lemma trimEnd_replaceVowels s :
  trimEnd (replaceVowels s) = replaceVowels (trimEnd s).
Proof.
  unfold replaceVowels. induction s as [|c s IH]; simpl; [reflexivity|].
  rewrite star_keeps_space, IH, mapString_empty.
  now destruct (isWhiteSpace c && isEmptyString (trimEnd s)).
Qed.

Lemma trim_replaceVowels s : trim (replaceVowels s) = replaceVowels (trim s).
Proof. unfold trim. now rewrite trimStart_replaceVowels, trimEnd_replaceVowels. Qed.

(** In particular the name is stable as soon as the trimmed input fits in
    16 characters, so that the cut removes nothing. *)
Lemma sanitiseName_idempotent_short (x : string) :
  (String.length (trim x) <= MAX_NAME_LENGTH)%nat ->
  sanitiseName (sanitiseName x) = sanitiseName x.
Proof.
  intros Hlen.
  assert (Htrim : trim (sanitiseName x) = sanitiseName x).
  { unfold sanitiseName. rewrite (slice0_all _ _ Hlen).
    destruct (containsProfanity (trim x)).
    - now rewrite trim_replaceVowels, trim_idempotent.
    - apply trim_idempotent. }
  unfold sanitiseName at 1. rewrite Htrim.
  rewrite (slice0_all _ _ (sanitiseName_length x)).
  now rewrite sanitiseName_not_profane.
Qed.


(* ================================================================== *)
(** * Banker *)
(* ================================================================== *)

Lemma Math_round_bounds (x : Q) :
  (inject_Z (Math_round x) - (1 # 2) <= x
   /\ x < inject_Z (Math_round x) + (1 # 2))%Q.
Proof.
  unfold Math_round.
  pose proof (Qfloor_le (x + (1 # 2))) as Hlo.
  pose proof (Qlt_floor (x + (1 # 2))) as Hhi.
  rewrite inject_Z_plus in Hhi. change (inject_Z 1) with 1%Q in Hhi.
  split; lra.
Qed.

Lemma code_modifier_is_spec (r : Z) :
  1 <= r ->
  exists m m',
    arrayGet roundModifiers
      (Z.min (r - 1) (Z.of_nat (length roundModifiers) - 1)) = Some m
    /\ spec_modifier r = Some m' /\ (m == m')%Q.
Proof.
  intros Hr. unfold spec_modifier, arrayGet. simpl length.
  change (Z.of_nat 6 - 1) with 5.
  assert ((Z.min (r - 1) 5 <? 0) = false) as -> by lia.
  assert (Hcases : Z.to_nat (Z.min (r - 1) 5) = 0%nat
                   \/ Z.to_nat (Z.min (r - 1) 5) = 1%nat
                   \/ Z.to_nat (Z.min (r - 1) 5) = 2%nat
                   \/ Z.to_nat (Z.min (r - 1) 5) = 3%nat
                   \/ Z.to_nat (Z.min (r - 1) 5) = 4%nat
                   \/ Z.to_nat (Z.min (r - 1) 5) = 5%nat) by lia.
  destruct Hcases as [-> | [-> | [-> | [-> | [-> | ->]]]]];
    simpl; do 2 eexists; repeat split; reflexivity.
Qed.

Lemma roundModifier_cases (r : Z) :
  1 <= r ->
  exists m,
    arrayGet roundModifiers
      (Z.min (r - 1) (Z.of_nat (length roundModifiers) - 1)) = Some m
    /\ (0.7 <= m <= 1.05)%Q
    /\ (4 <= r -> (0.95 <= m)%Q)
    /\ (r = 1 -> (m == 0.7)%Q).
Proof.
  intros Hr. unfold arrayGet. simpl length.
  change (Z.of_nat 6 - 1) with 5.
  assert ((Z.min (r - 1) 5 <? 0) = false) as -> by lia.
  assert (Hcases : r = 1 \/ r = 2 \/ r = 3 \/ r = 4 \/ r = 5 \/ 6 <= r) by lia.
  destruct Hcases as [-> | [-> | [-> | [-> | [-> | H6]]]]].
  1-5: simpl; eexists; split; [reflexivity|];
       repeat split; try discriminate; try lia; try reflexivity;
       intros; lia.
  assert (Z.to_nat (Z.min (r - 1) 5) = 5%nat) as -> by lia.
  simpl; eexists; split; [reflexivity|].
  repeat split; try discriminate; intros; lia.
Qed.

(** ** The mean in double precision *)

Lemma amount_range v :
  amount v -> (Double.pow2 (-1021) <= v <= Double.pow2 1022)%Q.
Proof.
  intros [Hlo Hhi].
  assert (Double.pow2 (-1021) <= 1 # 10 ^ 100)%Q by (vm_compute; discriminate).
  assert (inject_Z (10 ^ 15) <= Double.pow2 1022)%Q by (vm_compute; discriminate).
  split; lra.
Qed.

Lemma small_count j :
  Z.of_nat j < 2 ^ 34 ->
  (2 * inject_Z (Z.of_nat j) * unitRoundoff <= 1)%Q.
Proof.
  intros Hj.
  assert (H : (inject_Z (Z.of_nat j) <= inject_Z (2 ^ 34))%Q)
    by (rewrite <- Zle_Qle; lia).
  assert (E : (2 * inject_Z (2 ^ 34) * unitRoundoff <= 1)%Q)
    by (vm_compute; discriminate).
  pose proof unitRoundoff_range as Hu.
  assert (inject_Z (Z.of_nat j) * unitRoundoff
          <= inject_Z (2 ^ 34) * unitRoundoff)%Q
    by (apply Qmult_le_compat_r; lra).
  lra.
Qed.

Lemma round_amount v :
  amount v -> exists v', Double.round v = Double.Fin v' /\ within 1 v v'.
Proof.
  intros Hv. apply within_round.
  - now apply amount_range.
  - apply (small_count 0). reflexivity.
  - apply within_refl.
Qed.

Lemma Qsum_range (l : list Q) :
  Forall amount l ->
  (inject_Z (Z.of_nat (length l)) * (1 # 10 ^ 100) <= Qsum l
   <= inject_Z (Z.of_nat (length l)) * inject_Z (10 ^ 15))%Q.
Proof.
  induction 1 as [|v l [Hlo Hhi] _ IH].
  - cbn. split; discriminate.
  - cbn [Qsum length]. rewrite Nat2Z.inj_succ. unfold Z.succ.
    rewrite inject_Z_plus. change (inject_Z 1) with 1%Q.
    split; lra.
Qed.

Lemma sum_within (l : list Q) :
  Forall amount l ->
  forall acc A j,
    within j A acc -> (0 <= A)%Q -> (1 <= j)%nat ->
    Z.of_nat (j + length l) < 2 ^ 34 ->
    (A + Qsum l <= Double.pow2 1022)%Q ->
    exists s,
      fold_left (fun sum v => Double.add sum (Double.round v)) l
        (Double.Fin acc) = Double.Fin s
      /\ within (j + length l) (A + Qsum l) s.
Proof.
  induction 1 as [|v l Hv Hl IH]; intros acc A j Hacc HA Hj Hn Hmax.
  - exists acc. split; [reflexivity|]. cbn [Qsum length].
    rewrite Nat.add_0_r. apply (within_eq j A); [ring | exact Hacc].
  - cbn [fold_left Qsum length] in *.
    destruct (round_amount v Hv) as (v' & -> & Hv').
    cbn [Double.add].
    destruct (Qsum_range l Hl) as [Hs0 _].
    assert (0 <= Qsum l)%Q.
    { eapply Qle_trans; [|exact Hs0]. apply Qmult_le_0_compat; [|discriminate].
      change 0%Q with (inject_Z 0). rewrite <- Zle_Qle. lia. }
    destruct (amount_range v Hv) as [Hvl Hvh]. pose proof (pow2_pos (-1021)).
    destruct (within_round j (A + v) (acc + v')) as (s1 & -> & Hs1).
    + split; lra.
    + apply small_count. lia.
    + apply within_add; [exact Hacc|].
      apply (within_weaken 1 j); [exact Hj | lra | exact Hv'].
    + destruct (IH s1 (A + v)%Q (S j) Hs1) as (s & Hs & Hw); [lra|lia|lia|lra|].
      exists s. split; [exact Hs|].
      replace (j + S (length l))%nat with (S j + length l)%nat by lia.
      apply (within_eq _ (A + v + Qsum l)); [ring | exact Hw].
Qed.

Lemma mean_range (l : list Q) :
  l <> [] -> Forall amount l ->
  (1 # 10 ^ 100 <= mean l <= inject_Z (10 ^ 15))%Q.
Proof.
  intros Hne Hl. destruct (Qsum_range l Hl) as [Hlo Hhi]. unfold mean.
  assert (Hn : (0 < inject_Z (Z.of_nat (length l)))%Q).
  { change 0%Q with (inject_Z 0). rewrite <- Zlt_Qlt.
    destruct l; [congruence | cbn [length]; lia]. }
  split.
  - apply Qle_shift_div_l; [exact Hn|]. lra.
  - apply Qle_shift_div_r; [exact Hn|]. lra.
Qed.

(** The mean as [getBankerOffer] and [calculateFairValue] compute it. *)
Lemma avg_within (l : list Q) :
  l <> [] -> Forall amount l -> Z.of_nat (length l) < 2 ^ 32 ->
  exists a,
    Double.div
      (fold_left (fun sum v => Double.add sum (Double.round v)) l
         (Double.Fin 0))
      (Double.round (inject_Z (Z.of_nat (length l)))) = Double.Fin a
    /\ within (length l + 2) (mean l) a.
Proof.
  intros Hne Hl Hn.
  destruct (Qsum_range l Hl) as [_ Hhi].
  assert (Hn0 : 0 < Z.of_nat (length l)).
  { destruct l; [congruence | cbn [length]; lia]. }
  assert (Hnq : (0 < inject_Z (Z.of_nat (length l)))%Q).
  { change 0%Q with (inject_Z 0). now rewrite <- Zlt_Qlt. }
  destruct (sum_within l Hl 0%Q 0%Q 1%nat) as (s & -> & Hs).
  - apply (within_weaken 0 1); [lia | discriminate | apply within_refl].
  - discriminate.
  - lia.
  - lia.
  - assert (inject_Z (Z.of_nat (length l)) * inject_Z (10 ^ 15)
            <= inject_Z (2 ^ 32) * inject_Z (10 ^ 15))%Q.
    { apply Qmult_le_compat_r; [|discriminate]. rewrite <- Zle_Qle. lia. }
    assert (inject_Z (2 ^ 32) * inject_Z (10 ^ 15) <= Double.pow2 1022)%Q
      by (vm_compute; discriminate).
    lra.
  - rewrite (round_int _ (Z.of_nat (length l))) by (reflexivity || lia).
    cbn [Double.div].
    assert (E0 : Qeq_bool (inject_Z (Z.of_nat (length l))) 0 = false).
    { apply not_true_is_false. intros E. apply Qeq_bool_iff in E. lra. }
    rewrite E0.
    destruct (mean_range l Hne Hl) as [Hml Hmh].
    assert (Double.pow2 (-1021) <= 1 # 10 ^ 100)%Q by (vm_compute; discriminate).
    assert (inject_Z (10 ^ 15) <= Double.pow2 1022)%Q by (vm_compute; discriminate).
    destruct (within_round (1 + length l) (mean l)
                (s / inject_Z (Z.of_nat (length l)))) as (a & -> & Ha).
    + split; lra.
    + apply small_count. lia.
    + unfold mean. apply within_div; [exact Hnq|].
      apply (within_eq _ (0 + Qsum l)); [ring | exact Hs].
    + exists a. split; [reflexivity|].
      replace (length l + 2)%nat with (S (1 + length l)) by lia. exact Ha.
Qed.

(** ** The random factor *)

Lemma eta_small : (Double.pow2 (-1075) <= unitRoundoff * (1 # 1000))%Q.
Proof. vm_compute. discriminate. Qed.

Lemma Qabs_bound (x y d : Q) :
  (Qabs (x - y) <= d)%Q -> (y - d <= x <= y + d)%Q.
Proof. intros H. apply Qabs_Qle_condition in H. split; lra. Qed.

(** [0.9 + Math.random() * 0.2] is the exact factor after at most four
    roundings. *)
Lemma factor_within (u : Q) :
  (0 <= u < 1)%Q ->
  exists f',
    Double.add (Double.round 0.9)
      (Double.mul (Double.round u) (Double.round 0.2)) = Double.Fin f'
    /\ within 4 (0.9 + u * 0.2) f'.
Proof.
  intros [Hu0 Hu1].
  pose proof unitRoundoff_range as [HU0 HU1].
  pose proof eta_small as Heta. pose proof (pow2_pos (-1075)) as Heta0.
  assert (HU53 : (unitRoundoff <= 1 # 1000)%Q) by (vm_compute; discriminate).
  assert (HMAX : (2 <= Double.MAX_VALUE)%Q) by (vm_compute; discriminate).
  assert (Hmin : (Double.pow2 (-1022) <= 1 # 10)%Q) by (vm_compute; discriminate).
  fold unitRoundoff in *.
  set (U := unitRoundoff) in *. set (eta := Double.pow2 (-1075)) in *.
  (* the draw *)
  destruct (round_any u) as (u' & -> & Hu').
  { rewrite Qabs_pos by lra. lra. }
  rewrite (Qabs_pos u) in Hu' by lra. change (Double.pow2 (-53)) with U in Hu'.
  change (Double.pow2 (-1075)) with eta in Hu'.
  apply Qabs_bound in Hu'.
  assert (HuU : (0 <= u * U <= U)%Q) by (split; nra).
  (* the literals *)
  destruct (round_normal 0.2) as (c2 & -> & Hc2).
  { rewrite Qabs_pos by discriminate. split; [|lra].
    eapply Qle_trans; [exact Hmin|]. discriminate. }
  rewrite (Qabs_pos 0.2) in Hc2 by discriminate. change (Double.pow2 (-53)) with U in Hc2.
  apply Qabs_bound in Hc2.
  destruct (round_normal 0.9) as (c9 & -> & Hc9).
  { rewrite Qabs_pos by discriminate. split; [|lra].
    eapply Qle_trans; [exact Hmin|]. discriminate. }
  rewrite (Qabs_pos 0.9) in Hc9 by discriminate. change (Double.pow2 (-53)) with U in Hc9.
  apply Qabs_bound in Hc9.
  cbn [Double.mul Double.add].
  (* the product *)
  set (e1 := (u' - u)%Q). set (e2 := (c2 - 0.2)%Q).
  assert (He1 : (- (U + eta) <= e1 <= U + eta)%Q) by (subst e1; lra).
  assert (He2 : (- (0.2 * U) <= e2 <= 0.2 * U)%Q) by (subst e2; lra).
  assert (Hprod : (u' * c2 == u * 0.2 + (0.2 * e1 + u * e2 + e1 * e2))%Q)
    by (subst e1 e2; ring).
  assert (He12 : (- (U * (1 # 100)) <= e1 * e2 <= U * (1 # 100))%Q).
  { assert (- (1 # 100) <= e1 <= 1 # 100)%Q by lra.
    assert (0 <= 0.2 * U)%Q by lra.
    split; nra. }
  assert (Hue2 : (- (0.2 * U) <= u * e2 <= 0.2 * U)%Q) by (split; nra).
  set (d := (0.2 * e1 + u * e2 + e1 * e2)%Q) in *.
  assert (Hd : (- (0.42 * U) <= d <= 0.42 * U)%Q) by (subst d; lra).
  assert (Hp : (- (1 # 100) <= u' * c2 <= 0.21)%Q) by (rewrite Hprod; lra).
  destruct (round_any (u' * c2)) as (p & -> & Hp').
  { apply Qabs_Qle_condition. lra. }
  change (Double.pow2 (-53)) with U in Hp'.
  change (Double.pow2 (-1075)) with eta in Hp'. apply Qabs_bound in Hp'.
  assert (Hap : (Qabs (u' * c2) <= 0.21)%Q) by (apply Qabs_Qle_condition; lra).
  assert (HapU : (Qabs (u' * c2) * U <= 0.21 * U)%Q)
    by (apply Qmult_le_compat_r; lra).
  pose proof (Qabs_nonneg (u' * c2)) as Hap0.
  assert (Hap0U : (0 <= Qabs (u' * c2) * U)%Q)
    by (apply Qmult_le_0_compat; lra).
  (* the sum *)
  set (f := (0.9 + u * 0.2)%Q).
  assert (Hf : (0.9 <= f <= 1.1)%Q) by (subst f; lra).
  assert (Ht : (f - 1.54 * U <= c9 + p <= f + 1.54 * U)%Q)
    by (subst f; lra).
  destruct (round_normal (c9 + p)) as (f' & -> & Hf').
  { rewrite Qabs_pos by lra. split; lra. }
  rewrite (Qabs_pos (c9 + p)) in Hf' by lra. change (Double.pow2 (-53)) with U in Hf'.
  apply Qabs_bound in Hf'.
  assert (HtU : (0 <= (c9 + p) * U <= 1.2 * U)%Q) by (split; nra).
  exists f'. split; [reflexivity|].
  assert (Herr : (f - 2.74 * U <= f' <= f + 2.74 * U)%Q) by lra.
  unfold within. fold U. cbn [Qpow].
  assert (HUU : (0 <= U * U <= U * (1 # 1000))%Q) by (split; nra).
  assert (Hup : (1 + 4 * U <= (1 + U) * ((1 + U) * ((1 + U) * ((1 + U) * 1))))%Q).
  { assert (0 <= U * U * U)%Q by nra. assert (0 <= U * U * U * U)%Q by nra.
    assert (E : ((1 + U) * ((1 + U) * ((1 + U) * ((1 + U) * 1)))
                 == 1 + 4 * U + 6 * (U * U) + 4 * (U * U * U)
                    + U * U * U * U)%Q) by ring.
    rewrite E. lra. }
  assert (Hdn : ((1 - U) * ((1 - U) * ((1 - U) * ((1 - U) * 1)))
                 <= 1 - 3.9 * U)%Q).
  { assert (0 <= U * U * U <= U * U)%Q by (split; nra).
    assert (0 <= U * U * U * U <= U * U)%Q by (split; nra).
    assert (E : ((1 - U) * ((1 - U) * ((1 - U) * ((1 - U) * 1)))
                 == 1 - 4 * U + 6 * (U * U) - 4 * (U * U * U)
                    + U * U * U * U)%Q) by ring.
    rewrite E. lra. }
  split.
  - assert (f * ((1 - U) * ((1 - U) * ((1 - U) * ((1 - U) * 1))))
            <= f * (1 - 3.9 * U))%Q by (apply Qmult_le_l'; lra).
    assert (0.9 * U <= f * U)%Q by (apply Qmult_le_compat_r; lra).
    lra.
  - assert (f * (1 + 4 * U)
            <= f * ((1 + U) * ((1 + U) * ((1 + U) * ((1 + U) * 1)))))%Q
      by (apply Qmult_le_l'; lra).
    assert (0.9 * U <= f * U)%Q by (apply Qmult_le_compat_r; lra).
    lra.
Qed.

(** ** The offer *)

Lemma round_modifier (m : Q) :
  (0.7 <= m <= 1.05)%Q ->
  exists m', Double.round m = Double.Fin m' /\ within 1 m m'.
Proof.
  intros [Hlo Hhi]. apply within_round.
  - assert (Double.pow2 (-1021) <= 0.7)%Q by (vm_compute; discriminate).
    assert (1.05 <= Double.pow2 1022)%Q by (vm_compute; discriminate).
    split; lra.
  - apply (small_count 0). reflexivity.
  - apply within_refl.
Qed.

Lemma round_ten : Double.round 10 = Double.Fin 10.
Proof. apply (round_int 10 10); [reflexivity | reflexivity]. Qed.

(** The offer on amounts: a multiple of ten, and how far it lies from
    the exact product of mean, modifier and factor. *)
Lemma getBankerOffer_accuracy (l : list Q) (r : Z) (u : Q) :
  l <> [] -> Forall amount l -> Z.of_nat (length l) < 2 ^ 32 ->
  1 <= r -> (0 <= u < 1)%Q ->
  exists m k,
    arrayGet roundModifiers
      (Z.min (r - 1) (Z.of_nat (length roundModifiers) - 1)) = Some m
    /\ getBankerOffer l r u = Double.Fin (inject_Z (k * 10))
    /\ 0 <= k
    /\ (Qabs (inject_Z (k * 10) - mean l * m * (0.9 + u * 0.2))
        <= 5 + mean l * m * (0.9 + u * 0.2) * bankerError (length l))%Q.
Proof.
  intros Hne Hl Hn Hr Hu.
  destruct (roundModifier_cases r Hr) as (m & Hm & Hmb & _ & _).
  destruct (avg_within l Hne Hl Hn) as (a & Ha & Haw).
  destruct (mean_range l Hne Hl) as [Hml Hmh].
  destruct (round_modifier m Hmb) as (m' & Hm' & Hmw).
  destruct (factor_within u Hu) as (f' & Hf' & Hfw).
  set (f := (0.9 + u * 0.2)%Q) in *.
  assert (Hf : (0.9 <= f <= 1.1)%Q) by (subst f; lra).
  assert (Hlow : (Double.pow2 (-1021) <= 1 # 10 ^ 102)%Q)
    by (vm_compute; discriminate).
  assert (Hhigh : (inject_Z (10 ^ 16) <= Double.pow2 1022)%Q)
    by (vm_compute; discriminate).
  assert (Hlo100 : ((1 # 10 ^ 102) * 100 == 1 # 10 ^ 100)%Q)
    by (vm_compute; reflexivity).
  assert (Hhi16 : (inject_Z (10 ^ 15) * 10 == inject_Z (10 ^ 16))%Q)
    by (vm_compute; reflexivity).
  assert (Hmean0 : (0 < mean l)%Q).
  { eapply Qlt_le_trans; [|exact Hml]. reflexivity. }
  exists m. unfold getBankerOffer.
  destruct l as [|v vs]; [congruence|]. rewrite Ha, Hm, Hm', Hf', round_ten.
  set (n := length (v :: vs)) in *. clearbody n.
  set (M := mean (v :: vs)) in *. clearbody M. clear Ha Hl Hne v vs.
  cbn [Double.mul].
  (* mean times modifier *)
  assert (HX1 : (0.7 * M <= M * m <= 1.05 * M)%Q) by (split; nra).
  destruct (within_round (n + 2 + 1) (M * m) (a * m')) as (a1 & -> & Ha1).
  { split; lra. }
  { apply small_count. lia. }
  { apply within_mul; [lra | lra | exact Haw | exact Hmw]. }
  cbn [Double.mul].
  (* times the factor *)
  assert (HX2 : (0.63 * M <= M * m * f <= 1.155 * M)%Q) by (split; nra).
  destruct (within_round (S (n + 2 + 1) + 4) (M * m * f) (a1 * f'))
    as (a2 & -> & Ha2).
  { split; lra. }
  { apply small_count. lia. }
  { apply within_mul; [lra | lra | exact Ha1 | exact Hfw]. }
  (* divided by ten *)
  cbn [Double.div].
  change (Qeq_bool 10 0) with false. cbv iota.
  assert (Hrawdef : (M * m * f == M * m * f)%Q) by reflexivity.
  set (raw := (M * m * f)%Q) in HX2, Ha2, Hrawdef at 1 |- *. clearbody raw.
  destruct (within_round (S (S (n + 2 + 1) + 4)) (raw / 10) (a2 / 10))
    as (q10 & -> & Hq10).
  { assert (raw / 10 == raw * (1 # 10))%Q as -> by (field). split; lra. }
  { apply small_count. lia. }
  { apply within_div; [reflexivity | exact Ha2]. }
  (* rounded to an integer, times ten *)
  cbn [Double.Math_round Double.mul].
  set (k := Math_round q10).
  assert (Hraw10 : (raw / 10 == raw * (1 # 10))%Q) by field.
  assert (Hcount : (2 * inject_Z (Z.of_nat (S (S (S (n + 2 + 1) + 4))))
                    * unitRoundoff <= 1)%Q) by (apply small_count; lia).
  assert (Hraw0 : (0 <= raw / 10)%Q) by (rewrite Hraw10; lra).
  pose proof (within_error _ _ _ Hraw0 Hcount Hq10) as Herr.
  pose proof (within_nonneg _ _ _ Hraw0 Hq10) as Hq0.
  destruct (Math_round_bounds q10) as [Hkl Hkh]. fold k in Hkl, Hkh.
  apply Qabs_Qle_condition in Herr.
  assert (Hk0 : 0 <= k).
  { assert (H : (inject_Z (-1) < inject_Z k)%Q).
    { change (inject_Z (-1)) with (-1)%Q. lra. }
    rewrite <- Zlt_Qlt in H. lia. }
  assert (Hcnt : (inject_Z (Z.of_nat (S (S (S (n + 2 + 1) + 4))))
                  == inject_Z (Z.of_nat n) + 10)%Q).
  { assert (Z.of_nat (S (S (S (n + 2 + 1) + 4))) = Z.of_nat n + 10) as -> by lia.
    rewrite inject_Z_plus. reflexivity. }
  assert (Hbe : (2 * inject_Z (Z.of_nat (S (S (S (n + 2 + 1) + 4))))
                 * unitRoundoff == bankerError n)%Q).
  { unfold bankerError. rewrite Hcnt. ring. }
  rewrite Hbe in Herr, Hcount.
  assert (Hbig : k * 10 < 2 ^ 53).
  { assert (H : (inject_Z k < inject_Z 300000000000000)%Q).
    { assert (raw / 10 * bankerError n <= raw / 10 * 1)%Q
        by (apply Qmult_le_l'; lra).
      assert (E15 : (inject_Z (10 ^ 15) == 1000000000000000)%Q) by reflexivity.
      rewrite E15 in Hmh.
      change (inject_Z 300000000000000) with 300000000000000%Q. lra. }
    rewrite <- Zlt_Qlt in H.
    assert (E2 : 2 ^ 53 = 9007199254740992) by reflexivity.
    rewrite E2. lia. }
  exists k. split; [reflexivity|].
  split.
  - apply round_int; [now rewrite inject_Z_mult | lia].
  - split; [exact Hk0|].
    rewrite inject_Z_mult. change (inject_Z 10) with 10%Q.
    apply Qabs_Qle_condition.
    assert (E : (raw / 10 * bankerError n * 10 == raw * bankerError n)%Q)
      by field.
    split; lra.
Qed.

(** Two offers on ladder values: the exact products are 1925 and
    28785, the computed ones lie just below them. *)
Example getBankerOffer_samples :
  getBankerOffer [500; 5000]%Q 1 0.5 = Double.Fin 1920
  /\ getBankerOffer [250; 750; 100000]%Q 4 0 = Double.Fin 28780.
Proof. split; vm_compute; reflexivity. Qed.

(** C3: on a non-empty list of amounts and a round [r >= 1] the offer
    is a multiple of ten that lies within 5, and a relative rounding
    error of [(n + 10) * 2^-52] for [n] values, of the mean of the
    remaining values times the round modifier times a factor [f] in
    [0.90, 1.10]: the nearest ten of what double precision makes of that
    product; on the empty list it is 0.  [u] is the draw of
    [Math.random()], in [0, 1). *)
Theorem getBankerOffer_spec (remainingValues : list Q) (r : Z) (u : Q) :
  remainingValues <> [] -> Forall amount remainingValues ->
  Z.of_nat (length remainingValues) < 2 ^ 32 ->
  1 <= r -> (0 <= u < 1)%Q ->
  (exists f m k,
      (0.90 <= f <= 1.10)%Q
      /\ spec_modifier r = Some m
      /\ getBankerOffer remainingValues r u = Double.Fin (inject_Z (k * 10))
      /\ (Qabs (inject_Z (k * 10) - mean remainingValues * m * f)
          <= 5 + mean remainingValues * m * f
                 * bankerError (length remainingValues))%Q)
  /\ getBankerOffer [] r u = Double.Fin 0.
Proof.
  intros Hne Hl Hn Hr Hu. split; [|reflexivity].
  destruct (getBankerOffer_accuracy remainingValues r u Hne Hl Hn Hr Hu)
    as (m & k & Hm & Hk & _ & Herr).
  destruct (code_modifier_is_spec r Hr) as (m0 & m' & Hm0 & Hm' & Hmm).
  rewrite Hm in Hm0. injection Hm0 as <-.
  exists (0.9 + u * 0.2)%Q, m', k.
  split; [split; lra|]. split; [exact Hm'|]. split; [exact Hk|].
  rewrite <- Hmm. exact Herr.
Qed.

Lemma getBankerOffer_spec_witness :
  (exists f m k,
      (0.90 <= f <= 1.10)%Q
      /\ spec_modifier 1 = Some m
      /\ getBankerOffer [500; 5000]%Q 1 0.5 = Double.Fin (inject_Z (k * 10))
      /\ (Qabs (inject_Z (k * 10) - mean [500; 5000]%Q * m * f)
          <= 5 + mean [500; 5000]%Q * m * f
                 * bankerError (length [500; 5000]%Q))%Q)
  /\ getBankerOffer [] 1 0.5 = Double.Fin 0.
Proof.
  apply (getBankerOffer_spec [500; 5000]%Q 1 0.5).
  - discriminate.
  - repeat constructor; vm_compute; discriminate.
  - reflexivity.
  - lia.
  - split; [discriminate | reflexivity].
Defined.

(** The offer on one remaining value of 563.4920634920635 in round 1
    with the draw 0 is 350, although the exact product, 0.63 times the
    value, exceeds 355: 350 is not the nearest ten of the mean times the
    modifier times any factor in [0.90, 1.10]. *)
Lemma getBankerOffer_not_nearest :
  Double.round 563.4920634920635 = Double.Fin sample_double
  /\ getBankerOffer [sample_double] 1 0 = Double.Fin 350
  /\ ~ (exists f m k,
          (0.90 <= f <= 1.10)%Q
          /\ spec_modifier 1 = Some m
          /\ getBankerOffer [sample_double] 1 0 = Double.Fin k
          /\ nearest10 (mean [sample_double] * m * f) k).
Proof.
  assert (Hoffer : getBankerOffer [sample_double] 1 0 = Double.Fin 350)
    by (vm_compute; reflexivity).
  split; [vm_compute; reflexivity|]. split; [exact Hoffer|].
  intros (f & m & k & [Hf _] & Hm & Hk & _ & Hnear).
  rewrite Hoffer in Hk. injection Hk as <-.
  injection Hm as <-.
  apply Qabs_Qle_condition in Hnear. destruct Hnear as [Hnear _].
  assert (E : (mean [sample_double] == sample_double)%Q)
    by (vm_compute; reflexivity).
  rewrite E in Hnear.
  assert (Hd : (355 < sample_double * 0.70 * 0.90)%Q) by (vm_compute; reflexivity).
  assert (sample_double * 0.70 * 0.90 <= sample_double * 0.70 * f)%Q.
  { apply Qmult_le_l'; [vm_compute; discriminate | exact Hf]. }
  lra.
Qed.


(* ================================================================== *)
(** * Handlers that drop an event *)
(* ================================================================== *)

Lemma isPhase_true ph gs : isPhase ph gs = true <-> GameState.phase gs = ph.
Proof. unfold isPhase. destruct (GameState.phase gs), ph; split; congruence. Qed.

Lemma isPhase_false ph gs : isPhase ph gs = false <-> GameState.phase gs <> ph.
Proof.
  rewrite <- isPhase_true. destruct (isPhase ph gs); split; congruence.
Qed.

(** C10: once the quota of the round is met, an open-box event changes
    nothing: the whole server state of the room, timers included, is the
    one before the event. *)
Theorem on_open_box_quota_met (w : World) (playerId : string) (boxNumber : Z)
    (now : Z) (random : Q) :
  GameState.phase (gameState w) = Playing ->
  Z.of_nat (length (GameState.boxesOpenedThisRound (gameState w)))
    >= getBoxesToOpenForRound (GameState.currentRound (gameState w)) ->
  on_open_box w playerId boxNumber now random = w.
Proof.
  intros _ Hquota. unfold on_open_box.
  destruct (negb (isPhase Playing (gameState w))); [reflexivity|].
  destruct (negb (isCurrentTurn (gameState w) playerId)); [reflexivity|].
  destruct (getPlayer (gameState w) playerId) as [player|]; [|reflexivity].
  destruct (Player.hasDealt player || negb (isRolePlayer player));
    [reflexivity|].
  apply Z.ge_le, Z.geb_le in Hquota. now rewrite Hquota.
Qed.

Lemma on_open_box_quota_met_witness :
  on_open_box sample_quota_met_turn "H" 7 1000 0.5 = sample_quota_met_turn.
Proof.
  apply (on_open_box_quota_met sample_quota_met_turn "H" 7 1000 0.5).
  - reflexivity.
  - vm_compute. discriminate.
Defined.

(* ================================================================== *)
(** * The projected snapshot *)
(* ================================================================== *)

Lemma boxNumberIs_true n p : boxNumberIs n p = true <-> Player.boxNumber p = Some n.
Proof.
  unfold boxNumberIs. destruct (Player.boxNumber p) as [m|].
  - rewrite Z.eqb_eq. split; congruence.
  - split; discriminate.
Qed.

(** C6: in the snapshot built for any recipient, the entry of a box
    carries no value while the box is closed and the value of the box once
    it is opened, and it is flagged as the recipient's box exactly when the
    recipient is a player of the room whose box number is that of the box. *)
Theorem createGameStateUpdate_boxes (gs : GameState) (forPlayerId : string)
    (recentlyOpenedBox : option (Z * Q)) (i : nat) (box : Box) :
  GameState.boxes gs !! i = Some box ->
  exists info,
    GameStateUpdate.boxes
      (createGameStateUpdate gs forPlayerId recentlyOpenedBox) !! i = Some info
    /\ BoxPublicInfo.number info = Box.number box
    /\ BoxPublicInfo.isOpened info = Box.isOpened box
    /\ BoxPublicInfo.value info
       = (if Box.isOpened box then Some (Box.value box) else None)
    /\ (BoxPublicInfo.isPlayerBox info = true <->
        exists recipient,
          getPlayer gs forPlayerId = Some recipient
          /\ Player.boxNumber recipient = Some (Box.number box)).
Proof.
  intros Hbox. unfold createGameStateUpdate. simpl.
  rewrite list_lookup_fmap, Hbox. simpl.
  eexists. split; [reflexivity|]. simpl.
  repeat split; unfold getPlayer.
  - destruct (playersGet (GameState.players gs) forPlayerId) as [cp|];
      [|discriminate].
    intros H. exists cp. split; [reflexivity|]. now apply boxNumberIs_true.
  - intros (cp & -> & H). now apply boxNumberIs_true.
Qed.

Lemma createGameStateUpdate_boxes_witness :
  exists info,
    GameStateUpdate.boxes
      (createGameStateUpdate (gameState sample_offer) "J" None) !! 19%nat
    = Some info
    /\ BoxPublicInfo.number info = 20
    /\ BoxPublicInfo.isOpened info = false
    /\ BoxPublicInfo.value info = None
    /\ (BoxPublicInfo.isPlayerBox info = true <->
        exists recipient,
          getPlayer (gameState sample_offer) "J" = Some recipient
          /\ Player.boxNumber recipient = Some 20).
Proof.
  apply (createGameStateUpdate_boxes (gameState sample_offer) "J" None 19
           (Box.mk 20 3000 false None)).
  reflexivity.
Defined.

(* ================================================================== *)
(** * Offer eligibility *)
(* ================================================================== *)

Lemma existsb_eqb_In (x : string) (l : list string) :
  existsb (String.eqb x) l = true <-> In x l.
Proof.
  rewrite existsb_exists. split.
  - intros (y & Hy & Heq). apply String.eqb_eq in Heq. now subst.
  - intros H. exists x. split; [assumption | apply String.eqb_refl].
Qed.

Lemma isActivePlayer_spec p :
  isActivePlayer p = true <->
  Player.role p = RolePlayer /\ Player.boxNumber p <> None
  /\ Player.hasDealt p = false.
Proof.
  unfold isActivePlayer, isRolePlayer, hasBoxNumber.
  destruct (Player.role p), (Player.boxNumber p), (Player.hasDealt p);
    simpl; split; try discriminate; try (intros (? & ? & ?); congruence);
    intros _; repeat split; discriminate.
Qed.

Lemma triggerBankerOffer_offer w now random :
  getLastActivePlayer (gameState w) = None ->
  checkGameEnd (gameState w) = false ->
  let gs := gameState w in
  gameState (triggerBankerOffer w now random)
  = GameState.set_turnExpiresAt None
      (GameState.set_currentTurnPlayerId None
      (GameState.set_offerResponses ∅
      (GameState.set_offerEligiblePlayerIds (map Player.id (activePlayers gs))
      (GameState.set_offerExpiresAt (Some (now + OFFER_TIMEOUT_MS))
      (GameState.set_currentOffer
         (Some (storedAmount
                  (calculateBankerOffer (GameState.remainingValues gs)
                     (GameState.currentRound gs) random)))
      (GameState.set_phase Offer gs)))))).
Proof.
  intros Hlast Hend. unfold triggerBankerOffer. simpl.
  now rewrite Hlast, Hend.
Qed.

(** C7: whenever the banker makes an offer, the eligible ids are exactly
    the ids of the players that are contestants with a box and have not
    dealt at that moment; and a deal-response from a player outside that
    list, or from one whose answer is already recorded, leaves the server
    state as it was, so that a response is only ever recorded for an
    eligible player without an answer. *)
Theorem offer_eligibility (w : World) (playerId : string) (accepted : bool)
    (now : Z) (random : Q) :
  (getLastActivePlayer (gameState w) = None ->
   checkGameEnd (gameState w) = false ->
   let offered := gameState (triggerBankerOffer w now random) in
   GameState.phase offered = Offer
   /\ GameState.offerEligiblePlayerIds offered
      = map Player.id (List.filter isActivePlayer (GameState.players (gameState w)))
   /\ forall pid,
        In pid (GameState.offerEligiblePlayerIds offered) <->
        exists p, In p (GameState.players (gameState w))
                  /\ Player.id p = pid
                  /\ Player.role p = RolePlayer
                  /\ Player.boxNumber p <> None
                  /\ Player.hasDealt p = false)
  /\ (~ In playerId (GameState.offerEligiblePlayerIds (gameState w))
      \/ GameState.offerResponses (gameState w) !! playerId <> None ->
      on_deal_response w playerId accepted now random = w)
  /\ (on_deal_response w playerId accepted now random <> w ->
      In playerId (GameState.offerEligiblePlayerIds (gameState w))
      /\ GameState.offerResponses (gameState w) !! playerId = None).
Proof.
  assert (Hdrop :
    ~ In playerId (GameState.offerEligiblePlayerIds (gameState w))
    \/ GameState.offerResponses (gameState w) !! playerId <> None ->
    on_deal_response w playerId accepted now random = w).
  { intros Hcase. unfold on_deal_response.
    destruct (negb (isPhase Offer (gameState w))); [reflexivity|].
    destruct (getPlayer (gameState w) playerId) as [player|]; [|reflexivity].
    destruct (Player.hasDealt player || negb (isRolePlayer player));
      [reflexivity|].
    case_bool_decide as Hresp; [reflexivity|].
    destruct Hcase as [Hnot | Hsome].
    - destruct (existsb _ _) eqn:E; [|reflexivity].
      apply existsb_eqb_In in E. contradiction.
    - exfalso. apply Hresp.
      destruct (GameState.offerResponses (gameState w) !! playerId);
        [eauto | congruence]. }
  split; [|split; [exact Hdrop|]].
  - intros Hlast Hend offered. subst offered.
    rewrite (triggerBankerOffer_offer w now random Hlast Hend). simpl.
    split; [reflexivity|]. split; [reflexivity|].
    intros pid. unfold activePlayers. rewrite in_map_iff. split.
    + intros (p & Hid & Hin). apply filter_In in Hin as [Hin Hact].
      apply isActivePlayer_spec in Hact. exists p. tauto.
    + intros (p & Hin & Hid & Hact). exists p. split; [assumption|].
      apply filter_In. split; [assumption|]. now apply isActivePlayer_spec.
  - intros Hchanged.
    destruct (in_dec String.string_dec playerId
                (GameState.offerEligiblePlayerIds (gameState w))) as [Hin|Hnin].
    + split; [assumption|].
      destruct (GameState.offerResponses (gameState w) !! playerId) eqn:E;
        [|reflexivity].
      exfalso. apply Hchanged, Hdrop. right. congruence.
    + exfalso. apply Hchanged, Hdrop. now left.
Qed.


(* ================================================================== *)
(** * Arrays and maps *)
(* ================================================================== *)

Section ListPrimitives.
Context {A : Type}.
Implicit Types (test : A -> bool) (f : A -> A) (l : list A).

Lemma indexOfFrom_found test l i :
  0 <= i -> (indexOfFrom test l i >? -1) = existsb test l.
Proof.
  revert i. induction l as [|x l IH]; intros i Hi; simpl.
  - reflexivity.
  - destruct (test x); simpl; [lia|]. apply IH. lia.
Qed.

Lemma indexOf_found test l : (indexOf test l >? -1) = existsb test l.
Proof. apply indexOfFrom_found. lia. Qed.

Lemma removeFirst_absent test l : existsb test l = false -> removeFirst test l = l.
Proof.
  induction l as [|x l IH]; simpl; [reflexivity|].
  destruct (test x); simpl; [discriminate|]. intros H. now rewrite IH.
Qed.

Lemma removeFirst_present test l :
  existsb test l = true ->
  exists x, In x l /\ test x = true /\ Permutation l (x :: removeFirst test l).
Proof.
  induction l as [|y l IH]; simpl; [discriminate|].
  destruct (test y) eqn:Hy; simpl.
  - intros _. exists y. auto.
  - intros H. destruct (IH H) as (x & Hin & Hx & Hperm).
    exists x. repeat split; auto.
    etransitivity; [apply perm_skip, Hperm | apply perm_swap].
Qed.

Lemma updateFirst_absent test f l : List.find test l = None -> updateFirst test f l = l.
Proof.
  induction l as [|x l IH]; simpl; [reflexivity|].
  destruct (test x); [discriminate|]. intros H. now rewrite IH.
Qed.

Lemma updateFirst_split test f l x :
  List.find test l = Some x ->
  exists l1 l2,
    l = l1 ++ x :: l2 /\ test x = true
    /\ Forall (fun y => test y = false) l1
    /\ updateFirst test f l = l1 ++ f x :: l2.
Proof.
  induction l as [|y l IH]; simpl; [discriminate|].
  destruct (test y) eqn:Hy.
  - intros [= ->]. exists [], l. auto.
  - intros H. destruct (IH H) as (l1 & l2 & -> & Hx & Hall & Hupd).
    exists (y :: l1), l2. rewrite Hupd. auto.
Qed.

Lemma updateFirst_map {B} (g : A -> B) test f l :
  (forall x, g (f x) = g x) -> map g (updateFirst test f l) = map g l.
Proof.
  intros Hg. induction l as [|x l IH]; simpl; [reflexivity|].
  destruct (test x); simpl; [now rewrite Hg | now rewrite IH].
Qed.

Lemma updateFirst_Forall2 (R : A -> A -> Prop) test f l :
  (forall x, R x x) -> (forall x, R x (f x)) ->
  Forall2 R l (updateFirst test f l).
Proof.
  intros Hrefl Hf. induction l as [|x l IH]; simpl; [constructor|].
  destruct (test x); constructor; auto.
  clear IH. induction l; constructor; auto.
Qed.

Lemma Forall2_map_self (R : A -> A -> Prop) f l :
  (forall x, R x (f x)) -> Forall2 R l (map f l).
Proof. intros Hf. induction l; simpl; constructor; auto. Qed.

End ListPrimitives.

(* ================================================================== *)
(** * The value ladder *)
(* ================================================================== *)

Lemma BOX_VALUES_NoDup : List.NoDup BOX_VALUES.
Proof.
  unfold BOX_VALUES.
  repeat (constructor; [intros Hin; simpl in Hin;
    repeat (destruct Hin as [Hin|Hin]; [discriminate Hin|]); exact Hin|]).
  constructor.
Qed.

(** Two ladder values that are equal as numbers are the same value. *)
Lemma BOX_VALUES_canonical x y :
  In x BOX_VALUES -> In y BOX_VALUES -> Qeq_bool x y = true -> x = y.
Proof.
  intros Hx Hy. unfold BOX_VALUES in Hx, Hy. simpl in Hx, Hy.
  repeat (destruct Hx as [<-|Hx]);
    try contradiction;
    repeat (destruct Hy as [<-|Hy]); try contradiction;
    intros H; first [reflexivity | discriminate H].
Qed.

(* ================================================================== *)
(** * Players *)
(* ================================================================== *)

Lemma hasId_true pid p : hasId pid p = true <-> Player.id p = pid.
Proof. unfold hasId. apply String.eqb_eq. Qed.

Lemma playersGet_In players pid p :
  playersGet players pid = Some p -> In p players /\ Player.id p = pid.
Proof.
  intros H. apply find_some in H as [Hin Hid]. now apply hasId_true in Hid.
Qed.

Lemma playersGet_None players pid :
  playersGet players pid = None -> ~ In pid (map Player.id players).
Proof.
  intros H Hin. apply in_map_iff in Hin as (p & Hid & Hin).
  apply (find_none _ _ H) in Hin. apply hasId_true in Hid. congruence.
Qed.

Lemma playersGet_NoDup players p :
  List.NoDup (map Player.id players) -> In p players ->
  playersGet players (Player.id p) = Some p.
Proof.
  induction players as [|q players IH]; simpl; intros Hnd Hin; [contradiction|].
  inversion Hnd as [|? ? Hnotin Hnd']; subst.
  unfold playersGet. simpl. destruct (hasId (Player.id p) q) eqn:Hq.
  - apply hasId_true in Hq. destruct Hin as [->|Hin]; [reflexivity|].
    exfalso. apply Hnotin. rewrite Hq. now apply in_map.
  - destruct Hin as [->|Hin].
    + unfold hasId in Hq. rewrite String.eqb_refl in Hq. discriminate.
    + now apply IH.
Qed.

Lemma sameSeat_refl p : sameSeat p p.
Proof. unfold sameSeat. auto. Qed.

Lemma sameSeat_trans p q r : sameSeat p q -> sameSeat q r -> sameSeat p r.
Proof. unfold sameSeat. intros (?&?&?&?) (?&?&?&?). repeat split; try congruence; auto. Qed.

Lemma sameSeat_active p p' :
  sameSeat p p' -> isActivePlayer p' = true -> isActivePlayer p = true.
Proof.
  unfold sameSeat, isActivePlayer, isRolePlayer, hasBoxNumber.
  intros (_ & -> & -> & Hd).
  destruct (Player.role p), (Player.boxNumber p), (Player.hasDealt p),
    (Player.hasDealt p'); simpl; auto; try discriminate.
Qed.

Lemma sameSeat_contestant p p' :
  sameSeat p p' -> isContestant p' = isContestant p.
Proof.
  unfold sameSeat, isContestant, isRolePlayer, hasBoxNumber.
  now intros (_ & -> & -> & _).
Qed.

Lemma seats_ids players players' :
  Forall2 sameSeat players players' ->
  map Player.id players' = map Player.id players.
Proof.
  induction 1 as [|p p' l l' (Hid & _) _ IH]; simpl; [reflexivity|].
  now rewrite Hid, IH.
Qed.

Lemma seats_In players players' p' :
  Forall2 sameSeat players players' -> In p' players' ->
  exists p, In p players /\ sameSeat p p'.
Proof.
  induction 1 as [|p q l l' Hs _ IH]; simpl; [contradiction|].
  intros [<-|Hin]; [eauto|].
  destruct (IH Hin) as (p0 & ? & ?). eauto.
Qed.

Lemma seats_get players players' pid p :
  Forall2 sameSeat players players' ->
  playersGet players pid = Some p ->
  exists p', playersGet players' pid = Some p' /\ sameSeat p p'.
Proof.
  unfold playersGet.
  induction 1 as [|p0 q l l' Hs _ IH]; simpl; [discriminate|].
  assert (hasId pid q = hasId pid p0) as ->.
  { unfold hasId. destruct Hs as (-> & _). reflexivity. }
  destruct (hasId pid p0); [intros [= <-]; eauto | exact IH].
Qed.

Lemma seats_refl players : Forall2 sameSeat players players.
Proof. induction players; constructor; auto using sameSeat_refl. Qed.

Lemma seats_updateFirst test f players :
  (forall p, sameSeat p (f p)) ->
  Forall2 sameSeat players (updateFirst test f players).
Proof. intros. apply updateFirst_Forall2; auto using sameSeat_refl. Qed.

Lemma seats_map f players :
  (forall p, sameSeat p (f p)) -> Forall2 sameSeat players (map f players).
Proof. intros. now apply Forall2_map_self. Qed.

(* ================================================================== *)
(** * Well-formedness is preserved: updates that touch no box *)
(* ================================================================== *)

Lemma wf_frame gs gs' :
  wellFormed gs ->
  GameState.boxes gs' = GameState.boxes gs ->
  GameState.remainingValues gs' = GameState.remainingValues gs ->
  GameState.eliminatedValues gs' = GameState.eliminatedValues gs ->
  Forall2 sameSeat (GameState.players gs) (GameState.players gs') ->
  (forall pid, In pid (GameState.offerEligiblePlayerIds gs') ->
     In pid (GameState.offerEligiblePlayerIds gs)
     \/ exists p, In p (GameState.players gs) /\ Player.id p = pid
                  /\ isContestant p = true) ->
  (inLobby gs' -> inLobby gs) ->
  wellFormed gs'.
Proof.
  intros [Hnum Hval [Hpart Helim] Hids Hown Huniq Hclosed Hlobby Helig]
    Hb Hr He Hseats Hel Hph.
  constructor.
  - now rewrite Hb.
  - now rewrite Hb.
  - unfold partitioned. now rewrite Hb, Hr, He.
  - now rewrite (seats_ids _ _ Hseats).
  - intros p' n Hin Hbox.
    destruct (seats_In _ _ _ Hseats Hin) as (p & Hp & (_ & Hrole & Hbn & _)).
    rewrite Hrole. apply Hown; [assumption | congruence].
  - intros p' q' n Hp' Hq' Hbp Hbq.
    destruct (seats_In _ _ _ Hseats Hp') as (p & Hp & (Hidp & _ & Hbnp & _)).
    destruct (seats_In _ _ _ Hseats Hq') as (q & Hq & (Hidq & _ & Hbnq & _)).
    rewrite Hidp, Hidq. apply (Huniq p q n); congruence.
  - intros p' n b Hp' Hact Hbn Hin Hn. rewrite Hb in Hin.
    destruct (seats_In _ _ _ Hseats Hp') as (p & Hp & Hs).
    apply (Hclosed p n b); auto.
    + eapply sameSeat_active; eauto.
    + destruct Hs as (_ & _ & Hbn' & _). congruence.
  - intros Hl. unfold boxesClosed. rewrite Hb. apply Hlobby. auto.
  - intros pid Hin. unfold getPlayer.
    assert (exists p, playersGet (GameState.players gs) pid = Some p
                      /\ isContestant p = true) as (p & Hget & Hc).
    { destruct (Hel pid Hin) as [Hold | (p & Hp & Hid & Hc)].
      - apply Helig. assumption.
      - exists p. split; [|assumption]. subst pid.
        now apply playersGet_NoDup. }
    destruct (seats_get _ _ _ _ Hseats Hget) as (p' & Hget' & Hs).
    exists p'. split; [assumption|].
    now rewrite (sameSeat_contestant _ _ Hs).
Qed.

(* ================================================================== *)
(** * Boxes and values *)
(* ================================================================== *)

Lemma findBox_In gs n b :
  findBox gs (Some n) = Some b -> In b (GameState.boxes gs) /\ Box.number b = n.
Proof.
  simpl. intros H. apply find_some in H as [Hin Hn].
  apply Z.eqb_eq in Hn. auto.
Qed.

Lemma find_number_exists (boxes : list Box) n :
  In n (map Box.number boxes) ->
  exists b, List.find (fun b => Box.number b =? n) boxes = Some b.
Proof.
  induction boxes as [|b boxes IH]; simpl; [contradiction|].
  destruct (Z.eqb_spec (Box.number b) n) as [|Hne]; [eauto|].
  intros [?|Hin]; [contradiction | auto].
Qed.

Lemma wf_findBox gs n :
  wellFormed gs -> 1 <= n <= 20 -> exists b, findBox gs (Some n) = Some b.
Proof.
  intros Hwf Hn. simpl. apply find_number_exists.
  rewrite (wf_box_numbers _ Hwf). apply in_map_iff.
  exists (Z.to_nat n). split; [lia|]. apply in_seq. simpl. lia.
Qed.

Lemma NoDup_map_inj {A B} (f : A -> B) (l : list A) x y :
  List.NoDup (map f l) -> In x l -> In y l -> f x = f y -> x = y.
Proof.
  induction l as [|a l IH]; simpl; [contradiction|].
  intros Hnd Hx Hy Hf. inversion Hnd as [|? ? Hnotin Hnd']; subst.
  destruct Hx as [->|Hx], Hy as [->|Hy]; auto.
  - exfalso. apply Hnotin. rewrite Hf. now apply in_map.
  - exfalso. apply Hnotin. rewrite <- Hf. now apply in_map.
Qed.

Lemma filter_partition_perm {A} (f : A -> bool) (l : list A) :
  Permutation l (List.filter f l ++ List.filter (fun x => negb (f x)) l).
Proof.
  induction l as [|x l IH]; simpl; [constructor|].
  destruct (f x); simpl.
  - now constructor.
  - etransitivity; [apply perm_skip, IH|]. apply Permutation_middle.
Qed.

Lemma wf_remaining_closed gs :
  wellFormed gs ->
  Permutation (GameState.remainingValues gs)
    (map Box.value
       (List.filter (fun b => negb (Box.isOpened b)) (GameState.boxes gs))).
Proof.
  intros Hwf. destruct (wf_partitioned _ Hwf) as [Hpart Helim].
  pose proof (wf_box_values _ Hwf) as Hval.
  apply (Permutation_app_inv_r (GameState.eliminatedValues gs)).
  rewrite Hpart, <- Hval.
  rewrite (filter_partition_perm Box.isOpened (GameState.boxes gs)) at 1.
  rewrite map_app, Helim. apply Permutation_app_comm.
Qed.

Lemma wf_closed_value gs b :
  wellFormed gs -> In b (GameState.boxes gs) -> Box.isOpened b = false ->
  In (Box.value b) (GameState.remainingValues gs).
Proof.
  intros Hwf Hin Hc.
  eapply Permutation_in; [symmetry; apply wf_remaining_closed; assumption|].
  apply in_map, filter_In. split; [assumption|]. now rewrite Hc.
Qed.

Lemma wf_opened_value gs b :
  wellFormed gs -> In b (GameState.boxes gs) -> Box.isOpened b = true ->
  In (Box.value b) (GameState.eliminatedValues gs).
Proof.
  intros Hwf Hin Ho. destruct (wf_partitioned _ Hwf) as [_ Helim].
  eapply Permutation_in; [symmetry; exact Helim|].
  apply in_map, filter_In. auto.
Qed.

Lemma wf_remaining_ladder gs v :
  wellFormed gs -> In v (GameState.remainingValues gs) -> In v BOX_VALUES.
Proof.
  intros Hwf Hin. destruct (wf_partitioned _ Hwf) as [Hpart _].
  eapply Permutation_in; [exact Hpart|]. apply in_or_app. auto.
Qed.

Lemma wf_values_disjoint gs v :
  wellFormed gs -> In v (GameState.remainingValues gs) ->
  In v (GameState.eliminatedValues gs) -> False.
Proof.
  intros Hwf Hr He. destruct (wf_partitioned _ Hwf) as [Hpart _].
  assert (Hnd : List.NoDup
            (GameState.remainingValues gs ++ GameState.eliminatedValues gs)).
  { eapply Permutation_NoDup; [symmetry; exact Hpart | apply BOX_VALUES_NoDup]. }
  revert Hnd Hr. generalize (GameState.remainingValues gs) as l.
  induction l as [|x l IH]; simpl; [contradiction|].
  intros Hnd [->|Hin]; inversion Hnd; subst; [|auto].
  match goal with H : ~ In _ _ |- _ => apply H end. apply in_or_app. auto.
Qed.

Lemma Qeq_bool_refl' (v : Q) : Qeq_bool v v = true.
Proof. apply Qeq_bool_iff. reflexivity. Qed.

Lemma existsb_Qeq_ladder (v : Q) (l : list Q) :
  (forall x, In x l -> In x BOX_VALUES) -> In v BOX_VALUES ->
  existsb (Qeq_bool v) l = true <-> In v l.
Proof.
  intros Hl Hv. rewrite existsb_exists. split.
  - intros (x & Hx & Heq).
    now rewrite (BOX_VALUES_canonical v x Hv (Hl x Hx) Heq).
  - intros Hin. exists v. split; [assumption | apply Qeq_bool_refl'].
Qed.

Lemma eliminateValue_present gs v :
  (forall x, In x (GameState.remainingValues gs) -> In x BOX_VALUES) ->
  In v BOX_VALUES -> In v (GameState.remainingValues gs) ->
  Permutation (GameState.remainingValues gs)
    (v :: GameState.remainingValues (eliminateValue v gs))
  /\ GameState.eliminatedValues (eliminateValue v gs)
     = GameState.eliminatedValues gs ++ [v].
Proof.
  intros Hl Hv Hin. unfold eliminateValue. rewrite indexOf_found.
  assert (Hex : existsb (Qeq_bool v) (GameState.remainingValues gs) = true)
    by now apply existsb_Qeq_ladder.
  rewrite Hex. simpl. split; [|reflexivity].
  destruct (removeFirst_present _ _ Hex) as (x & Hx & Heq & Hperm).
  assert (x = v) as -> by (symmetry; now apply BOX_VALUES_canonical; auto).
  exact Hperm.
Qed.

Lemma eliminateValue_absent gs v :
  (forall x, In x (GameState.remainingValues gs) -> In x BOX_VALUES) ->
  In v BOX_VALUES -> ~ In v (GameState.remainingValues gs) ->
  eliminateValue v gs = gs.
Proof.
  intros Hl Hv Hnin. unfold eliminateValue. rewrite indexOf_found.
  destruct (existsb _ _) eqn:Hex; [|reflexivity].
  apply existsb_Qeq_ladder in Hex; auto. contradiction.
Qed.

(** The fields that [eliminateValue] leaves alone. *)
Lemma eliminateValue_boxes v gs :
  GameState.boxes (eliminateValue v gs) = GameState.boxes gs.
Proof. unfold eliminateValue. now destruct (_ >? _). Qed.

Lemma eliminateValue_players v gs :
  GameState.players (eliminateValue v gs) = GameState.players gs.
Proof. unfold eliminateValue. now destruct (_ >? _). Qed.

Lemma eliminateValue_eligible v gs :
  GameState.offerEligiblePlayerIds (eliminateValue v gs)
  = GameState.offerEligiblePlayerIds gs.
Proof. unfold eliminateValue. now destruct (_ >? _). Qed.

Lemma eliminateValue_phase v gs :
  GameState.phase (eliminateValue v gs) = GameState.phase gs.
Proof. unfold eliminateValue. now destruct (_ >? _). Qed.

Lemma eliminateValue_values v gs gs0 :
  GameState.remainingValues gs = GameState.remainingValues gs0 ->
  GameState.eliminatedValues gs = GameState.eliminatedValues gs0 ->
  GameState.remainingValues (eliminateValue v gs)
  = GameState.remainingValues (eliminateValue v gs0)
  /\ GameState.eliminatedValues (eliminateValue v gs)
     = GameState.eliminatedValues (eliminateValue v gs0).
Proof.
  intros Hr He. unfold eliminateValue. rewrite Hr.
  destruct (_ >? _); simpl; rewrite ?He; auto.
Qed.

Lemma opened_values_after (boxes : list Box) n pid b :
  List.find (fun b => Box.number b =? n) boxes = Some b ->
  let boxes' :=
    updateFirst (fun b => Box.number b =? n) (openBoxObject pid) boxes in
  map Box.number boxes' = map Box.number boxes
  /\ map Box.value boxes' = map Box.value boxes
  /\ (Box.isOpened b = false ->
      Permutation (map Box.value (List.filter Box.isOpened boxes'))
        (Box.value b :: map Box.value (List.filter Box.isOpened boxes)))
  /\ (Box.isOpened b = true ->
      map Box.value (List.filter Box.isOpened boxes')
      = map Box.value (List.filter Box.isOpened boxes))
  /\ (forall b', In b' boxes' -> b' = openBoxObject pid b \/ In b' boxes).
Proof.
  intros Hfind boxes'. subst boxes'.
  split; [now apply updateFirst_map|]. split; [now apply updateFirst_map|].
  destruct (updateFirst_split _ (openBoxObject pid) _ _ Hfind)
    as (l1 & l2 & -> & Hb & Hl1 & ->).
  rewrite !List.filter_app, !map_app. simpl.
  split; [|split].
  - intros Hc. rewrite Hc. symmetry. apply Permutation_middle.
  - intros Ho. now rewrite Ho.
  - intros b' Hin. apply in_app_or in Hin as [Hin|[<-|Hin]].
    + right. apply in_or_app. auto.
    + now left.
    + right. apply in_or_app. simpl. auto.
Qed.

(* ================================================================== *)
(** * Well-formedness is preserved: opening a box *)
(* ================================================================== *)

Lemma wf_box_in_ladder gs b :
  wellFormed gs -> In b (GameState.boxes gs) -> In (Box.value b) BOX_VALUES.
Proof.
  intros Hwf Hin. eapply Permutation_in; [apply (wf_box_values _ Hwf)|].
  now apply in_map.
Qed.

Lemma wf_open gs n pid b :
  wellFormed gs ->
  findBox gs (Some n) = Some b ->
  (forall q, In q (GameState.players gs) -> isActivePlayer q = true ->
     Player.boxNumber q <> Some n) ->
  ~ inLobby gs ->
  wellFormed (eliminateValue (Box.value b) (markBoxOpened n pid gs)).
Proof.
  intros Hwf Hfind Hfree Hnl.
  pose proof Hfind as Hfind'. simpl in Hfind'.
  destruct (findBox_In _ _ _ Hfind) as [Hin Hn].
  destruct (opened_values_after _ _ pid _ Hfind')
    as (Hnums & Hvals & Hclosed_case & Hopen_case & Hboxes').
  pose proof (wf_box_in_ladder _ _ Hwf Hin) as Hladder.
  destruct Hwf as [Hnum Hval [Hpart Helim] Hids Hown Huniq Hclosed Hlobby Helig].
  assert (Hwf : wellFormed gs) by (constructor; auto; split; auto).
  constructor.
  - rewrite eliminateValue_boxes. simpl. now rewrite Hnums.
  - rewrite eliminateValue_boxes. simpl. now rewrite Hvals.
  - unfold partitioned. rewrite eliminateValue_boxes.
    destruct (eliminateValue_values (Box.value b) (markBoxOpened n pid gs) gs
                eq_refl eq_refl) as [-> ->].
    simpl GameState.boxes.
    destruct (Box.isOpened b) eqn:Hb.
    + assert (Hnin : ~ In (Box.value b) (GameState.remainingValues gs)).
      { intros Hr. eapply wf_values_disjoint; eauto.
        now apply wf_opened_value. }
      rewrite (eliminateValue_absent gs (Box.value b));
        [| intros x; now apply wf_remaining_ladder | exact Hladder | exact Hnin].
      rewrite (Hopen_case eq_refl). auto.
    + destruct (eliminateValue_present gs (Box.value b)) as [Hrem ->];
        [intros x; now apply wf_remaining_ladder | exact Hladder
        | now apply wf_closed_value |].
      split.
      * rewrite <- Hpart, Hrem at 1. rewrite app_assoc.
        rewrite <- Permutation_cons_append. reflexivity.
      * rewrite (Hclosed_case eq_refl), <- Helim.
        symmetry. apply Permutation_cons_append.
  - now rewrite eliminateValue_players.
  - rewrite eliminateValue_players. exact Hown.
  - rewrite eliminateValue_players. exact Huniq.
  - rewrite eliminateValue_players, eliminateValue_boxes. simpl.
    intros p m b' Hp Hact Hbn Hb' Hm.
    destruct (Hboxes' b' Hb') as [-> | Hold].
    + exfalso. apply (Hfree p Hp Hact). simpl in Hm. congruence.
    + eapply Hclosed; eauto.
  - intros Hl. exfalso. apply Hnl. unfold inLobby in *.
    now rewrite eliminateValue_phase in Hl.
  - rewrite eliminateValue_eligible. unfold getPlayer.
    rewrite eliminateValue_players. exact Helig.
Qed.


(* ================================================================== *)
(** * Well-formedness is preserved by the engine *)
(* ================================================================== *)

Lemma inLobby_phase gs gs' :
  GameState.phase gs' = GameState.phase gs -> inLobby gs' -> inLobby gs.
Proof. unfold inLobby. now intros ->. Qed.

Ltac not_lobby :=
  let H := fresh in
  intros H; exfalso; destruct H as [H|H]; simpl in H; congruence.

Ltac keep_eligible := let pid := fresh in let H := fresh in
  intros pid H; simpl in H; first [contradiction | left; exact H].

(** Close [wellFormed gs'] from [H : wellFormed gs] when no box changes;
    leaves the seats, eligibility and lobby conditions when they are not
    immediate. *)
Ltac frame H :=
  eapply (wf_frame _ _ H); simpl;
  [ reflexivity | reflexivity | reflexivity
  | try apply seats_refl
  | try keep_eligible
  | try (first [not_lobby | apply inLobby_phase; reflexivity | tauto]) ].

Lemma seat_points v p : sameSeat p (Player.set_points v p).
Proof. unfold sameSeat. simpl. auto. Qed.

Lemma seat_timeout v p : sameSeat p (Player.set_timeoutCount v p).
Proof. unfold sameSeat. simpl. auto. Qed.

Lemma wf_finishGame w now :
  wellFormed (gameState w) -> wellFormed (gameState (finishGame w now)).
Proof.
  intros Hwf. unfold finishGame. frame Hwf.
  apply seats_map. intros p. destruct (isContestant p);
    [apply seat_points | apply sameSeat_refl].
Qed.

Lemma updatePlayer_seats gs pid f :
  (forall p, sameSeat p (f p)) ->
  Forall2 sameSeat (GameState.players gs)
    (GameState.players (updatePlayer gs pid f)).
Proof. intros Hf. simpl. now apply seats_updateFirst. Qed.

Lemma wf_updatePlayer gs pid f :
  (forall p, sameSeat p (f p)) ->
  wellFormed gs -> wellFormed (updatePlayer gs pid f).
Proof.
  intros Hf Hwf. frame Hwf. now apply seats_updateFirst.
Qed.

(** Once the player [pid] is marked as dealt, no active player owns the
    box of [pid]. *)
Lemma dealt_box_free gs pid p f n :
  wellFormed gs ->
  getPlayer gs pid = Some p -> Player.boxNumber p = Some n ->
  (forall x, sameSeat x (f x)) -> (forall x, Player.hasDealt (f x) = true) ->
  forall q, In q (GameState.players (updatePlayer gs pid f)) ->
            isActivePlayer q = true -> Player.boxNumber q <> Some n.
Proof.
  intros Hwf Hget Hbn Hseat Hdealt q Hq Hact Hqn.
  pose proof (updatePlayer_seats gs pid f Hseat) as Hseats.
  destruct (playersGet_In _ _ _ Hget) as [Hp Hid].
  destruct (seats_In _ _ _ Hseats Hq) as (q0 & Hq0 & Hs).
  assert (Hidq : Player.id q = pid).
  { destruct Hs as (-> & _ & Hb & _). rewrite <- Hid.
    apply (wf_box_unique _ Hwf q0 p n); congruence. }
  destruct (updateFirst_split _ f _ _ Hget) as (l1 & l2 & Hl & _ & _ & Hupd).
  assert (Hfp : In (f p) (GameState.players (updatePlayer gs pid f))).
  { simpl. rewrite Hupd. apply in_or_app. simpl. auto. }
  assert (q = f p) as ->.
  { apply (NoDup_map_inj Player.id
             (GameState.players (updatePlayer gs pid f))); auto.
    - rewrite (seats_ids _ _ Hseats). apply (wf_player_ids _ Hwf).
    - destruct (Hseat p) as (-> & _). congruence. }
  unfold isActivePlayer in Hact. rewrite Hdealt in Hact.
  rewrite andb_false_r in Hact. discriminate.
Qed.

Lemma getLastActivePlayer_In gs p :
  getLastActivePlayer gs = Some p ->
  In p (GameState.players gs) /\ isActivePlayer p = true.
Proof.
  unfold getLastActivePlayer, activePlayers.
  destruct (List.filter _ _) as [|q [|]] eqn:E; try discriminate.
  intros [= ->].
  assert (In p (List.filter isActivePlayer (GameState.players gs)))
    as Hin by (rewrite E; simpl; auto).
  now apply filter_In in Hin.
Qed.

Lemma wf_finishLastPlayer w player now :
  wellFormed (gameState w) ->
  In player (GameState.players (gameState w)) ->
  wellFormed (gameState (finishLastPlayer w player now)).
Proof.
  intros Hwf Hin. unfold finishLastPlayer.
  set (gs := gameState w) in *.
  set (upd := fun p : Player =>
         Player.set_isLastStanding true
           (Player.set_roundDealt (Some (GameState.currentRound gs))
              (Player.set_dealAmount (option_map Fin (Player.boxValue player))
                 (Player.set_hasDealt true p)))).
  assert (Hupd : forall p, sameSeat p (upd p))
    by (intros p; unfold sameSeat; simpl; auto).
  set (gs1 := updatePlayer gs (Player.id player) upd).
  destruct (findBox gs1 (Player.boxNumber player)) as [box|] eqn:Hbox.
  - destruct (Player.boxNumber player) as [n|] eqn:Hbn; [|discriminate].
    destruct (findBox_In _ _ _ Hbox) as [_ Hn].
    set (gs1' := GameState.set_phase Finished gs1).
    assert (Hwf1 : wellFormed gs1').
    { subst gs1' gs1. frame Hwf. now apply seats_updateFirst. }
    assert (Hwf2 : wellFormed
              (eliminateValue (Box.value box)
                 (markBoxOpened (Box.number box) (Player.id player) gs1'))).
    { apply wf_open; auto.
      - rewrite Hn. exact Hbox.
      - rewrite Hn. subst gs1' gs1. simpl GameState.players.
        apply (dealt_box_free gs (Player.id player) player upd n); auto.
        apply playersGet_NoDup; auto. apply (wf_player_ids _ Hwf).
      - not_lobby. }
    eapply (wf_frame _ _ Hwf2); unfold finishGame; simpl.
    + now rewrite !eliminateValue_boxes.
    + now apply eliminateValue_values.
    + now apply eliminateValue_values.
    + rewrite !eliminateValue_players. simpl.
      apply seats_map. intros p. destruct (isContestant p);
        [apply seat_points | apply sameSeat_refl].
    + intros pid [].
    + not_lobby.
  - apply wf_finishGame. simpl gameState. now apply wf_updatePlayer.
Qed.

Lemma isActive_contestant p : isActivePlayer p = true -> isContestant p = true.
Proof.
  unfold isActivePlayer, isContestant.
  intros H. now apply andb_true_iff in H as [H _].
Qed.

Lemma wf_triggerBankerOffer w now random :
  wellFormed (gameState w) ->
  wellFormed (gameState (triggerBankerOffer w now random)).
Proof.
  intros Hwf. unfold triggerBankerOffer. simpl gameState.
  destruct (getLastActivePlayer (gameState w)) as [lastPlayer|] eqn:Hlast.
  - apply wf_finishLastPlayer; [exact Hwf|].
    now apply getLastActivePlayer_In in Hlast.
  - destruct (checkGameEnd (gameState w)).
    + now apply wf_finishGame.
    + frame Hwf. intros pid Hin. right.
      apply in_map_iff in Hin as (p & Hid & Hin).
      apply filter_In in Hin as [Hin Hact].
      exists p. auto using isActive_contestant.
Qed.

Lemma wf_setCurrentTurn w now random :
  wellFormed (gameState w) ->
  wellFormed (gameState (setCurrentTurn w now random)).
Proof.
  intros Hwf. unfold setCurrentTurn.
  destruct (negb (isPhase Playing (gameState w))); [exact Hwf|].
  destruct (negb (hasOpenableBoxes (gameState w)));
    [now apply wf_triggerBankerOffer|].
  destruct (_ =? -1); [exact Hwf|].
  destruct (arrayGet _ _); [|exact Hwf].
  frame Hwf.
Qed.

Lemma wf_handleTurnTimeout w playerId now random :
  wellFormed (gameState w) ->
  wellFormed (gameState (handleTurnTimeout w playerId now random)).
Proof.
  intros Hwf. unfold handleTurnTimeout.
  destruct (negb (isPhase Playing (gameState w))); [exact Hwf|].
  destruct (GameState.currentTurnPlayerId (gameState w)); [|exact Hwf].
  destruct (negb _); [exact Hwf|].
  assert (Hwf1 : wellFormed
            (updatePlayer (gameState w) playerId
               (fun p => Player.set_timeoutCount (Player.timeoutCount p + 1) p))).
  { apply wf_updatePlayer; [|exact Hwf]. intros p. apply seat_timeout. }
  destruct (_ =? -1).
  - destruct (_ >=? _); [|exact Hwf1]. now apply wf_triggerBankerOffer.
  - apply wf_setCurrentTurn. frame Hwf1.
Qed.

Lemma wf_startNewRound w now random :
  wellFormed (gameState w) ->
  wellFormed (gameState (startNewRound w now random)).
Proof.
  intros Hwf. unfold startNewRound. simpl gameState.
  destruct (getLastActivePlayer (gameState w)) as [lastPlayer|] eqn:Hlast.
  - apply wf_finishLastPlayer; [exact Hwf|].
    now apply getLastActivePlayer_In in Hlast.
  - apply wf_setCurrentTurn. frame Hwf.
Qed.

Lemma wf_endOfferAndContinue w now random :
  wellFormed (gameState w) ->
  wellFormed (gameState (endOfferAndContinue w now random)).
Proof.
  intros Hwf. unfold endOfferAndContinue. simpl gameState.
  destruct (checkGameEnd (gameState w)); [now apply wf_finishGame|].
  destruct (getLastActivePlayer (gameState w)) as [lastPlayer|] eqn:Hlast.
  - apply wf_finishLastPlayer; [exact Hwf|].
    now apply getLastActivePlayer_In in Hlast.
  - now apply wf_startNewRound.
Qed.

Lemma wf_defaultNoDeal gs playerId :
  wellFormed gs -> wellFormed (defaultNoDeal gs playerId).
Proof.
  intros Hwf. unfold defaultNoDeal.
  destruct (_ !! _); [exact Hwf|].
  apply wf_updatePlayer; [intros p; apply seat_timeout|]. frame Hwf.
Qed.

Lemma wf_fold_defaultNoDeal ids gs :
  wellFormed gs -> wellFormed (fold_left defaultNoDeal ids gs).
Proof.
  revert gs. induction ids as [|pid ids IH]; simpl; intros gs Hwf;
    [exact Hwf|]. apply IH. now apply wf_defaultNoDeal.
Qed.

Lemma wf_applyOfferTimeout gs :
  wellFormed gs -> wellFormed (applyOfferTimeout gs).
Proof. apply wf_fold_defaultNoDeal. Qed.

Lemma wf_handleOfferTimeout w now random :
  wellFormed (gameState w) ->
  wellFormed (gameState (handleOfferTimeout w now random)).
Proof.
  intros Hwf. unfold handleOfferTimeout.
  destruct (negb _); [exact Hwf|].
  apply wf_endOfferAndContinue. simpl. now apply wf_applyOfferTimeout.
Qed.

(** *** Settling a deal *)

Lemma wf_acceptDeal gs player offer :
  wellFormed gs -> ~ inLobby gs ->
  getPlayer gs (Player.id player) = Some player ->
  wellFormed (acceptDeal gs player offer).
Proof.
  intros Hwf Hnl Hget. unfold acceptDeal.
  match goal with
  | |- context [updatePlayer gs (Player.id player) ?f] => set (upd := f)
  end.
  assert (Hupd : forall p, sameSeat p (upd p))
    by (intros p; unfold sameSeat; simpl; auto).
  set (gs1 := updatePlayer gs (Player.id player) upd).
  assert (Hwf1 : wellFormed gs1) by now apply wf_updatePlayer.
  assert (Hnl1 : ~ inLobby gs1) by exact Hnl.
  assert (Hwf2 : wellFormed
    match findBox gs1 (Player.boxNumber player) with
    | Some box =>
        if negb (Box.isOpened box)
        then eliminateValue (Box.value box)
               (markBoxOpened (Box.number box) (Player.id player) gs1)
        else gs1
    | None => gs1
    end).
  { destruct (findBox gs1 (Player.boxNumber player)) as [box|] eqn:Hbox;
      [|exact Hwf1].
    destruct (negb (Box.isOpened box)); [|exact Hwf1].
    destruct (Player.boxNumber player) as [n|] eqn:Hbn; [|discriminate].
    destruct (findBox_In _ _ _ Hbox) as [_ Hn].
    apply wf_open; auto.
    - now rewrite Hn.
    - rewrite Hn.
      apply (dealt_box_free gs (Player.id player) player upd n); auto. }
  set (gs2 := match findBox gs1 (Player.boxNumber player) with
              | Some _ => _ | None => _ end) in *.
  unfold removeFromTurnOrder.
  destruct (_ >? -1); [|exact Hwf2].
  destruct (_ <? _); frame Hwf2.
Qed.

Lemma wf_recordDealResponse gs player accepted :
  wellFormed gs -> ~ inLobby gs ->
  getPlayer gs (Player.id player) = Some player ->
  wellFormed (recordDealResponse gs player accepted).
Proof.
  intros Hwf Hnl Hget. unfold recordDealResponse.
  set (gs0 := GameState.set_offerResponses _ gs).
  assert (Hwf0 : wellFormed gs0) by (subst gs0; frame Hwf).
  destruct accepted; [|exact Hwf0].
  destruct (GameState.currentOffer gs0); [|exact Hwf0].
  apply wf_acceptDeal; auto.
Qed.

Lemma isPhase_not_lobby ph gs :
  isPhase ph gs = true -> ph <> Waiting -> ph <> Selection -> ~ inLobby gs.
Proof.
  intros H Hw Hs. apply isPhase_true in H. unfold inLobby. intros [|]; congruence.
Qed.

Lemma getPlayer_id gs pid p : getPlayer gs pid = Some p -> Player.id p = pid.
Proof. intros H. now apply playersGet_In in H. Qed.

Lemma wf_on_deal_response w playerId accepted now random :
  wellFormed (gameState w) ->
  wellFormed (gameState (on_deal_response w playerId accepted now random)).
Proof.
  intros Hwf. unfold on_deal_response.
  destruct (isPhase Offer (gameState w)) eqn:Hph; [|exact Hwf]. simpl.
  destruct (getPlayer (gameState w) playerId) as [player|] eqn:Hget;
    [|exact Hwf].
  destruct (_ || _); [exact Hwf|].
  destruct (bool_decide _); [exact Hwf|].
  destruct (negb _); [exact Hwf|].
  assert (Hwf1 : wellFormed (recordDealResponse (gameState w) player accepted)).
  { apply wf_recordDealResponse; auto.
    - eapply isPhase_not_lobby; eauto; discriminate.
    - now rewrite (getPlayer_id _ _ _ Hget). }
  destruct (allResponded _); [|exact Hwf1].
  now apply wf_endOfferAndContinue.
Qed.

(** *** Opening a box *)

Lemma wf_on_open_box w playerId boxNumber now random :
  wellFormed (gameState w) ->
  wellFormed (gameState (on_open_box w playerId boxNumber now random)).
Proof.
  intros Hwf. unfold on_open_box.
  destruct (isPhase Playing (gameState w)) eqn:Hph; [|exact Hwf]. simpl negb.
  cbv iota.
  destruct (negb (isCurrentTurn _ _)); [exact Hwf|].
  destruct (getPlayer (gameState w) playerId) as [player|]; [|exact Hwf].
  destruct (_ || _); [exact Hwf|].
  destruct (_ >=? _); [exact Hwf|].
  destruct (findBox (gameState w) (Some boxNumber)) as [box|] eqn:Hbox;
    [|exact Hwf].
  destruct (Box.isOpened box); [exact Hwf|].
  destruct (existsb _ _) eqn:Howner; [exact Hwf|].
  assert (Hwf1 : wellFormed
            (eliminateValue (Box.value box)
               (markBoxOpened boxNumber playerId (gameState w)))).
  { apply wf_open; auto.
    - intros q Hq _ Hbn.
      assert (existsb (boxNumberIs boxNumber)
                (GameState.players (gameState w)) = true) as Hex.
      { apply existsb_exists. exists q. split; [assumption|].
        now apply boxNumberIs_true. }
      congruence.
    - eapply isPhase_not_lobby; eauto; discriminate. }
  simpl gameState.
  set (gs1 := eliminateValue _ _) in *.
  set (gs2 := GameState.set_boxesOpenedThisRound _ gs1).
  assert (Hwf2 : wellFormed gs2) by (subst gs2; frame Hwf1).
  destruct (_ || _).
  - simpl. frame Hwf2.
  - destruct (negb _); [|exact Hwf2].
    apply wf_setCurrentTurn. simpl. frame Hwf2.
Qed.

Lemma wf_on_open_boxes w playerId boxNumbers now random :
  wellFormed (gameState w) ->
  wellFormed (gameState (on_open_boxes w playerId boxNumbers now random)).
Proof.
  intros Hwf. destruct boxNumbers; simpl; [exact Hwf|].
  now apply wf_on_open_box.
Qed.

(** *** The lobby *)

Lemma playersGet_app_fresh players pid p x :
  playersGet players pid = Some p -> playersGet (players ++ [x]) pid = Some p.
Proof.
  unfold playersGet. induction players as [|q l IH]; simpl; [discriminate|].
  destruct (hasId pid q); auto.
Qed.

Lemma wf_joinRoom gs gs' playerId socketId playerName password asSpectator :
  wellFormed gs ->
  getPlayer gs playerId = None ->
  joinRoom gs playerId socketId playerName password asSpectator = inr gs' ->
  wellFormed gs'.
Proof.
  intros Hwf Hfresh. unfold joinRoom.
  destruct (_ && negb _); [discriminate|].
  destruct (negb asSpectator && _); [discriminate|].
  destruct (negb asSpectator && _); [discriminate|].
  intros [= <-].
  unfold playersSet.
  assert (existsb (hasId playerId) (GameState.players gs) = false) as ->.
  { apply not_true_is_false. intros H. apply existsb_exists in H as (q & Hq & Hid).
    apply (find_none _ _ Hfresh) in Hq. congruence. }
  set (new := Player.mk _ _ _ _ _ _ _ _ _ _ _ _ _ _ _).
  destruct Hwf as [Hnum Hval Hpart Hids Hown Huniq Hclosed Hlobby Helig].
  constructor; simpl; auto.
  - rewrite map_app. simpl.
    apply List.NoDup_app; [assumption | |].
    + constructor; [simpl; tauto | constructor].
    + intros x Hx [<-|[]]. now apply (playersGet_None _ _ Hfresh).
  - intros p n Hin Hbn. apply in_app_or in Hin as [Hin|[<-|[]]]; eauto.
    discriminate.
  - intros p q n Hp Hq Hbp Hbq.
    apply in_app_or in Hp as [Hp|[<-|[]]]; [|discriminate].
    apply in_app_or in Hq as [Hq|[<-|[]]]; [|discriminate]. eauto.
  - intros p n b Hp Hact Hbn Hb Hn.
    apply in_app_or in Hp as [Hp|[<-|[]]]; [|discriminate]. eauto.
  - intros pid Hin. destruct (Helig pid Hin) as (p & Hget & Hc).
    exists p. split; [|assumption]. now apply playersGet_app_fresh.
Qed.

Lemma wf_on_join_room w playerId socketId playerName password asSpectator :
  wellFormed (gameState w) ->
  getPlayer (gameState w) playerId = None ->
  wellFormed
    (gameState (on_join_room w playerId socketId playerName password asSpectator)).
Proof.
  intros Hwf Hfresh. unfold on_join_room.
  destruct (isEmptyString _); [exact Hwf|].
  destruct (joinRoom _ _ _ _ _ _) as [|gs'] eqn:Hjoin; [exact Hwf|].
  simpl. eapply wf_joinRoom; eauto.
Qed.

Lemma wf_boxes_length gs :
  wellFormed gs -> length (GameState.boxes gs) = 20%nat.
Proof.
  intros Hwf. pose proof (wf_box_numbers _ Hwf) as H.
  apply (f_equal (@length Z)) in H. now rewrite !length_map, length_seq in H.
Qed.

Lemma wf_on_select_box w playerId boxNumber :
  wellFormed (gameState w) ->
  wellFormed (gameState (on_select_box w playerId boxNumber)).
Proof.
  intros Hwf. unfold on_select_box.
  destruct (getPlayer (gameState w) playerId) as [player|] eqn:Hget;
    [|exact Hwf].
  destruct (isRolePlayer player) eqn:Hrole; [|exact Hwf]. simpl negb. cbv iota.
  destruct (negb (isPhase Waiting _) && negb (isPhase Selection _)) eqn:Hph;
    [exact Hwf|].
  destruct (Player.isReady player); [exact Hwf|].
  destruct (_ || _) eqn:Hrange; [exact Hwf|].
  destruct (existsb _ _) eqn:Htaken; [exact Hwf|].
  simpl gameState.
  assert (Hlob : inLobby (gameState w)).
  { unfold inLobby.
    destruct (isPhase Waiting (gameState w)) eqn:Hw.
    - left. now apply isPhase_true.
    - destruct (isPhase Selection (gameState w)) eqn:Hs; [|discriminate].
      right. now apply isPhase_true. }
  rewrite (wf_boxes_length _ Hwf) in Hrange.
  apply orb_false_iff in Hrange as [Hlo Hhi].
  apply Z.ltb_ge in Hlo. rewrite Z.gtb_ltb in Hhi. apply Z.ltb_ge in Hhi.
  assert (Hn : 1 <= boxNumber <= 20) by lia.
  destruct (playersGet_In _ _ _ Hget) as [Hin Hid].
  destruct (updateFirst_split _ (Player.set_boxNumber (Some boxNumber)) _ _ Hget)
    as (l1 & l2 & Hl & _ & Hl1 & Hupd).
  pose proof Hwf as [Hnum Hval Hpart Hids Hown Huniq Hclosed Hlobby Helig].
  assert (Hold : forall q,
            In q (l1 ++ l2) -> In q (GameState.players (gameState w))
                               /\ Player.id q <> playerId).
  { intros q Hq. rewrite Hl. split.
    - apply in_app_or in Hq as [|]; apply in_or_app; simpl; auto.
    - intros Hidq. rewrite Hl, map_app in Hids. simpl in Hids.
      apply List.NoDup_remove_2 in Hids. apply Hids.
      rewrite <- map_app, Hid, <- Hidq. now apply in_map. }
  assert (Hfree : forall q, In q (l1 ++ l2) ->
                            Player.boxNumber q <> Some boxNumber).
  { intros q Hq Hbn. destruct (Hold q Hq) as [Hq' Hne].
    assert (existsb (fun p => boxNumberIs boxNumber p && negb (hasId playerId p))
              (GameState.players (gameState w)) = true) as Hex.
    { apply existsb_exists. exists q. split; [assumption|].
      apply andb_true_iff. split; [now apply boxNumberIs_true|].
      apply negb_true_iff, not_true_is_false. intros H.
      now apply hasId_true in H. }
    congruence. }
  assert (Hcases : forall q,
            In q (updateFirst (hasId playerId)
                    (Player.set_boxNumber (Some boxNumber))
                    (GameState.players (gameState w))) ->
            q = Player.set_boxNumber (Some boxNumber) player \/ In q (l1 ++ l2)).
  { intros q. rewrite Hupd. intros Hq.
    apply in_app_or in Hq as [|[<-|]]; auto; right; apply in_or_app; auto. }
  constructor; simpl; auto.
  - rewrite updateFirst_map; auto.
  - intros p n Hp Hbn. destruct (Hcases p Hp) as [->|Hp'].
    + simpl in Hbn. injection Hbn as <-. split; [assumption|]. simpl.
      unfold isRolePlayer in Hrole. now destruct (Player.role player).
    + apply Hown; [apply Hold|]; assumption.
  - intros p q n Hp Hq Hbp Hbq.
    destruct (Hcases p Hp) as [->|Hp'], (Hcases q Hq) as [->|Hq'].
    + reflexivity.
    + simpl in Hbp. injection Hbp as <-. now apply Hfree in Hbq.
    + simpl in Hbq. injection Hbq as <-. now apply Hfree in Hbp.
    + apply (Huniq p q n); auto; now apply Hold.
  - intros p n b _ _ _ Hb _.
    specialize (Hlobby Hlob). unfold boxesClosed in Hlobby.
    rewrite List.Forall_forall in Hlobby. now apply Hlobby.
  - intros pid Hpid. destruct (Helig pid Hpid) as (p & Hgetp & Hc).
    unfold getPlayer in *. simpl.
    revert Hgetp. unfold playersGet.
    generalize (GameState.players (gameState w)) as l.
    induction l as [|q l IH]; simpl; [discriminate|].
    destruct (hasId playerId q) eqn:Hq; simpl.
    + assert (hasId pid (Player.set_boxNumber (Some boxNumber) q) = hasId pid q)
        as -> by reflexivity.
      destruct (hasId pid q); [|eauto].
      intros [= ->]. eexists. split; [reflexivity|].
      unfold isContestant, isRolePlayer, hasBoxNumber in *. simpl.
      now destruct (Player.role p).
    + destruct (hasId pid q); [intros [= ->]; eauto | exact IH].
Qed.

Lemma wf_on_player_ready w playerId :
  wellFormed (gameState w) ->
  wellFormed (gameState (on_player_ready w playerId)).
Proof.
  intros Hwf. unfold on_player_ready.
  destruct (getPlayer _ _); [|exact Hwf].
  destruct (_ || _); [exact Hwf|]. simpl.
  apply wf_updatePlayer; [|exact Hwf].
  intros p. unfold sameSeat. simpl. auto.
Qed.

Lemma wf_on_disconnect w playerId :
  wellFormed (gameState w) -> wellFormed (gameState (on_disconnect w playerId)).
Proof.
  intros Hwf. simpl. apply wf_updatePlayer; [|exact Hwf].
  intros p. unfold sameSeat. simpl. auto.
Qed.

Lemma wf_on_reconnect_player w playerId socketId :
  wellFormed (gameState w) ->
  wellFormed (gameState (on_reconnect_player w playerId socketId)).
Proof.
  intros Hwf. simpl. apply wf_updatePlayer; [|exact Hwf].
  intros p. unfold sameSeat. simpl. auto.
Qed.

Lemma wf_on_set_room_password w playerId password :
  wellFormed (gameState w) ->
  wellFormed (gameState (on_set_room_password w playerId password)).
Proof.
  intros Hwf. unfold on_set_room_password.
  destruct (negb _); [exact Hwf|].
  destruct (negb _); [exact Hwf|]. simpl. frame Hwf.
Qed.

Lemma wf_on_start_game w playerId random0 now random :
  wellFormed (gameState w) ->
  wellFormed (gameState (on_start_game w playerId random0 now random)).
Proof.
  intros Hwf. unfold on_start_game.
  destruct (negb _); [exact Hwf|].
  destruct (negb _); [exact Hwf|].
  apply wf_setCurrentTurn. simpl. frame Hwf.
  apply seats_map. intros p.
  destruct (_ && _); [|apply sameSeat_refl].
  destruct (findBox _ _); [|apply sameSeat_refl].
  unfold sameSeat. simpl. auto.
Qed.

(** *** Room creation *)

Lemma insert_head_perm {A} (t : list A) (j : nat) (x y : A) :
  t !! j = Some y -> Permutation (y :: <[j := x]> t) (x :: t).
Proof.
  revert j. induction t as [|h t IH]; intros [|j]; simpl; try discriminate.
  - intros [= ->]. apply perm_swap.
  - intros Hj. etransitivity; [apply perm_swap|].
    etransitivity; [apply perm_skip, IH, Hj|]. apply perm_swap.
Qed.

Lemma swap_perm {A} (a : list A) (i j : nat) : Permutation (swap a i j) a.
Proof.
  unfold swap.
  destruct (a !! i) as [x|] eqn:Hi; [|reflexivity].
  destruct (a !! j) as [y|] eqn:Hj; [|reflexivity].
  revert i j Hi Hj. induction a as [|h t IH]; intros [|i] [|j]; simpl;
    try discriminate.
  - intros [= ->] [= ->]. reflexivity.
  - intros [= ->] Hj. now apply insert_head_perm.
  - intros Hi [= ->]. now apply insert_head_perm.
  - intros Hi Hj. apply perm_skip. now apply IH.
Qed.

Lemma shuffleLoop_perm {A} random k i (a : list A) :
  Permutation (shuffleLoop random k i a) a.
Proof.
  revert k a. induction i as [|i IH]; intros k a; simpl; [reflexivity|].
  etransitivity; [apply IH | apply swap_perm].
Qed.

Lemma shuffleArray_perm {A} random (a : list A) :
  Permutation (shuffleArray random a) a.
Proof. apply shuffleLoop_perm. Qed.

Lemma imap_boxes_numbers (values : list Q) (k : nat) :
  map Box.number
    (imap (fun index value => Box.mk (Z.of_nat (k + index) + 1) value false None)
       values)
  = map Z.of_nat (seq (S k) (length values)).
Proof.
  revert k. induction values as [|v values IH]; intros k; [reflexivity|].
  cbn [imap map length seq Box.number]. f_equal; [lia|].
  rewrite <- (IH (S k)). f_equal. apply imap_ext. intros i x _. simpl.
  f_equal. lia.
Qed.

Lemma imap_boxes_values (f : nat -> Z) (values : list Q) :
  map Box.value (imap (fun index value => Box.mk (f index) value false None) values)
  = values.
Proof.
  revert f. induction values as [|v values IH]; intros f; [reflexivity|].
  cbn [imap map Box.value]. f_equal. apply (IH (f ∘ S)).
Qed.

Lemma imap_boxes_closed (f : nat -> Z) (values : list Q) :
  Forall (fun b => Box.isOpened b = false)
    (imap (fun index value => Box.mk (f index) value false None) values).
Proof.
  revert f. induction values as [|v values IH]; intros f; [constructor|].
  cbn [imap]. constructor; [reflexivity | apply (IH (f ∘ S))].
Qed.

Lemma filter_none {A} (f : A -> bool) (l : list A) :
  Forall (fun x => f x = false) l -> List.filter f l = [].
Proof.
  induction 1 as [|x l Hx _ IH]; simpl; [reflexivity|]. now rewrite Hx.
Qed.

Lemma wf_createRoom roomCode playerId random now hostSocketId hostName :
  wellFormed
    (gameState (createRoom roomCode playerId random now hostSocketId hostName)).
Proof.
  pose proof (shuffleArray_perm random BOX_VALUES) as Hperm.
  assert (Hlen : length (shuffleArray random BOX_VALUES) = length BOX_VALUES)
    by now apply Permutation_length.
  unfold createRoom.
  constructor; unfold partitioned, inLobby, boxesClosed, getPlayer;
    cbn [gameState GameState.boxes GameState.players
         GameState.remainingValues GameState.eliminatedValues
         GameState.offerEligiblePlayerIds GameState.phase];
    unfold createInitialBoxes.
  - rewrite <- Hlen. apply (imap_boxes_numbers _ 0).
  - now rewrite imap_boxes_values.
  - split.
    + now rewrite app_nil_r.
    + rewrite filter_none; [reflexivity | apply imap_boxes_closed].
  - constructor; [intros [] | constructor].
  - intros p n [<-|[]] Hbn. discriminate Hbn.
  - intros p q n [<-|[]] _ Hbn. discriminate Hbn.
  - intros p n b [<-|[]] _ Hbn. discriminate Hbn.
  - intros _. apply imap_boxes_closed.
  - intros pid [].
Qed.

(** *** Every reachable state is well-formed *)

Lemma wf_step w now random ev :
  wellFormed (gameState w) -> admissible w random ev ->
  wellFormed (gameState (step w now random ev)).
Proof.
  intros Hwf [_ Hadm]. destruct ev; simpl.
  - now apply wf_on_join_room.
  - now apply wf_on_reconnect_player.
  - now apply wf_on_disconnect.
  - now apply wf_on_select_box.
  - now apply wf_on_player_ready.
  - now apply wf_on_start_game.
  - now apply wf_on_set_room_password.
  - now apply wf_on_open_box.
  - now apply wf_on_open_boxes.
  - now apply wf_on_deal_response.
  - destruct (turnTimer w); [|exact Hwf]. now apply wf_handleTurnTimeout.
  - destruct (offerTimer w); [|exact Hwf]. now apply wf_handleOfferTimeout.
  - destruct (offerDelays w); [exact Hwf|]. now apply wf_triggerBankerOffer.
Qed.

Lemma reachable_wellFormed w : reachable w -> wellFormed (gameState w).
Proof.
  induction 1 as [| w now random ev _ IH Hadm].
  - apply wf_createRoom.
  - now apply wf_step.
Qed.

(* ================================================================== *)
(** * The value partition *)
(* ================================================================== *)

(** C1: in every reachable state of a room, in whatever phase, the
    remaining and the eliminated values together are the ladder, and the
    eliminated values are the values of the opened boxes; and whatever
    event is handled next (an open-box, a deal response with its
    settlement, a timer with the last-standing reveal, or any other), the
    state it leaves satisfies the same two equations. *)
Theorem values_partitioned (w : World) :
  reachable w ->
  partitioned (gameState w)
  /\ forall now random ev,
       admissible w random ev ->
       partitioned (gameState (step w now random ev)).
Proof.
  intros Hreach. split.
  - apply wf_partitioned. now apply reachable_wellFormed.
  - intros now random ev Hadm. apply wf_partitioned, wf_step; [|exact Hadm].
    now apply reachable_wellFormed.
Qed.


(* ================================================================== *)
(** * The sample game is a run of the server *)
(* ================================================================== *)

Lemma unitDrawb_sound u : unitDrawb u = true -> unitDraw u.
Proof.
  unfold unitDrawb, unitDraw. intros H.
  apply andb_true_iff in H as [Hlo Hhi].
  apply Qle_bool_iff in Hlo. apply negb_true_iff in Hhi.
  split; [assumption|].
  destruct (Qlt_le_dec u 1) as [|Hle]; [assumption|].
  apply Qle_bool_iff in Hle. congruence.
Qed.

Lemma admissibleb_sound w random ev :
  admissibleb w random ev = true -> admissible w random ev.
Proof.
  unfold admissibleb, admissible. intros H.
  apply andb_true_iff in H as [Hu Hev].
  split; [now apply unitDrawb_sound|].
  destruct ev; auto.
  - now destruct (getPlayer _ _).
  - now apply unitDrawb_sound.
Qed.

Lemma reachable_run w evs :
  reachable w -> replayable w evs = true -> reachable (run w evs).
Proof.
  unfold run. revert w. induction evs as [|ev evs IH]; intros w Hw Hok;
    [exact Hw|].
  simpl in Hok. apply andb_true_iff in Hok as [Hadm Hrest].
  simpl. apply IH; [|exact Hrest].
  apply reach_step; [exact Hw | now apply admissibleb_sound].
Qed.

Lemma sample_created_reachable : reachable sample_created.
Proof.
  apply reach_create. intros _. split; [discriminate | reflexivity].
Qed.

Lemma sample_started_reachable : reachable sample_started.
Proof.
  apply reachable_run; [apply sample_created_reachable | now vm_compute].
Qed.

Lemma sample_round_done_reachable : reachable sample_round_done.
Proof.
  apply reachable_run; [apply sample_started_reachable | now vm_compute].
Qed.

Lemma sample_quota_met_turn_reachable : reachable sample_quota_met_turn.
Proof.
  apply reachable_run; [apply sample_round_done_reachable | now vm_compute].
Qed.

Lemma sample_offer_reachable : reachable sample_offer.
Proof.
  apply reachable_run; [apply sample_round_done_reachable | now vm_compute].
Qed.

Lemma sample_offer_two_answers_reachable : reachable sample_offer_two_answers.
Proof.
  apply reachable_run; [apply sample_offer_reachable | now vm_compute].
Qed.

Lemma sample_offer_one_left_reachable : reachable sample_offer_one_left.
Proof.
  apply reachable_run; [apply sample_offer_reachable | now vm_compute].
Qed.

(** The sample game, step by step. *)

Example sample_started_turn :
  (GameState.phase (gameState sample_started),
   GameState.turnOrder (gameState sample_started),
   GameState.currentTurnPlayerId (gameState sample_started),
   turnTimer sample_started)
  = (Playing, ["H"; "J"; "K"]%string, Some "H"%string, Some "H"%string).
Proof. vm_compute. reflexivity. Qed.

Example sample_round_done_pause :
  (GameState.boxesOpenedThisRound (gameState sample_round_done),
   GameState.currentTurnPlayerId (gameState sample_round_done),
   GameState.currentTurnIndex (gameState sample_round_done),
   turnTimer sample_round_done, offerDelays sample_round_done)
  = ([2; 3; 4; 5; 6], None, 2, None, 1%nat).
Proof. vm_compute. reflexivity. Qed.

Example sample_offer_made :
  (GameState.phase (gameState sample_offer),
   GameState.currentOffer (gameState sample_offer),
   GameState.offerEligiblePlayerIds (gameState sample_offer),
   offerTimer sample_offer)
  = (Offer, Some (Fin 21960%Q), ["H"; "J"; "K"]%string, true).
Proof. vm_compute. reflexivity. Qed.

Example sample_game_ends :
  (GameState.phase
     (gameState (step sample_offer_one_left 1000 0.5 OfferTimerFires)),
   map (fun p => (Player.id p, Player.dealAmount p, Player.isLastStanding p,
                  Player.timeoutCount p, Player.points p))
     (GameState.players
        (gameState (step sample_offer_one_left 1000 0.5 OfferTimerFires))))
  = (Finished,
     [ ("H", Some (Fin 0.01%Q), true, 1, Fin 100);
       ("J", Some (Fin 21960%Q), false, 0, Fin 569);
       ("K", Some (Fin 21960%Q), false, 0, Fin 369) ]%string).
Proof. vm_compute. reflexivity. Qed.

(* ================================================================== *)
(** * Reading a player after an update *)
(* ================================================================== *)

Lemma playersGet_updateFirst players pid pid' f :
  (forall p, Player.id (f p) = Player.id p) ->
  playersGet (updateFirst (hasId pid) f players) pid'
  = if (pid =? pid')%string then option_map f (playersGet players pid)
    else playersGet players pid'.
Proof.
  intros Hf. unfold playersGet.
  induction players as [|q l IH]; simpl.
  - now destruct (pid =? pid')%string.
  - destruct (hasId pid q) eqn:Hq; simpl.
    + unfold hasId at 1. rewrite Hf. fold (hasId pid' q).
      apply hasId_true in Hq.
      destruct (String.eqb_spec pid pid') as [<-|Hne].
      * unfold hasId. rewrite Hq, String.eqb_refl. reflexivity.
      * assert (hasId pid' q = false) as ->; [|reflexivity].
        apply not_true_is_false. intros H. apply hasId_true in H. congruence.
    + destruct (hasId pid' q) eqn:Hq'; [|exact IH].
      destruct (String.eqb_spec pid pid') as [<-|Hne]; [congruence | reflexivity].
Qed.

Lemma getPlayer_updatePlayer gs pid pid' f :
  (forall p, Player.id (f p) = Player.id p) ->
  getPlayer (updatePlayer gs pid f) pid'
  = if (pid =? pid')%string then option_map f (getPlayer gs pid)
    else getPlayer gs pid'.
Proof. intros Hf. unfold getPlayer. simpl. now apply playersGet_updateFirst. Qed.

(* ================================================================== *)
(** * Offer timeout *)
(* ================================================================== *)

(** What the [forEach] over a list [ids] of player ids does to the
    recorded responses and to each player. *)
Lemma fold_defaultNoDeal_spec ids gs pid :
  let gs' := fold_left defaultNoDeal ids gs in
  let hit :=
    existsb (String.eqb pid) ids
    && negb (bool_decide (is_Some (GameState.offerResponses gs !! pid))) in
  GameState.offerResponses gs' !! pid
  = (if hit then Some false else GameState.offerResponses gs !! pid)
  /\ getPlayer gs' pid
     = option_map
         (fun p => if hit
                   then Player.set_timeoutCount (Player.timeoutCount p + 1) p
                   else p)
         (getPlayer gs pid)
  /\ GameState.offerEligiblePlayerIds gs' = GameState.offerEligiblePlayerIds gs.
Proof.
  revert gs. induction ids as [|x ids IH]; intros gs; simpl.
  - split; [reflexivity|]. split; [|reflexivity].
    now destruct (getPlayer gs pid).
  - destruct (IH (defaultNoDeal gs x)) as (IHr & IHp & IHe). clear IH.
    simpl in IHr, IHp. rewrite IHr, IHp, IHe. clear IHr IHp IHe.
    unfold defaultNoDeal.
    destruct (GameState.offerResponses gs !! x) as [b|] eqn:Hx.
    + (* [x] has answered: nothing happens at [x] *)
      destruct (String.eqb_spec pid x) as [->|Hne]; simpl; [|auto].
      rewrite Hx. simpl. rewrite andb_false_r. auto.
    + rewrite getPlayer_updatePlayer by reflexivity. simpl.
      destruct (String.eqb_spec pid x) as [->|Hne]; simpl.
      * rewrite String.eqb_refl, lookup_insert_eq, Hx. simpl.
        rewrite andb_false_r. unfold getPlayer. simpl.
        split; [reflexivity|]. split; [|reflexivity].
        now destruct (playersGet _ _).
      * assert ((x =? pid)%string = false) as ->.
        { apply String.eqb_neq. congruence. }
        rewrite lookup_insert_ne by congruence.
        unfold getPlayer. simpl. auto.
Qed.

(* ================================================================== *)
(** * What the end of an offer leaves of each player *)
(* ================================================================== *)

Section PlayersFrame.
Variable R : Player -> Player -> Prop.
Hypothesis R_refl : forall p, R p p.
Hypothesis R_trans : forall p q r, R p q -> R q r -> R p r.
Hypothesis R_id : forall p p', R p p' -> Player.id p' = Player.id p.
Hypothesis R_points : forall v p, R p (Player.set_points v p).
Hypothesis R_last : forall a r p,
  R p (Player.set_isLastStanding true
         (Player.set_roundDealt r
            (Player.set_dealAmount a (Player.set_hasDealt true p)))).

Lemma rel_refl players : Forall2 R players players.
Proof. induction players; constructor; auto. Qed.

Lemma rel_trans l1 l2 l3 :
  Forall2 R l1 l2 -> Forall2 R l2 l3 -> Forall2 R l1 l3.
Proof.
  intros H12. revert l3. induction H12; intros l3 H23; inversion H23; subst;
    constructor; eauto.
Qed.

Lemma rel_get players players' pid p :
  Forall2 R players players' ->
  playersGet players pid = Some p ->
  exists p', playersGet players' pid = Some p' /\ R p p'.
Proof.
  unfold playersGet.
  induction 1 as [|p0 q l l' Hs _ IH]; simpl; [discriminate|].
  assert (hasId pid q = hasId pid p0) as ->.
  { unfold hasId. now rewrite (R_id _ _ Hs). }
  destruct (hasId pid p0); [intros [= <-]; eauto | exact IH].
Qed.

Lemma rel_finishGame w now :
  Forall2 R (GameState.players (gameState w))
    (GameState.players (gameState (finishGame w now))).
Proof.
  unfold finishGame. simpl. apply Forall2_map_self. intros p.
  destruct (isContestant p); auto.
Qed.

Lemma rel_finishLastPlayer w player now :
  Forall2 R (GameState.players (gameState w))
    (GameState.players (gameState (finishLastPlayer w player now))).
Proof.
  unfold finishLastPlayer.
  eapply rel_trans; [|apply rel_finishGame]. simpl gameState.
  destruct (findBox _ _);
    rewrite ?eliminateValue_players; simpl;
    apply updateFirst_Forall2; auto.
Qed.

Lemma rel_triggerBankerOffer w now random :
  Forall2 R (GameState.players (gameState w))
    (GameState.players (gameState (triggerBankerOffer w now random))).
Proof.
  unfold triggerBankerOffer. simpl gameState.
  destruct (getLastActivePlayer _).
  - apply (rel_finishLastPlayer (clearOfferTimer (clearTurnTimer w))).
  - destruct (checkGameEnd _).
    + apply (rel_finishGame (clearOfferTimer (clearTurnTimer w))).
    + simpl. apply rel_refl.
Qed.

Lemma rel_setCurrentTurn w now random :
  Forall2 R (GameState.players (gameState w))
    (GameState.players (gameState (setCurrentTurn w now random))).
Proof.
  unfold setCurrentTurn.
  destruct (negb (isPhase _ _)); [apply rel_refl|].
  destruct (negb (hasOpenableBoxes _)); [apply rel_triggerBankerOffer|].
  destruct (_ =? -1); [apply rel_refl|].
  destruct (arrayGet _ _); simpl; apply rel_refl.
Qed.

Lemma rel_startNewRound w now random :
  Forall2 R (GameState.players (gameState w))
    (GameState.players (gameState (startNewRound w now random))).
Proof.
  unfold startNewRound. simpl gameState.
  destruct (getLastActivePlayer _).
  - apply (rel_finishLastPlayer (clearOfferTimer (clearTurnTimer w))).
  - eapply rel_trans; [|apply rel_setCurrentTurn]. simpl. apply rel_refl.
Qed.

Lemma rel_endOfferAndContinue w now random :
  Forall2 R (GameState.players (gameState w))
    (GameState.players (gameState (endOfferAndContinue w now random))).
Proof.
  unfold endOfferAndContinue. simpl gameState.
  destruct (checkGameEnd _); [apply (rel_finishGame (clearOfferTimer w))|].
  destruct (getLastActivePlayer _).
  - apply (rel_finishLastPlayer (clearOfferTimer w)).
  - apply (rel_startNewRound (clearOfferTimer w)).
Qed.

End PlayersFrame.

(** The end of an offer changes no player's id or timeout count. *)
Lemma endOffer_keeps_timeouts w now random pid p :
  getPlayer (gameState w) pid = Some p ->
  exists p',
    getPlayer (gameState (endOfferAndContinue w now random)) pid = Some p'
    /\ Player.timeoutCount p' = Player.timeoutCount p.
Proof.
  intros Hget.
  set (R := fun p p' : Player =>
              Player.id p' = Player.id p
              /\ Player.timeoutCount p' = Player.timeoutCount p).
  destruct (rel_get R) with
    (players := GameState.players (gameState w))
    (players' := GameState.players (gameState (endOfferAndContinue w now random)))
    (pid := pid) (p := p) as (p' & Hget' & _ & Htc); auto.
  - now intros ? ? [].
  - apply rel_endOfferAndContinue; unfold R; simpl; auto.
    intros ? ? ? [] []. split; congruence.
  - eauto.
Qed.

(** C8: when the offer deadline fires in the offer phase, every eligible
    player without a recorded response is given the response [false] and
    one more timeout, every recorded response is kept, and every other
    player keeps the timeout count, both in the state on which the offer
    is then resolved and in the state the handler leaves; when the timer
    fires in any other phase the server state is unchanged. *)
Theorem handleOfferTimeout_spec (w : World) (now : Z) (random : Q) :
  (GameState.phase (gameState w) <> Offer ->
   handleOfferTimeout w now random = w)
  /\ (GameState.phase (gameState w) = Offer ->
      let gs := gameState w in
      let resolved := applyOfferTimeout gs in
      handleOfferTimeout w now random
      = endOfferAndContinue (withState w resolved) now random
      /\ (forall pid,
            In pid (GameState.offerEligiblePlayerIds gs) ->
            GameState.offerResponses gs !! pid = None ->
            GameState.offerResponses resolved !! pid = Some false)
      /\ (forall pid answer,
            GameState.offerResponses gs !! pid = Some answer ->
            GameState.offerResponses resolved !! pid = Some answer)
      /\ (forall pid p,
            getPlayer gs pid = Some p ->
            exists p1 p2,
              getPlayer resolved pid = Some p1
              /\ getPlayer (gameState (handleOfferTimeout w now random)) pid
                 = Some p2
              /\ Player.timeoutCount p1
                 = Player.timeoutCount p + (if unanswered gs pid then 1 else 0)
              /\ Player.timeoutCount p2 = Player.timeoutCount p1)).
Proof.
  split.
  - intros Hph. unfold handleOfferTimeout.
    apply isPhase_false in Hph. now rewrite Hph.
  - intros Hph gs resolved.
    assert (Heq : handleOfferTimeout w now random
                  = endOfferAndContinue (withState w resolved) now random).
    { unfold handleOfferTimeout. apply isPhase_true in Hph. now rewrite Hph. }
    split; [exact Heq|].
    split; [|split].
    + intros pid Hin Hnone.
      destruct (fold_defaultNoDeal_spec (GameState.offerEligiblePlayerIds gs)
                  gs pid) as (Hr & _ & _).
      simpl in Hr. unfold resolved, applyOfferTimeout. rewrite Hr.
      apply existsb_eqb_In in Hin. rewrite Hin, Hnone. reflexivity.
    + intros pid answer Hsome.
      destruct (fold_defaultNoDeal_spec (GameState.offerEligiblePlayerIds gs)
                  gs pid) as (Hr & _ & _).
      simpl in Hr. unfold resolved, applyOfferTimeout. rewrite Hr, Hsome.
      simpl. now rewrite andb_false_r.
    + intros pid p Hget.
      destruct (fold_defaultNoDeal_spec (GameState.offerEligiblePlayerIds gs)
                  gs pid) as (_ & Hp & _).
      simpl in Hp. rewrite Hget in Hp. simpl in Hp.
      destruct (endOffer_keeps_timeouts (withState w resolved) now random
                  pid _ Hp) as (p2 & Hget2 & Htc).
      eexists _, p2. split; [exact Hp|]. rewrite Heq.
      split; [exact Hget2|]. split; [|exact Htc].
      unfold unanswered. destruct (_ && _); simpl; lia.
Qed.

Lemma handleOfferTimeout_spec_witness :
  GameState.offerResponses
    (applyOfferTimeout (gameState sample_offer_two_answers)) !! "K"%string
  = Some false.
Proof.
  refine (proj1 (proj2 (proj2 (handleOfferTimeout_spec
                                 sample_offer_two_answers 1000 0.5) _)) "K"%string _ _).
  - reflexivity.
  - vm_compute. tauto.
  - reflexivity.
Defined.

(* ================================================================== *)
(** * The last-standing reveal *)
(* ================================================================== *)

Lemma playersGet_map players pid f :
  (forall p, Player.id (f p) = Player.id p) ->
  playersGet (map f players) pid = option_map f (playersGet players pid).
Proof.
  intros Hf. unfold playersGet. induction players as [|q l IH]; simpl;
    [reflexivity|].
  unfold hasId at 1. rewrite Hf. fold (hasId pid q).
  now destruct (hasId pid q).
Qed.

Lemma find_updateFirst {A} (test : A -> bool) f (l : list A) x :
  List.find test l = Some x -> test (f x) = true ->
  List.find test (updateFirst test f l) = Some (f x).
Proof.
  induction l as [|y l IH]; simpl; [discriminate|].
  destruct (test y) eqn:Hy.
  - intros [= ->] Hfx. simpl. now rewrite Hfx.
  - intros Hfind Hfx. simpl. rewrite Hy. auto.
Qed.

Lemma isActivePlayer_boxNumber p :
  isActivePlayer p = true -> exists n, Player.boxNumber p = Some n.
Proof.
  intros H. apply isActivePlayer_spec in H as (_ & Hbn & _).
  destruct (Player.boxNumber p); [eauto | congruence].
Qed.

Lemma finishLastPlayer_settles w p now :
  wellFormed (gameState w) ->
  In p (GameState.players (gameState w)) -> isActivePlayer p = true ->
  lastStandingSettled (gameState w) p (gameState (finishLastPlayer w p now)).
Proof.
  intros Hwf Hin Hact.
  destruct (isActivePlayer_boxNumber p Hact) as (n & Hbn).
  destruct (wf_box_owner _ Hwf p n Hin Hbn) as [Hrange _].
  destruct (wf_findBox _ n Hwf Hrange) as (b & Hfind).
  destruct (findBox_In _ _ _ Hfind) as [_ Hn].
  pose proof (playersGet_NoDup _ p (wf_player_ids _ Hwf) Hin) as Hget.
  unfold lastStandingSettled, finishLastPlayer.
  split; [reflexivity|].
  rewrite Hbn.
  match goal with
  | |- context [findBox ?g (Some n)] =>
      assert (findBox g (Some n) = Some b) as -> by exact Hfind
  end.
  unfold finishGame, getPlayer. simpl gameState.
  cbn [GameState.players GameState.set_offerResponses
       GameState.set_offerEligiblePlayerIds GameState.set_turnExpiresAt
       GameState.set_currentTurnPlayerId GameState.set_offerExpiresAt
       GameState.set_currentOffer GameState.set_finishedAt GameState.set_phase
       GameState.set_players GameState.boxes findBox].
  rewrite !eliminateValue_players, !eliminateValue_boxes.
  cbn [GameState.players GameState.boxes markBoxOpened updatePlayer
       GameState.set_players GameState.set_boxes].
  rewrite playersGet_map
    by (intros q; destruct (isContestant q); reflexivity).
  rewrite playersGet_updateFirst by reflexivity.
  rewrite String.eqb_refl, Hget. cbn [option_map].
  eexists _, n, (openBoxObject (Player.id p) b).
  split; [reflexivity|].
  repeat split; try (destruct (isContestant _); reflexivity).
  rewrite Hn. apply find_updateFirst; [exact Hfind|].
  simpl. now apply Z.eqb_eq.
Qed.

Lemma endOfferAndContinue_last w now random p :
  wellFormed (gameState w) ->
  getLastActivePlayer (gameState w) = Some p ->
  lastStandingSettled (gameState w) p
    (gameState (endOfferAndContinue w now random)).
Proof.
  intros Hwf Hlast.
  destruct (getLastActivePlayer_In _ _ Hlast) as [Hin Hact].
  unfold endOfferAndContinue. simpl gameState.
  assert (checkGameEnd (gameState w) = false) as ->.
  { unfold checkGameEnd. unfold getLastActivePlayer in Hlast.
    now destruct (activePlayers (gameState w)) as [|? [|]]. }
  rewrite Hlast.
  now apply (finishLastPlayer_settles (clearOfferTimer w)).
Qed.

(** C5: when an offer is resolved, by the deadline or by the last
    awaited response, and exactly one contestant is still undealt, the
    handler leaves the game finished, with that contestant dealt at the
    value of the own box, marked last standing, with the current round as
    round of the deal, and with the own box opened by that contestant. *)
Theorem last_standing_settled (w : World) (now : Z) (random : Q) (p : Player) :
  reachable w ->
  GameState.phase (gameState w) = Offer ->
  (getLastActivePlayer (applyOfferTimeout (gameState w)) = Some p ->
   lastStandingSettled (applyOfferTimeout (gameState w)) p
     (gameState (handleOfferTimeout w now random)))
  /\ (forall playerId player accepted,
        getPlayer (gameState w) playerId = Some player ->
        Player.hasDealt player = false ->
        Player.role player = RolePlayer ->
        In playerId (GameState.offerEligiblePlayerIds (gameState w)) ->
        GameState.offerResponses (gameState w) !! playerId = None ->
        allResponded (recordDealResponse (gameState w) player accepted) = true ->
        getLastActivePlayer (recordDealResponse (gameState w) player accepted)
        = Some p ->
        lastStandingSettled
          (recordDealResponse (gameState w) player accepted) p
          (gameState (on_deal_response w playerId accepted now random))).
Proof.
  intros Hreach Hph.
  pose proof (reachable_wellFormed _ Hreach) as Hwf.
  pose proof Hph as Hphb. apply isPhase_true in Hphb.
  split.
  - intros Hlast. unfold handleOfferTimeout. rewrite Hphb. simpl negb.
    cbv iota.
    apply (endOfferAndContinue_last
             (withState w (applyOfferTimeout (gameState w)))); [|exact Hlast].
    now apply wf_applyOfferTimeout.
  - intros playerId player accepted Hget Hnd Hrole Helig Hnone Hall Hlast.
    unfold on_deal_response. rewrite Hphb, Hget, Hnd. simpl negb. cbv iota.
    unfold isRolePlayer. rewrite Hrole. simpl.
    rewrite bool_decide_eq_false_2
      by (rewrite Hnone; intros [? ?]; discriminate).
    apply existsb_eqb_In in Helig. rewrite Helig. simpl. rewrite Hall.
    apply (endOfferAndContinue_last
             (withState w (recordDealResponse (gameState w) player accepted)));
      [|exact Hlast].
    apply wf_recordDealResponse; auto.
    + eapply isPhase_not_lobby; eauto; discriminate.
    + now rewrite (getPlayer_id _ _ _ Hget).
Qed.


Lemma last_standing_settled_witness :
  lastStandingSettled (applyOfferTimeout (gameState sample_offer_one_left))
    sample_last_standing
    (gameState (handleOfferTimeout sample_offer_one_left 1000 0.5)).
Proof.
  refine (proj1 (last_standing_settled sample_offer_one_left 1000 0.5
                   sample_last_standing _ _) _).
  - apply sample_offer_one_left_reachable.
  - reflexivity.
  - reflexivity.
Defined.

(* ================================================================== *)
(** * Accepting the offer *)
(* ================================================================== *)

Lemma removeFirst_indexOf_absent {A} (test : A -> bool) (l : list A) :
  (indexOf test l >? -1) = false -> removeFirst test l = l.
Proof. rewrite indexOf_found. apply removeFirst_absent. Qed.

Lemma removeFromTurnOrder_spec playerId gs :
  let position := indexOf (String.eqb playerId) (GameState.turnOrder gs) in
  let gs' := removeFromTurnOrder playerId gs in
  GameState.players gs' = GameState.players gs
  /\ GameState.boxes gs' = GameState.boxes gs
  /\ GameState.eliminatedValues gs' = GameState.eliminatedValues gs
  /\ GameState.remainingValues gs' = GameState.remainingValues gs
  /\ GameState.offerResponses gs' = GameState.offerResponses gs
  /\ GameState.turnOrder gs'
     = removeFirst (String.eqb playerId) (GameState.turnOrder gs)
  /\ GameState.currentTurnIndex gs'
     = (if (position >? -1) && (position <? GameState.currentTurnIndex gs)
        then Z.max 0 (GameState.currentTurnIndex gs - 1)
        else GameState.currentTurnIndex gs).
Proof.
  intros position gs'. subst gs'. unfold removeFromTurnOrder. fold position.
  destruct (position >? -1) eqn:Hpos.
  - cbn [GameState.currentTurnIndex GameState.set_turnOrder].
    destruct (position <? GameState.currentTurnIndex gs); simpl;
      repeat split; reflexivity.
  - simpl. rewrite (removeFirst_indexOf_absent _ _ Hpos).
    repeat split; reflexivity.
Qed.

(** C4 (as the code has it): an eligible contestant who accepts the offer
    in the offer phase is marked as dealt for the offered amount in the
    current round; the own box is opened with that contestant as opener
    and its value moves from the remaining to the eliminated values; the
    contestant leaves the turn order; and the turn index is decremented,
    not below 0, exactly when the contestant stood strictly before it, and
    is kept otherwise.  This is the state that the handler broadcasts and
    on which it then resolves the offer if every answer is in. *)
Theorem deal_accepted (w : World) (playerId : string) (player : Player)
    (offer : number Q) (now : Z) (random : Q) :
  reachable w ->
  GameState.phase (gameState w) = Offer ->
  getPlayer (gameState w) playerId = Some player ->
  Player.hasDealt player = false ->
  Player.role player = RolePlayer ->
  In playerId (GameState.offerEligiblePlayerIds (gameState w)) ->
  GameState.offerResponses (gameState w) !! playerId = None ->
  GameState.currentOffer (gameState w) = Some offer ->
  let gs := gameState w in
  let gs' := recordDealResponse gs player true in
  let position := indexOf (String.eqb playerId) (GameState.turnOrder gs) in
  (exists p' n box,
      getPlayer gs' playerId = Some p'
      /\ Player.hasDealt p' = true
      /\ Player.dealAmount p' = Some offer
      /\ Player.roundDealt p' = Some (GameState.currentRound gs)
      /\ Player.boxNumber player = Some n
      /\ findBox gs (Some n) = Some box
      /\ Box.isOpened box = false
      /\ findBox gs' (Some n) = Some (openBoxObject playerId box)
      /\ GameState.eliminatedValues gs'
         = GameState.eliminatedValues gs ++ [Box.value box]
      /\ Permutation (GameState.remainingValues gs)
           (Box.value box :: GameState.remainingValues gs'))
  /\ GameState.offerResponses gs' !! playerId = Some true
  /\ GameState.turnOrder gs'
     = removeFirst (String.eqb playerId) (GameState.turnOrder gs)
  /\ GameState.currentTurnIndex gs'
     = (if (position >? -1) && (position <? GameState.currentTurnIndex gs)
        then Z.max 0 (GameState.currentTurnIndex gs - 1)
        else GameState.currentTurnIndex gs)
  /\ on_deal_response w playerId true now random
     = (if allResponded gs'
        then endOfferAndContinue (withState w gs') now random
        else withState w gs').
Proof.
  intros Hreach Hph Hget Hnd Hrole Helig Hnone Hoffer gs gs' position.
  pose proof (reachable_wellFormed _ Hreach) as Hwf. fold gs in Hwf.
  pose proof (getPlayer_id _ _ _ Hget) as Hid.
  destruct (playersGet_In _ _ _ Hget) as [Hin _].
  (* the own box of an eligible contestant exists and is closed *)
  destruct (wf_eligible _ Hwf playerId Helig) as (p0 & Hget0 & Hcont).
  assert (p0 = player) as -> by (unfold gs in Hget0; congruence).
  assert (Hact : isActivePlayer player = true).
  { unfold isActivePlayer. unfold isContestant in Hcont.
    now rewrite Hcont, Hnd. }
  destruct (isActivePlayer_boxNumber _ Hact) as (n & Hbn).
  destruct (wf_box_owner _ Hwf player n Hin Hbn) as [Hrange _].
  destruct (wf_findBox _ n Hwf Hrange) as (box & Hfind).
  destruct (findBox_In _ _ _ Hfind) as [Hbin Hn].
  pose proof (wf_personal_closed _ Hwf player n box Hin Hact Hbn Hbin Hn)
    as Hclosed.
  (* the handler passes its guards *)
  assert (Hhandler :
    on_deal_response w playerId true now random
    = (if allResponded gs'
       then endOfferAndContinue (withState w gs') now random
       else withState w gs')).
  { unfold on_deal_response. apply isPhase_true in Hph.
    rewrite Hph, Hget, Hnd. simpl negb. cbv iota.
    unfold isRolePlayer. rewrite Hrole. simpl.
    rewrite bool_decide_eq_false_2
      by (rewrite Hnone; intros [? ?]; discriminate).
    apply existsb_eqb_In in Helig. now rewrite Helig. }
  (* the settlement, step by step *)
  set (gs0 := GameState.set_offerResponses
                (<[Player.id player := true]> (GameState.offerResponses gs)) gs).
  assert (Hgs' : gs' = acceptDeal gs0 player offer).
  { unfold gs', recordDealResponse. fold gs0.
    assert (GameState.currentOffer gs0 = Some offer) as -> by exact Hoffer.
    reflexivity. }
  unfold acceptDeal in Hgs'. rewrite Hid in Hgs'.
  match type of Hgs' with
  | context [updatePlayer gs0 playerId ?f] => set (upd := f) in Hgs'
  end.
  set (gs1 := updatePlayer gs0 playerId upd) in Hgs'.
  assert (Hfind1 : findBox gs1 (Player.boxNumber player) = Some box)
    by (rewrite Hbn; exact Hfind).
  rewrite Hfind1, Hclosed in Hgs'. simpl negb in Hgs'. cbv iota in Hgs'.
  set (gs2 := eliminateValue (Box.value box)
                (markBoxOpened (Box.number box) playerId gs1)) in Hgs'.
  assert (Hto2 : GameState.turnOrder gs2 = GameState.turnOrder gs).
  { unfold gs2, eliminateValue. destruct (indexOf (Qeq_bool _) _ >? -1); reflexivity. }
  assert (Hcti2 : GameState.currentTurnIndex gs2 = GameState.currentTurnIndex gs).
  { unfold gs2, eliminateValue. destruct (indexOf (Qeq_bool _) _ >? -1); reflexivity. }
  assert (Hresp2 : GameState.offerResponses gs2
                   = <[playerId := true]> (GameState.offerResponses gs)).
  { unfold gs2, eliminateValue. rewrite <- Hid.
    destruct (indexOf (Qeq_bool _) _ >? -1); reflexivity. }
  assert (Hpl2 : GameState.players gs2 = GameState.players gs1)
    by (unfold gs2; rewrite eliminateValue_players; reflexivity).
  assert (Hbx2 : GameState.boxes gs2
                 = updateFirst (fun b => Box.number b =? n)
                     (openBoxObject playerId) (GameState.boxes gs)).
  { unfold gs2. rewrite eliminateValue_boxes, Hn. reflexivity. }
  destruct (eliminateValue_present
              (markBoxOpened (Box.number box) playerId gs1) (Box.value box))
    as [Hrem Helim].
  { intros x. apply (wf_remaining_ladder gs x Hwf). }
  { now apply (wf_box_in_ladder gs). }
  { now apply (wf_closed_value gs). }
  fold gs2 in Hrem, Helim.
  change (GameState.remainingValues
            (markBoxOpened (Box.number box) playerId gs1))
    with (GameState.remainingValues gs) in Hrem.
  change (GameState.eliminatedValues
            (markBoxOpened (Box.number box) playerId gs1))
    with (GameState.eliminatedValues gs) in Helim.
  (* every field of [gs'] that the statement reads *)
  destruct (removeFromTurnOrder_spec playerId gs2)
    as (Hpl & Hbx & Hel & Hre & Hrs & Hto & Hcti).
  rewrite <- Hgs' in Hpl, Hbx, Hel, Hre, Hrs, Hto, Hcti.
  rewrite Hto2 in Hto. rewrite Hto2, Hcti2 in Hcti. fold position in Hcti.
  split; [|split; [|split; [|split]]].
  - exists (upd player), n, box.
    split.
    { assert (getPlayer gs' playerId = getPlayer gs1 playerId) as ->
        by (unfold getPlayer; now rewrite Hpl, Hpl2).
      unfold gs1.
      rewrite (getPlayer_updatePlayer gs0 playerId playerId upd)
        by reflexivity.
      rewrite String.eqb_refl.
      change (getPlayer gs0 playerId) with (getPlayer gs playerId).
      unfold gs. now rewrite Hget. }
    repeat split; auto.
    + unfold findBox. rewrite Hbx, Hbx2.
      apply find_updateFirst; [exact Hfind|]. simpl. now apply Z.eqb_eq.
    + now rewrite Hel, Helim.
    + now rewrite Hre.
  - rewrite Hrs, Hresp2. apply lookup_insert_eq.
  - exact Hto.
  - exact Hcti.
  - exact Hhandler.
Qed.

Lemma deal_accepted_witness :
  let gs := gameState sample_offer in
  let gs' := recordDealResponse gs sample_player_J true in
  let position := indexOf (String.eqb "J") (GameState.turnOrder gs) in
  (exists p' n box,
      getPlayer gs' "J" = Some p'
      /\ Player.hasDealt p' = true
      /\ Player.dealAmount p' = Some (Fin 21960%Q)
      /\ Player.roundDealt p' = Some (GameState.currentRound gs)
      /\ Player.boxNumber sample_player_J = Some n
      /\ findBox gs (Some n) = Some box
      /\ Box.isOpened box = false
      /\ findBox gs' (Some n) = Some (openBoxObject "J" box)
      /\ GameState.eliminatedValues gs'
         = GameState.eliminatedValues gs ++ [Box.value box]
      /\ Permutation (GameState.remainingValues gs)
           (Box.value box :: GameState.remainingValues gs'))
  /\ GameState.offerResponses gs' !! "J"%string = Some true
  /\ GameState.turnOrder gs'
     = removeFirst (String.eqb "J") (GameState.turnOrder gs)
  /\ GameState.currentTurnIndex gs'
     = (if (position >? -1) && (position <? GameState.currentTurnIndex gs)
        then Z.max 0 (GameState.currentTurnIndex gs - 1)
        else GameState.currentTurnIndex gs)
  /\ on_deal_response sample_offer "J" true 1000 0.5
     = (if allResponded gs'
        then endOfferAndContinue (withState sample_offer gs') 1000 0.5
        else withState sample_offer gs').
Proof.
  apply (deal_accepted sample_offer "J" sample_player_J (Fin 21960%Q) 1000 0.5).
  - apply sample_offer_reachable.
  - vm_compute. reflexivity.
  - vm_compute. reflexivity.
  - reflexivity.
  - reflexivity.
  - vm_compute. tauto.
  - vm_compute. reflexivity.
  - vm_compute. reflexivity.
Defined.

(** C4 as stated fails where the contestant's position equals the turn
    index: [K] stands at position 2 of the turn order, the turn index is 2,
    and after [K] accepts the index is still 2, not 1. *)
Lemma turn_index_kept_at_own_position :
  reachable sample_offer
  /\ getPlayer (gameState sample_offer) "K" = Some sample_player_K
  /\ In "K"%string (GameState.offerEligiblePlayerIds (gameState sample_offer))
  /\ indexOf (String.eqb "K") (GameState.turnOrder (gameState sample_offer))
     <= GameState.currentTurnIndex (gameState sample_offer)
  /\ GameState.currentTurnIndex
       (gameState (on_deal_response sample_offer "K" true 1000 0.5))
     <> Z.max 0 (GameState.currentTurnIndex (gameState sample_offer) - 1).
Proof.
  split; [apply sample_offer_reachable|].
  split; [vm_compute; reflexivity|].
  split; [vm_compute; tauto|].
  split; vm_compute; discriminate.
Qed.

Lemma values_partitioned_witness :
  partitioned (gameState sample_offer_two_answers)
  /\ forall now random ev,
       admissible sample_offer_two_answers random ev ->
       partitioned (gameState (step sample_offer_two_answers now random ev)).
Proof.
  apply (values_partitioned sample_offer_two_answers).
  apply sample_offer_two_answers_reachable.
Defined.

Lemma offer_eligibility_witness :
  on_deal_response sample_offer_two_answers "H" true 1000 0.5
  = sample_offer_two_answers.
Proof.
  apply (proj1 (proj2 (offer_eligibility sample_offer_two_answers "H" true
                         1000 0.5))).
  right. vm_compute. discriminate.
Defined.


(* ================================================================== *)
(** * Further properties of the constants, the score and the banker *)
(* ================================================================== *)

(** X1: the number of boxes to open in a round is always between 1 and
    5, it is [6 - r] in rounds 1 to 4 and 1 in every other round, so that
    it never grows from one round to the next. *)
Theorem getBoxesToOpenForRound_range (r : Z) :
  1 <= getBoxesToOpenForRound r <= 5
  /\ getBoxesToOpenForRound r = (if (1 <=? r) && (r <=? 4) then 6 - r else 1)
  /\ (1 <= r -> getBoxesToOpenForRound (r + 1) <= getBoxesToOpenForRound r).
Proof.
  assert (Hform : forall x,
    getBoxesToOpenForRound x = if (1 <=? x) && (x <=? 4) then 6 - x else 1).
  { intros x. unfold getBoxesToOpenForRound, ROUNDS, List.find.
    cbn [round boxesToOpen].
    destruct (Z.eqb_spec 1 x) as [<-|]; [reflexivity|].
    destruct (Z.eqb_spec 2 x) as [<-|]; [reflexivity|].
    destruct (Z.eqb_spec 3 x) as [<-|]; [reflexivity|].
    destruct (Z.eqb_spec 4 x) as [<-|]; [reflexivity|].
    destruct (Z.leb_spec 1 x), (Z.leb_spec x 4); simpl; lia. }
  rewrite !Hform.
  destruct (Z.leb_spec 1 r), (Z.leb_spec r 4),
    (Z.leb_spec 1 (r + 1)), (Z.leb_spec (r + 1) 4); simpl; lia.
Qed.

Lemma getBoxesToOpenForRound_range_witness :
  getBoxesToOpenForRound (4 + 1) <= getBoxesToOpenForRound 4.
Proof.
  apply (getBoxesToOpenForRound_range 4). lia.
Defined.

Lemma Qfloor_mono (x y : Q) : (x <= y)%Q -> Qfloor x <= Qfloor y.
Proof. apply Qfloor_resp_le. Qed.

(** X2: more winnings never score less and more timeouts never score
    more, everything else being equal; with a non-negative timeout count
    the score is at most 3750. *)
Theorem calculatePoints_monotone
    (w w' box : Q) (roundDealt : Z) (last highest : bool) (t t' : Z) :
  (w <= w')%Q -> t <= t' -> 0 <= t ->
  calculatePoints w box roundDealt last highest t'
  <= calculatePoints w' box roundDealt last highest t
  /\ calculatePoints w' box roundDealt last highest t <= 3750.
Proof.
  intros Hw Ht Ht0. unfold calculatePoints.
  assert (Hfl : Qfloor (w / 100) <= Qfloor (w' / 100)).
  { apply Qfloor_resp_le. apply Qmult_le_compat_r; [exact Hw | discriminate]. }
  assert (Hg : Qgtb w box = true -> Qgtb w' box = true).
  { rewrite !Qgtb_spec. intros; lra. }
  destruct (Qgtb w box) eqn:E1; [rewrite (Hg eq_refl)|destruct (Qgtb w' box)];
    destruct (Z.geb_spec roundDealt 4), (Z.leb_spec roundDealt 2),
      last, highest; lia.
Qed.

Lemma calculatePoints_monotone_witness :
  calculatePoints 5000 100 3 false false 2
  <= calculatePoints 20000 100 3 false false 1
  /\ calculatePoints 20000 100 3 false false 1 <= 3750.
Proof.
  apply (calculatePoints_monotone 5000 20000 100 3 false false 1 2);
    [discriminate | lia | lia].
Defined.

(** ** The banker's offer in double precision *)

Lemma bankerError_range (n : nat) :
  Z.of_nat n < 2 ^ 32 -> (0 <= bankerError n <= 1 # 1000000)%Q.
Proof.
  intros Hn. unfold bankerError.
  assert (H0 : (inject_Z 0 <= inject_Z (Z.of_nat n))%Q)
    by (rewrite <- Zle_Qle; lia).
  assert (H1 : (inject_Z (Z.of_nat n) <= inject_Z (2 ^ 32))%Q)
    by (rewrite <- Zle_Qle; lia).
  change (inject_Z 0) with 0%Q in H0.
  assert (E : (inject_Z (2 ^ 32) == 4294967296)%Q) by reflexivity.
  rewrite E in H1.
  assert (Eu : (unitRoundoff == 1 # 9007199254740992)%Q)
    by (vm_compute; reflexivity).
  rewrite Eu. split; lra.
Qed.

(** The offer between two multiples of the mean. *)
Lemma getBankerOffer_between (l : list Q) (r : Z) (u : Q) :
  bankable l -> l <> [] -> 1 <= r -> (0 <= u < 1)%Q ->
  exists m k,
    getBankerOffer l r u = Double.Fin (inject_Z (k * 10))
    /\ 0 <= k
    /\ (0.7 <= m <= 1.05)%Q
    /\ (4 <= r -> (0.95 <= m)%Q)
    /\ (r = 1 -> (m == 0.7)%Q)
    /\ (0 < mean l)%Q
    /\ (0.9 * (mean l * m) * (1 - bankerError (length l)) - 5
        <= inject_Z (k * 10)
        <= 1.1 * (mean l * m) * (1 + bankerError (length l)) + 5)%Q.
Proof.
  intros [Hl Hn] Hne Hr Hu.
  destruct (getBankerOffer_accuracy l r u Hne Hl Hn Hr Hu)
    as (m & k & Hm & Hk & Hk0 & Herr).
  destruct (roundModifier_cases r Hr) as (m0 & Hm0 & Hb & H4 & H1).
  rewrite Hm in Hm0. injection Hm0 as <-.
  destruct (mean_range l Hne Hl) as [Hml _].
  assert (Hmean : (0 < mean l)%Q)
    by (eapply Qlt_le_trans; [|exact Hml]; reflexivity).
  destruct (bankerError_range _ Hn) as [He0 He1].
  exists m, k. repeat (split; [assumption|]).
  apply Qabs_bound in Herr.
  set (M := mean l) in *. set (e := bankerError (length l)) in *.
  clearbody M e.
  assert (HMm : (0 <= M * m)%Q) by (apply Qmult_le_0_compat; lra).
  assert (Hlo : (0.9 * (M * m) <= M * m * (0.9 + u * 0.2))%Q).
  { assert (0 <= M * m * (u * 0.2))%Q
      by (apply Qmult_le_0_compat; [exact HMm|lra]). lra. }
  assert (Hhi : (M * m * (0.9 + u * 0.2) <= 1.1 * (M * m))%Q).
  { assert (M * m * (u * 0.2) <= M * m * 0.2)%Q
      by (apply Qmult_le_l'; [exact HMm|lra]). lra. }
  set (raw := (M * m * (0.9 + u * 0.2))%Q) in *. clearbody raw.
  assert (0.9 * (M * m) * (1 - e) <= raw * (1 - e))%Q
    by (apply Qmult_le_compat_r; lra).
  assert (raw * (1 + e) <= 1.1 * (M * m) * (1 + e))%Q
    by (apply Qmult_le_compat_r; lra).
  split; lra.
Qed.

(** X3: for a non-empty array of amounts, a round from 1 on and a draw
    in [0, 1) the banker's offer is a multiple of ten that is not
    negative, and it lies between 63 % of the mean minus 5 and 115.5 % of
    the mean plus 5, up to the relative rounding error
    [(n + 10) * 2^-52] of the double arithmetic on [n] values. *)
Theorem getBankerOffer_bounds (l : list Q) (r : Z) (u : Q) :
  l <> [] -> bankable l -> 1 <= r -> (0 <= u < 1)%Q ->
  exists k : Z,
    getBankerOffer l r u = Double.Fin (inject_Z (k * 10))
    /\ 0 <= k
    /\ (0.63 * mean l * (1 - bankerError (length l)) - 5
        <= inject_Z (k * 10)
        <= 1.155 * mean l * (1 + bankerError (length l)) + 5)%Q.
Proof.
  intros Hne Hl Hr Hu.
  destruct (getBankerOffer_between l r u Hl Hne Hr Hu)
    as (m & k & Hk & Hk0 & Hb & _ & _ & Hmean & Hbetween).
  destruct Hl as [_ Hn]. destruct (bankerError_range _ Hn) as [He0 He1].
  exists k. split; [exact Hk|]. split; [exact Hk0|].
  set (M := mean l) in *. set (e := bankerError (length l)) in *.
  clearbody M e.
  assert (0.7 * M <= M * m)%Q by nra.
  assert (M * m <= 1.05 * M)%Q by nra.
  assert (0.63 * M * (1 - e) <= 0.9 * (M * m) * (1 - e))%Q
    by (apply Qmult_le_compat_r; lra).
  assert (1.1 * (M * m) * (1 + e) <= 1.155 * M * (1 + e))%Q
    by (apply Qmult_le_compat_r; lra).
  split; lra.
Qed.

Lemma getBankerOffer_bounds_witness :
  exists k : Z,
    getBankerOffer [100; 250000]%Q 1 0.5 = Double.Fin (inject_Z (k * 10))
    /\ 0 <= k
    /\ (0.63 * mean [100; 250000]%Q
          * (1 - bankerError (length [100; 250000]%Q)) - 5
        <= inject_Z (k * 10)
        <= 1.155 * mean [100; 250000]%Q
             * (1 + bankerError (length [100; 250000]%Q)) + 5)%Q.
Proof.
  apply (getBankerOffer_bounds [100; 250000]%Q 1 0.5).
  - discriminate.
  - split; [repeat constructor; vm_compute; discriminate | reflexivity].
  - lia.
  - split; [discriminate | reflexivity].
Defined.

Lemma getBankerOffer_early_round (l : list Q) (r : Z) (u : Q) :
  l <> [] -> r <= 0 -> getBankerOffer l r u = Double.NaN.
Proof.
  intros Hne Hr. unfold getBankerOffer. destruct l as [|v vs]; [congruence|].
  unfold arrayGet.
  assert ((Z.min (r - 1) (Z.of_nat (length roundModifiers) - 1) <? 0)
          = true) as ->; [|reflexivity].
  apply Z.ltb_lt. simpl length. lia.
Qed.

(** *** Which operations give a number *)

Lemma add_not_NaN (x : Double.t) (b : Q) :
  x <> Double.NaN -> Double.add x (Double.Fin b) <> Double.NaN.
Proof.
  destruct x as [a|s|]; cbn [Double.add]; intros H;
    [apply round_not_NaN | discriminate | contradiction].
Qed.

Lemma mul_not_NaN (x : Double.t) (b : Q) :
  x <> Double.NaN -> ~ (b == 0)%Q ->
  Double.mul x (Double.Fin b) <> Double.NaN.
Proof.
  intros Hx Hb. destruct x as [a|s|]; cbn [Double.mul].
  - apply round_not_NaN.
  - destruct (Qeq_bool b 0) eqn:E; [|discriminate].
    apply Qeq_bool_iff in E. contradiction.
  - contradiction.
Qed.

Lemma div_not_NaN (x : Double.t) (b : Q) :
  x <> Double.NaN -> ~ (b == 0)%Q ->
  Double.div x (Double.Fin b) <> Double.NaN.
Proof.
  intros Hx Hb. destruct x as [a|s|]; cbn [Double.div].
  - destruct (Qeq_bool b 0) eqn:E; [|apply round_not_NaN].
    apply Qeq_bool_iff in E. contradiction.
  - discriminate.
  - contradiction.
Qed.

Lemma Math_round_not_NaN (x : Double.t) :
  x <> Double.NaN -> Double.Math_round x <> Double.NaN.
Proof. destruct x; cbn [Double.Math_round]; congruence. Qed.

Lemma sum_not_NaN (l : list Q) :
  Forall (fun v => (Qabs v <= Double.MAX_VALUE)%Q) l ->
  forall acc, acc <> Double.NaN ->
  fold_left (fun sum v => Double.add sum (Double.round v)) l acc
  <> Double.NaN.
Proof.
  induction 1 as [|v l Hv _ IH]; intros acc Hacc; cbn [fold_left];
    [exact Hacc|].
  apply IH. destruct (round_any v Hv) as (v' & -> & _).
  now apply add_not_NaN.
Qed.

Lemma within_pos (j : nat) (X x : Q) : (0 < X)%Q -> within j X x -> (0 < x)%Q.
Proof.
  pose proof unitRoundoff_range as Hu. intros HX [Hlo _].
  pose proof (Qpow_pos (1 - unitRoundoff) j ltac:(lra)).
  assert (0 < X * Qpow (1 - unitRoundoff) j)%Q
    by (apply Qmult_lt_0_compat; assumption).
  lra.
Qed.

(** From round 1 on, finite values and a draw in [0, 1) give a number or
    an infinity. *)
Lemma getBankerOffer_not_NaN (l : list Q) (r : Z) (u : Q) :
  Forall (fun v => (Qabs v <= Double.MAX_VALUE)%Q) l ->
  Z.of_nat (length l) < 2 ^ 32 -> 1 <= r -> (0 <= u < 1)%Q ->
  getBankerOffer l r u <> Double.NaN.
Proof.
  intros Hl Hn Hr Hu. unfold getBankerOffer.
  destruct l as [|v vs] eqn:El; [discriminate|]. rewrite <- El in *.
  destruct (roundModifier_cases r Hr) as (m & -> & Hmb & _ & _).
  destruct (round_modifier m Hmb) as (m' & -> & Hmw).
  destruct (factor_within u Hu) as (f' & -> & Hfw).
  rewrite round_ten.
  assert (Hm' : (0 < m')%Q) by (apply (within_pos 1 m); [lra | exact Hmw]).
  assert (Hf' : (0 < f')%Q)
    by (apply (within_pos 4 (0.9 + u * 0.2)); [lra | exact Hfw]).
  rewrite (round_int (inject_Z (Z.of_nat (length l))) (Z.of_nat (length l)));
    [|reflexivity|lia].
  assert (Hlen : ~ (inject_Z (Z.of_nat (length l)) == 0)%Q).
  { intros E. unfold Qeq in E. cbn in E. rewrite El in E. cbn in E. lia. }
  apply mul_not_NaN; [|discriminate].
  apply Math_round_not_NaN.
  apply div_not_NaN; [|discriminate].
  apply mul_not_NaN; [|lra].
  apply mul_not_NaN; [|lra].
  apply div_not_NaN; [|exact Hlen].
  apply sum_not_NaN; [exact Hl | discriminate].
Qed.

(** X4: for an array of finite values and a draw in [0, 1) the banker's
    offer is not a number exactly when values remain and the round is 0
    or negative; the draw plays no part in it. *)
Theorem getBankerOffer_NaN (l : list Q) (r : Z) (u : Q) :
  Forall (fun v => (Qabs v <= Double.MAX_VALUE)%Q) l ->
  Z.of_nat (length l) < 2 ^ 32 -> (0 <= u < 1)%Q ->
  getBankerOffer l r u = Double.NaN <-> l <> [] /\ r <= 0.
Proof.
  intros Hl Hn Hu. split.
  - intros HNaN. destruct (Z_le_gt_dec r 0) as [Hr|Hr].
    + split; [|exact Hr]. intros ->. discriminate HNaN.
    + exfalso. revert HNaN. apply getBankerOffer_not_NaN; auto. lia.
  - intros [Hne Hr]. now apply getBankerOffer_early_round.
Qed.

Lemma getBankerOffer_NaN_witness :
  getBankerOffer [100; 250000]%Q 0 0.5 = Double.NaN
  <-> [100; 250000]%Q <> [] /\ 0 <= 0.
Proof.
  apply (getBankerOffer_NaN [100; 250000]%Q 0 0.5).
  - repeat constructor; vm_compute; discriminate.
  - reflexivity.
  - split; [discriminate | reflexivity].
Defined.

(** The values may not overflow and the draw may not leave [0, 1): two
    values at the top of the range sum to infinity, and the draw -4.5
    makes the random factor 0. *)
Example getBankerOffer_NaN_overflow :
  getBankerOffer [Double.MAX_VALUE; Double.MAX_VALUE] 1 (-4.5) = Double.NaN
  /\ getBankerOffer [Double.MAX_VALUE; Double.MAX_VALUE] 1 0
     = Double.Inf false.
Proof. split; vm_compute; reflexivity. Qed.

(** *** Good offers *)

(** The threshold of a good offer, 80 % of the fair value. *)
Lemma good_threshold (l : list Q) :
  bankable l -> l <> [] ->
  exists t,
    Double.mul (calculateFairValue l) (Double.round 0.8) = Double.Fin t
    /\ (mean l * 0.8 * (1 - bankerError (length l)) <= t
        <= mean l * 0.8 * (1 + bankerError (length l)))%Q.
Proof.
  intros [Hl Hn] Hne.
  destruct (avg_within l Hne Hl Hn) as (a & Ha & Haw).
  destruct (mean_range l Hne Hl) as [Hml Hmh].
  destruct (round_modifier 0.8 ltac:(split; discriminate))
    as (e8 & He8 & He8w).
  unfold calculateFairValue.
  destruct l as [|v vs] eqn:El; [congruence|]. rewrite <- El in *.
  rewrite Ha, He8. cbn [Double.mul].
  assert (E15 : (inject_Z (10 ^ 15) == 1000000000000000)%Q) by reflexivity.
  rewrite E15 in Hmh.
  assert (Hlow : (Double.pow2 (-1021) <= 1 # 10 ^ 101)%Q)
    by (vm_compute; discriminate).
  assert (Hhigh : (1000000000000000 <= Double.pow2 1022)%Q)
    by (vm_compute; discriminate).
  assert (Hlo100 : ((1 # 10 ^ 101) * 10 == 1 # 10 ^ 100)%Q)
    by (vm_compute; reflexivity).
  set (n := length l) in *. set (M := mean l) in *. clearbody n M.
  assert (Hpos : (0 < 1 # 10 ^ 101)%Q) by reflexivity.
  destruct (within_round (n + 2 + 1) (M * 0.8) (a * e8)) as (t & -> & Ht).
  { split; lra. }
  { apply small_count. lia. }
  { apply within_mul; [lra | discriminate | exact Haw | exact He8w]. }
  exists t. split; [reflexivity|].
  assert (Hcount : (2 * inject_Z (Z.of_nat (S (n + 2 + 1))) * unitRoundoff
                    <= 1)%Q) by (apply small_count; lia).
  assert (HX : (0 <= M * 0.8)%Q) by lra.
  pose proof (within_error _ _ _ HX Hcount Ht) as Herr.
  apply Qabs_bound in Herr.
  assert (Hle : (2 * inject_Z (Z.of_nat (S (n + 2 + 1))) * unitRoundoff
                 <= bankerError n)%Q).
  { unfold bankerError.
    assert (Z.of_nat (S (n + 2 + 1)) = Z.of_nat n + 4) as -> by lia.
    rewrite inject_Z_plus. change (inject_Z 4) with 4%Q.
    pose proof unitRoundoff_range. lra. }
  assert (M * 0.8 * (2 * inject_Z (Z.of_nat (S (n + 2 + 1))) * unitRoundoff)
          <= M * 0.8 * bankerError n)%Q
    by (apply Qmult_le_l'; [exact HX | exact Hle]).
  split; lra.
Qed.

Lemma mean_nil_small : ~ (100 <= mean [])%Q.
Proof. vm_compute. intros H. apply H. reflexivity. Qed.

(** X5: from round 4 on every offer of the banker on an array of
    amounts passes [isGoodOffer] as soon as the mean of the remaining
    values is at least 100. *)
Theorem late_offers_are_good (l : list Q) (r : Z) (u : Q) :
  bankable l -> (100 <= mean l)%Q -> 4 <= r -> (0 <= u < 1)%Q ->
  isGoodOffer (getBankerOffer l r u) l = true.
Proof.
  intros Hl Hmean Hr Hu.
  assert (Hne : l <> []).
  { intros ->. now apply mean_nil_small. }
  destruct (getBankerOffer_between l r u Hl Hne ltac:(lia) Hu)
    as (m & k & Hk & _ & Hb & H4 & _ & _ & [Hlo _]).
  destruct (good_threshold l Hl Hne) as (t & Ht & [_ Hthi]).
  destruct Hl as [_ Hn]. destruct (bankerError_range _ Hn) as [He0 He1].
  unfold isGoodOffer. rewrite Hk, Ht. cbn [Double.ge].
  apply Qle_bool_iff. specialize (H4 Hr).
  set (M := mean l) in *. set (e := bankerError (length l)) in *.
  clearbody M e.
  assert (0.95 * M <= M * m)%Q by nra.
  assert (0.9 * (0.95 * M) * (1 - e) <= 0.9 * (M * m) * (1 - e))%Q
    by (apply Qmult_le_compat_r; lra).
  assert (M * e <= M * (1 # 1000000))%Q by (apply Qmult_le_l'; lra).
  lra.
Qed.

Lemma late_offers_are_good_witness :
  isGoodOffer (getBankerOffer [100; 250000]%Q 4 0.5) [100; 250000]%Q = true.
Proof.
  apply (late_offers_are_good [100; 250000]%Q 4 0.5).
  - split; [repeat constructor; vm_compute; discriminate | reflexivity].
  - vm_compute. discriminate.
  - lia.
  - split; [discriminate | reflexivity].
Defined.

(** X6: in round 1, and in any round before it, no offer of the banker
    on an array of amounts passes [isGoodOffer] when the mean of the
    remaining values is at least 167. *)
Theorem first_offer_is_not_good (l : list Q) (r : Z) (u : Q) :
  bankable l -> (167 <= mean l)%Q -> r <= 1 -> (0 <= u < 1)%Q ->
  isGoodOffer (getBankerOffer l r u) l = false.
Proof.
  intros Hl Hmean Hr Hu.
  assert (Hne : l <> []).
  { intros ->. apply mean_nil_small. lra. }
  destruct (Z_le_gt_dec r 0) as [H0|H0].
  - unfold isGoodOffer.
    rewrite (getBankerOffer_early_round l r u Hne H0). reflexivity.
  - assert (r = 1) as -> by lia.
    destruct (getBankerOffer_between l 1 u Hl Hne ltac:(lia) Hu)
      as (m & k & Hk & _ & Hb & _ & H1 & _ & [_ Hhi]).
    destruct (good_threshold l Hl Hne) as (t & Ht & [Htlo _]).
    destruct Hl as [_ Hn]. destruct (bankerError_range _ Hn) as [He0 He1].
    unfold isGoodOffer. rewrite Hk, Ht. cbn [Double.ge].
    apply not_true_is_false. intros Hgood. apply Qle_bool_iff in Hgood.
    specialize (H1 eq_refl). rewrite H1 in Hhi.
    set (M := mean l) in *. set (e := bankerError (length l)) in *.
    clearbody M e.
    assert (M * e <= M * (1 # 1000000))%Q by (apply Qmult_le_l'; lra).
    lra.
Qed.

Lemma first_offer_is_not_good_witness :
  isGoodOffer (getBankerOffer [100; 250000]%Q 1 0.5) [100; 250000]%Q = false.
Proof.
  apply (first_offer_is_not_good [100; 250000]%Q 1 0.5).
  - split; [repeat constructor; vm_compute; discriminate | reflexivity].
  - vm_compute. discriminate.
  - lia.
  - split; [discriminate | reflexivity].
Defined.

(** Outside the amounts neither holds: a sum that loses its small terms
    gives a negative offer in round 4, and a sum that overflows makes
    offer and threshold both infinite in round 1. *)
Example isGoodOffer_outside_amounts :
  getBankerOffer [1e30; 1e13; -1e30; -1e6]%Q 4 0.5 = Double.Fin (-237500)
  /\ isGoodOffer (getBankerOffer [1e30; 1e13; -1e30; -1e6]%Q 4 0.5)
       [1e30; 1e13; -1e30; -1e6]%Q = false
  /\ getBankerOffer [1e308; 1e308]%Q 1 0 = Double.Inf false
  /\ isGoodOffer (getBankerOffer [1e308; 1e308]%Q 1 0) [1e308; 1e308]%Q
     = true.
Proof. repeat split; vm_compute; reflexivity. Qed.


(* ================================================================== *)
(** * Further properties of names, boxes, turns and passwords *)
(* ================================================================== *)

Lemma trimEnd_head c s :
  isWhiteSpace c = false -> exists s', trimEnd (String c s) = String c s'.
Proof. intros Hc. simpl. rewrite Hc. simpl. eauto. Qed.

Lemma trim_head s :
  trim s = EmptyString
  \/ exists c s', trim s = String c s' /\ isWhiteSpace c = false.
Proof.
  unfold trim.
  destruct (trimStart_head s) as [-> | (c & s' & -> & Hc)]; [now left|].
  right. destruct (trimEnd_head c s' Hc) as (s'' & ->). eauto.
Qed.

Lemma trimStart_fixed c s :
  isWhiteSpace c = false -> trimStart (String c s) = String c s.
Proof. intros Hc. simpl. now rewrite Hc. Qed.

(** X7: whatever the input, the sanitised name has at most 16
    characters, contains no banned word in any letter case, and does not
    begin with white space. *)
Theorem sanitiseName_safe (name : string) :
  (String.length (sanitiseName name) <= MAX_NAME_LENGTH)%nat
  /\ containsProfanity (sanitiseName name) = false
  /\ trimStart (sanitiseName name) = sanitiseName name.
Proof.
  split; [apply sanitiseName_length|].
  split; [apply sanitiseName_not_profane|].
  assert (Hcut : trimStart (slice0 MAX_NAME_LENGTH (trim name))
                 = slice0 MAX_NAME_LENGTH (trim name)).
  { destruct (trim_head name) as [-> | (c & s' & -> & Hc)]; [reflexivity|].
    simpl. now rewrite Hc. }
  unfold sanitiseName. destruct (containsProfanity _); [|exact Hcut].
  now rewrite trimStart_replaceVowels, Hcut.
Qed.

Lemma imap_boxes_fresh (f : nat -> Z) (values : list Q) :
  Forall (fun b => Box.isOpened b = false /\ Box.openedByPlayerId b = None)
    (imap (fun index value => Box.mk (f index) value false None) values).
Proof.
  revert f. induction values as [|v values IH]; intros f; [constructor|].
  cbn [imap]. constructor; [split; reflexivity | apply (IH (f ∘ S))].
Qed.

(** X8: with draws in [0, 1), [createInitialBoxes] returns the boxes
    numbered 1 to 20 in this order, all closed and without opener, and
    their values are the value ladder in some order. *)
Theorem createInitialBoxes_spec (random : nat -> Q) :
  (forall k, unitDraw (random k)) ->
  map Box.number (createInitialBoxes random) = map Z.of_nat (seq 1 20)
  /\ Forall (fun b => Box.isOpened b = false /\ Box.openedByPlayerId b = None)
       (createInitialBoxes random)
  /\ Permutation (map Box.value (createInitialBoxes random)) BOX_VALUES.
Proof.
  intros _.
  pose proof (shuffleArray_perm random BOX_VALUES) as Hperm.
  assert (Hlen : length (shuffleArray random BOX_VALUES) = 20%nat)
    by (now rewrite (Permutation_length Hperm)).
  unfold createInitialBoxes. split; [|split].
  - rewrite <- Hlen. apply (imap_boxes_numbers _ 0).
  - apply imap_boxes_fresh.
  - now rewrite imap_boxes_values.
Qed.

Lemma createInitialBoxes_spec_witness :
  map Box.number (createInitialBoxes (fun _ => 0.5%Q))
  = map Z.of_nat (seq 1 20)
  /\ Forall (fun b => Box.isOpened b = false /\ Box.openedByPlayerId b = None)
       (createInitialBoxes (fun _ => 0.5%Q))
  /\ Permutation (map Box.value (createInitialBoxes (fun _ => 0.5%Q)))
       BOX_VALUES.
Proof.
  apply (createInitialBoxes_spec (fun _ => 0.5%Q)).
  intros k. split; [discriminate | reflexivity].
Defined.

(** *** The next active player *)

Lemma isActiveTurnAt_spec gs startIndex i :
  isActiveTurnAt gs startIndex i = true
  <-> activeTurn gs
        (Z.rem (startIndex + i) (Z.of_nat (length (GameState.turnOrder gs)))).
Proof.
  unfold isActiveTurnAt, activeTurn, getPlayer.
  destruct (arrayGet _ _) as [pid|] eqn:Hget.
  - destruct (playersGet _ pid) as [p|] eqn:Hp.
    + rewrite andb_true_iff, negb_true_iff. unfold isRolePlayer. split.
      * intros [Hd Hr]. exists pid, p. repeat split; try assumption.
        revert Hr. destruct (Player.role p); [reflexivity | discriminate].
      * intros (pid' & p' & [= <-] & Hp' & Hd & Hr).
        rewrite Hp in Hp'. injection Hp' as <-. now rewrite Hr.
    + split; [discriminate|].
      intros (pid' & p' & [= <-] & Hp' & _). congruence.
  - split; [discriminate|]. intros (pid' & p' & Hp & _). discriminate Hp.
Qed.

Lemma arrayGet_range {A} (l : list A) (i : Z) (x : A) :
  arrayGet l i = Some x -> 0 <= i < Z.of_nat (length l).
Proof.
  unfold arrayGet. destruct (Z.ltb_spec i 0) as [|Hi]; [discriminate|].
  intros Hx. apply lookup_lt_Some in Hx. lia.
Qed.

(** X9: [getNextActivePlayerIndex] returns either -1 or the index of a
    turn-order entry that is a seated player who has not dealt; from a
    non-negative start it returns -1 only if the turn order has no such
    entry, and the entries it passes over on the way are not active. *)
Theorem getNextActivePlayerIndex_spec (gs : GameState) (startIndex : Z) :
  0 <= startIndex ->
  let n := Z.of_nat (length (GameState.turnOrder gs)) in
  let next := getNextActivePlayerIndex gs startIndex in
  (next = -1 /\ forall idx, ~ activeTurn gs idx)
  \/ (activeTurn gs next
      /\ exists i, 0 <= i < n /\ next = (startIndex + i) mod n
         /\ forall j, 0 <= j < i -> ~ activeTurn gs ((startIndex + j) mod n)).
Proof.
  intros Hstart n next. subst next. unfold getNextActivePlayerIndex.
  destruct (length (GameState.turnOrder gs) =? 0)%nat eqn:Hlen.
  - left. split; [reflexivity|]. intros idx (pid & p & Hget & _).
    apply arrayGet_range in Hget. apply Nat.eqb_eq in Hlen. lia.
  - apply Nat.eqb_neq in Hlen.
    assert (Hn : 0 < n) by (unfold n; lia).
    assert (Hrem : forall i, 0 <= i -> Z.rem (startIndex + i) n = (startIndex + i) mod n).
    { intros i Hi. apply Z.rem_mod_nonneg; lia. }
    destruct (List.find _ _) as [i|] eqn:Hfind.
    + right.
      pose proof (find_some _ _ Hfind) as [Hin Hact].
      apply in_map_iff in Hin as (k & <- & Hk). apply in_seq in Hk.
      apply isActiveTurnAt_spec in Hact. split; [exact Hact|].
      exists (Z.of_nat k). fold n. split; [lia|]. split; [apply Hrem; lia|].
      intros j Hj Hactj.
      (* the entries before the one found fail the test *)
      assert (Hfirst : forall m (l : nat),
                 List.find (isActiveTurnAt gs startIndex)
                   (map Z.of_nat (seq m l)) = Some (Z.of_nat k) ->
                 forall j', (m <= j' < k)%nat ->
                 isActiveTurnAt gs startIndex (Z.of_nat j') = false).
      { intros m l. revert m. induction l as [|l IH]; intros m Hf j' Hj';
          [discriminate Hf|].
        simpl in Hf.
        destruct (isActiveTurnAt gs startIndex (Z.of_nat m)) eqn:Hm.
        - injection Hf as Hf. apply Nat2Z.inj in Hf. lia.
        - destruct (Nat.eq_dec j' m) as [->|Hne]; [exact Hm|].
          apply (IH (S m) Hf). lia. }
      specialize (Hfirst 0%nat _ Hfind (Z.to_nat j) ltac:(lia)).
      rewrite Z2Nat.id in Hfirst by lia.
      apply not_true_iff_false in Hfirst. apply Hfirst.
      apply isActiveTurnAt_spec. fold n. now rewrite Hrem by lia.
    + left. split; [reflexivity|]. intros idx Hact.
      pose proof Hact as (pid & p & Hget & _).
      apply arrayGet_range in Hget. fold n in Hget.
      set (i := (idx - startIndex) mod n).
      assert (Hi : 0 <= i < n) by (apply Z.mod_pos_bound; lia).
      assert (Hidx : (startIndex + i) mod n = idx).
      { unfold i. rewrite Zplus_mod_idemp_r.
        replace (startIndex + (idx - startIndex)) with idx by lia.
        apply Z.mod_small; lia. }
      assert (Hnone : isActiveTurnAt gs startIndex (Z.of_nat (Z.to_nat i))
                      = false).
      { apply (find_none _ _ Hfind). apply in_map. apply in_seq. lia. }
      apply not_true_iff_false in Hnone. apply Hnone.
      rewrite Z2Nat.id by lia. apply isActiveTurnAt_spec. fold n.
      rewrite Hrem by lia. now rewrite Hidx.
Qed.

Lemma getNextActivePlayerIndex_spec_witness :
  let gs := gameState sample_started in
  let n := Z.of_nat (length (GameState.turnOrder gs)) in
  let next := getNextActivePlayerIndex gs 1 in
  (next = -1 /\ forall idx, ~ activeTurn gs idx)
  \/ (activeTurn gs next
      /\ exists i, 0 <= i < n /\ next = (1 + i) mod n
         /\ forall j, 0 <= j < i -> ~ activeTurn gs ((1 + j) mod n)).
Proof.
  apply (getNextActivePlayerIndex_spec (gameState sample_started) 1). lia.
Defined.

(** *** The room password *)

(** X10: once the host of a waiting room has set a password that is not
    blank, [joinRoom] refuses with "Incorrect password" exactly the
    requests that do not present the stored password, which is the
    trimmed input cut at 64 characters; a blank or absent input clears
    the password, and then no request is refused for its password. *)
Theorem password_gate (w : World) (host : string) (input : option string)
    (playerId socketId playerName : string) (given : option string)
    (asSpectator : bool) :
  GameState.hostId (gameState w) = host ->
  GameState.phase (gameState w) = Waiting ->
  let raw := match input with Some s => trim s | None => EmptyString end in
  let gs := gameState (on_set_room_password w host input) in
  (joinRoom gs playerId socketId playerName given asSpectator
   = inl IncorrectPassword
   <-> raw <> EmptyString /\ given <> Some (slice0 64 raw)).
Proof.
  intros Hhost Hphase raw gs. subst gs. unfold on_set_room_password.
  rewrite Hhost, String.eqb_refl.
  apply isPhase_true in Hphase. rewrite Hphase. cbn [negb].
  fold raw. unfold joinRoom, setRoomPassword.
  cbn [gameState withState GameState.password GameState.set_password
       GameState.phase GameState.players].
  destruct raw as [|c raw'] eqn:Hraw.
  - cbn [isEmptyString andb].
    split; [|intros [H _]; congruence].
    destruct (negb asSpectator && _); [discriminate|].
    destruct (negb asSpectator && _); discriminate.
  - cbn [isEmptyString].
    assert (Hne : isEmptyString (slice0 64 (String c raw')) = false)
      by reflexivity.
    rewrite Hne. cbn [negb andb].
    destruct given as [g|].
    + destruct (String.eqb_spec (slice0 64 (String c raw')) g) as [<-|Hneq].
      * cbn [negb]. split; [|intros [_ H]; congruence].
        destruct (negb asSpectator && _); [discriminate|].
        destruct (negb asSpectator && _); discriminate.
      * cbn [negb]. split; [|reflexivity].
        intros _. split; [discriminate | congruence].
    + cbn [negb]. split; [|reflexivity].
      intros _. split; discriminate.
Qed.

Lemma password_gate_witness :
  let raw := match Some " open sesame "%string with
             | Some s => trim s | None => EmptyString end in
  let gs := gameState (on_set_room_password sample_created "H"
                         (Some " open sesame "%string)) in
  (joinRoom gs "J" "sockJ" "Joe" (Some "sesame"%string) false
   = inl IncorrectPassword
   <-> raw <> EmptyString /\ Some "sesame"%string <> Some (slice0 64 raw)).
Proof.
  apply (password_gate sample_created "H" (Some " open sesame "%string)
           "J" "sockJ" "Joe" (Some "sesame"%string) false);
    vm_compute; reflexivity.
Defined.


(* ================================================================== *)
(** * Sorting and leaderboards *)
(* ================================================================== *)

Section SortByKey.
Context {A : Type} (key : A -> Z).

Let compare := fun a b : A => key b - key a.

Lemma sortInsert_perm (x : A) (l : list A) :
  Permutation (sortInsert compare x l) (x :: l).
Proof.
  induction l as [|y l IH]; simpl; [reflexivity|].
  destruct (compare x y <=? 0); [reflexivity|].
  etransitivity; [apply perm_skip, IH | apply perm_swap].
Qed.

Lemma arraySort_perm (l : list A) : Permutation (arraySort compare l) l.
Proof.
  induction l as [|x l IH]; simpl; [reflexivity|].
  etransitivity; [apply sortInsert_perm | now apply perm_skip].
Qed.

Lemma arraySort_length (l : list A) :
  length (arraySort compare l) = length l.
Proof. apply Permutation_length, arraySort_perm. Qed.

Lemma sortInsert_sorted (x : A) (l : list A) :
  StronglySorted (fun a b => key b <= key a) l ->
  StronglySorted (fun a b => key b <= key a) (sortInsert compare x l).
Proof.
  induction 1 as [|y l Hs IH Hy]; simpl.
  - constructor; constructor.
  - unfold compare at 1. destruct (Z.leb_spec (key y - key x) 0) as [Hle|Hgt].
    + constructor; [now constructor|].
      constructor; [lia|].
      eapply List.Forall_impl; [|exact Hy]. simpl. intros; lia.
    + constructor; [exact IH|].
      rewrite (sortInsert_perm x l). constructor; [lia | exact Hy].
Qed.

Lemma arraySort_sorted (l : list A) :
  StronglySorted (fun a b => key b <= key a) (arraySort compare l).
Proof.
  induction l as [|x l IH]; simpl; [constructor|].
  now apply sortInsert_sorted.
Qed.

Lemma StronglySorted_descending (l : list A) :
  StronglySorted (fun a b => key b <= key a) l -> descending key l.
Proof.
  induction 1 as [|x l Hs IH Hx]; intros i j a b Hij Hi Hj.
  - discriminate Hi.
  - destruct i as [|i], j as [|j]; simpl in Hi, Hj; try lia.
    + injection Hi as <-. injection Hj as <-. lia.
    + injection Hi as <-.
      rewrite List.Forall_forall in Hx. apply Hx.
      eapply list_elem_of_In, list_elem_of_lookup_2, Hj.
    + apply (IH i j a b); [lia | assumption | assumption].
Qed.

Lemma arraySort_descending (l : list A) : descending key (arraySort compare l).
Proof. apply StronglySorted_descending, arraySort_sorted. Qed.

Lemma sortInsert_stable (k : Z) (x : A) (l : list A) :
  List.filter (fun a => key a =? k) (sortInsert compare x l)
  = List.filter (fun a => key a =? k) (x :: l).
Proof.
  induction l as [|y l IH]; [reflexivity|].
  cbn [sortInsert]. unfold compare at 1.
  destruct (Z.leb_spec (key y - key x) 0) as [Hle|Hgt]; [reflexivity|].
  cbn [List.filter] in *. rewrite IH.
  destruct (Z.eqb_spec (key x) k), (Z.eqb_spec (key y) k);
    try reflexivity; lia.
Qed.

Lemma arraySort_stable (k : Z) (l : list A) :
  List.filter (fun a => key a =? k) (arraySort compare l)
  = List.filter (fun a => key a =? k) l.
Proof.
  induction l as [|x l IH]; [reflexivity|].
  cbn [arraySort fold_right]. fold (arraySort compare l).
  rewrite sortInsert_stable. cbn [List.filter]. now rewrite IH.
Qed.

End SortByKey.

Lemma descending_take {A} (key : A -> Z) (n : nat) (l : list A) :
  descending key l -> descending key (take n l).
Proof.
  intros H i j x y Hij Hi Hj.
  apply lookup_take_Some in Hi as [Hi _].
  apply lookup_take_Some in Hj as [Hj _]. eauto.
Qed.

Lemma descending_imap {A B} (keyA : A -> Z) (keyB : B -> Z)
    (f : nat -> A -> B) (l : list A) :
  (forall i x, keyB (f i x) = keyA x) ->
  descending keyA l -> descending keyB (imap f l).
Proof.
  intros Hkey H i j x y Hij Hi Hj.
  rewrite list_lookup_imap in Hi, Hj.
  destruct (l !! i) as [a|] eqn:Ha; [|discriminate Hi].
  destruct (l !! j) as [b|] eqn:Hb; [|discriminate Hj].
  simpl in Hi, Hj. injection Hi as <-. injection Hj as <-.
  rewrite !Hkey. eauto.
Qed.

Lemma ranked_imap {A B} (rank : B -> Z) (f : nat -> A -> B) (l : list A) :
  (forall i x, rank (f i x) = Z.of_nat i + 1) -> ranked rank (imap f l).
Proof.
  intros Hrank i x Hi. rewrite list_lookup_imap in Hi.
  destruct (l !! i); [|discriminate Hi].
  simpl in Hi. injection Hi as <-. apply Hrank.
Qed.

Lemma imap_as_map {A B C} (g : B -> C) (h : A -> C) (f : nat -> A -> B)
    (l : list A) :
  (forall i x, g (f i x) = h x) -> map g (imap f l) = map h l.
Proof.
  intros H. revert f H. induction l as [|x l IH]; intros f H; [reflexivity|].
  cbn [imap map]. rewrite H. f_equal. apply IH. intros i y. apply H.
Qed.

Lemma filter_imap {A B} (p : B -> bool) (q : A -> bool) (g : B -> string)
    (h : A -> string) (f : nat -> A -> B) (l : list A) :
  (forall i x, p (f i x) = q x) -> (forall i x, g (f i x) = h x) ->
  map g (List.filter p (imap f l)) = map h (List.filter q l).
Proof.
  intros Hp Hg. revert f Hp Hg.
  induction l as [|x l IH]; intros f Hp Hg; [reflexivity|].
  cbn [imap List.filter]. rewrite Hp.
  destruct (q x); cbn [map]; [rewrite Hg; f_equal|];
    apply IH; intros i y; [apply Hp | apply Hg | apply Hp | apply Hg].
Qed.

Lemma filter_map_comm {A B} (p : B -> bool) (f : A -> B) (l : list A) :
  List.filter p (map f l) = map f (List.filter (fun x => p (f x)) l).
Proof.
  induction l as [|x l IH]; [reflexivity|]. simpl.
  destruct (p (f x)); simpl; now rewrite IH.
Qed.

(** X11: the leaderboard of a room lists every contestant once, carries
    the ranks 1, 2, ... in this order, is in descending order of points,
    and lists the contestants with equal points in the order in which
    they joined the room. *)
Theorem leaderboardOf_spec (gs : GameState) :
  let contestants := List.filter isContestant (GameState.players gs) in
  ranked GameLeaderboardEntry.rank (leaderboardOf gs)
  /\ descending GameLeaderboardEntry.points (leaderboardOf gs)
  /\ Permutation (map GameLeaderboardEntry.playerId (leaderboardOf gs))
       (map Player.id contestants)
  /\ forall k,
       map GameLeaderboardEntry.playerId
         (List.filter (fun e => GameLeaderboardEntry.points e =? k)
            (leaderboardOf gs))
       = map Player.id
           (List.filter (fun p => pointsOrZero (Player.points p) =? k)
              contestants).
Proof.
  intros contestants. unfold leaderboardOf. fold contestants.
  set (entry := fun p : Player =>
         GameLeaderboardEntry.mk (Player.id p) (Player.name p)
           (amountOrZero (Player.dealAmount p))
           (pointsOrZero (Player.points p)) (Player.isLastStanding p) 0).
  split; [|split; [|split]].
  - apply ranked_imap. reflexivity.
  - apply (descending_imap GameLeaderboardEntry.points); [reflexivity|].
    apply arraySort_descending.
  - rewrite (imap_as_map _ GameLeaderboardEntry.playerId) by reflexivity.
    rewrite (arraySort_perm GameLeaderboardEntry.points).
    now rewrite map_map.
  - intros k.
    rewrite (filter_imap _ (fun e => GameLeaderboardEntry.points e =? k)
               _ GameLeaderboardEntry.playerId) by reflexivity.
    rewrite (arraySort_stable GameLeaderboardEntry.points).
    rewrite filter_map_comm, map_map. reflexivity.
Qed.

(** *** The highest winnings *)

Lemma highestOf_fold (rest : list Q) (a : Q) :
  let h := fold_left (fun m x => if Qgtb x m then x else m) rest a in
  (a <= h)%Q
  /\ Forall (fun x => (x <= h)%Q) rest
  /\ (h = a \/ In h rest).
Proof.
  revert a. induction rest as [|x rest IH]; intros a; simpl.
  - split; [lra|]. split; [constructor | now left].
  - destruct (Qgtb x a) eqn:E.
    + apply Qgtb_spec in E.
      destruct (IH x) as (Hx & Hall & Hin).
      split; [lra|]. split; [constructor; assumption|].
      destruct Hin as [->|Hin]; auto.
    + apply Qgtb_false in E.
      destruct (IH a) as (Ha & Hall & Hin).
      split; [exact Ha|]. split; [constructor; [lra | assumption]|].
      destruct Hin as [->|Hin]; auto.
Qed.

Lemma highestOf_max (l : list Q) :
  l <> [] ->
  Forall (fun x => (x <= highestOf l)%Q) l /\ In (highestOf l) l.
Proof.
  destruct l as [|a rest]; [congruence|]. intros _.
  destruct (highestOf_fold rest a) as (Ha & Hall & Hin).
  split; [constructor; assumption|].
  destruct Hin as [Hin|Hin]; [left; symmetry; exact Hin | now right].
Qed.

(** The comparison [x === highestWinnings] holds exactly when no amount
    of the list exceeds [x]. *)
Lemma highestOf_flag (l : list Q) (x : Q) :
  In x l ->
  (Qeq_bool x (highestOf l) = true <-> forall y, In y l -> (y <= x)%Q).
Proof.
  intros Hx.
  destruct (highestOf_max l) as [Hall Hin].
  { intros ->. destruct Hx. }
  rewrite List.Forall_forall in Hall.
  rewrite Qeq_bool_iff. split.
  - intros E y Hy. rewrite E. now apply Hall.
  - intros Hmax. apply Qle_antisym; [now apply Hall | now apply Hmax].
Qed.

(** X12: [generateLeaderboard] lists every player once, in descending
    order of points and with the ranks 1, 2, ...; a player's points are
    those of [calculatePoints], with the bonus for the highest winnings
    given to exactly the players whose final amount no player exceeds. *)
Theorem generateLeaderboard_spec (players : list PlayerResult) :
  ranked LeaderboardEntry.rank (generateLeaderboard players)
  /\ descending LeaderboardEntry.points (generateLeaderboard players)
  /\ exists flag : PlayerResult -> bool,
       (forall p, In p players ->
          (flag p = true <->
           forall q, In q players ->
             (PlayerResult.finalAmount q <= PlayerResult.finalAmount p)%Q))
       /\ Permutation
            (map (fun e => (LeaderboardEntry.playerId e,
                            LeaderboardEntry.amount e,
                            LeaderboardEntry.points e))
               (generateLeaderboard players))
            (map (fun p => (PlayerResult.playerId p,
                            PlayerResult.finalAmount p,
                            calculatePoints
                              (PlayerResult.finalAmount p)
                              (PlayerResult.finalBoxValue p)
                              (PlayerResult.roundDealt p)
                              (PlayerResult.isLastStanding p)
                              (flag p)
                              (PlayerResult.timeoutCount p)))
               players).
Proof.
  unfold generateLeaderboard.
  set (highestWinnings := highestOf (map PlayerResult.finalAmount players)).
  split; [|split].
  - apply ranked_imap. reflexivity.
  - apply (descending_imap LeaderboardEntry.points); [reflexivity|].
    apply arraySort_descending.
  - exists (fun p => Qeq_bool (PlayerResult.finalAmount p) highestWinnings).
    split.
    + intros p Hp. unfold highestWinnings.
      rewrite highestOf_flag by (now apply in_map). split.
      * intros H q Hq. apply H. now apply in_map.
      * intros H y Hy. apply in_map_iff in Hy as (q & <- & Hq). now apply H.
    + rewrite (imap_as_map _
                 (fun e => (LeaderboardEntry.playerId e,
                            LeaderboardEntry.amount e,
                            LeaderboardEntry.points e))) by reflexivity.
      rewrite (arraySort_perm LeaderboardEntry.points).
      now rewrite map_map.
Qed.

Lemma scored_contestant v p :
  isContestant (Player.set_points v p) = isContestant p.
Proof. reflexivity. Qed.

(** X13: after [finishGame] every contestant carries the points of
    [calculatePoints] for the own winnings, box value, round and
    timeouts, and the bonus for the highest winnings has gone to exactly
    the contestants whose winnings no contestant exceeds. *)
Theorem finishGame_points (w : World) (now : Z) (p : Player) :
  let gs' := gameState (finishGame w now) in
  In p (GameState.players gs') -> isContestant p = true ->
  exists flag : bool,
    Player.points p
    = Fin (calculatePoints
             (amountOrZero (Player.dealAmount p))
             (valueOrZero (Player.boxValue p))
             (roundOr (Player.roundDealt p) (GameState.currentRound gs'))
             (Player.isLastStanding p) flag (Player.timeoutCount p))
    /\ (flag = true <->
        forall q, In q (GameState.players gs') -> isContestant q = true ->
          (amountOrZero (Player.dealAmount q)
           <= amountOrZero (Player.dealAmount p))%Q).
Proof.
  intros gs'. subst gs'. unfold finishGame.
  cbn [gameState withState clearOfferTimer clearTurnTimer
       GameState.players GameState.set_offerResponses
       GameState.set_offerEligiblePlayerIds GameState.set_turnExpiresAt
       GameState.set_currentTurnPlayerId GameState.set_offerExpiresAt
       GameState.set_currentOffer GameState.set_finishedAt
       GameState.set_phase GameState.set_players GameState.currentRound].
  set (gs := gameState w).
  set (contestants := List.filter isContestant (GameState.players gs)).
  set (amounts := map (fun p => amountOrZero (Player.dealAmount p)) contestants).
  set (score := fun p : Player =>
         if isContestant p
         then Player.set_points
                (Fin (finalPoints (GameState.currentRound gs)
                        (highestOf amounts) p)) p
         else p).
  intros Hin Hc.
  apply in_map_iff in Hin as (p0 & <- & Hp0).
  assert (Hc0 : isContestant p0 = true).
  { revert Hc. unfold score. destruct (isContestant p0) eqn:E; [reflexivity|].
    intros H. change (isContestant p0 = true) in H. congruence. }
  assert (Hscore : forall q, Player.dealAmount (score q) = Player.dealAmount q).
  { intros q. unfold score. now destruct (isContestant q). }
  assert (Hkeep : forall q, isContestant (score q) = isContestant q).
  { intros q. unfold score. now destruct (isContestant q) eqn:E. }
  exists (Qeq_bool (amountOrZero (Player.dealAmount p0)) (highestOf amounts)).
  split.
  - unfold score. rewrite Hc0. reflexivity.
  - rewrite Hscore.
    rewrite highestOf_flag.
    2:{ unfold amounts.
        apply (in_map (fun p => amountOrZero (Player.dealAmount p))).
        apply filter_In. now split. }
    split.
    + intros H q Hq Hcq. apply in_map_iff in Hq as (q0 & <- & Hq0).
      rewrite Hscore. rewrite Hkeep in Hcq. apply H.
      apply (in_map (fun p => amountOrZero (Player.dealAmount p))).
      apply filter_In. now split.
    + intros H y Hy. apply in_map_iff in Hy as (q0 & <- & Hq0).
      apply filter_In in Hq0 as [Hq0 Hcq].
      rewrite <- (Hscore q0). apply H; [now apply in_map | now rewrite Hkeep].
Qed.

Lemma finishGame_points_witness :
  exists flag : bool,
    Player.points sample_scored_K
    = Fin (calculatePoints
             (amountOrZero (Player.dealAmount sample_scored_K))
             (valueOrZero (Player.boxValue sample_scored_K))
             (roundOr (Player.roundDealt sample_scored_K)
                (GameState.currentRound
                   (gameState (finishGame sample_offer_one_left 2000))))
             (Player.isLastStanding sample_scored_K) flag
             (Player.timeoutCount sample_scored_K))
    /\ (flag = true <->
        forall q,
          In q (GameState.players
                  (gameState (finishGame sample_offer_one_left 2000))) ->
          isContestant q = true ->
          (amountOrZero (Player.dealAmount q)
           <= amountOrZero (Player.dealAmount sample_scored_K))%Q).
Proof.
  apply (finishGame_points sample_offer_one_left 2000 sample_scored_K).
  - vm_compute. tauto.
  - reflexivity.
Defined.


(* ================================================================== *)
(** * Chat history and global leaderboard *)
(* ================================================================== *)

Lemma lastN_short {A} (n : nat) (l : list A) :
  (length l <= n)%nat -> lastN n l = l.
Proof.
  intros H. unfold lastN. now replace (length l - n)%nat with 0%nat by lia.
Qed.

Lemma lastN_length {A} (n : nat) (l : list A) :
  (length (lastN n l) <= n)%nat.
Proof. unfold lastN. rewrite length_drop. lia. Qed.

Lemma lastN_app {A} (n : nat) (a b : list A) :
  lastN n (lastN n a ++ b) = lastN n (a ++ b).
Proof.
  unfold lastN. destruct (Nat.le_gt_cases (length a) n) as [Hle|Hgt].
  - now replace (length a - n)%nat with 0%nat by lia.
  - rewrite !length_app, length_drop.
    replace (length a - (length a - n) + length b - n)%nat
      with (length b) by lia.
    replace (length a + length b - n)%nat
      with ((length a - n) + length b)%nat by lia.
    rewrite <- drop_drop. f_equal. rewrite drop_app_le by lia. reflexivity.
Qed.

Lemma push_shift_lastN {A} (l : list A) (x : A) :
  (length l <= 100)%nat ->
  (if (100 <? length (l ++ [x])%list)%nat then arrayShift (l ++ [x]) else l ++ [x])
  = lastN 100 (l ++ [x]).
Proof.
  intros Hl. unfold lastN. rewrite length_app. simpl length.
  destruct (Nat.ltb_spec 100 (length l + 1)) as [Hfull|Hroom].
  - replace (length l + 1 - 100)%nat with 1%nat by lia.
    destruct l; [simpl in Hfull; lia | reflexivity].
  - now replace (length l + 1 - 100)%nat with 0%nat by lia.
Qed.

Lemma getChatMessages_add chatMessages message code :
  chatBounded chatMessages ->
  getChatMessages (addChatMessage chatMessages message) code
  = if (ChatMessage.roomCode message =? code)%string
    then lastN 100 (getChatMessages chatMessages code ++ [message])
    else getChatMessages chatMessages code.
Proof.
  intros Hb. unfold addChatMessage.
  destruct (String.eqb_spec (ChatMessage.roomCode message) code) as [<-|Hne].
  - unfold getChatMessages at 1. rewrite lookup_insert_eq. simpl.
    apply push_shift_lastN, Hb.
  - unfold getChatMessages at 1. now rewrite lookup_insert_ne.
Qed.

Lemma chatBounded_add chatMessages message :
  chatBounded chatMessages ->
  chatBounded (addChatMessage chatMessages message).
Proof.
  intros Hb code. rewrite getChatMessages_add by assumption.
  destruct (_ =? _)%string; [apply lastN_length | apply Hb].
Qed.

Lemma chat_history_from chatMessages (messages : list ChatMessage) code :
  chatBounded chatMessages ->
  getChatMessages (fold_left addChatMessage messages chatMessages) code
  = lastN 100
      (getChatMessages chatMessages code
       ++ List.filter (fun m => (ChatMessage.roomCode m =? code)%string)
            messages).
Proof.
  revert chatMessages.
  induction messages as [|m messages IH]; intros chatMessages Hb.
  - simpl. rewrite app_nil_r. symmetry. apply lastN_short, Hb.
  - cbn [fold_left List.filter].
    rewrite IH by now apply chatBounded_add.
    rewrite getChatMessages_add by assumption.
    destruct (ChatMessage.roomCode m =? code)%string; [|reflexivity].
    rewrite lastN_app, <- app_assoc. reflexivity.
Qed.

(** X14: after any sequence of [addChatMessage] on an empty store, the
    history of a room is the last 100 of the messages sent to that room,
    in the order in which they were sent. *)
Theorem chat_history (messages : list ChatMessage) (code : string) :
  getChatMessages (fold_left addChatMessage messages ∅) code
  = lastN 100
      (List.filter (fun m => (ChatMessage.roomCode m =? code)%string) messages).
Proof.
  rewrite chat_history_from; [reflexivity|].
  intros c. unfold getChatMessages. rewrite lookup_empty. simpl. lia.
Qed.

Lemma chatBounded_empty : chatBounded ∅.
Proof. intros c. unfold getChatMessages. rewrite lookup_empty. simpl. lia. Qed.

Lemma lastN_In {A} (n : nat) (l : list A) (x : A) : In x (lastN n l) -> In x l.
Proof.
  unfold lastN. rewrite <- !list_elem_of_In. apply subseteq_drop.
Qed.

(** X15: a chat message of a seated player of the room is stored with
    the generated id, the room, the sender's id and name, at most the
    first 500 characters of the text and the time, at the end of the
    history of the sender's room, which keeps its last 100 messages; a
    message of a spectator or of somebody who is not in the room changes
    nothing; the histories of the other rooms stay as they are, and no
    history grows beyond 100 messages. *)
Theorem on_chat_message_spec (chatMessages : gmap string (list ChatMessage))
    (gs : GameState) (playerId content id : string) (now : Z) :
  chatBounded chatMessages ->
  let chat' := on_chat_message chatMessages gs playerId content id now in
  chatBounded chat'
  /\ (forall code, code <> GameState.roomCode gs ->
        getChatMessages chat' code = getChatMessages chatMessages code)
  /\ (getPlayer gs playerId = None -> chat' = chatMessages)
  /\ (forall player,
        getPlayer gs playerId = Some player ->
        Player.role player = RoleSpectator -> chat' = chatMessages)
  /\ (forall player,
        getPlayer gs playerId = Some player ->
        Player.role player = RolePlayer ->
        getChatMessages chat' (GameState.roomCode gs)
        = lastN 100
            (getChatMessages chatMessages (GameState.roomCode gs)
             ++ [ChatMessage.mk id (GameState.roomCode gs) playerId
                   (Player.name player) (slice0 500 content) now])
        /\ (String.length (slice0 500 content) <= 500)%nat).
Proof.
  intros Hb chat'. subst chat'. unfold on_chat_message.
  destruct (getPlayer gs playerId) as [player|] eqn:Hp.
  - destruct (Player.role player) eqn:Hrole.
    + set (message := ChatMessage.mk _ _ _ _ _ _).
      split; [now apply chatBounded_add|]. split.
      { intros code Hne. rewrite getChatMessages_add by assumption.
        cbn [ChatMessage.roomCode message].
        destruct (String.eqb_spec (GameState.roomCode gs) code); congruence. }
      split; [discriminate|]. split.
      { intros player' [= <-] Hspec. congruence. }
      intros player' [= <-] _. split; [|apply slice0_length].
      rewrite getChatMessages_add by assumption.
      cbn [ChatMessage.roomCode message]. now rewrite String.eqb_refl.
    + split; [exact Hb|]. split; [reflexivity|]. split; [reflexivity|].
      split; [reflexivity|]. intros player' [= <-] Hplay. congruence.
  - split; [exact Hb|]. split; [reflexivity|]. split; [reflexivity|].
    split; [reflexivity|]. discriminate.
Qed.

Lemma on_chat_message_spec_witness :
  let chat' :=
    on_chat_message ∅ (gameState sample_started) "J" "hello" "msg_1" 5 in
  chatBounded chat'
  /\ (forall code, code <> GameState.roomCode (gameState sample_started) ->
        getChatMessages chat' code = getChatMessages ∅ code)
  /\ (getPlayer (gameState sample_started) "J" = None -> chat' = ∅)
  /\ (forall player,
        getPlayer (gameState sample_started) "J" = Some player ->
        Player.role player = RoleSpectator -> chat' = ∅)
  /\ (forall player,
        getPlayer (gameState sample_started) "J" = Some player ->
        Player.role player = RolePlayer ->
        getChatMessages chat' (GameState.roomCode (gameState sample_started))
        = lastN 100
            (getChatMessages ∅ (GameState.roomCode (gameState sample_started))
             ++ [ChatMessage.mk "msg_1"
                   (GameState.roomCode (gameState sample_started)) "J"
                   (Player.name player) (slice0 500 "hello") 5])
        /\ (String.length (slice0 500 "hello") <= 500)%nat).
Proof.
  apply (on_chat_message_spec ∅ (gameState sample_started) "J" "hello"
           "msg_1" 5).
  intros c. unfold getChatMessages. rewrite lookup_empty. simpl. lia.
Defined.

(** *** Global leaderboard *)

Section GlobalLeaderboard.
Variable toUpperCase : string -> string.

Lemma hasPlayerId_true pid e :
  hasPlayerId pid e = true <-> GlobalLeaderboardEntry.playerId e = pid.
Proof. unfold hasPlayerId. apply String.eqb_eq. Qed.

Lemma board_find_updateFirst board pid pid' f :
  (forall e, GlobalLeaderboardEntry.playerId (f e)
             = GlobalLeaderboardEntry.playerId e) ->
  List.find (hasPlayerId pid') (updateFirst (hasPlayerId pid) f board)
  = if (pid =? pid')%string
    then option_map f (List.find (hasPlayerId pid) board)
    else List.find (hasPlayerId pid') board.
Proof.
  intros Hf. induction board as [|q l IH]; simpl.
  - now destruct (pid =? pid')%string.
  - destruct (hasPlayerId pid q) eqn:Hq; simpl.
    + unfold hasPlayerId at 1. rewrite Hf. fold (hasPlayerId pid' q).
      apply hasPlayerId_true in Hq.
      destruct (String.eqb_spec pid pid') as [<-|Hne].
      * unfold hasPlayerId. rewrite Hq, String.eqb_refl. reflexivity.
      * assert (hasPlayerId pid' q = false) as ->; [|reflexivity].
        apply not_true_is_false. intros H. apply hasPlayerId_true in H.
        congruence.
    + destruct (hasPlayerId pid' q) eqn:Hq'; [|exact IH].
      destruct (String.eqb_spec pid pid') as [<-|Hne];
        [congruence | reflexivity].
Qed.

Lemma existsb_find_Some {A} (test : A -> bool) (l : list A) :
  existsb test l = true -> exists x, List.find test l = Some x.
Proof.
  induction l as [|y l IH]; simpl; [discriminate|].
  destruct (test y); [eauto | exact IH].
Qed.

Lemma existsb_find_None {A} (test : A -> bool) (l : list A) :
  existsb test l = false -> List.find test l = None.
Proof.
  induction l as [|y l IH]; simpl; [reflexivity|].
  destruct (test y); [discriminate | exact IH].
Qed.

Lemma find_app_last {A} (test : A -> bool) (l : list A) (x : A) :
  List.find test (l ++ [x])
  = match List.find test l with
    | Some y => Some y
    | None => if test x then Some x else None
    end.
Proof.
  induction l as [|y l IH]; simpl; [reflexivity|].
  destruct (test y); [reflexivity | exact IH].
Qed.

(** The entry of [pid'] after one update. *)
Lemma updateGlobalLeaderboard_find board pid name pts pid' :
  List.find (hasPlayerId pid')
    (updateGlobalLeaderboard toUpperCase board pid name pts)
  = if (pid =? pid')%string then
      Some (GlobalLeaderboardEntry.mk pid name
              (name ++ "#" ++ toUpperCase (sliceLast 4 pid))%string
              (match List.find (hasPlayerId pid) board with
               | Some e => GlobalLeaderboardEntry.totalPoints e + pts
               | None => pts
               end)
              (match List.find (hasPlayerId pid) board with
               | Some e => GlobalLeaderboardEntry.gamesPlayed e + 1
               | None => 1
               end))
    else List.find (hasPlayerId pid') board.
Proof.
  unfold updateGlobalLeaderboard.
  destruct (existsb (hasPlayerId pid) board) eqn:Hex.
  - rewrite board_find_updateFirst by reflexivity.
    destruct (pid =? pid')%string; [|reflexivity].
    destruct (existsb_find_Some _ _ Hex) as (e & He). rewrite He. simpl.
    apply find_some in He as [_ He]. apply hasPlayerId_true in He.
    now rewrite He.
  - rewrite find_app_last. rewrite (existsb_find_None _ _ Hex).
    destruct (String.eqb_spec pid pid') as [<-|Hne].
    + rewrite (existsb_find_None _ _ Hex).
      unfold hasPlayerId. cbn [GlobalLeaderboardEntry.playerId].
      now rewrite String.eqb_refl.
    + destruct (List.find (hasPlayerId pid') board); [reflexivity|].
      unfold hasPlayerId. cbn [GlobalLeaderboardEntry.playerId].
      now destruct (String.eqb_spec pid pid').
Qed.

Lemma sumZ_app (a b : list Z) : sumZ (a ++ b) = sumZ a + sumZ b.
Proof. unfold sumZ. induction a as [|x a IH]; simpl; lia. Qed.

Lemma reportedPoints_snoc pid (reports : list Report) (r : Report) :
  reportedPoints pid (reports ++ [r])
  = reportedPoints pid reports
    ++ (if (fst (fst r) =? pid)%string then [snd r] else []).
Proof.
  unfold reportedPoints. rewrite List.filter_app, map_app. simpl.
  now destruct (fst (fst r) =? pid)%string.
Qed.

(** X16: after any sequence of reports on an empty global leaderboard,
    a player has an entry exactly if some report names the player, and
    the entry then holds the sum of the points reported for the player
    and the number of those reports. *)
Theorem globalLeaderboard_totals (reports : list Report) (pid : string) :
  let board := fold_left (reportUpdate toUpperCase) reports [] in
  match List.find (hasPlayerId pid) board with
  | Some e =>
      reportedPoints pid reports <> []
      /\ GlobalLeaderboardEntry.playerId e = pid
      /\ GlobalLeaderboardEntry.totalPoints e = sumZ (reportedPoints pid reports)
      /\ GlobalLeaderboardEntry.gamesPlayed e
         = Z.of_nat (length (reportedPoints pid reports))
  | None => reportedPoints pid reports = []
  end.
Proof.
  induction reports as [|r reports IH] using rev_ind; [reflexivity|].
  cbn zeta in *. rewrite fold_left_app. cbn [fold_left].
  set (board := fold_left (reportUpdate toUpperCase) reports []) in *.
  unfold reportUpdate at 1. rewrite updateGlobalLeaderboard_find.
  rewrite reportedPoints_snoc.
  destruct (String.eqb_spec (fst (fst r)) pid) as [Hr|Hr].
  - rewrite Hr.
    destruct (List.find (hasPlayerId pid) board) as [e|].
    + destruct IH as (Hne & Hid & Htot & Hgames).
      cbn [GlobalLeaderboardEntry.playerId GlobalLeaderboardEntry.totalPoints
           GlobalLeaderboardEntry.gamesPlayed].
      rewrite sumZ_app, length_app, Htot, Hgames. simpl.
      repeat split; try lia. now destruct (reportedPoints pid reports).
    + rewrite IH.
      cbn [GlobalLeaderboardEntry.playerId GlobalLeaderboardEntry.totalPoints
           GlobalLeaderboardEntry.gamesPlayed]. simpl.
      repeat split; try lia. discriminate.
  - rewrite app_nil_r. exact IH.
Qed.

End GlobalLeaderboard.

(** X17: the public global leaderboard shows at most 100 entries, with
    the ranks 1, 2, ... in this order and in descending order of total
    points; every entry it leaves out has at most the points of every
    entry it shows. *)
Theorem getGlobalLeaderboard_top (board : list GlobalLeaderboardEntry) :
  let shown := getGlobalLeaderboard board in
  length shown = Nat.min 100 (length board)
  /\ ranked GlobalLeaderboardEntryPublic.rank shown
  /\ descending GlobalLeaderboardEntryPublic.totalPoints shown
  /\ exists rest : list GlobalLeaderboardEntry,
       Permutation (map shownView shown ++ map publicView rest)
         (map publicView board)
       /\ forall r x, In r rest -> In x shown ->
            GlobalLeaderboardEntry.totalPoints r
            <= GlobalLeaderboardEntryPublic.totalPoints x.
Proof.
  intros shown. subst shown. unfold getGlobalLeaderboard.
  set (sorted := arraySort _ board).
  assert (Hperm : Permutation sorted board)
    by apply (arraySort_perm GlobalLeaderboardEntry.totalPoints).
  assert (Hdesc : descending GlobalLeaderboardEntry.totalPoints sorted)
    by apply arraySort_descending.
  split; [|split; [|split]].
  - rewrite length_imap, length_take, (Permutation_length Hperm). lia.
  - apply ranked_imap. reflexivity.
  - apply (descending_imap GlobalLeaderboardEntry.totalPoints);
      [reflexivity|].
    now apply descending_take.
  - exists (drop 100 sorted). split.
    + rewrite (imap_as_map shownView publicView) by reflexivity.
      rewrite <- map_app, take_drop. now apply Permutation_map.
    + intros r x Hr Hx.
      apply list_elem_of_In, list_elem_of_lookup_1 in Hr as (j & Hj).
      apply list_elem_of_In, elem_of_lookup_imap_1 in Hx as (i & y & -> & Hi).
      cbn [GlobalLeaderboardEntryPublic.totalPoints].
      rewrite lookup_drop in Hj.
      apply lookup_take_Some in Hi as [Hi Hlt].
      apply (Hdesc i (100 + j)%nat y r); [lia | assumption | assumption].
Qed.


(* ================================================================== *)
(** * Removal of stale rooms, settings and room codes *)
(* ================================================================== *)

Section Cleanup.
Variable toUpperCase : string -> string.
Variable ttl : Ttl.
Variable now : Z.

Let stale (room : Room) : bool := isStale ttl now (Room.gameState room).

Lemma hasCode_true code room :
  hasCode code room = true <-> Room.code room = code.
Proof. unfold hasCode. apply String.eqb_eq. Qed.

Lemma roomsDelete_other (l : list Room) code :
  ~ In code (map Room.code l) -> roomsDelete l code = l.
Proof.
  induction l as [|r l IH]; [reflexivity|].
  simpl. intros Hnot.
  destruct (hasCode code r) eqn:E.
  - apply hasCode_true in E. tauto.
  - simpl. f_equal. apply IH. tauto.
Qed.

Lemma roomsDelete_at (kept pending : list Room) (room : Room) :
  List.NoDup (map Room.code (kept ++ room :: pending)) ->
  roomsDelete (kept ++ room :: pending) (Room.code room) = kept ++ pending.
Proof.
  intros Hnd. unfold roomsDelete. rewrite List.filter_app. simpl.
  assert (hasCode (Room.code room) room = true) as ->
    by (now apply hasCode_true).
  simpl. rewrite map_app in Hnd. simpl in Hnd.
  apply List.NoDup_remove in Hnd as [Hnd Hnot].
  rewrite <- map_app in Hnot.
  fold (roomsDelete kept (Room.code room)).
  fold (roomsDelete pending (Room.code room)).
  rewrite !roomsDelete_other; [reflexivity | |];
    intros H; apply Hnot; rewrite map_app; apply in_or_app; auto.
Qed.

(** The loop, from a store whose rooms are [kept ++ pending]. *)
Lemma cleanupLoop_spec (pending kept : list Room) (st : Store) (removed : Z) :
  rooms st = kept ++ pending ->
  List.NoDup (map Room.code (rooms st)) ->
  Forall (fun room => toUpperCase (Room.code room) = Room.code room) pending ->
  let result := cleanupLoop toUpperCase ttl now pending st removed in
  rooms (fst result) = kept ++ List.filter (fun r => negb (stale r)) pending
  /\ snd result = removed + Z.of_nat (length (List.filter stale pending))
  /\ forall code,
       chatMessages (fst result) !! code
       = if existsb (fun r => hasCode code r && stale r) pending then None
         else chatMessages st !! code.
Proof.
  revert kept st removed.
  induction pending as [|room pending IH]; intros kept st removed Hrooms Hnd Hup.
  - simpl. rewrite Hrooms. split; [reflexivity|]. split; [lia | reflexivity].
  - cbn [cleanupLoop].
    assert (Hex : existsb (hasCode (Room.code room)) (rooms st) = true).
    { apply existsb_exists. exists room. split; [|now apply hasCode_true].
      rewrite Hrooms. apply in_or_app. right. now left. }
    rewrite Hex. cbn [negb].
    inversion Hup as [|? ? Hroom Hup']; subst.
    fold (stale room). destruct (stale room) eqn:Hstale.
    + destruct (existsb_find_Some _ _ Hex) as (found & Hfound).
      set (st' :=
        mkStore (kept ++ pending)
          (fold_left (fun m p => delete (Player.id p) m)
             (GameState.players (Room.gameState found)) (playerToRoom st))
          (fold_left (fun m p => delete (Player.socketId p) m)
             (GameState.players (Room.gameState found)) (socketToPlayer st))
          (delete (Room.code room) (chatMessages st))).
      assert (Hdel : deleteRoom toUpperCase st (Room.code room) = (st', true)).
      { unfold deleteRoom. rewrite Hroom. unfold roomsGet. rewrite Hfound.
        unfold st'. rewrite Hrooms at 1.
        rewrite roomsDelete_at by (now rewrite <- Hrooms). reflexivity. }
      rewrite Hdel.
      specialize (IH kept st' (removed + 1) eq_refl).
      destruct IH as (IHr & IHn & IHc); [|exact Hup'|].
      { unfold st'. cbn [rooms].
        rewrite Hrooms, map_app in Hnd. simpl in Hnd.
        apply List.NoDup_remove_1 in Hnd. now rewrite map_app. }
      split; [|split].
      * rewrite IHr. cbn [List.filter]. fold (stale room).
        now rewrite Hstale.
      * rewrite IHn. cbn [List.filter]. fold (stale room).
        rewrite Hstale. cbn [length]. lia.
      * intros code. rewrite IHc. cbn [existsb]. rewrite Hstale.
        destruct (String.eqb_spec (Room.code room) code) as [<-|Hne].
        -- assert (hasCode (Room.code room) room = true) as ->
             by (now apply hasCode_true).
           cbn [andb orb]. destruct (existsb _ pending); [reflexivity|].
           apply lookup_delete_eq.
        -- assert (hasCode code room = false) as ->.
           { apply not_true_is_false. intros H.
             apply hasCode_true in H. congruence. }
           cbn [andb orb]. destruct (existsb _ pending); [reflexivity|].
           now apply lookup_delete_ne.
    + specialize (IH (kept ++ [room]) st removed).
      rewrite <- app_assoc in IH. specialize (IH Hrooms Hnd Hup').
      destruct IH as (IHr & IHn & IHc).
      split; [|split].
      * rewrite IHr. cbn [List.filter]. fold (stale room).
        rewrite Hstale. cbn [negb]. now rewrite <- app_assoc.
      * rewrite IHn. cbn [List.filter]. fold (stale room).
        now rewrite Hstale.
      * intros code. rewrite IHc. cbn [existsb]. rewrite Hstale.
        now rewrite andb_false_r.
Qed.

Lemma cleanupRooms_spec (st : Store) :
  roomKeysOk toUpperCase st ->
  let result := cleanupRooms toUpperCase ttl st now in
  rooms (fst result) = List.filter (fun r => negb (stale r)) (rooms st)
  /\ snd result = Z.of_nat (length (List.filter stale (rooms st)))
  /\ forall code,
       chatMessages (fst result) !! code
       = if existsb (fun r => hasCode code r && stale r) (rooms st) then None
         else chatMessages st !! code.
Proof.
  intros [Hnd Hup]. unfold cleanupRooms.
  apply (cleanupLoop_spec (rooms st) [] st 0); auto.
Qed.

Lemma filter_length_split {A} (f : A -> bool) (l : list A) :
  (length (List.filter f l) + length (List.filter (fun x => negb (f x)) l)
   = length l)%nat.
Proof.
  induction l as [|x l IH]; [reflexivity|].
  simpl. destruct (f x); simpl; lia.
Qed.

(** X18: [cleanupRooms] never removes a room whose game is in the
    playing or offer phase, nor its chat history, whatever the time and
    the settings; what it returns is the number of rooms it removed. *)
Theorem cleanupRooms_keeps_games_in_play (st : Store) (room : Room) :
  roomKeysOk toUpperCase st ->
  In room (rooms st) -> inPlay room ->
  let result := cleanupRooms toUpperCase ttl st now in
  In room (rooms (fst result))
  /\ chatMessages (fst result) !! Room.code room
     = chatMessages st !! Room.code room
  /\ snd result
     = Z.of_nat (length (rooms st)) - Z.of_nat (length (rooms (fst result))).
Proof.
  intros Hok Hin Hplay result.
  destruct (cleanupRooms_spec st Hok) as (Hr & Hn & Hc). fold result in Hr, Hn, Hc.
  assert (Hfresh : stale room = false).
  { unfold stale, isStale. now destruct Hplay as [-> | ->]. }
  split; [|split].
  - rewrite Hr. apply filter_In. split; [exact Hin | now rewrite Hfresh].
  - rewrite Hc.
    destruct (existsb _ (rooms st)) eqn:Hex; [|reflexivity].
    apply existsb_exists in Hex as (r & Hrin & Hr2).
    apply andb_true_iff in Hr2 as [Hcode Hst].
    apply hasCode_true in Hcode.
    destruct Hok as [Hnd _].
    assert (r = room) as -> by (eapply NoDup_map_inj; eauto).
    congruence.
  - rewrite Hn, Hr.
    pose proof (filter_length_split stale (rooms st)). lia.
Qed.

(** X19: [cleanupRooms] removes exactly the rooms that are stale: the
    waiting and selection rooms created longer ago than their setting,
    and the finished rooms whose end (or, failing that, start or
    creation) lies longer back than theirs; the other rooms stay in their
    order, and the chat history of every removed room is gone. *)
Theorem cleanupRooms_removes_stale (st : Store) :
  roomKeysOk toUpperCase st ->
  let result := cleanupRooms toUpperCase ttl st now in
  rooms (fst result)
  = List.filter (fun r => negb (isStale ttl now (Room.gameState r))) (rooms st)
  /\ forall room, In room (rooms st) ->
       isStale ttl now (Room.gameState room) = true ->
       chatMessages (fst result) !! Room.code room = None.
Proof.
  intros Hok result.
  destruct (cleanupRooms_spec st Hok) as (Hr & _ & Hc). fold result in Hr, Hc.
  split; [exact Hr|].
  intros room Hin Hst. rewrite Hc.
  assert (existsb (fun r => hasCode (Room.code room) r && stale r) (rooms st)
          = true) as ->; [|reflexivity].
  apply existsb_exists. exists room. split; [exact Hin|].
  apply andb_true_iff. split; [now apply hasCode_true | exact Hst].
Qed.

End Cleanup.

Lemma cleanupRooms_keeps_games_in_play_witness :
  let result :=
    cleanupRooms (fun s => s) (ttlOfEnv None None None) sample_store 50000000 in
  In (Room.mk "ROOM22" (gameState sample_started)) (rooms (fst result))
  /\ chatMessages (fst result)
       !! Room.code (Room.mk "ROOM22" (gameState sample_started))
     = chatMessages sample_store
         !! Room.code (Room.mk "ROOM22" (gameState sample_started))
  /\ snd result
     = Z.of_nat (length (rooms sample_store))
       - Z.of_nat (length (rooms (fst result))).
Proof.
  apply (cleanupRooms_keeps_games_in_play (fun s => s)
           (ttlOfEnv None None None) 50000000 sample_store
           (Room.mk "ROOM22" (gameState sample_started))).
  - split.
    + repeat constructor; simpl; intuition discriminate.
    + repeat constructor.
  - left. reflexivity.
  - left. vm_compute. reflexivity.
Defined.

Lemma cleanupRooms_removes_stale_witness :
  let result :=
    cleanupRooms (fun s => s) (ttlOfEnv None None None) sample_store 50000000 in
  rooms (fst result)
  = List.filter
      (fun r => negb (isStale (ttlOfEnv None None None) 50000000
                        (Room.gameState r)))
      (rooms sample_store)
  /\ forall room, In room (rooms sample_store) ->
       isStale (ttlOfEnv None None None) 50000000 (Room.gameState room) = true ->
       chatMessages (fst result) !! Room.code room = None.
Proof.
  apply (cleanupRooms_removes_stale (fun s => s)
           (ttlOfEnv None None None) 50000000 sample_store).
  split.
  - repeat constructor; simpl; intuition discriminate.
  - repeat constructor.
Defined.

(** The stale room of the sample store is removed, the game in progress
    is kept. *)
Example sample_store_cleanup :
  map Room.code
    (rooms (fst (cleanupRooms (fun s => s) (ttlOfEnv None None None)
                   sample_store 50000000)))
  = ["ROOM22"%string]
  /\ snd (cleanupRooms (fun s => s) (ttlOfEnv None None None)
            sample_store 50000000) = 1.
Proof. vm_compute. split; reflexivity. Qed.

(** X20: with a positive fallback [parsePositiveInt] never returns a
    negative number, but it returns 0, which is not positive, exactly
    for the inputs strictly between 0 and 1. *)
Theorem parsePositiveInt_zero (n : option Q) (fallback : Z) :
  0 < fallback ->
  0 <= parsePositiveInt n fallback
  /\ (parsePositiveInt n fallback = 0
      <-> exists q, n = Some q /\ (0 < q < 1)%Q).
Proof.
  intros Hfb. unfold parsePositiveInt.
  destruct n as [q|].
  - destruct (Qgtb q 0) eqn:E.
    + apply Qgtb_spec in E.
      pose proof (Qfloor_le q) as Hlo. pose proof (Qlt_floor q) as Hhi.
      rewrite inject_Z_plus in Hhi. change (inject_Z 1) with 1%Q in Hhi.
      assert (H0 : 0 <= Qfloor q).
      { change 0 with (Qfloor 0). apply Qfloor_resp_le. lra. }
      split; [exact H0|]. split.
      * intros Hz. exists q. split; [reflexivity|].
        rewrite Hz in Hhi. change (inject_Z 0) with 0%Q in Hhi. lra.
      * intros (q' & [= <-] & Hq).
        assert (Qfloor q < 1); [|lia].
        rewrite Zlt_Qlt. change (inject_Z 1) with 1%Q. lra.
    + apply Qgtb_false in E. split; [lia|]. split; [lia|].
      intros (q' & [= <-] & Hq). lra.
  - split; [lia|]. split; [lia|]. intros (q' & Hq & _). discriminate Hq.
Qed.

Lemma parsePositiveInt_zero_witness :
  0 <= parsePositiveInt (Some 0.5%Q) 7200000
  /\ (parsePositiveInt (Some 0.5%Q) 7200000 = 0
      <-> exists q, Some 0.5%Q = Some q /\ (0 < q < 1)%Q).
Proof.
  apply (parsePositiveInt_zero (Some 0.5%Q) 7200000). lia.
Defined.

(** *** Room codes *)

Lemma get_In (s : string) (i : nat) (c : ascii) :
  String.get i s = Some c -> In c (list_ascii_of_string s).
Proof.
  revert i. induction s as [|d s IH]; intros [|i]; simpl; try discriminate.
  - intros [= ->]. now left.
  - intros H. right. eapply IH, H.
Qed.

Lemma get_Some (s : string) (i : nat) :
  (i < String.length s)%nat -> exists c, String.get i s = Some c.
Proof.
  revert i. induction s as [|d s IH]; intros [|i]; simpl; try lia; eauto.
  intros H. apply IH. lia.
Qed.

Lemma charAt_roomCodeChars (u : Q) :
  unitDraw u ->
  exists c,
    charAt roomCodeChars
      (Qfloor (u * inject_Z (Z.of_nat (String.length roomCodeChars))))
    = String c EmptyString
    /\ In c (list_ascii_of_string roomCodeChars).
Proof.
  intros [Hlo Hhi].
  change (Z.of_nat (String.length roomCodeChars)) with 32.
  change (inject_Z 32) with 32%Q.
  assert (H0 : 0 <= Qfloor (u * 32)).
  { change 0 with (Qfloor 0). apply Qfloor_resp_le. lra. }
  assert (H32 : Qfloor (u * 32) < 32).
  { rewrite Zlt_Qlt. change (inject_Z 32) with 32%Q.
    pose proof (Qfloor_le (u * 32)). lra. }
  unfold charAt.
  assert ((Qfloor (u * 32) <? 0) = false) as -> by lia.
  destruct (get_Some roomCodeChars (Z.to_nat (Qfloor (u * 32)))) as (c & Hc).
  { change (String.length roomCodeChars) with 32%nat. lia. }
  rewrite Hc. exists c. split; [reflexivity|]. eapply get_In, Hc.
Qed.

Lemma string_app_length (a b : string) :
  String.length (a ++ b) = (String.length a + String.length b)%nat.
Proof. induction a as [|c a IH]; simpl; [reflexivity | now rewrite IH]. Qed.

Lemma string_app_chars (a b : string) :
  list_ascii_of_string (a ++ b)
  = (list_ascii_of_string a ++ list_ascii_of_string b)%list.
Proof. induction a as [|c a IH]; simpl; [reflexivity | now rewrite IH]. Qed.

Lemma roomCodeLoop_spec (random : nat -> Q) (k n : nat) (code : string) :
  (forall i, unitDraw (random i)) ->
  Forall (fun c => In c (list_ascii_of_string roomCodeChars))
    (list_ascii_of_string code) ->
  String.length (roomCodeLoop random k n code) = (String.length code + n)%nat
  /\ Forall (fun c => In c (list_ascii_of_string roomCodeChars))
       (list_ascii_of_string (roomCodeLoop random k n code)).
Proof.
  intros Hu. revert k code.
  induction n as [|n IH]; intros k code Hcode; cbn [roomCodeLoop]; cbv zeta.
  - split; [lia | exact Hcode].
  - destruct (charAt_roomCodeChars (random k) (Hu k)) as (c & Hc & Hin).
    rewrite Hc.
    destruct (IH (S k) (code ++ String c EmptyString)%string) as [Hlen Hall].
    + rewrite string_app_chars. apply Forall_app. split; [exact Hcode|].
      simpl. constructor; [exact Hin | constructor].
    + split; [|exact Hall].
      rewrite Hlen, string_app_length. simpl. lia.
Qed.

Lemma generateRoomCode_first (fuel : nat) (taken : list string)
    (random : nat -> Q) (k j : nat) :
  (forall i, (i < j)%nat ->
     existsb (String.eqb (roomCodeAttempt random k i)) taken = true) ->
  existsb (String.eqb (roomCodeAttempt random k j)) taken = false ->
  (j < fuel)%nat ->
  generateRoomCode fuel taken random k = Some (roomCodeAttempt random k j).
Proof.
  revert k j. induction fuel as [|fuel IH]; intros k j Hbefore Hfree Hj; [lia|].
  cbn [generateRoomCode].
  destruct j as [|j].
  - unfold roomCodeAttempt in Hfree. rewrite Nat.add_0_r in Hfree.
    rewrite Hfree. unfold roomCodeAttempt. now rewrite Nat.add_0_r.
  - pose proof (Hbefore 0%nat ltac:(lia)) as H0.
    unfold roomCodeAttempt in H0. rewrite Nat.add_0_r in H0. rewrite H0.
    rewrite (IH (k + ROOM_CODE_LENGTH)%nat j).
    + unfold roomCodeAttempt, ROOM_CODE_LENGTH. do 2 f_equal. lia.
    + intros i Hi. specialize (Hbefore (S i) ltac:(lia)).
      unfold roomCodeAttempt in *.
      replace (k + ROOM_CODE_LENGTH + i * ROOM_CODE_LENGTH)%nat
        with (k + S i * ROOM_CODE_LENGTH)%nat by (unfold ROOM_CODE_LENGTH; lia).
      exact Hbefore.
    + unfold roomCodeAttempt in *.
      replace (k + ROOM_CODE_LENGTH + j * ROOM_CODE_LENGTH)%nat
        with (k + S j * ROOM_CODE_LENGTH)%nat by (unfold ROOM_CODE_LENGTH; lia).
      exact Hfree.
    + lia.
Qed.

(** X21: with draws in [0, 1), a code returned by [generateRoomCode] has
    6 characters, all of them among the 32 letters and digits of the
    code alphabet, and is not the code of an existing room; and the
    function returns the first attempt that is free, if one of the first
    [fuel] attempts is. *)
Theorem generateRoomCode_spec (fuel : nat) (taken : list string)
    (random : nat -> Q) (k : nat) :
  (forall i, unitDraw (random i)) ->
  (forall code, generateRoomCode fuel taken random k = Some code ->
     String.length code = ROOM_CODE_LENGTH
     /\ Forall (fun c => In c (list_ascii_of_string roomCodeChars))
          (list_ascii_of_string code)
     /\ ~ In code taken)
  /\ (forall j, (j < fuel)%nat ->
        (forall i, (i < j)%nat -> In (roomCodeAttempt random k i) taken) ->
        ~ In (roomCodeAttempt random k j) taken ->
        generateRoomCode fuel taken random k
        = Some (roomCodeAttempt random k j)).
Proof.
  intros Hu. split.
  - revert k. induction fuel as [|fuel IH]; intros k code; [discriminate|].
    cbn [generateRoomCode].
    destruct (existsb _ taken) eqn:Hex; [apply IH|].
    intros [= <-].
    destruct (roomCodeLoop_spec random k ROOM_CODE_LENGTH EmptyString Hu)
      as [Hlen Hall]; [constructor|].
    split; [exact Hlen|]. split; [exact Hall|].
    intros Hin. apply not_true_iff_false in Hex. apply Hex.
    apply existsb_exists. eexists. split; [exact Hin|].
    apply String.eqb_refl.
  - intros j Hj Hbefore Hfree. apply generateRoomCode_first; [| |exact Hj].
    + intros i Hi. apply existsb_exists. eexists.
      split; [apply (Hbefore i Hi) | apply String.eqb_refl].
    + apply not_true_is_false. intros Hex.
      apply existsb_exists in Hex as (x & Hx & Heq).
      apply String.eqb_eq in Heq. subst x. contradiction.
Qed.

Lemma generateRoomCode_spec_witness :
  (forall code,
     generateRoomCode 3 ["AAAAAA"%string] (fun _ => 0.5%Q) 0 = Some code ->
     String.length code = ROOM_CODE_LENGTH
     /\ Forall (fun c => In c (list_ascii_of_string roomCodeChars))
          (list_ascii_of_string code)
     /\ ~ In code ["AAAAAA"%string])
  /\ (forall j, (j < 3)%nat ->
        (forall i, (i < j)%nat ->
           In (roomCodeAttempt (fun _ => 0.5%Q) 0 i) ["AAAAAA"%string]) ->
        ~ In (roomCodeAttempt (fun _ => 0.5%Q) 0 j) ["AAAAAA"%string] ->
        generateRoomCode 3 ["AAAAAA"%string] (fun _ => 0.5%Q) 0
        = Some (roomCodeAttempt (fun _ => 0.5%Q) 0 j)).
Proof.
  apply (generateRoomCode_spec 3 ["AAAAAA"%string] (fun _ => 0.5%Q) 0).
  intros i. split; [discriminate | reflexivity].
Defined.


(* ================================================================== *)
(** * Phase, round and offer in the reachable states *)
(* ================================================================== *)

Lemma phaseOk_frame w w' :
  phaseOk w ->
  GameState.phase (gameState w') = GameState.phase (gameState w) ->
  GameState.currentRound (gameState w') = GameState.currentRound (gameState w) ->
  GameState.currentOffer (gameState w') = GameState.currentOffer (gameState w) ->
  GameState.offerExpiresAt (gameState w')
  = GameState.offerExpiresAt (gameState w) ->
  offerTimer w' = offerTimer w ->
  (GameState.phase (gameState w) = Waiting -> offerDelays w' = offerDelays w) ->
  phaseOk w'.
Proof.
  intros [Hs Hw Hr Ho] Hph Hrd Hof Hex Hot Hod.
  constructor; rewrite ?Hph, ?Hrd, ?Hof, ?Hex, ?Hot; auto.
  intros Hwait. rewrite (Hod Hwait). auto.
Qed.

Lemma phaseOk_running w :
  phaseOk w -> GameState.phase (gameState w) <> Waiting -> running (gameState w).
Proof. intros [Hs _ Hr _] Hw. repeat split; auto. Qed.

(** A state outside the lobby and outside the offer phase needs only its
    round. *)
Lemma phaseOk_plain w :
  running (gameState w) -> GameState.phase (gameState w) <> Offer -> phaseOk w.
Proof.
  intros (Hw & Hs & Hr) Ho. constructor; auto; intros; contradiction.
Qed.

Lemma removeFirst_Forall {A} (P : A -> Prop) (test : A -> bool) (l : list A) :
  Forall P l -> Forall P (removeFirst test l).
Proof.
  induction 1 as [|x l Hx Hl IH]; simpl; [constructor|].
  destruct (test x); [assumption | now constructor].
Qed.

Lemma removeFirst_length {A} (test : A -> bool) (l : list A) :
  (length (removeFirst test l) <= length l)%nat.
Proof.
  induction l as [|x l IH]; simpl; [lia|]. destruct (test x); simpl; lia.
Qed.

Lemma eliminateValue_bankable v gs :
  bankable (GameState.remainingValues gs) ->
  bankable (GameState.remainingValues (eliminateValue v gs)).
Proof.
  intros [H Hn]. unfold eliminateValue. destruct (_ >? -1); [|now split].
  simpl. split.
  - now apply removeFirst_Forall.
  - pose proof (removeFirst_length (Qeq_bool v) (GameState.remainingValues gs)).
    eapply Z.le_lt_trans; [|exact Hn]. lia.
Qed.

Lemma eliminateValue_round v gs :
  GameState.currentRound (eliminateValue v gs) = GameState.currentRound gs.
Proof. unfold eliminateValue. now destruct (_ >? -1). Qed.

Lemma BOX_VALUES_nonNegative : Forall (fun v => (0 <= v)%Q) BOX_VALUES.
Proof. repeat constructor; discriminate. Qed.

Lemma BOX_VALUES_amount : Forall amount BOX_VALUES.
Proof. repeat constructor; vm_compute; discriminate. Qed.

Lemma wf_bankable gs :
  wellFormed gs -> bankable (GameState.remainingValues gs).
Proof.
  intros Hwf. destruct (wf_partitioned _ Hwf) as [Hperm _].
  pose proof BOX_VALUES_amount as Hall.
  pose proof (Permutation_length Hperm) as Hlen.
  rewrite <- Hperm in Hall. apply Forall_app in Hall as [H _].
  split; [exact H|].
  rewrite length_app in Hlen. change (length BOX_VALUES) with 20%nat in Hlen.
  assert (E : 2 ^ 32 = 4294967296) by reflexivity. rewrite E. lia.
Qed.

Lemma ph_finishGame w now :
  running (gameState w) -> phaseOk (finishGame w now).
Proof.
  intros (Hw & Hs & Hr). apply phaseOk_plain; [|discriminate].
  repeat split; try discriminate. exact Hr.
Qed.

Lemma finishLastPlayer_round w player now :
  GameState.currentRound (gameState (finishLastPlayer w player now))
  = GameState.currentRound (gameState w).
Proof.
  unfold finishLastPlayer, finishGame.
  cbn [gameState withState clearOfferTimer clearTurnTimer
       GameState.currentRound GameState.set_offerResponses
       GameState.set_offerEligiblePlayerIds GameState.set_turnExpiresAt
       GameState.set_currentTurnPlayerId GameState.set_offerExpiresAt
       GameState.set_currentOffer GameState.set_finishedAt
       GameState.set_phase GameState.set_players].
  destruct (findBox _ _); [rewrite eliminateValue_round|]; reflexivity.
Qed.

Lemma ph_finishLastPlayer w player now :
  running (gameState w) -> phaseOk (finishLastPlayer w player now).
Proof.
  intros (Hw & Hs & Hr). apply phaseOk_plain.
  - repeat split; try discriminate. now rewrite finishLastPlayer_round.
  - discriminate.
Qed.

Lemma soundOffer_banker values round random :
  bankable values -> 1 <= round -> unitDraw random ->
  soundOffer (Some (storedAmount (calculateBankerOffer values round random))).
Proof.
  intros [Hv Hn] Hr Hu. unfold calculateBankerOffer.
  destruct values as [|v vs] eqn:E.
  - exists 0%Q. split; [reflexivity | discriminate].
  - rewrite <- E in *.
    assert (Hne : values <> []) by (rewrite E; discriminate).
    destruct (getBankerOffer_accuracy values round random Hne Hv Hn Hr Hu)
      as (m & k & _ & -> & Hk & _).
    exists (inject_Z (k * 10)). split; [reflexivity|].
    change 0%Q with (inject_Z 0). rewrite <- Zle_Qle. lia.
Qed.

Lemma ph_triggerBankerOffer w now random :
  running (gameState w) ->
  bankable (GameState.remainingValues (gameState w)) ->
  unitDraw random ->
  phaseOk (triggerBankerOffer w now random).
Proof.
  intros Hrun Hv Hu. unfold triggerBankerOffer.
  cbn [gameState clearOfferTimer clearTurnTimer].
  destruct (getLastActivePlayer _).
  - now apply ph_finishLastPlayer.
  - destruct (checkGameEnd _); [now apply ph_finishGame|].
    destruct Hrun as (Hw & Hs & Hr).
    constructor; cbn; try discriminate; auto.
    intros _. split; [reflexivity|]. split; [|eauto].
    now apply soundOffer_banker.
Qed.

Lemma ph_setCurrentTurn w now random :
  running (gameState w) -> GameState.phase (gameState w) = Playing ->
  bankable (GameState.remainingValues (gameState w)) ->
  unitDraw random ->
  phaseOk (setCurrentTurn w now random).
Proof.
  intros Hrun Hph Hv Hu. unfold setCurrentTurn.
  assert (Hplain : phaseOk w).
  { apply phaseOk_plain; [exact Hrun | congruence]. }
  destruct (negb (isPhase _ _)); [exact Hplain|].
  destruct (negb (hasOpenableBoxes _)); [now apply ph_triggerBankerOffer|].
  destruct (_ =? -1); [eapply phaseOk_frame; eauto|].
  destruct (arrayGet _ _); eapply phaseOk_frame; eauto.
Qed.

Lemma ph_startNewRound w now random :
  running (gameState w) ->
  bankable (GameState.remainingValues (gameState w)) ->
  unitDraw random ->
  phaseOk (startNewRound w now random).
Proof.
  intros Hrun Hv Hu. unfold startNewRound.
  cbn [gameState clearOfferTimer clearTurnTimer].
  destruct (getLastActivePlayer _); [now apply ph_finishLastPlayer|].
  destruct Hrun as (Hw & Hs & Hr).
  apply ph_setCurrentTurn; cbn; auto.
  repeat split; cbn; try discriminate. lia.
Qed.

Lemma ph_endOfferAndContinue w now random :
  running (gameState w) ->
  bankable (GameState.remainingValues (gameState w)) ->
  unitDraw random ->
  phaseOk (endOfferAndContinue w now random).
Proof.
  intros Hrun Hv Hu. unfold endOfferAndContinue.
  cbn [gameState clearOfferTimer].
  destruct (checkGameEnd _); [now apply ph_finishGame|].
  destruct (getLastActivePlayer _); [now apply ph_finishLastPlayer|].
  now apply ph_startNewRound.
Qed.

Lemma fold_defaultNoDeal_frame ids gs :
  let gs' := fold_left defaultNoDeal ids gs in
  GameState.phase gs' = GameState.phase gs
  /\ GameState.currentRound gs' = GameState.currentRound gs
  /\ GameState.remainingValues gs' = GameState.remainingValues gs
  /\ GameState.turnOrder gs' = GameState.turnOrder gs
  /\ GameState.currentTurnIndex gs' = GameState.currentTurnIndex gs
  /\ GameState.currentTurnPlayerId gs' = GameState.currentTurnPlayerId gs
  /\ GameState.boxes gs' = GameState.boxes gs
  /\ GameState.currentOffer gs' = GameState.currentOffer gs.
Proof.
  revert gs. induction ids as [|x ids IH]; intros gs; [cbn; tauto|].
  cbn [fold_left]. cbv zeta in *.
  destruct (IH (defaultNoDeal gs x)) as (-> & -> & -> & -> & -> & -> & -> & ->).
  unfold defaultNoDeal. destruct (_ !! _); cbn; tauto.
Qed.

Lemma ph_handleOfferTimeout w now random :
  phaseOk w ->
  bankable (GameState.remainingValues (gameState w)) ->
  unitDraw random ->
  phaseOk (handleOfferTimeout (clearOfferTimer w) now random).
Proof.
  intros Hok Hv Hu. unfold handleOfferTimeout.
  cbn [gameState clearOfferTimer].
  destruct (isPhase Offer (gameState w)) eqn:Hph; cbn [negb].
  - apply isPhase_true in Hph.
    destruct (fold_defaultNoDeal_frame
                (GameState.offerEligiblePlayerIds (gameState w)) (gameState w))
      as (Hp & Hr & Hrem & _).
    apply ph_endOfferAndContinue; cbn [gameState withState]; auto.
    + unfold applyOfferTimeout, running. rewrite Hp, Hr, Hph.
      repeat split; try discriminate.
      apply (ph_round _ Hok). congruence.
    + unfold applyOfferTimeout. now rewrite Hrem.
  - apply isPhase_false in Hph.
    destruct Hok as [Hs Hw Hr Ho]. constructor; auto.
    intros Hoffer. contradiction.
Qed.

Lemma ph_handleTurnTimeout w playerId now random :
  phaseOk w ->
  bankable (GameState.remainingValues (gameState w)) ->
  unitDraw random ->
  phaseOk (handleTurnTimeout w playerId now random).
Proof.
  intros Hok Hv Hu. unfold handleTurnTimeout.
  destruct (isPhase Playing (gameState w)) eqn:Hph; cbn [negb]; [|exact Hok].
  apply isPhase_true in Hph.
  destruct (GameState.currentTurnPlayerId (gameState w)); [|exact Hok].
  destruct (negb _); [exact Hok|].
  assert (Hrun : running (gameState w)).
  { apply phaseOk_running; [exact Hok | congruence]. }
  destruct Hrun as (Hw & Hs & Hr).
  destruct (_ =? -1).
  - destruct (_ >=? _).
    + apply ph_triggerBankerOffer; auto. repeat split; auto.
    + eapply phaseOk_frame; eauto.
  - apply ph_setCurrentTurn; auto. repeat split; auto.
Qed.

Lemma removeFromTurnOrder_frame pid gs :
  let gs' := removeFromTurnOrder pid gs in
  GameState.phase gs' = GameState.phase gs
  /\ GameState.currentRound gs' = GameState.currentRound gs
  /\ GameState.remainingValues gs' = GameState.remainingValues gs
  /\ GameState.currentOffer gs' = GameState.currentOffer gs
  /\ GameState.offerExpiresAt gs' = GameState.offerExpiresAt gs
  /\ GameState.currentTurnPlayerId gs' = GameState.currentTurnPlayerId gs
  /\ GameState.players gs' = GameState.players gs
  /\ GameState.boxes gs' = GameState.boxes gs.
Proof.
  unfold removeFromTurnOrder. destruct (_ >? -1); [|cbn; tauto].
  cbn. destruct (_ <? _); cbn; tauto.
Qed.

Lemma eliminateValue_frame v gs :
  let gs' := eliminateValue v gs in
  GameState.phase gs' = GameState.phase gs
  /\ GameState.currentRound gs' = GameState.currentRound gs
  /\ GameState.currentOffer gs' = GameState.currentOffer gs
  /\ GameState.offerExpiresAt gs' = GameState.offerExpiresAt gs
  /\ GameState.currentTurnPlayerId gs' = GameState.currentTurnPlayerId gs
  /\ GameState.turnOrder gs' = GameState.turnOrder gs
  /\ GameState.currentTurnIndex gs' = GameState.currentTurnIndex gs
  /\ GameState.players gs' = GameState.players gs
  /\ GameState.boxes gs' = GameState.boxes gs.
Proof. unfold eliminateValue. destruct (_ >? -1); cbn; tauto. Qed.

Lemma acceptDeal_frame gs player offer :
  let gs' := acceptDeal gs player offer in
  GameState.phase gs' = GameState.phase gs
  /\ GameState.currentRound gs' = GameState.currentRound gs
  /\ GameState.currentOffer gs' = GameState.currentOffer gs
  /\ GameState.offerExpiresAt gs' = GameState.offerExpiresAt gs
  /\ GameState.currentTurnPlayerId gs' = GameState.currentTurnPlayerId gs
  /\ (bankable (GameState.remainingValues gs) ->
      bankable (GameState.remainingValues gs')).
Proof.
  unfold acceptDeal.
  match goal with
  | |- context [removeFromTurnOrder ?pid ?g] =>
      destruct (removeFromTurnOrder_frame pid g)
        as (-> & -> & -> & -> & -> & -> & _)
  end.
  destruct (findBox _ _) as [box|]; [|cbn; tauto].
  destruct (negb (Box.isOpened box)); [|cbn; tauto].
  match goal with
  | |- context [eliminateValue ?v ?g] =>
      destruct (eliminateValue_frame v g) as (-> & -> & -> & -> & -> & _)
  end.
  cbn. repeat (split; [reflexivity|]).
  intros H. now apply eliminateValue_bankable.
Qed.

Lemma recordDealResponse_frame gs player accepted :
  let gs' := recordDealResponse gs player accepted in
  GameState.phase gs' = GameState.phase gs
  /\ GameState.currentRound gs' = GameState.currentRound gs
  /\ GameState.currentOffer gs' = GameState.currentOffer gs
  /\ GameState.offerExpiresAt gs' = GameState.offerExpiresAt gs
  /\ GameState.currentTurnPlayerId gs' = GameState.currentTurnPlayerId gs
  /\ (bankable (GameState.remainingValues gs) ->
      bankable (GameState.remainingValues gs')).
Proof.
  unfold recordDealResponse.
  destruct accepted; [|cbn; tauto].
  set (gs0 := GameState.set_offerResponses _ gs).
  destruct (GameState.currentOffer gs0) as [offer|] eqn:Hoffer; [|cbn; tauto].
  destruct (acceptDeal_frame gs0 player offer)
    as (Hp & Hr & Ho & He & Hh & Hnn).
  rewrite Hp, Hr, Ho, He, Hh. subst gs0. cbn.
  repeat (split; [reflexivity|]). exact Hnn.
Qed.

Lemma ph_on_deal_response w playerId accepted now random :
  phaseOk w ->
  bankable (GameState.remainingValues (gameState w)) ->
  unitDraw random ->
  phaseOk (on_deal_response w playerId accepted now random).
Proof.
  intros Hok Hv Hu. unfold on_deal_response.
  destruct (isPhase Offer (gameState w)) eqn:Hph; cbn [negb]; [|exact Hok].
  apply isPhase_true in Hph.
  destruct (getPlayer _ _) as [player|]; [|exact Hok].
  destruct (_ || _); [exact Hok|].
  destruct (bool_decide _); [exact Hok|].
  destruct (negb _); [exact Hok|].
  destruct (recordDealResponse_frame (gameState w) player accepted)
    as (Hp & Hr & Ho & He & _ & Hnn).
  destruct (allResponded _).
  - apply ph_endOfferAndContinue; cbn [gameState withState]; auto.
    unfold running. rewrite Hp, Hr, Hph. repeat split; try discriminate.
    apply (ph_round _ Hok). congruence.
  - eapply phaseOk_frame; eauto.
Qed.

Lemma ph_on_open_box w playerId boxNumber now random :
  phaseOk w ->
  bankable (GameState.remainingValues (gameState w)) ->
  unitDraw random ->
  phaseOk (on_open_box w playerId boxNumber now random).
Proof.
  intros Hok Hv Hu. unfold on_open_box.
  destruct (isPhase Playing (gameState w)) eqn:Hph; cbn [negb]; [|exact Hok].
  apply isPhase_true in Hph.
  destruct (negb (isCurrentTurn _ _)); [exact Hok|].
  destruct (getPlayer _ _) as [player|]; [|exact Hok].
  destruct (_ || _); [exact Hok|].
  destruct (_ >=? _); [exact Hok|].
  destruct (findBox _ _) as [box|]; [|exact Hok].
  destruct (Box.isOpened box); [exact Hok|].
  destruct (existsb _ _); [exact Hok|].
  assert (Hrun : running (gameState w)).
  { apply phaseOk_running; [exact Hok | congruence]. }
  destruct Hrun as (Hw & Hs & Hr).
  match goal with
  | |- context [eliminateValue ?v ?g] =>
      pose proof (eliminateValue_frame v g) as Hfr;
      pose proof (eliminateValue_bankable v g Hv) as Hnn;
      set (gs1 := eliminateValue v g) in *
  end.
  cbv zeta in Hfr. destruct Hfr as (Hp1 & Hr1 & _).
  cbn [GameState.phase GameState.currentRound markBoxOpened
       GameState.set_boxes] in Hp1, Hr1.
  assert (Hrun1 : forall gs',
            GameState.phase gs' = GameState.phase gs1 ->
            GameState.currentRound gs' = GameState.currentRound gs1 ->
            running gs').
  { intros gs' Hp' Hr'. unfold running. rewrite Hp', Hr', Hp1, Hr1, Hph.
    repeat split; try discriminate. exact Hr. }
  clearbody gs1.
  destruct (_ || _).
  - apply phaseOk_plain; cbn [gameState scheduleOfferDelay withState].
    + apply Hrun1; reflexivity.
    + cbn. rewrite Hp1, Hph. discriminate.
  - destruct (negb _).
    + apply ph_setCurrentTurn; cbn [gameState withState];
        [apply Hrun1; reflexivity | cbn; now rewrite Hp1
        | exact Hnn | exact Hu].
    + apply phaseOk_plain; cbn [gameState withState].
      * apply Hrun1; reflexivity.
      * cbn. rewrite Hp1, Hph. discriminate.
Qed.

Lemma ph_on_start_game w playerId random0 now random :
  phaseOk w ->
  bankable (GameState.remainingValues (gameState w)) ->
  unitDraw random ->
  phaseOk (on_start_game w playerId random0 now random).
Proof.
  intros Hok Hv Hu. unfold on_start_game.
  destruct (negb _); [exact Hok|].
  destruct (negb _); [exact Hok|].
  apply ph_setCurrentTurn; cbn [gameState withState]; auto.
  repeat split; cbn; try discriminate; lia.
Qed.

Lemma ph_on_join_room w playerId socketId playerName password asSpectator :
  phaseOk w ->
  phaseOk (on_join_room w playerId socketId playerName password asSpectator).
Proof.
  intros Hok. unfold on_join_room.
  destruct (isEmptyString _); [exact Hok|].
  destruct (joinRoom _ _ _ _ _ _) as [|gs'] eqn:Hjoin; [exact Hok|].
  unfold joinRoom in Hjoin.
  destruct (_ && negb _); [discriminate|].
  destruct (negb asSpectator && _); [discriminate|].
  destruct (negb asSpectator && _); [discriminate|].
  injection Hjoin as <-. eapply phaseOk_frame; eauto.
Qed.

Lemma ph_on_select_box w playerId boxNumber :
  phaseOk w -> phaseOk (on_select_box w playerId boxNumber).
Proof.
  intros Hok. unfold on_select_box.
  destruct (getPlayer _ _) as [player|]; [|exact Hok].
  destruct (negb (isRolePlayer player)); [exact Hok|].
  destruct (_ && _); [exact Hok|].
  destruct (Player.isReady player); [exact Hok|].
  destruct (_ || _); [exact Hok|].
  destruct (existsb _ _); [exact Hok|].
  eapply phaseOk_frame; eauto.
Qed.

Lemma ph_on_player_ready w playerId :
  phaseOk w -> phaseOk (on_player_ready w playerId).
Proof.
  intros Hok. unfold on_player_ready.
  destruct (getPlayer _ _) as [player|]; [|exact Hok].
  destruct (_ || _); [exact Hok|].
  eapply phaseOk_frame; eauto.
Qed.

Lemma ph_on_set_room_password w playerId password :
  phaseOk w -> phaseOk (on_set_room_password w playerId password).
Proof.
  intros Hok. unfold on_set_room_password.
  destruct (negb _); [exact Hok|].
  destruct (negb _); [exact Hok|].
  eapply phaseOk_frame; eauto.
Qed.

Lemma ph_createRoom roomCode playerId random now hostSocketId hostName :
  phaseOk (createRoom roomCode playerId random now hostSocketId hostName).
Proof.
  constructor; cbn; try discriminate; auto.
  intros H. now contradiction H.
Qed.

Lemma ph_step w now random ev :
  phaseOk w -> wellFormed (gameState w) -> admissible w random ev ->
  phaseOk (step w now random ev).
Proof.
  intros Hok Hwf [Hu _].
  pose proof (wf_bankable _ Hwf) as Hv.
  destruct ev; cbn [step].
  - now apply ph_on_join_room.
  - eapply phaseOk_frame; eauto.
  - eapply phaseOk_frame; eauto.
  - now apply ph_on_select_box.
  - now apply ph_on_player_ready.
  - now apply ph_on_start_game.
  - now apply ph_on_set_room_password.
  - now apply ph_on_open_box.
  - destruct boxNumbers; cbn; [exact Hok | now apply ph_on_open_box].
  - now apply ph_on_deal_response.
  - destruct (turnTimer w); [|exact Hok].
    apply ph_handleTurnTimeout; auto. eapply phaseOk_frame; eauto.
  - destruct (offerTimer w); [|exact Hok].
    now apply ph_handleOfferTimeout.
  - destruct (offerDelays w) as [|n] eqn:Hd; [exact Hok|].
    assert (Hnw : GameState.phase (gameState w) <> Waiting).
    { intros Hwait. destruct (ph_waiting _ Hok Hwait) as [H0 _]. congruence. }
    apply ph_triggerBankerOffer; auto.
    apply (phaseOk_running _ Hok Hnw).
Qed.

Lemma reachable_phaseOk w : reachable w -> phaseOk w.
Proof.
  induction 1 as [| w now random ev Hreach IH Hadm].
  - apply ph_createRoom.
  - apply ph_step; auto. now apply reachable_wellFormed.
Qed.


(* ================================================================== *)
(** * What an event may change of the players *)
(* ================================================================== *)

Lemma grows_refl p : grows p p.
Proof. unfold grows. repeat split; auto; lia. Qed.

Lemma grows_trans p q r : grows p q -> grows q r -> grows p r.
Proof.
  unfold grows. intros (?&?&?&?&?&?&?) (?&?&?&?&?&?&?).
  repeat split; try congruence; auto; lia.
Qed.

Lemma grows_id p p' : grows p p' -> Player.id p' = Player.id p.
Proof. now intros [H _]. Qed.

Lemma grows_points v p : grows p (Player.set_points v p).
Proof. unfold grows. cbn. repeat split; auto; lia. Qed.

Lemma grows_last a r p :
  grows p
    (Player.set_isLastStanding true
       (Player.set_roundDealt r
          (Player.set_dealAmount a (Player.set_hasDealt true p)))).
Proof. unfold grows. cbn. repeat split; auto; lia. Qed.

Lemma grows_timeout p :
  grows p (Player.set_timeoutCount (Player.timeoutCount p + 1) p).
Proof. unfold grows. cbn. repeat split; auto; lia. Qed.

Lemma steady_refl p : steady p p.
Proof. split; [apply grows_refl | reflexivity]. Qed.

Lemma steady_trans p q r : steady p q -> steady q r -> steady p r.
Proof.
  intros [Hg1 Hd1] [Hg2 Hd2]. split; [eapply grows_trans; eauto | congruence].
Qed.

Lemma steady_timeout p :
  steady p (Player.set_timeoutCount (Player.timeoutCount p + 1) p).
Proof. split; [apply grows_timeout | reflexivity]. Qed.

Lemma steady_grows_all l l' : Forall2 steady l l' -> Forall2 grows l l'.
Proof. induction 1; constructor; auto. now destruct H. Qed.

Lemma grows_all_refl l : Forall2 grows l l.
Proof. apply rel_refl, grows_refl. Qed.

Lemma grows_all_trans l1 l2 l3 :
  Forall2 grows l1 l2 -> Forall2 grows l2 l3 -> Forall2 grows l1 l3.
Proof. apply rel_trans, grows_trans. Qed.

Lemma steady_all_refl l : Forall2 steady l l.
Proof. apply rel_refl, steady_refl. Qed.

Lemma steady_all_trans l1 l2 l3 :
  Forall2 steady l1 l2 -> Forall2 steady l2 l3 -> Forall2 steady l1 l3.
Proof. apply rel_trans, steady_trans. Qed.

(** *** The engine *)

Lemma grows_finishGame w now :
  Forall2 grows (GameState.players (gameState w))
    (GameState.players (gameState (finishGame w now))).
Proof. apply rel_finishGame; [apply grows_refl | apply grows_points]. Qed.

Lemma grows_finishLastPlayer w player now :
  Forall2 grows (GameState.players (gameState w))
    (GameState.players (gameState (finishLastPlayer w player now))).
Proof.
  apply rel_finishLastPlayer;
    [apply grows_refl | apply grows_trans | apply grows_points
    | apply grows_last].
Qed.

Lemma grows_triggerBankerOffer w now random :
  Forall2 grows (GameState.players (gameState w))
    (GameState.players (gameState (triggerBankerOffer w now random))).
Proof.
  apply rel_triggerBankerOffer;
    [apply grows_refl | apply grows_trans | apply grows_points
    | apply grows_last].
Qed.

Lemma grows_setCurrentTurn w now random :
  Forall2 grows (GameState.players (gameState w))
    (GameState.players (gameState (setCurrentTurn w now random))).
Proof.
  apply rel_setCurrentTurn;
    [apply grows_refl | apply grows_trans | apply grows_points
    | apply grows_last].
Qed.

Lemma grows_startNewRound w now random :
  Forall2 grows (GameState.players (gameState w))
    (GameState.players (gameState (startNewRound w now random))).
Proof.
  apply rel_startNewRound;
    [apply grows_refl | apply grows_trans | apply grows_points
    | apply grows_last].
Qed.

Lemma grows_endOfferAndContinue w now random :
  Forall2 grows (GameState.players (gameState w))
    (GameState.players (gameState (endOfferAndContinue w now random))).
Proof.
  apply rel_endOfferAndContinue;
    [apply grows_refl | apply grows_trans | apply grows_points
    | apply grows_last].
Qed.

Lemma grows_updatePlayer gs pid f :
  (forall p, grows p (f p)) ->
  Forall2 grows (GameState.players gs) (GameState.players (updatePlayer gs pid f)).
Proof.
  intros Hf. cbn. apply updateFirst_Forall2; [apply grows_refl | exact Hf].
Qed.

Lemma steady_updatePlayer gs pid f :
  (forall p, steady p (f p)) ->
  Forall2 steady (GameState.players gs) (GameState.players (updatePlayer gs pid f)).
Proof.
  intros Hf. cbn. apply updateFirst_Forall2; [apply steady_refl | exact Hf].
Qed.

Lemma grows_handleTurnTimeout w playerId now random :
  Forall2 grows (GameState.players (gameState w))
    (GameState.players (gameState (handleTurnTimeout w playerId now random))).
Proof.
  unfold handleTurnTimeout.
  destruct (negb (isPhase _ _)); [apply grows_all_refl|].
  destruct (GameState.currentTurnPlayerId _); [|apply grows_all_refl].
  destruct (negb _); [apply grows_all_refl|].
  assert (Hupd : Forall2 grows (GameState.players (gameState w))
            (GameState.players
               (updatePlayer (gameState w) playerId
                  (fun p => Player.set_timeoutCount
                              (Player.timeoutCount p + 1) p)))).
  { apply grows_updatePlayer. intros p. apply grows_timeout. }
  destruct (_ =? -1).
  - destruct (_ >=? _); [|exact Hupd].
    eapply grows_all_trans; [|apply grows_triggerBankerOffer]. exact Hupd.
  - eapply grows_all_trans; [|apply grows_setCurrentTurn]. exact Hupd.
Qed.

Lemma steady_defaultNoDeal gs playerId :
  Forall2 steady (GameState.players gs)
    (GameState.players (defaultNoDeal gs playerId)).
Proof.
  unfold defaultNoDeal. destruct (_ !! _); [apply steady_all_refl|].
  apply (steady_updatePlayer (GameState.set_offerResponses _ gs)).
  intros p. apply steady_timeout.
Qed.

Lemma steady_applyOfferTimeout gs :
  Forall2 steady (GameState.players gs)
    (GameState.players (applyOfferTimeout gs)).
Proof.
  unfold applyOfferTimeout.
  generalize (GameState.offerEligiblePlayerIds gs) as ids. intros ids.
  revert gs. induction ids as [|x ids IH]; intros gs; [apply steady_all_refl|].
  cbn [fold_left]. eapply steady_all_trans; [apply steady_defaultNoDeal|].
  apply IH.
Qed.

Lemma grows_handleOfferTimeout w now random :
  Forall2 grows (GameState.players (gameState w))
    (GameState.players (gameState (handleOfferTimeout w now random))).
Proof.
  unfold handleOfferTimeout.
  destruct (negb _); [apply grows_all_refl|].
  eapply grows_all_trans; [|apply grows_endOfferAndContinue].
  apply steady_grows_all, steady_applyOfferTimeout.
Qed.

Lemma acceptDeal_players gs player offer :
  exists f,
    GameState.players (acceptDeal gs player offer)
    = updateFirst (hasId (Player.id player)) f (GameState.players gs)
    /\ (forall p, grows p (f p))
    /\ (forall p, Player.hasDealt (f p) = true).
Proof.
  unfold acceptDeal.
  match goal with
  | |- context [updatePlayer gs (Player.id player) ?g] => exists g
  end.
  split; [|split; [intros p; unfold grows; cbn; repeat split; auto; lia
                  | reflexivity]].
  match goal with
  | |- context [removeFromTurnOrder ?pid ?g] =>
      destruct (removeFromTurnOrder_frame pid g) as (_&_&_&_&_&_& -> &_)
  end.
  destruct (findBox _ _) as [box|]; [|reflexivity].
  destruct (negb (Box.isOpened box)); [|reflexivity].
  now rewrite eliminateValue_players.
Qed.

Lemma grows_recordDealResponse gs player accepted :
  Forall2 grows (GameState.players gs)
    (GameState.players (recordDealResponse gs player accepted)).
Proof.
  unfold recordDealResponse.
  destruct accepted; [|apply grows_all_refl].
  destruct (GameState.currentOffer _) as [offer|]; [|apply grows_all_refl].
  destruct (acceptDeal_players
              (GameState.set_offerResponses
                 (<[Player.id player := true]> (GameState.offerResponses gs)) gs)
              player offer) as (f & -> & Hf & _).
  cbn. apply updateFirst_Forall2; [apply grows_refl | exact Hf].
Qed.

Lemma grows_on_deal_response w playerId accepted now random :
  Forall2 grows (GameState.players (gameState w))
    (GameState.players
       (gameState (on_deal_response w playerId accepted now random))).
Proof.
  unfold on_deal_response.
  destruct (negb (isPhase _ _)); [apply grows_all_refl|].
  destruct (getPlayer _ _) as [player|]; [|apply grows_all_refl].
  destruct (_ || _); [apply grows_all_refl|].
  destruct (bool_decide _); [apply grows_all_refl|].
  destruct (negb _); [apply grows_all_refl|].
  destruct (allResponded _); [|apply grows_recordDealResponse].
  eapply grows_all_trans; [|apply grows_endOfferAndContinue].
  apply grows_recordDealResponse.
Qed.

Lemma steady_on_open_box_core w playerId boxNumber now random :
  Forall2 grows (GameState.players (gameState w))
    (GameState.players (gameState (on_open_box w playerId boxNumber now random))).
Proof.
  unfold on_open_box.
  destruct (negb (isPhase _ _)); [apply grows_all_refl|].
  destruct (negb (isCurrentTurn _ _)); [apply grows_all_refl|].
  destruct (getPlayer _ _) as [player|]; [|apply grows_all_refl].
  destruct (_ || _); [apply grows_all_refl|].
  destruct (_ >=? _); [apply grows_all_refl|].
  destruct (findBox _ _) as [box|]; [|apply grows_all_refl].
  destruct (Box.isOpened box); [apply grows_all_refl|].
  destruct (existsb _ _); [apply grows_all_refl|].
  destruct (_ || _).
  - cbn. rewrite eliminateValue_players. apply grows_all_refl.
  - destruct (negb _).
    + eapply grows_all_trans; [|apply grows_setCurrentTurn].
      cbn. rewrite eliminateValue_players. apply grows_all_refl.
    + cbn. rewrite eliminateValue_players. apply grows_all_refl.
Qed.

Lemma steady_assignBoxValues gs :
  Forall2 steady (GameState.players gs)
    (GameState.players (assignBoxValues gs)).
Proof.
  unfold assignBoxValues. cbn. apply Forall2_map_self. intros p.
  destruct (_ && _); [|apply steady_refl].
  destruct (findBox _ _); [|apply steady_refl].
  unfold steady, grows. cbn. repeat split; auto; lia.
Qed.

Lemma grows_on_start_game w playerId random0 now random :
  Forall2 grows (GameState.players (gameState w))
    (GameState.players
       (gameState (on_start_game w playerId random0 now random))).
Proof.
  unfold on_start_game.
  destruct (negb _); [apply grows_all_refl|].
  destruct (negb _); [apply grows_all_refl|].
  eapply grows_all_trans; [|apply grows_setCurrentTurn].
  cbn. apply steady_grows_all, steady_assignBoxValues.
Qed.

Lemma steady_on_select_box w playerId boxNumber :
  Forall2 steady (GameState.players (gameState w))
    (GameState.players (gameState (on_select_box w playerId boxNumber))).
Proof.
  unfold on_select_box.
  destruct (getPlayer _ _) as [player|]; [|apply steady_all_refl].
  destruct (negb (isRolePlayer player)); [apply steady_all_refl|].
  destruct (_ && _); [apply steady_all_refl|].
  destruct (Player.isReady player); [apply steady_all_refl|].
  destruct (_ || _); [apply steady_all_refl|].
  destruct (existsb _ _); [apply steady_all_refl|].
  apply steady_updatePlayer. intros p.
  unfold steady, grows. cbn. repeat split; auto; lia.
Qed.

Lemma steady_on_player_ready w playerId :
  Forall2 steady (GameState.players (gameState w))
    (GameState.players (gameState (on_player_ready w playerId))).
Proof.
  unfold on_player_ready.
  destruct (getPlayer _ _) as [player|]; [|apply steady_all_refl].
  destruct (_ || _); [apply steady_all_refl|].
  apply steady_updatePlayer. intros p.
  unfold steady, grows. cbn. repeat split; auto; lia.
Qed.

Lemma steady_on_disconnect w playerId :
  Forall2 steady (GameState.players (gameState w))
    (GameState.players (gameState (on_disconnect w playerId))).
Proof.
  apply steady_updatePlayer. intros p.
  unfold steady, grows. cbn. repeat split; auto; lia.
Qed.

Lemma steady_on_reconnect_player w playerId socketId :
  Forall2 steady (GameState.players (gameState w))
    (GameState.players (gameState (on_reconnect_player w playerId socketId))).
Proof.
  apply steady_updatePlayer. intros p.
  unfold steady, grows. cbn. repeat split; auto; lia.
Qed.

Lemma on_set_room_password_players w playerId password :
  GameState.players (gameState (on_set_room_password w playerId password))
  = GameState.players (gameState w).
Proof.
  unfold on_set_room_password.
  destruct (negb _); [reflexivity|]. now destruct (negb _).
Qed.

(** What [join-room] does to the players when the generated id is fresh:
    nothing, or one player more at the end. *)
Lemma on_join_room_players w playerId socketId playerName password asSpectator :
  getPlayer (gameState w) playerId = None ->
  let gs' :=
    gameState (on_join_room w playerId socketId playerName password asSpectator) in
  GameState.players gs' = GameState.players (gameState w)
  \/ exists new,
       GameState.players gs' = GameState.players (gameState w) ++ [new]
       /\ Player.id new = playerId
       /\ Player.role new = (if asSpectator then RoleSpectator else RolePlayer)
       /\ Player.boxNumber new = None
       /\ Player.hasDealt new = asSpectator
       /\ Player.dealAmount new = None
       /\ Player.boxValue new = None
       /\ Player.points new = Fin 0
       /\ (asSpectator = false ->
           GameState.phase (gameState w) = Waiting
           /\ (Z.of_nat (length (seatedPlayers (gameState w)))
               < MAX_PLAYERS_PER_ROOM)).
Proof.
  intros Hfresh. cbv zeta. unfold on_join_room.
  destruct (isEmptyString _); [now left|].
  destruct (joinRoom _ _ _ _ _ _) as [|gs'] eqn:Hjoin; [now left|].
  right. unfold joinRoom in Hjoin.
  destruct (_ && negb _); [discriminate|].
  destruct (negb asSpectator
            && match GameState.phase (gameState w) with
               | Waiting => false
               | _ => true
               end) eqn:Hphase; [discriminate|].
  destruct (negb asSpectator && (_ >=? _)) eqn:Hfull; [discriminate|].
  injection Hjoin as <-.
  unfold playersSet.
  assert (existsb (hasId playerId) (GameState.players (gameState w)) = false)
    as ->.
  { apply not_true_is_false. intros H.
    apply existsb_exists in H as (q & Hq & Hid).
    apply (find_none _ _ Hfresh) in Hq. congruence. }
  eexists. split; [reflexivity|]. cbn.
  do 7 (split; [reflexivity|]).
  intros ->. cbn in Hphase, Hfull. split.
  - now destruct (GameState.phase (gameState w)).
  - unfold seatedPlayers.
    destruct (Z.geb_spec
                (Z.of_nat (length (List.filter isRolePlayer
                                     (GameState.players (gameState w)))))
                MAX_PLAYERS_PER_ROOM); [discriminate | lia].
Qed.

Lemma playersGrow_same gs gs' :
  Forall2 grows (GameState.players gs) (GameState.players gs') ->
  playersGrow gs gs'.
Proof.
  intros H. exists (GameState.players gs'), []. rewrite app_nil_r.
  split; [reflexivity|]. split; [exact H | cbn; lia].
Qed.

(** Every event but a join leaves the list of players in place. *)
Lemma step_grows w now random ev :
  match ev with
  | JoinRoom _ _ _ _ _ => True
  | _ =>
      Forall2 grows (GameState.players (gameState w))
        (GameState.players (gameState (step w now random ev)))
  end.
Proof.
  destruct ev; cbn [step]; [exact I | ..].
  - apply steady_grows_all, steady_on_reconnect_player.
  - apply steady_grows_all, steady_on_disconnect.
  - apply steady_grows_all, steady_on_select_box.
  - apply steady_grows_all, steady_on_player_ready.
  - apply grows_on_start_game.
  - rewrite on_set_room_password_players. apply grows_all_refl.
  - apply steady_on_open_box_core.
  - destruct boxNumbers; cbn;
      [apply grows_all_refl | apply steady_on_open_box_core].
  - apply grows_on_deal_response.
  - destruct (turnTimer w); [|apply grows_all_refl].
    apply (grows_handleTurnTimeout (clearTurnTimer w)).
  - destruct (offerTimer w); [|apply grows_all_refl].
    apply (grows_handleOfferTimeout (clearOfferTimer w)).
  - destruct (offerDelays w); [apply grows_all_refl|].
    apply (grows_triggerBankerOffer (mkWorld _ _ _ _)).
Qed.

Lemma step_playersGrow w now random ev :
  admissible w random ev ->
  playersGrow (gameState w) (gameState (step w now random ev)).
Proof.
  intros [_ Hadm].
  pose proof (step_grows w now random ev) as Hstep.
  destruct ev; try (apply playersGrow_same; exact Hstep).
  cbn [step].
  destruct (on_join_room_players w playerId socketId playerName password
              asSpectator Hadm) as [Heq | (new & Heq & _)].
  - apply playersGrow_same. cbv zeta in Heq. rewrite Heq.
    apply grows_all_refl.
  - exists (GameState.players (gameState w)), [new].
    split; [exact Heq|]. split; [apply grows_all_refl | cbn; lia].
Qed.

Lemma playersGet_app players rest pid p :
  playersGet players pid = Some p -> playersGet (players ++ rest) pid = Some p.
Proof.
  unfold playersGet. induction players as [|q l IH]; simpl; [discriminate|].
  destruct (hasId pid q); auto.
Qed.

Lemma playersGrow_get gs gs' pid p :
  playersGrow gs gs' -> getPlayer gs pid = Some p ->
  exists p', getPlayer gs' pid = Some p' /\ grows p p'.
Proof.
  intros (kept & joined & Heq & Hall & _) Hget.
  destruct (rel_get grows grows_id _ _ _ _ Hall Hget) as (p' & Hget' & Hg).
  exists p'. split; [|exact Hg].
  unfold getPlayer. rewrite Heq. now apply playersGet_app.
Qed.

(** X22: no event removes a player or changes a player's id, name, role
    or host flag; a player who has dealt stays dealt, a player with a box
    keeps a box, and a timeout count never goes down. *)
Theorem player_record_evolves (w : World) (now : Z) (random : Q) (ev : Event)
    (pid : string) (p : Player) :
  admissible w random ev ->
  getPlayer (gameState w) pid = Some p ->
  exists p',
    getPlayer (gameState (step w now random ev)) pid = Some p'
    /\ Player.id p' = Player.id p
    /\ Player.name p' = Player.name p
    /\ Player.role p' = Player.role p
    /\ Player.isHost p' = Player.isHost p
    /\ (Player.hasDealt p = true -> Player.hasDealt p' = true)
    /\ Player.timeoutCount p <= Player.timeoutCount p'
    /\ (hasBoxNumber p = true -> hasBoxNumber p' = true).
Proof.
  intros Hadm Hget.
  destruct (playersGrow_get _ _ _ _ (step_playersGrow w now random ev Hadm) Hget)
    as (p' & Hget' & Hg).
  exists p'. split; [exact Hget' | exact Hg].
Qed.

Lemma grows_seated l l' :
  Forall2 grows l l' ->
  length (List.filter isRolePlayer l') = length (List.filter isRolePlayer l).
Proof.
  induction 1 as [|p p' l l' Hg _ IH]; [reflexivity|].
  cbn [List.filter].
  assert (isRolePlayer p' = isRolePlayer p) as ->.
  { unfold isRolePlayer. destruct Hg as (_ & _ & -> & _). reflexivity. }
  destruct (isRolePlayer p); cbn [length]; now rewrite IH.
Qed.

Lemma seats_step w now random ev :
  admissible w random ev ->
  Z.of_nat (length (seatedPlayers (gameState w))) <= MAX_PLAYERS_PER_ROOM ->
  Z.of_nat (length (seatedPlayers (gameState (step w now random ev))))
  <= MAX_PLAYERS_PER_ROOM.
Proof.
  intros [_ Hadm] Hle.
  pose proof (step_grows w now random ev) as Hstep.
  unfold seatedPlayers in *.
  destruct ev; try (rewrite (grows_seated _ _ Hstep); exact Hle).
  cbn [step].
  destruct (on_join_room_players w playerId socketId playerName password
              asSpectator Hadm)
    as [Heq | (new & Heq & _ & Hrole & _ & _ & _ & _ & _ & Hseat)];
    cbv zeta in Heq; rewrite Heq; [exact Hle|].
  rewrite List.filter_app, length_app. cbn [List.filter].
  unfold isRolePlayer at 2. rewrite Hrole.
  destruct asSpectator; cbn [length]; [lia|].
  destruct (Hseat eq_refl) as [_ Hlt]. unfold seatedPlayers in Hlt. lia.
Qed.

(** X23: a reachable room has at least 1 and never more than 6 seated
    players (players who are not spectators), and outside the waiting
    phase no event changes the number of seated players. *)
Theorem seats_bounded (w : World) :
  reachable w ->
  (1 <= Z.of_nat (length (seatedPlayers (gameState w)))
   <= MAX_PLAYERS_PER_ROOM)
  /\ forall now random ev,
       admissible w random ev ->
       GameState.phase (gameState w) <> Waiting ->
       length (seatedPlayers (gameState (step w now random ev)))
       = length (seatedPlayers (gameState w)).
Proof.
  intros Hreach. split.
  - induction Hreach as [| w now random ev Hreach IH Hadm].
    + cbn. unfold MAX_PLAYERS_PER_ROOM. lia.
    + split; [|apply seats_step; [exact Hadm | apply IH]].
      destruct (step_playersGrow w now random ev Hadm)
        as (kept & joined & Heq & Hall & _).
      unfold seatedPlayers in *. rewrite Heq, List.filter_app, length_app.
      rewrite (grows_seated _ _ Hall). lia.
  - intros now random ev [_ Hadm] Hphase.
    pose proof (step_grows w now random ev) as Hstep.
    unfold seatedPlayers.
    destruct ev; try (exact (grows_seated _ _ Hstep)).
    cbn [step].
    destruct (on_join_room_players w playerId socketId playerName password
                asSpectator Hadm)
      as [Heq | (new & Heq & _ & Hrole & _ & _ & _ & _ & _ & Hseat)];
      cbv zeta in Heq; rewrite Heq; [reflexivity|].
    rewrite List.filter_app, length_app. cbn [List.filter].
    unfold isRolePlayer at 2. rewrite Hrole.
    destruct asSpectator; cbn [length]; [lia|].
    destruct (Hseat eq_refl) as [Hw _]. contradiction.
Qed.

Lemma player_record_evolves_witness :
  exists p',
    getPlayer (gameState (step sample_offer 1000 0.5 (DealResponse "J" true)))
      "J" = Some p'
    /\ Player.id p' = Player.id sample_player_J
    /\ Player.name p' = Player.name sample_player_J
    /\ Player.role p' = Player.role sample_player_J
    /\ Player.isHost p' = Player.isHost sample_player_J
    /\ (Player.hasDealt sample_player_J = true -> Player.hasDealt p' = true)
    /\ Player.timeoutCount sample_player_J <= Player.timeoutCount p'
    /\ (hasBoxNumber sample_player_J = true -> hasBoxNumber p' = true).
Proof.
  apply (player_record_evolves sample_offer 1000 0.5 (DealResponse "J" true)
           "J" sample_player_J).
  - split; [split; [discriminate | reflexivity] | exact I].
  - vm_compute. reflexivity.
Defined.

Lemma seats_bounded_witness :
  (1 <= Z.of_nat (length (seatedPlayers (gameState sample_started)))
   <= MAX_PLAYERS_PER_ROOM)
  /\ forall now random ev,
       admissible sample_started random ev ->
       GameState.phase (gameState sample_started) <> Waiting ->
       length (seatedPlayers (gameState (step sample_started now random ev)))
       = length (seatedPlayers (gameState sample_started)).
Proof.
  apply (seats_bounded sample_started).
  apply sample_started_reachable.
Defined.


(* ================================================================== *)
(** * The turn and its timer in the reachable states *)
(* ================================================================== *)

Lemma grows_contestant p p' :
  grows p p' -> isContestant p = true -> isContestant p' = true.
Proof.
  intros (_ & _ & Hrole & _ & _ & _ & Hbox). unfold isContestant, isRolePlayer.
  rewrite Hrole. intros H. apply andb_true_iff in H as [-> Hb].
  now rewrite (Hbox Hb).
Qed.

Lemma steady_active p p' :
  steady p p' -> isActivePlayer p = true -> isActivePlayer p' = true.
Proof.
  intros [(_ & _ & Hrole & _ & _ & _ & Hbox) Hd].
  unfold isActivePlayer, isRolePlayer. rewrite Hrole, Hd. intros H.
  apply andb_true_iff in H as [H ->].
  apply andb_true_iff in H as [-> Hb]. now rewrite (Hbox Hb).
Qed.

Lemma steady_id p p' : steady p p' -> Player.id p' = Player.id p.
Proof. intros [H _]. now apply grows_id. Qed.

Lemma playersKept_all (R : Player -> Player -> Prop) gs gs' :
  (forall p p', R p p' -> Player.id p' = Player.id p) ->
  Forall2 R (GameState.players gs) (GameState.players gs') ->
  playersKept R gs gs'.
Proof. intros Hid Hall pid p Hget. eapply rel_get; eauto. Qed.

Lemma playersKept_app (R : Player -> Player -> Prop) gs gs' joined :
  (forall p, R p p) ->
  GameState.players gs' = GameState.players gs ++ joined ->
  playersKept R gs gs'.
Proof.
  intros Hrefl Heq pid p Hget. exists p. split; [|apply Hrefl].
  unfold getPlayer. rewrite Heq. now apply playersGet_app.
Qed.

Lemma playersKept_refl (R : Player -> Player -> Prop) gs gs' :
  (forall p, R p p) ->
  GameState.players gs' = GameState.players gs ->
  playersKept R gs gs'.
Proof.
  intros Hrefl Heq pid p Hget. exists p. split; [|apply Hrefl].
  unfold getPlayer. now rewrite Heq.
Qed.

Lemma playersKept_weaken gs gs' :
  playersKept steady gs gs' -> playersKept grows gs gs'.
Proof.
  intros H pid p Hget. destruct (H pid p Hget) as (p' & Hget' & [Hg _]). eauto.
Qed.

Lemma orderOk_frame gs gs' :
  orderOk gs ->
  (forall pid, In pid (GameState.turnOrder gs') ->
               In pid (GameState.turnOrder gs)) ->
  0 <= GameState.currentTurnIndex gs' ->
  playersKept grows gs gs' ->
  orderOk gs'.
Proof.
  intros [_ Hord] Hsub Hidx Hkept. split; [exact Hidx|].
  intros pid Hin. destruct (Hord pid (Hsub pid Hin)) as (p & Hget & Hc).
  destruct (Hkept pid p Hget) as (p' & Hget' & Hg).
  exists p'. split; [exact Hget'|]. now apply (grows_contestant p).
Qed.

Lemma orderOk_same gs gs' :
  orderOk gs ->
  GameState.turnOrder gs' = GameState.turnOrder gs ->
  GameState.currentTurnIndex gs' = GameState.currentTurnIndex gs ->
  Forall2 grows (GameState.players gs) (GameState.players gs') ->
  orderOk gs'.
Proof.
  intros Hok Hto Hidx Hg. apply (orderOk_frame gs); auto.
  - now rewrite Hto.
  - rewrite Hidx. apply Hok.
  - apply playersKept_all; [apply grows_id | exact Hg].
Qed.

Lemma turnOk_idle w :
  orderOk (gameState w) -> turnTimer w = None ->
  GameState.currentTurnPlayerId (gameState w) = None -> turnOk w.
Proof.
  intros Hord Ht Hh. constructor; [congruence | exact Hord|].
  intros pid Hpid. congruence.
Qed.

Lemma mayPlay_frame gs gs' pid :
  mayPlay gs pid ->
  GameState.phase gs' = GameState.phase gs ->
  GameState.turnOrder gs' = GameState.turnOrder gs ->
  playersKept steady gs gs' ->
  mayPlay gs' pid.
Proof.
  intros (Hph & Hin & p & Hget & Hact) Hph' Hto Hkept.
  split; [congruence|]. split; [now rewrite Hto|].
  destruct (Hkept pid p Hget) as (p' & Hget' & Hs).
  exists p'. split; [exact Hget' | now apply (steady_active p)].
Qed.

Lemma turnOk_frame w w' :
  turnOk w ->
  turnTimer w' = turnTimer w ->
  GameState.currentTurnPlayerId (gameState w')
  = GameState.currentTurnPlayerId (gameState w) ->
  GameState.phase (gameState w') = GameState.phase (gameState w) ->
  GameState.turnOrder (gameState w') = GameState.turnOrder (gameState w) ->
  GameState.currentTurnIndex (gameState w')
  = GameState.currentTurnIndex (gameState w) ->
  playersKept steady (gameState w) (gameState w') ->
  turnOk w'.
Proof.
  intros [Ht Hord Hh] Ht' Hh' Hph Hto Hidx Hkept.
  constructor.
  - congruence.
  - apply (orderOk_frame (gameState w)); auto.
    + now rewrite Hto.
    + rewrite Hidx. apply Hord.
    + now apply playersKept_weaken.
  - intros pid Hpid. rewrite Hh' in Hpid.
    apply (mayPlay_frame (gameState w)); auto.
Qed.

(** *** The engine *)

Lemma tn_finishGame w now :
  orderOk (gameState w) -> turnOk (finishGame w now).
Proof.
  intros Hord. apply turnOk_idle; [|reflexivity|reflexivity].
  apply (orderOk_same (gameState w)); auto. apply grows_finishGame.
Qed.

Lemma finishLastPlayer_order w player now :
  GameState.turnOrder (gameState (finishLastPlayer w player now))
  = GameState.turnOrder (gameState w)
  /\ GameState.currentTurnIndex (gameState (finishLastPlayer w player now))
     = GameState.currentTurnIndex (gameState w).
Proof.
  unfold finishLastPlayer, finishGame.
  cbn [gameState withState clearOfferTimer clearTurnTimer
       GameState.turnOrder GameState.currentTurnIndex
       GameState.set_offerResponses
       GameState.set_offerEligiblePlayerIds GameState.set_turnExpiresAt
       GameState.set_currentTurnPlayerId GameState.set_offerExpiresAt
       GameState.set_currentOffer GameState.set_finishedAt
       GameState.set_phase GameState.set_players].
  destruct (findBox _ _); [|split; reflexivity].
  match goal with
  | |- context [eliminateValue ?v ?g] =>
      destruct (eliminateValue_frame v g) as (_&_&_&_&_& -> & -> & _)
  end.
  split; reflexivity.
Qed.

Lemma tn_finishLastPlayer w player now :
  orderOk (gameState w) -> turnOk (finishLastPlayer w player now).
Proof.
  intros Hord. destruct (finishLastPlayer_order w player now) as [Hto Hidx].
  apply turnOk_idle; [|reflexivity|reflexivity].
  apply (orderOk_same (gameState w)); auto. apply grows_finishLastPlayer.
Qed.

Lemma tn_triggerBankerOffer w now random :
  orderOk (gameState w) -> turnOk (triggerBankerOffer w now random).
Proof.
  intros Hord. unfold triggerBankerOffer.
  cbn [gameState clearOfferTimer clearTurnTimer].
  destruct (getLastActivePlayer _); [now apply tn_finishLastPlayer|].
  destruct (checkGameEnd _); [now apply tn_finishGame|].
  apply turnOk_idle; [|reflexivity|reflexivity].
  apply (orderOk_same (gameState w)); auto. apply grows_all_refl.
Qed.

Lemma In_arrayGet {A} (l : list A) (x : A) :
  In x l -> exists i, 0 <= i /\ arrayGet l i = Some x.
Proof.
  intros Hin. apply list_elem_of_In, list_elem_of_lookup_1 in Hin as (i & Hi).
  exists (Z.of_nat i). split; [lia|]. unfold arrayGet.
  assert ((Z.of_nat i <? 0) = false) as -> by (apply Z.ltb_ge; lia).
  now rewrite Nat2Z.id.
Qed.

Lemma arrayGet_In {A} (l : list A) (i : Z) (x : A) :
  arrayGet l i = Some x -> In x l.
Proof.
  unfold arrayGet. destruct (i <? 0); [discriminate|].
  intros H. eapply list_elem_of_In, list_elem_of_lookup_2, H.
Qed.

Lemma mayPlay_activeTurn gs pid :
  mayPlay gs pid -> exists idx, activeTurn gs idx.
Proof.
  intros (_ & Hin & p & Hget & Hact).
  destruct (In_arrayGet _ _ Hin) as (i & _ & Hi).
  exists i, pid, p. split; [exact Hi|]. split; [exact Hget|].
  apply isActivePlayer_spec in Hact. tauto.
Qed.

Lemma getNext_found gs startIndex :
  getNextActivePlayerIndex gs startIndex <> -1 ->
  activeTurn gs (getNextActivePlayerIndex gs startIndex).
Proof.
  unfold getNextActivePlayerIndex.
  destruct (length (GameState.turnOrder gs) =? 0)%nat; [congruence|].
  destruct (List.find _ _) as [i|] eqn:Hfind; [|congruence].
  intros _. apply find_some in Hfind as [_ Hact].
  now apply isActiveTurnAt_spec.
Qed.

Lemma getNext_missing gs startIndex :
  0 <= startIndex ->
  getNextActivePlayerIndex gs startIndex = -1 ->
  forall idx, ~ activeTurn gs idx.
Proof.
  intros Hstart Hnone idx Hact.
  pose proof Hact as (pid & p & Hget & _).
  apply arrayGet_range in Hget.
  set (n := Z.of_nat (length (GameState.turnOrder gs))) in *.
  unfold getNextActivePlayerIndex in Hnone.
  destruct (length (GameState.turnOrder gs) =? 0)%nat eqn:Hlen.
  { apply Nat.eqb_eq in Hlen. unfold n in Hget. lia. }
  fold n in Hnone.
  assert (Hrem : forall i, 0 <= i ->
            Z.rem (startIndex + i) n = (startIndex + i) mod n).
  { intros i Hi. apply Z.rem_mod_nonneg; lia. }
  destruct (List.find _ _) as [i|] eqn:Hfind.
  - apply find_some in Hfind as [Hin _].
    apply in_map_iff in Hin as (k & <- & _).
    rewrite Hrem in Hnone by lia.
    pose proof (Z.mod_pos_bound (startIndex + Z.of_nat k) n ltac:(lia)). lia.
  - set (i := (idx - startIndex) mod n).
    assert (Hi : 0 <= i < n) by (apply Z.mod_pos_bound; lia).
    assert (Hidx : (startIndex + i) mod n = idx).
    { unfold i. rewrite Zplus_mod_idemp_r.
      replace (startIndex + (idx - startIndex)) with idx by lia.
      apply Z.mod_small; lia. }
    assert (Hnot : isActiveTurnAt gs startIndex (Z.of_nat (Z.to_nat i))
                   = false).
    { apply (find_none _ _ Hfind). apply in_map. apply in_seq. unfold n in Hi.
      lia. }
    apply not_true_iff_false in Hnot. apply Hnot.
    rewrite Z2Nat.id by lia. apply isActiveTurnAt_spec. fold n.
    rewrite Hrem by lia. now rewrite Hidx.
Qed.

Lemma activeTurn_mayPlay gs idx pid :
  orderOk gs -> GameState.phase gs = Playing ->
  activeTurn gs idx -> arrayGet (GameState.turnOrder gs) idx = Some pid ->
  mayPlay gs pid /\ 0 <= idx.
Proof.
  intros [_ Hord] Hph (pid' & p & Hget & Hp & Hd & Hr) Hpid.
  rewrite Hpid in Hget. injection Hget as <-.
  pose proof (arrayGet_In _ _ _ Hpid) as Hin.
  pose proof (arrayGet_range _ _ _ Hpid) as Hrange.
  split; [|lia]. split; [exact Hph|]. split; [exact Hin|].
  exists p. split; [exact Hp|].
  destruct (Hord pid Hin) as (p0 & Hp0 & Hc). rewrite Hp in Hp0.
  injection Hp0 as <-.
  unfold isContestant in Hc. unfold isActivePlayer. now rewrite Hc, Hd.
Qed.

Lemma tn_setCurrentTurn w now random :
  orderOk (gameState w) ->
  GameState.phase (gameState w) = Playing ->
  (forall pid, GameState.currentTurnPlayerId (gameState w) = Some pid ->
               mayPlay (gameState w) pid) ->
  turnOk (setCurrentTurn w now random).
Proof.
  intros Hord Hph Hholder. unfold setCurrentTurn.
  apply isPhase_true in Hph. rewrite Hph. cbn [negb].
  apply isPhase_true in Hph.
  destruct (negb (hasOpenableBoxes _)); [now apply tn_triggerBankerOffer|].
  destruct (getNextActivePlayerIndex _ _ =? -1) eqn:Hnext.
  - apply Z.eqb_eq in Hnext.
    constructor; [|exact Hord | exact Hholder].
    cbn [turnTimer clearTurnTimer gameState].
    destruct (GameState.currentTurnPlayerId (gameState w)) as [pid|] eqn:Hpid;
      [|reflexivity].
    destruct (mayPlay_activeTurn _ _ (Hholder pid eq_refl)) as (idx & Hact).
    exfalso. eapply getNext_missing; eauto. apply Hord.
  - apply Z.eqb_neq in Hnext. pose proof (getNext_found _ _ Hnext) as Hact.
    destruct (arrayGet _ _) as [playerId|] eqn:Hget.
    + destruct (activeTurn_mayPlay _ _ _ Hord Hph Hact Hget) as [Hmay Hidx].
      constructor; cbn [turnTimer armTurnTimer gameState withState
                        clearTurnTimer]; [reflexivity| |].
      * apply (orderOk_frame (gameState w)); cbn; auto.
        apply playersKept_refl; [apply grows_refl | reflexivity].
      * cbn. intros pid [= <-].
        apply (mayPlay_frame (gameState w)); cbn; auto.
        apply playersKept_refl; [apply steady_refl | reflexivity].
    + exfalso. destruct Hact as (pid & p & Hget' & _). congruence.
Qed.

Lemma getNext_nonneg gs startIndex :
  getNextActivePlayerIndex gs startIndex <> -1 ->
  0 <= getNextActivePlayerIndex gs startIndex.
Proof.
  intros H. destruct (getNext_found _ _ H) as (pid & p & Hget & _).
  apply arrayGet_range in Hget. lia.
Qed.

Lemma tn_handleTurnTimeout w playerId now random :
  orderOk (gameState w) -> turnTimer w = None ->
  GameState.currentTurnPlayerId (gameState w) = Some playerId ->
  mayPlay (gameState w) playerId ->
  turnOk (handleTurnTimeout w playerId now random).
Proof.
  intros Hord Htimer Hholder Hmay. unfold handleTurnTimeout.
  pose proof Hmay as (Hph & _).
  pose proof Hph as Hph'. apply isPhase_true in Hph'. rewrite Hph'. cbn [negb].
  rewrite Hholder, String.eqb_refl. cbn [negb].
  set (gs1 := updatePlayer (gameState w) playerId
                (fun p => Player.set_timeoutCount (Player.timeoutCount p + 1) p)).
  assert (Hkept : playersKept steady (gameState w) gs1).
  { apply playersKept_all; [apply steady_id|].
    apply steady_updatePlayer. intros p. apply steady_timeout. }
  assert (Hord1 : orderOk gs1).
  { apply (orderOk_frame (gameState w)); auto; [apply Hord|].
    now apply playersKept_weaken. }
  assert (Hmay1 : mayPlay gs1 playerId).
  { apply (mayPlay_frame (gameState w)); auto. }
  destruct (getNextActivePlayerIndex gs1 _ =? -1) eqn:Hnext.
  - destruct (_ >=? _); [now apply tn_triggerBankerOffer|].
    exfalso. apply Z.eqb_eq in Hnext.
    destruct (mayPlay_activeTurn _ _ Hmay1) as (idx & Hact).
    eapply getNext_missing; eauto.
    destruct Hord as [Hidx _]. cbn. lia.
  - apply Z.eqb_neq in Hnext.
    apply tn_setCurrentTurn; cbn [gameState withState].
    + apply (orderOk_frame gs1); cbn; auto.
      * now apply getNext_nonneg.
      * apply playersKept_refl; [apply grows_refl | reflexivity].
    + exact Hph.
    + cbn. intros pid Hpid. rewrite Hholder in Hpid. injection Hpid as <-.
      apply (mayPlay_frame gs1); cbn; auto.
      apply playersKept_refl; [apply steady_refl | reflexivity].
Qed.

Lemma tn_startNewRound w now random :
  orderOk (gameState w) -> turnOk (startNewRound w now random).
Proof.
  intros Hord. unfold startNewRound.
  cbn [gameState clearOfferTimer clearTurnTimer].
  destruct (getLastActivePlayer _); [now apply tn_finishLastPlayer|].
  apply tn_setCurrentTurn; cbn; auto. discriminate.
Qed.

Lemma tn_endOfferAndContinue w now random :
  orderOk (gameState w) -> turnOk (endOfferAndContinue w now random).
Proof.
  intros Hord. unfold endOfferAndContinue. cbn [gameState clearOfferTimer].
  destruct (checkGameEnd _); [now apply tn_finishGame|].
  destruct (getLastActivePlayer _); [now apply tn_finishLastPlayer|].
  now apply tn_startNewRound.
Qed.

Lemma tn_handleOfferTimeout w now random :
  turnOk w -> turnOk (handleOfferTimeout (clearOfferTimer w) now random).
Proof.
  intros Hok. unfold handleOfferTimeout. cbn [gameState clearOfferTimer].
  destruct (negb _).
  - eapply turnOk_frame; eauto.
    apply playersKept_refl; [apply steady_refl | reflexivity].
  - apply tn_endOfferAndContinue. cbn [gameState withState].
    destruct (fold_defaultNoDeal_frame
                (GameState.offerEligiblePlayerIds (gameState w)) (gameState w))
      as (_ & _ & _ & Hto & Hidx & _).
    apply (orderOk_same (gameState w)); auto; [apply Hok|].
    apply steady_grows_all, steady_applyOfferTimeout.
Qed.

Lemma removeFirst_In {A} (test : A -> bool) (l : list A) (x : A) :
  In x (removeFirst test l) -> In x l.
Proof.
  induction l as [|y l IH]; simpl; [auto|].
  destruct (test y); simpl; [auto|]. intros [->|H]; auto.
Qed.

Lemma removeFromTurnOrder_order pid gs :
  0 <= GameState.currentTurnIndex gs ->
  0 <= GameState.currentTurnIndex (removeFromTurnOrder pid gs)
  /\ forall x, In x (GameState.turnOrder (removeFromTurnOrder pid gs)) ->
               In x (GameState.turnOrder gs).
Proof.
  intros Hidx. unfold removeFromTurnOrder.
  destruct (_ >? -1); [|auto].
  cbn. destruct (_ <? _); cbn; (split; [lia|]);
    intros x; apply removeFirst_In.
Qed.

Lemma acceptDeal_order gs player offer :
  0 <= GameState.currentTurnIndex gs ->
  0 <= GameState.currentTurnIndex (acceptDeal gs player offer)
  /\ forall x, In x (GameState.turnOrder (acceptDeal gs player offer)) ->
               In x (GameState.turnOrder gs).
Proof.
  intros Hidx. unfold acceptDeal.
  match goal with
  | |- context [removeFromTurnOrder ?pid ?g] =>
      assert (Hg : 0 <= GameState.currentTurnIndex g
                   /\ GameState.turnOrder g = GameState.turnOrder gs);
      [|destruct Hg as [Hg1 Hg2];
        destruct (removeFromTurnOrder_order pid g Hg1) as [H1 H2];
        split; [exact H1 | intros x Hx; rewrite <- Hg2; now apply H2]]
  end.
  destruct (findBox _ _) as [box|]; [|cbn; auto].
  destruct (negb (Box.isOpened box)); [|cbn; auto].
  match goal with
  | |- context [eliminateValue ?v ?g] =>
      destruct (eliminateValue_frame v g) as (_&_&_&_&_& -> & -> & _)
  end.
  cbn. auto.
Qed.

Lemma recordDealResponse_order gs player accepted :
  0 <= GameState.currentTurnIndex gs ->
  0 <= GameState.currentTurnIndex (recordDealResponse gs player accepted)
  /\ forall x,
       In x (GameState.turnOrder (recordDealResponse gs player accepted)) ->
       In x (GameState.turnOrder gs).
Proof.
  intros Hidx. unfold recordDealResponse.
  destruct accepted; [|cbn; auto].
  destruct (GameState.currentOffer _) as [offer|]; [|cbn; auto].
  apply (acceptDeal_order (GameState.set_offerResponses _ gs)). exact Hidx.
Qed.

Lemma tn_on_deal_response w playerId accepted now random :
  turnOk w -> turnOk (on_deal_response w playerId accepted now random).
Proof.
  intros Hok. unfold on_deal_response.
  destruct (isPhase Offer (gameState w)) eqn:Hph; cbn [negb]; [|exact Hok].
  apply isPhase_true in Hph.
  destruct (getPlayer _ _) as [player|]; [|exact Hok].
  destruct (_ || _); [exact Hok|].
  destruct (bool_decide _); [exact Hok|].
  destruct (negb _); [exact Hok|].
  assert (Hnone : GameState.currentTurnPlayerId (gameState w) = None).
  { destruct (GameState.currentTurnPlayerId (gameState w)) as [pid|] eqn:Hpid;
      [|reflexivity].
    destruct (tn_holder _ Hok pid Hpid) as [Hplaying _]. congruence. }
  destruct (recordDealResponse_order (gameState w) player accepted)
    as [Hidx Hsub]; [apply (tn_order _ Hok)|].
  destruct (recordDealResponse_frame (gameState w) player accepted)
    as (_ & _ & _ & _ & Hh & _).
  assert (Hord : orderOk (recordDealResponse (gameState w) player accepted)).
  { apply (orderOk_frame (gameState w)); auto; [apply (tn_order _ Hok)|].
    apply playersKept_all; [apply grows_id | apply grows_recordDealResponse]. }
  destruct (allResponded _); [now apply tn_endOfferAndContinue|].
  apply turnOk_idle; cbn [gameState withState turnTimer]; auto.
  - rewrite (tn_timer _ Hok). exact Hnone.
  - now rewrite Hh.
Qed.

Lemma tn_on_open_box w playerId boxNumber now random :
  turnOk w -> turnOk (on_open_box w playerId boxNumber now random).
Proof.
  intros Hok. unfold on_open_box.
  destruct (isPhase Playing (gameState w)) eqn:Hph; cbn [negb]; [|exact Hok].
  apply isPhase_true in Hph.
  destruct (isCurrentTurn _ _) eqn:Hturn; cbn [negb]; [|exact Hok].
  destruct (getPlayer _ _) as [player|]; [|exact Hok].
  destruct (_ || _); [exact Hok|].
  destruct (_ >=? _); [exact Hok|].
  destruct (findBox _ _) as [box|]; [|exact Hok].
  destruct (Box.isOpened box); [exact Hok|].
  destruct (existsb _ _); [exact Hok|].
  assert (Hholder : GameState.currentTurnPlayerId (gameState w) = Some playerId).
  { unfold isCurrentTurn in Hturn.
    destruct (GameState.currentTurnPlayerId (gameState w)) as [c|];
      [|discriminate].
    apply String.eqb_eq in Hturn. now subst. }
  pose proof (tn_holder _ Hok playerId Hholder) as Hmay.
  pose proof (tn_order _ Hok) as Hord.
  match goal with
  | |- context [eliminateValue ?v ?g] =>
      pose proof (eliminateValue_frame v g) as Hfr;
      set (gs1 := eliminateValue v g) in *
  end.
  cbv zeta in Hfr. destruct Hfr as (Hp1 & _ & _ & _ & Hh1 & Hto1 & Hidx1 & Hpl1 & _).
  cbn [GameState.phase GameState.currentTurnPlayerId GameState.turnOrder
       GameState.currentTurnIndex GameState.players markBoxOpened
       GameState.set_boxes] in Hp1, Hh1, Hto1, Hidx1, Hpl1.
  clearbody gs1.
  set (gs2 := GameState.set_boxesOpenedThisRound _ gs1).
  assert (Hkept : playersKept steady (gameState w) gs2).
  { apply playersKept_refl; [apply steady_refl | exact Hpl1]. }
  assert (Hord2 : orderOk gs2).
  { apply (orderOk_frame (gameState w)); cbn; auto.
    - now rewrite Hto1.
    - rewrite Hidx1. apply Hord.
    - now apply playersKept_weaken. }
  assert (Hmay2 : mayPlay gs2 playerId).
  { apply (mayPlay_frame (gameState w)); cbn; auto. }
  assert (Hstart : 0 <= GameState.currentTurnIndex gs2 + 1).
  { destruct Hord2 as [H _]. lia. }
  destruct (_ || _).
  - apply turnOk_idle; cbn [gameState scheduleOfferDelay withState turnTimer
                            clearTurnTimer]; [|reflexivity|reflexivity].
    apply (orderOk_frame gs2); cbn; auto.
    + destruct (getNextActivePlayerIndex gs2 _ =? -1) eqn:Hn; cbn [negb].
      * apply Hord2.
      * apply Z.eqb_neq in Hn. now apply getNext_nonneg.
    + apply playersKept_refl; [apply grows_refl | reflexivity].
  - destruct (getNextActivePlayerIndex gs2 _ =? -1) eqn:Hn; cbn [negb].
    + exfalso. apply Z.eqb_eq in Hn.
      destruct (mayPlay_activeTurn _ _ Hmay2) as (idx & Hact).
      eapply getNext_missing; eauto.
    + apply Z.eqb_neq in Hn.
      apply tn_setCurrentTurn; cbn [gameState withState clearTurnTimer].
      * apply (orderOk_frame gs2); cbn; auto.
        -- now apply getNext_nonneg.
        -- apply playersKept_refl; [apply grows_refl | reflexivity].
      * cbn. congruence.
      * cbn. intros pid Hpid. rewrite Hh1, Hholder in Hpid.
        injection Hpid as <-.
        apply (mayPlay_frame gs2); cbn; auto.
        apply playersKept_refl; [apply steady_refl | reflexivity].
Qed.

(** Reduce the projections of a state built by setters. *)
Ltac gs_simpl :=
  cbn [gameState withState turnTimer offerTimer offerDelays
       clearTurnTimer clearOfferTimer armTurnTimer armOfferTimer
       scheduleOfferDelay
       GameState.roomCode GameState.phase GameState.players GameState.boxes
       GameState.currentRound GameState.boxesOpenedThisRound
       GameState.remainingValues GameState.eliminatedValues
       GameState.currentOffer GameState.offerExpiresAt
       GameState.offerEligiblePlayerIds GameState.offerResponses
       GameState.turnOrder GameState.currentTurnIndex
       GameState.currentTurnPlayerId GameState.turnExpiresAt GameState.hostId
       GameState.password GameState.createdAt GameState.startedAt
       GameState.finishedAt GameState.set_roomCode GameState.set_phase
       GameState.set_players GameState.set_boxes GameState.set_currentRound
       GameState.set_boxesOpenedThisRound GameState.set_remainingValues
       GameState.set_eliminatedValues GameState.set_currentOffer
       GameState.set_offerExpiresAt GameState.set_offerEligiblePlayerIds
       GameState.set_offerResponses GameState.set_turnOrder
       GameState.set_currentTurnIndex GameState.set_currentTurnPlayerId
       GameState.set_turnExpiresAt GameState.set_hostId
       GameState.set_password GameState.set_createdAt GameState.set_startedAt
       GameState.set_finishedAt].

Lemma Qfloor_nonneg (x : Q) : (0 <= x)%Q -> 0 <= Qfloor x.
Proof. intros H. change 0 with (Qfloor 0). now apply Qfloor_resp_le. Qed.

Lemma tn_on_start_game w playerId random0 now random :
  turnOk w -> wellFormed (gameState w) -> unitDraw random0 ->
  turnOk (on_start_game w playerId random0 now random).
Proof.
  intros Hok Hwf Hu. unfold on_start_game.
  destruct (negb _); [exact Hok|].
  destruct (negb _); [exact Hok|].
  set (gs := gameState w).
  assert (Hkept : playersKept steady gs (assignBoxValues gs)).
  { apply playersKept_all; [apply steady_id | apply steady_assignBoxValues]. }
  apply tn_setCurrentTurn; cbn [gameState withState].
  - split.
    + gs_simpl. apply Qfloor_nonneg. destruct Hu as [Hu _].
      apply Qmult_le_0_compat; [exact Hu|].
      change 0%Q with (inject_Z 0). rewrite <- Zle_Qle. lia.
    + gs_simpl. intros pid Hin.
      apply in_map_iff in Hin as (p & Hid & Hp).
      apply filter_In in Hp as [Hp Hc].
      assert (Hget : getPlayer gs pid = Some p).
      { rewrite <- Hid. apply playersGet_NoDup; [|exact Hp].
        apply (wf_player_ids _ Hwf). }
      destruct (Hkept pid p Hget) as (p' & Hget' & [Hg _]).
      exists p'. split; [exact Hget'|]. now apply (grows_contestant p).
  - reflexivity.
  - gs_simpl. intros pid Hpid.
    destruct (tn_holder _ Hok pid Hpid) as (_ & _ & p & Hget & Hact).
    split; [reflexivity|]. split.
    + gs_simpl. apply in_map_iff. exists p.
      destruct (playersGet_In _ _ _ Hget) as [Hin Hid].
      split; [exact Hid|]. apply filter_In. split; [exact Hin|].
      now apply isActive_contestant.
    + destruct (Hkept pid p Hget) as (p' & Hget' & Hs).
      exists p'. split; [exact Hget' | now apply (steady_active p)].
Qed.

Lemma tn_createRoom roomCode playerId random now hostSocketId hostName :
  turnOk (createRoom roomCode playerId random now hostSocketId hostName).
Proof.
  apply turnOk_idle; [|reflexivity|reflexivity].
  split; [cbn; lia|]. intros pid [].
Qed.

(** The turn fields of two states agree. *)
Lemma turnOk_lobby w w' :
  turnOk w ->
  (turnTimer w' = turnTimer w
   /\ GameState.currentTurnPlayerId (gameState w')
      = GameState.currentTurnPlayerId (gameState w)
   /\ GameState.phase (gameState w') = GameState.phase (gameState w)
   /\ GameState.turnOrder (gameState w') = GameState.turnOrder (gameState w)
   /\ GameState.currentTurnIndex (gameState w')
      = GameState.currentTurnIndex (gameState w)) ->
  playersKept steady (gameState w) (gameState w') ->
  turnOk w'.
Proof.
  intros Hok (H1 & H2 & H3 & H4 & H5) Hkept. eapply turnOk_frame; eauto.
Qed.

Lemma turns_on_join_room w playerId socketId playerName password asSpectator :
  let w' := on_join_room w playerId socketId playerName password asSpectator in
  turnTimer w' = turnTimer w
  /\ GameState.currentTurnPlayerId (gameState w')
     = GameState.currentTurnPlayerId (gameState w)
  /\ GameState.phase (gameState w') = GameState.phase (gameState w)
  /\ GameState.turnOrder (gameState w') = GameState.turnOrder (gameState w)
  /\ GameState.currentTurnIndex (gameState w')
     = GameState.currentTurnIndex (gameState w).
Proof.
  cbv zeta. unfold on_join_room.
  destruct (isEmptyString _); [repeat split; reflexivity|].
  destruct (joinRoom _ _ _ _ _ _) as [|gs'] eqn:Hj; [repeat split; reflexivity|].
  unfold joinRoom in Hj.
  repeat match type of Hj with
         | (if ?c then _ else _) = _ => destruct c; [discriminate|]
         end.
  injection Hj as <-. gs_simpl. repeat split; reflexivity.
Qed.

Lemma turns_on_select_box w playerId boxNumber :
  let w' := on_select_box w playerId boxNumber in
  turnTimer w' = turnTimer w
  /\ GameState.currentTurnPlayerId (gameState w')
     = GameState.currentTurnPlayerId (gameState w)
  /\ GameState.phase (gameState w') = GameState.phase (gameState w)
  /\ GameState.turnOrder (gameState w') = GameState.turnOrder (gameState w)
  /\ GameState.currentTurnIndex (gameState w')
     = GameState.currentTurnIndex (gameState w).
Proof.
  cbv zeta. unfold on_select_box.
  destruct (getPlayer _ _) as [player|]; [|repeat split; reflexivity].
  destruct (negb (isRolePlayer player)); [repeat split; reflexivity|].
  destruct (_ && _); [repeat split; reflexivity|].
  destruct (Player.isReady player); [repeat split; reflexivity|].
  destruct (_ || _); [repeat split; reflexivity|].
  destruct (existsb _ _); repeat split; reflexivity.
Qed.

Lemma turns_on_player_ready w playerId :
  let w' := on_player_ready w playerId in
  turnTimer w' = turnTimer w
  /\ GameState.currentTurnPlayerId (gameState w')
     = GameState.currentTurnPlayerId (gameState w)
  /\ GameState.phase (gameState w') = GameState.phase (gameState w)
  /\ GameState.turnOrder (gameState w') = GameState.turnOrder (gameState w)
  /\ GameState.currentTurnIndex (gameState w')
     = GameState.currentTurnIndex (gameState w).
Proof.
  cbv zeta. unfold on_player_ready.
  destruct (getPlayer _ _) as [player|]; [|repeat split; reflexivity].
  destruct (_ || _); repeat split; reflexivity.
Qed.

Lemma turns_on_set_room_password w playerId password :
  let w' := on_set_room_password w playerId password in
  turnTimer w' = turnTimer w
  /\ GameState.currentTurnPlayerId (gameState w')
     = GameState.currentTurnPlayerId (gameState w)
  /\ GameState.phase (gameState w') = GameState.phase (gameState w)
  /\ GameState.turnOrder (gameState w') = GameState.turnOrder (gameState w)
  /\ GameState.currentTurnIndex (gameState w')
     = GameState.currentTurnIndex (gameState w).
Proof.
  cbv zeta. unfold on_set_room_password.
  destruct (negb _); [repeat split; reflexivity|].
  destruct (negb _); repeat split; reflexivity.
Qed.

Lemma tn_step w now random ev :
  turnOk w -> wellFormed (gameState w) -> admissible w random ev ->
  turnOk (step w now random ev).
Proof.
  intros Hok Hwf [Hu Hadm]. destruct ev; cbn [step].
  - apply (turnOk_lobby w); [exact Hok | apply turns_on_join_room|].
    destruct (on_join_room_players w playerId socketId playerName password
                asSpectator Hadm) as [Heq | (new & Heq & _)];
      cbv zeta in Heq.
    + apply playersKept_refl; [apply steady_refl | exact Heq].
    + eapply playersKept_app; [apply steady_refl | exact Heq].
  - apply (turnOk_lobby w); [exact Hok | repeat split; reflexivity|].
    apply playersKept_all; [apply steady_id | apply steady_on_reconnect_player].
  - apply (turnOk_lobby w); [exact Hok | repeat split; reflexivity|].
    apply playersKept_all; [apply steady_id | apply steady_on_disconnect].
  - apply (turnOk_lobby w); [exact Hok | apply turns_on_select_box|].
    apply playersKept_all; [apply steady_id | apply steady_on_select_box].
  - apply (turnOk_lobby w); [exact Hok | apply turns_on_player_ready|].
    apply playersKept_all; [apply steady_id | apply steady_on_player_ready].
  - now apply tn_on_start_game.
  - apply (turnOk_lobby w); [exact Hok | apply turns_on_set_room_password|].
    apply playersKept_refl; [apply steady_refl|].
    apply on_set_room_password_players.
  - now apply tn_on_open_box.
  - destruct boxNumbers; cbn; [exact Hok | now apply tn_on_open_box].
  - now apply tn_on_deal_response.
  - destruct (turnTimer w) as [pid|] eqn:Htimer; [|exact Hok].
    assert (Hholder : GameState.currentTurnPlayerId (gameState w) = Some pid).
    { rewrite <- (tn_timer _ Hok). exact Htimer. }
    apply tn_handleTurnTimeout; cbn [gameState clearTurnTimer turnTimer]; auto.
    + apply (tn_order _ Hok).
    + now apply (tn_holder _ Hok).
  - destruct (offerTimer w); [|exact Hok]. now apply tn_handleOfferTimeout.
  - destruct (offerDelays w); [exact Hok|].
    apply tn_triggerBankerOffer. apply (tn_order _ Hok).
Qed.

Lemma reachable_turnOk w : reachable w -> turnOk w.
Proof.
  induction 1 as [| w now random ev Hreach IH Hadm].
  - apply tn_createRoom.
  - apply tn_step; auto. now apply reachable_wellFormed.
Qed.


(* ================================================================== *)
(** * Turns, offers and phases of a reachable room *)
(* ================================================================== *)

(** X24: in every reachable state a turn timeout is pending exactly for
    the player whose turn it is; and whenever it is somebody's turn, the
    game is in the playing phase and that player is an entry of the turn
    order, is seated, owns a box and has not dealt. *)
Theorem turn_has_timer (w : World) :
  reachable w ->
  turnTimer w = GameState.currentTurnPlayerId (gameState w)
  /\ forall pid,
       GameState.currentTurnPlayerId (gameState w) = Some pid ->
       GameState.phase (gameState w) = Playing
       /\ In pid (GameState.turnOrder (gameState w))
       /\ exists p,
            getPlayer (gameState w) pid = Some p
            /\ Player.role p = RolePlayer
            /\ Player.boxNumber p <> None
            /\ Player.hasDealt p = false.
Proof.
  intros Hreach. pose proof (reachable_turnOk w Hreach) as [Ht _ Hh].
  split; [exact Ht|].
  intros pid Hpid. destruct (Hh pid Hpid) as (Hph & Hin & p & Hget & Hact).
  split; [exact Hph|]. split; [exact Hin|].
  exists p. split; [exact Hget|]. now apply isActivePlayer_spec.
Qed.

Lemma turn_has_timer_witness :
  turnTimer sample_started
  = GameState.currentTurnPlayerId (gameState sample_started)
  /\ forall pid,
       GameState.currentTurnPlayerId (gameState sample_started) = Some pid ->
       GameState.phase (gameState sample_started) = Playing
       /\ In pid (GameState.turnOrder (gameState sample_started))
       /\ exists p,
            getPlayer (gameState sample_started) pid = Some p
            /\ Player.role p = RolePlayer
            /\ Player.boxNumber p <> None
            /\ Player.hasDealt p = false.
Proof.
  apply (turn_has_timer sample_started).
  apply sample_started_reachable.
Defined.

(** X25: whenever a reachable room is in the offer phase, the offer on
    the table is a finite number that is not negative, its expiry time
    is set, the offer deadline is pending, and it is nobody's turn: no
    turn timeout is pending. *)
Theorem offer_has_deadline (w : World) :
  reachable w ->
  GameState.phase (gameState w) = Offer ->
  offerTimer w = true
  /\ (exists q, GameState.currentOffer (gameState w) = Some (Fin q)
                /\ (0 <= q)%Q)
  /\ (exists t, GameState.offerExpiresAt (gameState w) = Some t)
  /\ GameState.currentTurnPlayerId (gameState w) = None
  /\ turnTimer w = None.
Proof.
  intros Hreach Hph.
  destruct (ph_offer _ (reachable_phaseOk w Hreach) Hph) as (Ht & Ho & He).
  pose proof (reachable_turnOk w Hreach) as [Htimer _ Hholder].
  assert (Hnone : GameState.currentTurnPlayerId (gameState w) = None).
  { destruct (GameState.currentTurnPlayerId (gameState w)) as [pid|] eqn:Hpid;
      [|reflexivity].
    destruct (Hholder pid eq_refl) as [Hplaying _]. congruence. }
  repeat split; auto. congruence.
Qed.

Lemma offer_has_deadline_witness :
  offerTimer sample_offer = true
  /\ (exists q, GameState.currentOffer (gameState sample_offer) = Some (Fin q)
                /\ (0 <= q)%Q)
  /\ (exists t, GameState.offerExpiresAt (gameState sample_offer) = Some t)
  /\ GameState.currentTurnPlayerId (gameState sample_offer) = None
  /\ turnTimer sample_offer = None.
Proof.
  apply (offer_has_deadline sample_offer).
  - apply sample_offer_reachable.
  - vm_compute. reflexivity.
Defined.

(** X26: a reachable room is never in the selection phase; it is in the
    waiting phase exactly as long as its round counter is 0, from the
    start of the game on the round is at least 1, and no pause before an
    offer is pending in the waiting phase. *)
Theorem phase_and_round (w : World) :
  reachable w ->
  GameState.phase (gameState w) <> Selection
  /\ (GameState.phase (gameState w) = Waiting
      <-> GameState.currentRound (gameState w) = 0)
  /\ 0 <= GameState.currentRound (gameState w)
  /\ (GameState.phase (gameState w) = Waiting -> offerDelays w = 0%nat).
Proof.
  intros Hreach. pose proof (reachable_phaseOk w Hreach) as [Hs Hw Hr _].
  split; [exact Hs|].
  destruct (GameState.phase (gameState w)) eqn:Hph.
  - destruct (Hw eq_refl) as [Hd H0]. rewrite H0.
    repeat split; auto; lia.
  - contradiction.
  - assert (1 <= GameState.currentRound (gameState w)) by (apply Hr; discriminate).
    repeat split; try discriminate; try lia.
  - assert (1 <= GameState.currentRound (gameState w)) by (apply Hr; discriminate).
    repeat split; try discriminate; try lia.
  - assert (1 <= GameState.currentRound (gameState w)) by (apply Hr; discriminate).
    repeat split; try discriminate; try lia.
Qed.

Lemma phase_and_round_witness :
  GameState.phase (gameState sample_round_done) <> Selection
  /\ (GameState.phase (gameState sample_round_done) = Waiting
      <-> GameState.currentRound (gameState sample_round_done) = 0)
  /\ 0 <= GameState.currentRound (gameState sample_round_done)
  /\ (GameState.phase (gameState sample_round_done) = Waiting ->
      offerDelays sample_round_done = 0%nat).
Proof.
  apply (phase_and_round sample_round_done).
  apply sample_round_done_reachable.
Defined.


(* ================================================================== *)
(** * What the engine leaves of each player, for any relation *)
(* ================================================================== *)

Section EngineFrame.
Variable R : Player -> Player -> Prop.
Hypothesis R_refl : forall p, R p p.
Hypothesis R_trans : forall p q r, R p q -> R q r -> R p r.
Hypothesis R_points : forall v p, R p (Player.set_points v p).
Hypothesis R_last : forall a r p,
  R p (Player.set_isLastStanding true
         (Player.set_roundDealt r
            (Player.set_dealAmount a (Player.set_hasDealt true p)))).
Hypothesis R_timeout : forall v p, R p (Player.set_timeoutCount v p).
Hypothesis R_deal : forall pts a r p,
  R p (Player.set_points pts
         (Player.set_isLastStanding false
            (Player.set_roundDealt r
               (Player.set_dealAmount a (Player.set_hasDealt true p))))).
Hypothesis R_ready : forall p, R p (Player.set_isReady true p).
Hypothesis R_connected : forall b p, R p (Player.set_isConnected b p).
Hypothesis R_socket : forall s p, R p (Player.set_socketId s p).

Let all_refl := rel_refl R R_refl.
Let all_trans := rel_trans R R_trans.

Lemma any_updatePlayer gs pid f :
  (forall p, R p (f p)) ->
  Forall2 R (GameState.players gs) (GameState.players (updatePlayer gs pid f)).
Proof. intros Hf. cbn. apply updateFirst_Forall2; auto. Qed.

Lemma any_handleTurnTimeout w playerId now random :
  Forall2 R (GameState.players (gameState w))
    (GameState.players (gameState (handleTurnTimeout w playerId now random))).
Proof.
  unfold handleTurnTimeout.
  destruct (negb (isPhase _ _)); [apply all_refl|].
  destruct (GameState.currentTurnPlayerId _); [|apply all_refl].
  destruct (negb _); [apply all_refl|].
  assert (Hupd : Forall2 R (GameState.players (gameState w))
            (GameState.players
               (updatePlayer (gameState w) playerId
                  (fun p => Player.set_timeoutCount
                              (Player.timeoutCount p + 1) p)))).
  { apply any_updatePlayer. intros p. apply R_timeout. }
  destruct (_ =? -1).
  - destruct (_ >=? _); [|exact Hupd].
    eapply all_trans;
      [|apply (rel_triggerBankerOffer R R_refl R_trans R_points R_last)].
    exact Hupd.
  - eapply all_trans;
      [|apply (rel_setCurrentTurn R R_refl R_trans R_points R_last)].
    exact Hupd.
Qed.

Lemma any_applyOfferTimeout gs :
  Forall2 R (GameState.players gs) (GameState.players (applyOfferTimeout gs)).
Proof.
  unfold applyOfferTimeout.
  generalize (GameState.offerEligiblePlayerIds gs) as ids. intros ids.
  revert gs. induction ids as [|x ids IH]; intros gs; [apply all_refl|].
  cbn [fold_left]. eapply all_trans; [|apply IH].
  unfold defaultNoDeal. destruct (_ !! _); [apply all_refl|].
  apply (any_updatePlayer (GameState.set_offerResponses _ gs)).
  intros p. apply R_timeout.
Qed.

Lemma any_handleOfferTimeout w now random :
  Forall2 R (GameState.players (gameState w))
    (GameState.players (gameState (handleOfferTimeout w now random))).
Proof.
  unfold handleOfferTimeout.
  destruct (negb _); [apply all_refl|].
  eapply all_trans;
    [|apply (rel_endOfferAndContinue R R_refl R_trans R_points R_last)].
  apply any_applyOfferTimeout.
Qed.

Lemma any_recordDealResponse gs player accepted :
  Forall2 R (GameState.players gs)
    (GameState.players (recordDealResponse gs player accepted)).
Proof.
  unfold recordDealResponse.
  destruct accepted; [|apply all_refl].
  destruct (GameState.currentOffer _) as [offer|]; [|apply all_refl].
  unfold acceptDeal.
  match goal with
  | |- context [removeFromTurnOrder ?pid ?g] =>
      destruct (removeFromTurnOrder_frame pid g) as (_&_&_&_&_&_& -> &_)
  end.
  assert (Hupd : forall g f,
            (forall p, R p (f p)) ->
            Forall2 R (GameState.players gs)
              (GameState.players
                 (updatePlayer
                    (GameState.set_offerResponses
                       (<[Player.id player := true]>
                          (GameState.offerResponses gs)) gs) g f))).
  { intros g f Hf. cbn. apply updateFirst_Forall2; auto. }
  destruct (findBox _ _) as [box|]; [|apply Hupd; intros p; apply R_deal].
  destruct (negb (Box.isOpened box)); [|apply Hupd; intros p; apply R_deal].
  rewrite eliminateValue_players. cbn [markBoxOpened GameState.players
                                       GameState.set_boxes].
  apply Hupd. intros p. apply R_deal.
Qed.

Lemma any_on_deal_response w playerId accepted now random :
  Forall2 R (GameState.players (gameState w))
    (GameState.players
       (gameState (on_deal_response w playerId accepted now random))).
Proof.
  unfold on_deal_response.
  destruct (negb (isPhase _ _)); [apply all_refl|].
  destruct (getPlayer _ _) as [player|]; [|apply all_refl].
  destruct (_ || _); [apply all_refl|].
  destruct (bool_decide _); [apply all_refl|].
  destruct (negb _); [apply all_refl|].
  destruct (allResponded _); [|apply any_recordDealResponse].
  eapply all_trans;
    [|apply (rel_endOfferAndContinue R R_refl R_trans R_points R_last)].
  apply any_recordDealResponse.
Qed.

Lemma any_on_open_box w playerId boxNumber now random :
  Forall2 R (GameState.players (gameState w))
    (GameState.players (gameState (on_open_box w playerId boxNumber now random))).
Proof.
  unfold on_open_box.
  destruct (negb (isPhase _ _)); [apply all_refl|].
  destruct (negb (isCurrentTurn _ _)); [apply all_refl|].
  destruct (getPlayer _ _) as [player|]; [|apply all_refl].
  destruct (_ || _); [apply all_refl|].
  destruct (_ >=? _); [apply all_refl|].
  destruct (findBox _ _) as [box|]; [|apply all_refl].
  destruct (Box.isOpened box); [apply all_refl|].
  destruct (existsb _ _); [apply all_refl|].
  destruct (_ || _).
  - cbn. rewrite eliminateValue_players. apply all_refl.
  - destruct (negb _).
    + eapply all_trans; [|apply (rel_setCurrentTurn R R_refl R_trans R_points R_last)].
      cbn. rewrite eliminateValue_players. apply all_refl.
    + cbn. rewrite eliminateValue_players. apply all_refl.
Qed.

Lemma any_on_player_ready w playerId :
  Forall2 R (GameState.players (gameState w))
    (GameState.players (gameState (on_player_ready w playerId))).
Proof.
  unfold on_player_ready.
  destruct (getPlayer _ _) as [player|]; [|apply all_refl].
  destruct (_ || _); [apply all_refl|].
  apply any_updatePlayer. intros p. apply R_ready.
Qed.

(** Every event but a join, a box selection and a start of the game. *)
Lemma any_step w now random ev :
  match ev with
  | JoinRoom _ _ _ _ _ | SelectBox _ _ | StartGame _ _ => True
  | _ =>
      Forall2 R (GameState.players (gameState w))
        (GameState.players (gameState (step w now random ev)))
  end.
Proof.
  destruct ev; cbn [step]; try exact I.
  - apply any_updatePlayer. intros p.
    eapply R_trans; [apply R_socket | apply R_connected].
  - apply any_updatePlayer. intros p. apply R_connected.
  - apply any_on_player_ready.
  - rewrite on_set_room_password_players. apply all_refl.
  - apply any_on_open_box.
  - destruct boxNumbers; cbn; [apply all_refl | apply any_on_open_box].
  - apply any_on_deal_response.
  - destruct (turnTimer w); [|apply all_refl].
    apply (any_handleTurnTimeout (clearTurnTimer w)).
  - destruct (offerTimer w); [|apply all_refl].
    apply (any_handleOfferTimeout (clearOfferTimer w)).
  - destruct (offerDelays w); [apply all_refl|].
    apply (rel_triggerBankerOffer R R_refl R_trans R_points R_last
             (mkWorld _ _ _ _)).
Qed.

End EngineFrame.

(* ================================================================== *)
(** * The box value of a seat *)
(* ================================================================== *)

Lemma settled_refl p : settled p p.
Proof. unfold settled. auto. Qed.

Lemma settled_trans p q r : settled p q -> settled q r -> settled p r.
Proof.
  unfold settled. intros (?&?&?&?&?) (?&?&?&?&?).
  repeat split; try congruence; auto.
Qed.

Lemma settled_step w now random ev :
  match ev with
  | JoinRoom _ _ _ _ _ | SelectBox _ _ | StartGame _ _ => True
  | _ =>
      Forall2 settled (GameState.players (gameState w))
        (GameState.players (gameState (step w now random ev)))
  end.
Proof.
  apply (any_step settled);
    first [apply settled_trans | intros; unfold settled; cbn; auto; fail].
Qed.

Lemma settled_setCurrentTurn w now random :
  Forall2 settled (GameState.players (gameState w))
    (GameState.players (gameState (setCurrentTurn w now random))).
Proof.
  apply rel_setCurrentTurn;
    first [apply settled_trans | intros; unfold settled; cbn; auto; fail].
Qed.

(** *** Boxes and phase under the engine *)

Lemma ek_refl gs : engineKept gs gs.
Proof. split; auto. Qed.

Lemma ek_trans gs1 gs2 gs3 :
  engineKept gs1 gs2 -> engineKept gs2 gs3 -> engineKept gs1 gs3.
Proof. intros [Hb1 Hp1] [Hb2 Hp2]. split; [congruence | auto]. Qed.

Lemma ek_same gs gs' :
  GameState.boxes gs' = GameState.boxes gs ->
  GameState.phase gs' = GameState.phase gs \/ GameState.phase gs' <> Waiting ->
  engineKept gs gs'.
Proof.
  intros Hb Hp. split; [now rewrite Hb|].
  intros Hw. destruct Hp as [-> | Hp]; auto.
Qed.

Lemma ek_markBoxOpened n pid gs : engineKept gs (markBoxOpened n pid gs).
Proof.
  split; [|auto]. cbn. now apply updateFirst_map.
Qed.

Lemma ek_eliminateValue v gs : engineKept gs (eliminateValue v gs).
Proof.
  destruct (eliminateValue_frame v gs) as (Hp & _ & _ & _ & _ & _ & _ & _ & Hb).
  apply ek_same; auto.
Qed.

Lemma ek_finishGame w now :
  engineKept (gameState w) (gameState (finishGame w now)).
Proof. apply ek_same; [reflexivity | right; discriminate]. Qed.

Lemma ek_finishLastPlayer w player now :
  engineKept (gameState w) (gameState (finishLastPlayer w player now)).
Proof.
  unfold finishLastPlayer.
  eapply ek_trans; [|apply ek_finishGame]. cbn [gameState withState].
  destruct (findBox _ _) as [box|].
  - eapply ek_trans; [|apply ek_eliminateValue].
    eapply ek_trans; [|apply ek_markBoxOpened].
    apply ek_same; auto.
  - apply ek_same; auto.
Qed.

Lemma ek_triggerBankerOffer w now random :
  engineKept (gameState w) (gameState (triggerBankerOffer w now random)).
Proof.
  unfold triggerBankerOffer. cbn [gameState clearOfferTimer clearTurnTimer].
  destruct (getLastActivePlayer _);
    [apply (ek_finishLastPlayer (clearOfferTimer (clearTurnTimer w)))|].
  destruct (checkGameEnd _);
    [apply (ek_finishGame (clearOfferTimer (clearTurnTimer w)))|].
  apply ek_same; [reflexivity | right; discriminate].
Qed.

Lemma ek_setCurrentTurn w now random :
  engineKept (gameState w) (gameState (setCurrentTurn w now random)).
Proof.
  unfold setCurrentTurn.
  destruct (negb (isPhase _ _)); [apply ek_refl|].
  destruct (negb (hasOpenableBoxes _)); [apply ek_triggerBankerOffer|].
  destruct (_ =? -1); [apply ek_refl|].
  destruct (arrayGet _ _); apply ek_same; auto.
Qed.

Lemma ek_startNewRound w now random :
  engineKept (gameState w) (gameState (startNewRound w now random)).
Proof.
  unfold startNewRound. cbn [gameState clearOfferTimer clearTurnTimer].
  destruct (getLastActivePlayer _);
    [apply (ek_finishLastPlayer (clearOfferTimer (clearTurnTimer w)))|].
  eapply ek_trans; [|apply ek_setCurrentTurn].
  apply ek_same; [reflexivity | right; discriminate].
Qed.

Lemma ek_endOfferAndContinue w now random :
  engineKept (gameState w) (gameState (endOfferAndContinue w now random)).
Proof.
  unfold endOfferAndContinue. cbn [gameState clearOfferTimer].
  destruct (checkGameEnd _); [apply (ek_finishGame (clearOfferTimer w))|].
  destruct (getLastActivePlayer _);
    [apply (ek_finishLastPlayer (clearOfferTimer w))|].
  apply (ek_startNewRound (clearOfferTimer w)).
Qed.

Lemma ek_handleTurnTimeout w playerId now random :
  engineKept (gameState w)
    (gameState (handleTurnTimeout w playerId now random)).
Proof.
  unfold handleTurnTimeout.
  destruct (negb (isPhase _ _)); [apply ek_refl|].
  destruct (GameState.currentTurnPlayerId _); [|apply ek_refl].
  destruct (negb _); [apply ek_refl|].
  destruct (_ =? -1).
  - destruct (_ >=? _); [|apply ek_same; auto].
    eapply ek_trans; [|apply ek_triggerBankerOffer]. apply ek_same; auto.
  - eapply ek_trans; [|apply ek_setCurrentTurn]. apply ek_same; auto.
Qed.

Lemma ek_handleOfferTimeout w now random :
  engineKept (gameState w) (gameState (handleOfferTimeout w now random)).
Proof.
  unfold handleOfferTimeout.
  destruct (negb _); [apply ek_refl|].
  eapply ek_trans; [|apply ek_endOfferAndContinue].
  cbn [gameState withState].
  destruct (fold_defaultNoDeal_frame
              (GameState.offerEligiblePlayerIds (gameState w)) (gameState w))
    as (Hp & _ & _ & _ & _ & _ & Hb & _).
  apply ek_same; auto.
Qed.

Lemma ek_recordDealResponse gs player accepted :
  engineKept gs (recordDealResponse gs player accepted).
Proof.
  unfold recordDealResponse.
  destruct accepted; [|apply ek_same; auto].
  destruct (GameState.currentOffer _) as [offer|]; [|apply ek_same; auto].
  unfold acceptDeal.
  match goal with
  | |- context [removeFromTurnOrder ?pid ?g] =>
      destruct (removeFromTurnOrder_frame pid g)
        as (Hp & _ & _ & _ & _ & _ & _ & Hb);
      eapply ek_trans; [|apply ek_same; [exact Hb | left; exact Hp]]
  end.
  destruct (findBox _ _) as [box|]; [|apply ek_same; auto].
  destruct (negb (Box.isOpened box)); [|apply ek_same; auto].
  eapply ek_trans; [|apply ek_eliminateValue].
  eapply ek_trans; [|apply ek_markBoxOpened].
  apply ek_same; auto.
Qed.

Lemma ek_on_deal_response w playerId accepted now random :
  engineKept (gameState w)
    (gameState (on_deal_response w playerId accepted now random)).
Proof.
  unfold on_deal_response.
  destruct (negb (isPhase _ _)); [apply ek_refl|].
  destruct (getPlayer _ _) as [player|]; [|apply ek_refl].
  destruct (_ || _); [apply ek_refl|].
  destruct (bool_decide _); [apply ek_refl|].
  destruct (negb _); [apply ek_refl|].
  destruct (allResponded _); [|apply ek_recordDealResponse].
  eapply ek_trans; [|apply ek_endOfferAndContinue].
  apply ek_recordDealResponse.
Qed.

Lemma ek_on_open_box w playerId boxNumber now random :
  engineKept (gameState w)
    (gameState (on_open_box w playerId boxNumber now random)).
Proof.
  unfold on_open_box.
  destruct (negb (isPhase _ _)); [apply ek_refl|].
  destruct (negb (isCurrentTurn _ _)); [apply ek_refl|].
  destruct (getPlayer _ _) as [player|]; [|apply ek_refl].
  destruct (_ || _); [apply ek_refl|].
  destruct (_ >=? _); [apply ek_refl|].
  destruct (findBox _ _) as [box|]; [|apply ek_refl].
  destruct (Box.isOpened box); [apply ek_refl|].
  destruct (existsb _ _); [apply ek_refl|].
  assert (Hopen : engineKept (gameState w)
            (eliminateValue (Box.value box)
               (markBoxOpened boxNumber playerId (gameState w)))).
  { eapply ek_trans; [apply ek_markBoxOpened | apply ek_eliminateValue]. }
  destruct (_ || _).
  - eapply ek_trans; [exact Hopen|]. apply ek_same; auto.
  - destruct (negb _).
    + eapply ek_trans; [|apply ek_setCurrentTurn].
      eapply ek_trans; [exact Hopen|]. apply ek_same; auto.
    + eapply ek_trans; [exact Hopen|]. apply ek_same; auto.
Qed.

Lemma ek_on_start_game w playerId random0 now random :
  engineKept (gameState w)
    (gameState (on_start_game w playerId random0 now random)).
Proof.
  unfold on_start_game.
  destruct (negb _); [apply ek_refl|].
  destruct (negb _); [apply ek_refl|].
  eapply ek_trans; [|apply ek_setCurrentTurn].
  apply ek_same; [reflexivity | right; discriminate].
Qed.

Lemma ek_step w now random ev :
  engineKept (gameState w) (gameState (step w now random ev)).
Proof.
  destruct ev; cbn [step].
  - destruct (turns_on_join_room w playerId socketId playerName password
                asSpectator) as (_ & _ & Hp & _).
    apply ek_same; [|left; exact Hp].
    unfold on_join_room. destruct (isEmptyString _); [reflexivity|].
    destruct (joinRoom _ _ _ _ _ _) as [|gs'] eqn:Hj; [reflexivity|].
    unfold joinRoom in Hj.
    repeat match type of Hj with
           | (if ?c then _ else _) = _ => destruct c; [discriminate|]
           end.
    now injection Hj as <-.
  - apply ek_same; auto.
  - apply ek_same; auto.
  - destruct (turns_on_select_box w playerId boxNumber) as (_ & _ & Hp & _).
    apply ek_same; [|left; exact Hp].
    unfold on_select_box.
    destruct (getPlayer _ _) as [player|]; [|reflexivity].
    destruct (negb (isRolePlayer player)); [reflexivity|].
    destruct (_ && _); [reflexivity|].
    destruct (Player.isReady player); [reflexivity|].
    destruct (_ || _); [reflexivity|].
    now destruct (existsb _ _).
  - destruct (turns_on_player_ready w playerId) as (_ & _ & Hp & _).
    apply ek_same; [|left; exact Hp].
    unfold on_player_ready.
    destruct (getPlayer _ _) as [player|]; [|reflexivity].
    now destruct (_ || _).
  - apply ek_on_start_game.
  - destruct (turns_on_set_room_password w playerId password)
      as (_ & _ & Hp & _).
    apply ek_same; [|left; exact Hp].
    unfold on_set_room_password.
    destruct (negb _); [reflexivity|]. now destruct (negb _).
  - apply ek_on_open_box.
  - destruct boxNumbers; cbn; [apply ek_refl | apply ek_on_open_box].
  - apply ek_on_deal_response.
  - destruct (turnTimer w); [|apply ek_refl].
    apply (ek_handleTurnTimeout (clearTurnTimer w)).
  - destruct (offerTimer w); [|apply ek_refl].
    apply (ek_handleOfferTimeout (clearOfferTimer w)).
  - destruct (offerDelays w); [apply ek_refl|].
    apply (ek_triggerBankerOffer (mkWorld _ _ _ _)).
Qed.

(** An event other than the start of the game leaves a waiting room
    waiting. *)
Lemma step_stays_waiting w now random ev :
  phaseOk w -> GameState.phase (gameState w) = Waiting ->
  match ev with
  | StartGame _ _ => True
  | _ => GameState.phase (gameState (step w now random ev)) = Waiting
  end.
Proof.
  intros Hok Hw.
  assert (Hplaying : isPhase Playing (gameState w) = false).
  { apply isPhase_false. congruence. }
  assert (Hoffer : isPhase Offer (gameState w) = false).
  { apply isPhase_false. congruence. }
  destruct ev; cbn [step]; try exact I.
  - destruct (turns_on_join_room w playerId socketId playerName password
                asSpectator) as (_ & _ & Hp & _). congruence.
  - exact Hw.
  - exact Hw.
  - destruct (turns_on_select_box w playerId boxNumber) as (_ & _ & Hp & _).
    congruence.
  - destruct (turns_on_player_ready w playerId) as (_ & _ & Hp & _).
    congruence.
  - destruct (turns_on_set_room_password w playerId password)
      as (_ & _ & Hp & _). congruence.
  - unfold on_open_box. now rewrite Hplaying.
  - destruct boxNumbers; cbn; [exact Hw|].
    unfold on_open_box. now rewrite Hplaying.
  - unfold on_deal_response. now rewrite Hoffer.
  - destruct (turnTimer w); [|exact Hw].
    unfold handleTurnTimeout. cbn [gameState clearTurnTimer].
    now rewrite Hplaying.
  - destruct (offerTimer w); [|exact Hw].
    unfold handleOfferTimeout. cbn [gameState clearOfferTimer].
    now rewrite Hoffer.
  - destruct (ph_waiting _ Hok Hw) as [-> _]. exact Hw.
Qed.

(** *** The invariant *)

Lemma settled_seated l l' :
  Forall2 settled l l' ->
  length (List.filter isRolePlayer l') = length (List.filter isRolePlayer l).
Proof.
  induction 1 as [|p p' l l' Hs _ IH]; [reflexivity|].
  cbn [List.filter].
  assert (isRolePlayer p' = isRolePlayer p) as ->.
  { unfold isRolePlayer. destruct Hs as (_ & -> & _). reflexivity. }
  destruct (isRolePlayer p); cbn [length]; now rewrite IH.
Qed.

Lemma seatOk_settled gs gs' p p' :
  seatOk gs p -> settled p p' -> engineKept gs gs' ->
  (GameState.phase gs = Waiting -> GameState.phase gs' = Waiting) ->
  seatOk gs' p'.
Proof.
  intros (Hval & Hwait & Hrun) (_ & Hrole & Hbn & Hbv & Hready) [Hboxes Hph] Hstay.
  unfold seatOk, boxHolds, isRolePlayer. rewrite Hrole, Hbn, Hbv, Hboxes.
  split; [exact Hval|]. split.
  - intros Hw'. apply Hwait.
    destruct (GameState.phase gs) eqn:E; try reflexivity;
      exfalso; apply Hph; [discriminate | exact Hw' | discriminate | exact Hw'
                          | discriminate | exact Hw' | discriminate | exact Hw'].
  - intros Hnw Hseat.
    assert (Hnw0 : GameState.phase gs <> Waiting) by (intros H; auto).
    destruct (Hrun Hnw0 Hseat) as [Hr Hbox]. split; auto.
Qed.

Lemma seatsOk_frame gs gs' :
  seatsOk gs ->
  Forall2 settled (GameState.players gs) (GameState.players gs') ->
  engineKept gs gs' ->
  (GameState.phase gs = Waiting -> GameState.phase gs' = Waiting) ->
  seatsOk gs'.
Proof.
  intros [Hall Hmin] Hset Hkept Hstay. split.
  - clear Hmin. revert Hall.
    induction Hset as [|p p' l l' Hs _ IH]; intros Hall; [constructor|].
    inversion Hall; subst. constructor; [|now apply IH].
    now apply (seatOk_settled gs gs' p).
  - intros Hnw. unfold seatedPlayers in *.
    rewrite (settled_seated _ _ Hset). apply Hmin. intros H. auto.
Qed.

Lemma seatsOk_setCurrentTurn w now random :
  seatsOk (gameState w) -> GameState.phase (gameState w) <> Waiting ->
  seatsOk (gameState (setCurrentTurn w now random)).
Proof.
  intros Hok Hnw. apply (seatsOk_frame (gameState w)); auto.
  - apply settled_setCurrentTurn.
  - apply ek_setCurrentTurn.
  - intros H. contradiction.
Qed.

Lemma seatsOk_on_join_room w playerId socketId playerName password asSpectator :
  seatsOk (gameState w) -> getPlayer (gameState w) playerId = None ->
  seatsOk
    (gameState (on_join_room w playerId socketId playerName password asSpectator)).
Proof.
  intros Hok Hfresh.
  destruct (turns_on_join_room w playerId socketId playerName password
              asSpectator) as (_ & _ & Hp & _).
  pose proof (ek_step w 0 0%Q
                (JoinRoom playerId socketId playerName password asSpectator))
    as Hkept. cbn [step] in Hkept.
  destruct (on_join_room_players w playerId socketId playerName password
              asSpectator Hfresh)
    as [Heq | (new & Heq & _ & Hrole & Hbn & _ & _ & Hbv & _ & Hseat)];
    cbv zeta in Heq.
  - apply (seatsOk_frame (gameState w)); auto; [|congruence].
    rewrite Heq. apply rel_refl, settled_refl.
  - destruct Hok as [Hall Hmin]. split.
    + rewrite Heq. apply Forall_app. split.
      * eapply List.Forall_impl; [|exact Hall]. intros p Hp0.
        apply (seatOk_settled (gameState w) _ p p); auto;
          [apply settled_refl | congruence].
      * constructor; [|constructor].
        unfold seatOk. rewrite Hbv, Hbn. split; [discriminate|].
        split; [reflexivity|].
        intros Hnw Hr. exfalso. unfold isRolePlayer in Hr. rewrite Hrole in Hr.
        destruct asSpectator; [discriminate|].
        destruct (Hseat eq_refl) as [Hw _]. congruence.
    + intros Hnw. rewrite Hp in Hnw. specialize (Hmin Hnw).
      unfold seatedPlayers in *. rewrite Heq, List.filter_app, length_app. lia.
Qed.

Lemma seatsOk_on_select_box w playerId boxNumber :
  seatsOk (gameState w) -> GameState.phase (gameState w) <> Selection ->
  seatsOk (gameState (on_select_box w playerId boxNumber)).
Proof.
  intros Hok Hns. unfold on_select_box.
  destruct (getPlayer _ _) as [player|]; [|exact Hok].
  destruct (negb (isRolePlayer player)); [exact Hok|].
  destruct (negb (isPhase Waiting _) && negb (isPhase Selection _)) eqn:Hph;
    [exact Hok|].
  destruct (Player.isReady player); [exact Hok|].
  destruct (_ || _); [exact Hok|].
  destruct (existsb _ _); [exact Hok|].
  assert (Hw : GameState.phase (gameState w) = Waiting).
  { destruct (isPhase Waiting (gameState w)) eqn:E; [now apply isPhase_true|].
    destruct (isPhase Selection (gameState w)) eqn:E'; [|discriminate].
    apply isPhase_true in E'. contradiction. }
  destruct Hok as [Hall Hmin]. split; [|intros H; cbn in H; contradiction].
  cbn [gameState withState updatePlayer GameState.players
       GameState.set_players].
  assert (Hnone : Forall (fun p => Player.boxValue p = None)
                    (GameState.players (gameState w))).
  { eapply List.Forall_impl; [|exact Hall]. intros p (_ & H & _). auto. }
  assert (Hnone' : Forall (fun p => Player.boxValue p = None)
            (updateFirst (hasId playerId) (Player.set_boxNumber (Some boxNumber))
               (GameState.players (gameState w)))).
  { clear Hall. induction Hnone as [|p l Hp Hl IH]; cbn; [constructor|].
    destruct (hasId playerId p); constructor; auto. }
  eapply List.Forall_impl; [|exact Hnone']. intros p Hp.
  unfold seatOk. rewrite Hp. split; [discriminate|]. split; [reflexivity|].
  intros H. cbn in H. contradiction.
Qed.

Lemma allPlayersReady_spec gs :
  allPlayersReady gs = true <->
  MIN_PLAYERS_TO_START <= Z.of_nat (length (seatedPlayers gs))
  /\ forall p, In p (GameState.players gs) -> isRolePlayer p = true ->
       Player.isReady p = true /\ hasBoxNumber p = true.
Proof.
  unfold allPlayersReady, seatedPlayers.
  rewrite andb_true_iff, forallb_forall. split.
  - intros [Hn Hall]. split; [lia|].
    intros p Hin Hr. apply andb_true_iff. apply Hall.
    apply filter_In. now split.
  - intros [Hn Hall]. split; [lia|].
    intros p Hp. apply filter_In in Hp as [Hin Hr].
    apply andb_true_iff. now apply Hall.
Qed.

Lemma seatsOk_on_start_game w playerId random0 now random :
  seatsOk (gameState w) -> wellFormed (gameState w) ->
  seatsOk (gameState (on_start_game w playerId random0 now random)).
Proof.
  intros Hok Hwf. unfold on_start_game.
  destruct (negb _); [exact Hok|].
  destruct (allPlayersReady (gameState w)) eqn:Hready; cbn [negb]; [|exact Hok].
  apply allPlayersReady_spec in Hready as [Hmin Hready].
  apply seatsOk_setCurrentTurn; [|cbn; discriminate].
  set (gs := gameState w) in *. clearbody gs.
  destruct Hok as [Hall _]. split.
  - cbn [gameState withState GameState.players assignBoxValues
         GameState.set_players GameState.set_offerResponses
         GameState.set_offerEligiblePlayerIds GameState.set_currentTurnIndex
         GameState.set_turnOrder GameState.set_startedAt
         GameState.set_currentRound GameState.set_phase].
    apply List.Forall_forall. intros p' Hin'.
    apply in_map_iff in Hin' as (p & <- & Hin).
    rewrite List.Forall_forall in Hall. destruct (Hall p Hin) as (Hval & _ & _).
    destruct (hasBoxNumber p && isRolePlayer p) eqn:Hc.
    + apply andb_true_iff in Hc as [Hbox Hrole].
      unfold hasBoxNumber in Hbox.
      destruct (Player.boxNumber p) as [n|] eqn:Hbn; [|discriminate].
      destruct (wf_box_owner _ Hwf p n Hin Hbn) as [Hrange _].
      destruct (wf_findBox _ n Hwf Hrange) as (box & Hfind).
      rewrite Hfind.
      destruct (findBox_In gs n box Hfind) as [Hinb Hnum].
      unfold seatOk, boxHolds. cbn.
      split; [|split].
      * intros v [= <-]. exists n. split; [exact Hbn|].
        apply in_map_iff. exists box. split; [now rewrite Hnum | exact Hinb].
      * discriminate.
      * intros _ _. destruct (Hready p Hin Hrole) as [Hr _].
        split; [exact Hr|]. eauto.
    + unfold seatOk, boxHolds. cbn. split; [exact Hval|].
      split; [discriminate|].
      intros _ Hrole. destruct (Hready p Hin Hrole) as [_ Hbox].
      rewrite Hbox, Hrole in Hc. discriminate.
  - intros _. unfold seatedPlayers in *. cbn.
    clear - Hmin. revert Hmin. generalize MIN_PLAYERS_TO_START.
    induction (GameState.players gs) as [|p l IH]; intros z Hz; [exact Hz|].
    cbn [map List.filter] in Hz |- *.
    match goal with
    | |- context [isRolePlayer ?q] =>
        assert (isRolePlayer q = isRolePlayer p) as ->
    end.
    { destruct (_ && _); [|reflexivity].
      destruct (findBox _ _); reflexivity. }
    destruct (isRolePlayer p); [|now apply IH].
    cbn [length] in Hz |- *.
    specialize (IH (z - 1)). lia.
Qed.

Lemma st_createRoom roomCode playerId random now hostSocketId hostName :
  seatsOk
    (gameState (createRoom roomCode playerId random now hostSocketId hostName)).
Proof.
  split.
  - constructor; [|constructor]. unfold seatOk. cbn.
    split; [discriminate|]. split; [reflexivity|]. intros H. now contradiction H.
  - intros H. now contradiction H.
Qed.

Lemma st_step w now random ev :
  seatsOk (gameState w) -> phaseOk w -> wellFormed (gameState w) ->
  admissible w random ev ->
  seatsOk (gameState (step w now random ev)).
Proof.
  intros Hok Hph Hwf [_ Hadm].
  pose proof (settled_step w now random ev) as Hs.
  pose proof (ek_step w now random ev) as Hk.
  pose proof (step_stays_waiting w now random ev Hph) as Hw.
  destruct ev;
    try (apply (seatsOk_frame (gameState w)); [exact Hok | exact Hs | exact Hk
                                              | exact Hw]).
  - now apply seatsOk_on_join_room.
  - apply seatsOk_on_select_box; [exact Hok | apply (ph_never_selection _ Hph)].
  - now apply seatsOk_on_start_game.
Qed.

Lemma reachable_seatsOk w : reachable w -> seatsOk (gameState w).
Proof.
  induction 1 as [| w now random ev Hreach IH Hadm].
  - apply st_createRoom.
  - apply st_step; auto.
    + now apply reachable_phaseOk.
    + now apply reachable_wellFormed.
Qed.


(* ================================================================== *)
(** * The seats of a running game *)
(* ================================================================== *)

Lemma find_number_unique (boxes : list Box) b :
  List.NoDup (map Box.number boxes) -> In b boxes ->
  List.find (fun b' => Box.number b' =? Box.number b) boxes = Some b.
Proof.
  induction boxes as [|b0 boxes IH]; cbn [map List.find]; [contradiction|].
  intros Hnd [->|Hin]; [now rewrite Z.eqb_refl|].
  inversion Hnd as [|? ? Hnotin Hnd']; subst.
  destruct (Z.eqb_spec (Box.number b0) (Box.number b)) as [E|_]; [|auto].
  exfalso. apply Hnotin. rewrite E. now apply in_map.
Qed.

Lemma wf_numbers_NoDup gs :
  wellFormed gs -> List.NoDup (map Box.number (GameState.boxes gs)).
Proof.
  intros Hwf. rewrite (wf_box_numbers _ Hwf).
  apply Finite.Injective_map_NoDup; [|apply seq_NoDup].
  intros x y. apply Nat2Z.inj.
Qed.

Lemma boxHolds_findBox gs n v :
  wellFormed gs -> boxHolds gs n v ->
  exists box, findBox gs (Some n) = Some box /\ Box.value box = v.
Proof.
  intros Hwf Hin. apply in_map_iff in Hin as (box & [= <- <-] & Hin).
  exists box. split; [|reflexivity].
  apply find_number_unique; [now apply wf_numbers_NoDup | exact Hin].
Qed.

(** X27: the box value kept in a player's record is the value hidden in
    that player's own box: it is absent in the lobby, and from the start
    of the game on every seated player is ready, owns a box and carries
    its value. *)
Theorem box_value_is_own_box w p :
  reachable w -> In p (GameState.players (gameState w)) ->
  (forall v, Player.boxValue p = Some v ->
     exists n box, Player.boxNumber p = Some n
       /\ findBox (gameState w) (Some n) = Some box /\ Box.value box = v)
  /\ (GameState.phase (gameState w) = Waiting -> Player.boxValue p = None)
  /\ (GameState.phase (gameState w) <> Waiting -> isRolePlayer p = true ->
      Player.isReady p = true /\ hasBoxNumber p = true
      /\ Player.boxValue p <> None).
Proof.
  intros Hreach Hin.
  destruct (reachable_seatsOk w Hreach) as [Hall _].
  rewrite List.Forall_forall in Hall.
  destruct (Hall p Hin) as (Hval & Hwait & Hrun).
  split; [|split; [exact Hwait|]].
  - intros v Hv. destruct (Hval v Hv) as (n & Hn & Hholds).
    destruct (boxHolds_findBox _ n v (reachable_wellFormed w Hreach) Hholds)
      as (box & Hfind & Hbv).
    exists n, box. auto.
  - intros Hnw Hrole. destruct (Hrun Hnw Hrole) as (Hr & n & v & Hn & Hv).
    split; [exact Hr|]. unfold hasBoxNumber. rewrite Hn, Hv.
    split; [reflexivity | discriminate].
Qed.

Lemma box_value_is_own_box_witness :
  (forall v, Player.boxValue sample_player_K = Some v ->
     exists n box, Player.boxNumber sample_player_K = Some n
       /\ findBox (gameState sample_started) (Some n) = Some box
       /\ Box.value box = v)
  /\ (GameState.phase (gameState sample_started) = Waiting ->
      Player.boxValue sample_player_K = None)
  /\ (GameState.phase (gameState sample_started) <> Waiting ->
      isRolePlayer sample_player_K = true ->
      Player.isReady sample_player_K = true
      /\ hasBoxNumber sample_player_K = true
      /\ Player.boxValue sample_player_K <> None).
Proof.
  apply (box_value_is_own_box sample_started sample_player_K).
  - apply sample_started_reachable.
  - vm_compute. right. right. left. reflexivity.
Defined.

(** *** start-game sent again *)

Lemma started_finishGame w now :
  let gs' := gameState (finishGame w now) in
  GameState.currentRound gs' = GameState.currentRound (gameState w)
  /\ GameState.startedAt gs' = GameState.startedAt (gameState w)
  /\ GameState.turnOrder gs' = GameState.turnOrder (gameState w).
Proof. cbn. auto. Qed.

Lemma started_eliminateValue v gs :
  let gs' := eliminateValue v gs in
  GameState.currentRound gs' = GameState.currentRound gs
  /\ GameState.startedAt gs' = GameState.startedAt gs
  /\ GameState.turnOrder gs' = GameState.turnOrder gs.
Proof. unfold eliminateValue. destruct (_ >? -1); cbn; auto. Qed.

Lemma started_finishLastPlayer w player now :
  let gs' := gameState (finishLastPlayer w player now) in
  GameState.currentRound gs' = GameState.currentRound (gameState w)
  /\ GameState.startedAt gs' = GameState.startedAt (gameState w)
  /\ GameState.turnOrder gs' = GameState.turnOrder (gameState w).
Proof.
  unfold finishLastPlayer. cbv zeta.
  match goal with
  | |- context [finishGame (withState w ?g) now] =>
      destruct (started_finishGame (withState w g) now) as (-> & -> & ->);
      cbn [gameState withState];
      assert (H : GameState.currentRound g = GameState.currentRound (gameState w)
                  /\ GameState.startedAt g = GameState.startedAt (gameState w)
                  /\ GameState.turnOrder g = GameState.turnOrder (gameState w))
  end; [|exact H].
  destruct (findBox _ _); [|cbn; auto].
  match goal with
  | |- context [eliminateValue ?v ?g] =>
      destruct (started_eliminateValue v g) as (-> & -> & ->)
  end. cbn. auto.
Qed.

Lemma started_triggerBankerOffer w now random :
  let gs' := gameState (triggerBankerOffer w now random) in
  GameState.currentRound gs' = GameState.currentRound (gameState w)
  /\ GameState.startedAt gs' = GameState.startedAt (gameState w)
  /\ GameState.turnOrder gs' = GameState.turnOrder (gameState w).
Proof.
  unfold triggerBankerOffer. cbn [gameState clearOfferTimer clearTurnTimer].
  destruct (getLastActivePlayer _);
    [apply (started_finishLastPlayer (clearOfferTimer (clearTurnTimer w)))|].
  destruct (checkGameEnd _);
    [apply (started_finishGame (clearOfferTimer (clearTurnTimer w)))|].
  cbn. auto.
Qed.

Lemma started_setCurrentTurn w now random :
  let gs' := gameState (setCurrentTurn w now random) in
  GameState.currentRound gs' = GameState.currentRound (gameState w)
  /\ GameState.startedAt gs' = GameState.startedAt (gameState w)
  /\ GameState.turnOrder gs' = GameState.turnOrder (gameState w).
Proof.
  unfold setCurrentTurn.
  destruct (negb (isPhase _ _)); [cbn; auto|].
  destruct (negb (hasOpenableBoxes _)); [apply started_triggerBankerOffer|].
  destruct (_ =? -1); [cbn; auto|].
  destruct (arrayGet _ _); cbn; auto.
Qed.

Lemma seatsOk_allPlayersReady gs :
  seatsOk gs -> GameState.phase gs <> Waiting -> allPlayersReady gs = true.
Proof.
  intros [Hall Hmin] Hnw. apply allPlayersReady_spec.
  split; [now apply Hmin|].
  intros p Hin Hrole. rewrite List.Forall_forall in Hall.
  destruct (Hall p Hin) as (_ & _ & Hrun).
  destruct (Hrun Hnw Hrole) as (Hr & n & v & Hn & _).
  split; [exact Hr|]. unfold hasBoxNumber. now rewrite Hn.
Qed.

(** X28: start-game has no test of the phase. Once a game has left the
    lobby every seated player is ready with a box, so the host's
    start-game is accepted again at any later moment: the game is back in
    round 1 with a new start time, and the turn order lists every
    contestant anew in joining order, those who have dealt included. *)
Theorem start_game_again w playerId random0 now random :
  reachable w -> GameState.phase (gameState w) <> Waiting ->
  GameState.hostId (gameState w) = playerId ->
  allPlayersReady (gameState w) = true
  /\ GameState.currentRound
       (gameState (on_start_game w playerId random0 now random)) = 1
  /\ GameState.startedAt
       (gameState (on_start_game w playerId random0 now random)) = Some now
  /\ GameState.turnOrder
       (gameState (on_start_game w playerId random0 now random))
     = map Player.id
         (List.filter isContestant (GameState.players (gameState w))).
Proof.
  intros Hreach Hnw Hhost.
  assert (Hready : allPlayersReady (gameState w) = true).
  { apply seatsOk_allPlayersReady; [now apply reachable_seatsOk | exact Hnw]. }
  split; [exact Hready|].
  unfold on_start_game. cbv zeta.
  rewrite Hhost, String.eqb_refl, Hready. cbn [negb].
  match goal with
  | |- context [setCurrentTurn ?w0 now random] =>
      destruct (started_setCurrentTurn w0 now random) as (-> & -> & ->)
  end.
  cbn. auto.
Qed.

Lemma start_game_again_witness :
  allPlayersReady (gameState sample_offer) = true
  /\ GameState.currentRound
       (gameState (on_start_game sample_offer "H" 0%Q 2000 0.5%Q)) = 1
  /\ GameState.startedAt
       (gameState (on_start_game sample_offer "H" 0%Q 2000 0.5%Q)) = Some 2000
  /\ GameState.turnOrder
       (gameState (on_start_game sample_offer "H" 0%Q 2000 0.5%Q))
     = map Player.id
         (List.filter isContestant (GameState.players (gameState sample_offer))).
Proof.
  apply (start_game_again sample_offer "H" 0%Q 2000 0.5%Q).
  - apply sample_offer_reachable.
  - vm_compute. discriminate.
  - vm_compute. reflexivity.
Defined.


(* ================================================================== *)
(** * Points and deal amounts are proper numbers *)
(* ================================================================== *)

Lemma calculatePoints_nonneg w b r l h t :
  0 <= calculatePoints w b r l h t.
Proof. unfold calculatePoints. cbv zeta. apply Z.le_max_r. Qed.

Lemma scoreOk_sameScore p p' : sameScore p p' -> scoreOk p -> scoreOk p'.
Proof.
  intros (Hp & Hd & Hh & Hr). unfold scoreOk, isRolePlayer.
  now rewrite Hp, Hd, Hh, Hr.
Qed.

Lemma sameScore_refl p : sameScore p p.
Proof. unfold sameScore. auto. Qed.

Lemma sameScore_trans p q r : sameScore p q -> sameScore q r -> sameScore p r.
Proof.
  unfold sameScore. intros (-> & -> & -> & ->) (-> & -> & -> & ->). auto.
Qed.

Lemma scoresOk_same l l' :
  Forall2 sameScore l l' -> Forall scoreOk l -> Forall scoreOk l'.
Proof.
  induction 1 as [|p p' l l' Hs _ IH]; intros Hall; [constructor|].
  inversion Hall; subst. constructor; [|now apply IH].
  now apply (scoreOk_sameScore p).
Qed.

Lemma scoreOk_points n p :
  0 <= n -> scoreOk p -> scoreOk (Player.set_points (Fin n) p).
Proof.
  intros Hn (_ & Hd & Hh & Hr). unfold scoreOk. cbn.
  split; [eauto|]. auto.
Qed.

Lemma scoreOk_last v r p :
  (0 <= v)%Q -> scoreOk p ->
  scoreOk (Player.set_isLastStanding true
             (Player.set_roundDealt r
                (Player.set_dealAmount (Some (Fin v))
                   (Player.set_hasDealt true p)))).
Proof.
  intros Hv (Hp & _). unfold scoreOk, soundOffer. cbn.
  split; [exact Hp|]. split; [right; eauto|]. split; [reflexivity|].
  intros _ _. discriminate.
Qed.

Lemma scoreOk_deal n q r p :
  0 <= n -> (0 <= q)%Q -> scoreOk p ->
  scoreOk (Player.set_points (Fin n)
             (Player.set_isLastStanding false
                (Player.set_roundDealt r
                   (Player.set_dealAmount (Some (Fin q))
                      (Player.set_hasDealt true p))))).
Proof.
  intros Hn Hq _. unfold scoreOk, soundOffer. cbn.
  split; [eauto|]. split; [right; eauto|]. split; [reflexivity|].
  intros _ _. discriminate.
Qed.

Lemma updateFirst_Forall {A} (P : A -> Prop) test f (l : list A) :
  (forall x, P x -> P (f x)) -> Forall P l -> Forall P (updateFirst test f l).
Proof.
  intros Hf. induction 1 as [|x l Hx Hl IH]; cbn; [constructor|].
  destruct (test x); constructor; auto.
Qed.

Lemma sc_finishGame w now :
  scoresOk (gameState w) -> scoresOk (gameState (finishGame w now)).
Proof.
  unfold scoresOk, finishGame.
  cbn [gameState withState clearOfferTimer clearTurnTimer GameState.players
       GameState.set_offerResponses GameState.set_offerEligiblePlayerIds
       GameState.set_turnExpiresAt GameState.set_currentTurnPlayerId
       GameState.set_offerExpiresAt GameState.set_currentOffer
       GameState.set_finishedAt GameState.set_phase GameState.set_players].
  intros Hall. apply List.Forall_forall. intros p' Hin.
  apply in_map_iff in Hin as (p & <- & Hin).
  rewrite List.Forall_forall in Hall. specialize (Hall p Hin).
  destruct (isContestant p); [|exact Hall].
  apply scoreOk_points; [apply calculatePoints_nonneg | exact Hall].
Qed.

Lemma finishLastPlayer_players w player now :
  exists gs1,
    finishLastPlayer w player now = finishGame (withState w gs1) now
    /\ GameState.players gs1
       = updateFirst (hasId (Player.id player))
           (fun p =>
              Player.set_isLastStanding true
                (Player.set_roundDealt
                   (Some (GameState.currentRound (gameState w)))
                   (Player.set_dealAmount
                      (option_map Fin (Player.boxValue player))
                      (Player.set_hasDealt true p))))
           (GameState.players (gameState w))
    /\ GameState.phase gs1 = GameState.phase (gameState w).
Proof.
  unfold finishLastPlayer. cbv zeta. eexists. split; [reflexivity|].
  destruct (findBox _ _); [|cbn; auto].
  match goal with
  | |- context [eliminateValue ?v ?g] =>
      destruct (eliminateValue_frame v g)
        as (-> & _ & _ & _ & _ & _ & _ & -> & _)
  end.
  cbn. auto.
Qed.

Lemma sc_finishLastPlayer w player now :
  scoresOk (gameState w) ->
  (exists v, Player.boxValue player = Some v /\ (0 <= v)%Q) ->
  scoresOk (gameState (finishLastPlayer w player now)).
Proof.
  intros Hall (v & Hv & Hpos).
  destruct (finishLastPlayer_players w player now) as (gs1 & -> & Hp & _).
  apply sc_finishGame. unfold scoresOk. cbn [gameState withState].
  rewrite Hp, Hv. cbn [option_map].
  apply updateFirst_Forall; [|exact Hall].
  intros p. now apply scoreOk_last.
Qed.

Lemma valued_last gs p :
  valued gs -> getLastActivePlayer gs = Some p ->
  exists v, Player.boxValue p = Some v /\ (0 <= v)%Q.
Proof.
  intros Hval Hlast. apply getLastActivePlayer_In in Hlast as [Hin Hact].
  unfold valued in Hval. rewrite List.Forall_forall in Hval.
  apply (Hval p Hin). unfold isActivePlayer in Hact.
  now apply andb_true_iff in Hact as [[Hr _]%andb_true_iff _].
Qed.

Lemma sc_triggerBankerOffer w now random :
  scoresOk (gameState w) -> valued (gameState w) ->
  scoresOk (gameState (triggerBankerOffer w now random)).
Proof.
  intros Hall Hval. unfold triggerBankerOffer.
  cbn [gameState clearOfferTimer clearTurnTimer].
  destruct (getLastActivePlayer _) as [p|] eqn:Hlast.
  - apply sc_finishLastPlayer; [exact Hall | now apply (valued_last _ p Hval)].
  - destruct (checkGameEnd _); [now apply sc_finishGame | exact Hall].
Qed.

Lemma sc_setCurrentTurn w now random :
  scoresOk (gameState w) -> valued (gameState w) ->
  scoresOk (gameState (setCurrentTurn w now random)).
Proof.
  intros Hall Hval. unfold setCurrentTurn.
  destruct (negb (isPhase _ _)); [exact Hall|].
  destruct (negb (hasOpenableBoxes _)); [now apply sc_triggerBankerOffer|].
  destruct (_ =? -1); [exact Hall|].
  destruct (arrayGet _ _); exact Hall.
Qed.

Lemma sc_startNewRound w now random :
  scoresOk (gameState w) -> valued (gameState w) ->
  scoresOk (gameState (startNewRound w now random)).
Proof.
  intros Hall Hval. unfold startNewRound.
  cbn [gameState clearOfferTimer clearTurnTimer].
  destruct (getLastActivePlayer _) as [p|] eqn:Hlast.
  - apply sc_finishLastPlayer; [exact Hall | now apply (valued_last _ p Hval)].
  - apply sc_setCurrentTurn; [exact Hall | exact Hval].
Qed.

Lemma sc_endOfferAndContinue w now random :
  scoresOk (gameState w) -> valued (gameState w) ->
  scoresOk (gameState (endOfferAndContinue w now random)).
Proof.
  intros Hall Hval. unfold endOfferAndContinue.
  cbn [gameState clearOfferTimer].
  destruct (checkGameEnd _); [now apply sc_finishGame|].
  destruct (getLastActivePlayer _) as [p|] eqn:Hlast.
  - apply sc_finishLastPlayer; [exact Hall | now apply (valued_last _ p Hval)].
  - now apply (sc_startNewRound (clearOfferTimer w)).
Qed.

(** [valued] only reads the role and the box value, which the engine
    leaves alone. *)
Lemma valued_settled l l' :
  Forall2 settled l l' ->
  Forall (fun p => isRolePlayer p = true ->
                   exists v, Player.boxValue p = Some v /\ (0 <= v)%Q) l ->
  Forall (fun p => isRolePlayer p = true ->
                   exists v, Player.boxValue p = Some v /\ (0 <= v)%Q) l'.
Proof.
  induction 1 as [|p p' l l' Hs _ IH]; intros Hall; [constructor|].
  inversion Hall as [|? ? Hp Hl]; subst. constructor; [|now apply IH].
  destruct Hs as (_ & Hrole & _ & Hbv & _).
  unfold isRolePlayer. rewrite Hrole, Hbv. exact Hp.
Qed.

Lemma settled_timeout v p : settled p (Player.set_timeoutCount v p).
Proof. unfold settled. cbn. auto. Qed.

Lemma sameScore_timeout v p : sameScore p (Player.set_timeoutCount v p).
Proof. unfold sameScore. cbn. auto. Qed.

Lemma sc_handleOfferTimeout w now random :
  scoresOk (gameState w) -> valued (gameState w) ->
  scoresOk (gameState (handleOfferTimeout w now random)).
Proof.
  intros Hall Hval. unfold handleOfferTimeout.
  destruct (negb (isPhase _ _)); [exact Hall|].
  apply sc_endOfferAndContinue; cbn [gameState withState].
  - apply (scoresOk_same (GameState.players (gameState w))); [|exact Hall].
    apply any_applyOfferTimeout;
      [apply sameScore_refl | apply sameScore_trans | apply sameScore_timeout].
  - apply (valued_settled (GameState.players (gameState w))); [|exact Hval].
    apply any_applyOfferTimeout;
      [apply settled_refl | apply settled_trans | apply settled_timeout].
Qed.

Lemma sc_handleTurnTimeout w playerId now random :
  scoresOk (gameState w) -> valued (gameState w) ->
  scoresOk (gameState (handleTurnTimeout w playerId now random)).
Proof.
  intros Hall Hval. unfold handleTurnTimeout.
  destruct (negb (isPhase _ _)); [exact Hall|].
  destruct (GameState.currentTurnPlayerId _); [|exact Hall].
  destruct (negb _); [exact Hall|].
  set (gs1 := updatePlayer (gameState w) playerId _).
  assert (Hall1 : scoresOk gs1).
  { apply (scoresOk_same (GameState.players (gameState w))); [|exact Hall].
    apply any_updatePlayer; [apply sameScore_refl|].
    intros p. apply sameScore_timeout. }
  assert (Hval1 : valued gs1).
  { apply (valued_settled (GameState.players (gameState w))); [|exact Hval].
    apply any_updatePlayer; [apply settled_refl|].
    intros p. apply settled_timeout. }
  clearbody gs1.
  destruct (_ =? -1).
  - destruct (_ >=? _); [|exact Hall1].
    now apply sc_triggerBankerOffer.
  - now apply sc_setCurrentTurn.
Qed.

Lemma acceptDeal_updates gs player offer :
  GameState.players (acceptDeal gs player offer)
  = updateFirst (hasId (Player.id player))
      (fun p =>
         Player.set_points
           match offer with
           | Fin q =>
               Fin (calculatePoints q (valueOrZero (Player.boxValue player))
                      (GameState.currentRound gs) false false
                      (Player.timeoutCount player))
           | NaN => NaN
           end
           (Player.set_isLastStanding false
              (Player.set_roundDealt (Some (GameState.currentRound gs))
                 (Player.set_dealAmount (Some offer)
                    (Player.set_hasDealt true p)))))
      (GameState.players gs).
Proof.
  unfold acceptDeal. cbv zeta.
  match goal with
  | |- context [removeFromTurnOrder ?pid ?g] =>
      destruct (removeFromTurnOrder_frame pid g)
        as (_ & _ & _ & _ & _ & _ & -> & _)
  end.
  destruct (findBox _ _); [|reflexivity].
  destruct (negb _); [|reflexivity].
  match goal with
  | |- context [eliminateValue ?v ?g] =>
      destruct (eliminateValue_frame v g)
        as (_ & _ & _ & _ & _ & _ & _ & -> & _)
  end.
  reflexivity.
Qed.

Lemma sc_recordDealResponse gs player accepted :
  scoresOk gs ->
  (GameState.currentOffer gs = None \/ soundOffer (GameState.currentOffer gs)) ->
  scoresOk (recordDealResponse gs player accepted).
Proof.
  intros Hall Hoffer. unfold recordDealResponse.
  destruct accepted; [|exact Hall].
  cbn [GameState.currentOffer GameState.set_offerResponses].
  destruct (GameState.currentOffer gs) as [offer|] eqn:Ho; [|exact Hall].
  destruct Hoffer as [|(q & [= ->] & Hq)]; [discriminate|].
  unfold scoresOk. rewrite acceptDeal_updates.
  apply updateFirst_Forall; [|exact Hall].
  intros p. apply scoreOk_deal; [apply calculatePoints_nonneg | exact Hq].
Qed.

Lemma settled_deal pts a r p :
  settled p (Player.set_points pts
               (Player.set_isLastStanding false
                  (Player.set_roundDealt r
                     (Player.set_dealAmount a (Player.set_hasDealt true p))))).
Proof. unfold settled. cbn. auto. Qed.

Lemma sc_on_deal_response w playerId accepted now random :
  scoresOk (gameState w) -> valued (gameState w) -> phaseOk w ->
  scoresOk (gameState (on_deal_response w playerId accepted now random)).
Proof.
  intros Hall Hval Hok. unfold on_deal_response.
  destruct (isPhase Offer (gameState w)) eqn:Hph; cbn [negb]; [|exact Hall].
  apply isPhase_true in Hph.
  destruct (getPlayer _ _) as [player|]; [|exact Hall].
  destruct (_ || _); [exact Hall|].
  destruct (bool_decide _); [exact Hall|].
  destruct (negb _); [exact Hall|].
  assert (Hall1 : scoresOk (recordDealResponse (gameState w) player accepted)).
  { apply sc_recordDealResponse; [exact Hall|].
    right. now destruct (ph_offer _ Hok Hph) as (_ & Hs & _). }
  assert (Hval1 : valued (recordDealResponse (gameState w) player accepted)).
  { apply (valued_settled (GameState.players (gameState w))); [|exact Hval].
    apply any_recordDealResponse; [apply settled_refl|].
    intros. apply settled_deal. }
  destruct (allResponded _); [|exact Hall1].
  now apply sc_endOfferAndContinue.
Qed.

Lemma sc_on_open_box w playerId boxNumber now random :
  scoresOk (gameState w) -> valued (gameState w) ->
  scoresOk (gameState (on_open_box w playerId boxNumber now random)).
Proof.
  intros Hall Hval. unfold on_open_box.
  destruct (negb (isPhase _ _)); [exact Hall|].
  destruct (negb (isCurrentTurn _ _)); [exact Hall|].
  destruct (getPlayer _ _) as [player|]; [|exact Hall].
  destruct (_ || _); [exact Hall|].
  destruct (_ >=? _); [exact Hall|].
  destruct (findBox _ _) as [box|]; [|exact Hall].
  destruct (Box.isOpened box); [exact Hall|].
  destruct (existsb _ _); [exact Hall|].
  match goal with
  | |- context [eliminateValue ?v ?g] =>
      pose proof (eliminateValue_frame v g) as Hfr;
      set (gs1 := eliminateValue v g) in *
  end.
  cbv zeta in Hfr. destruct Hfr as (_ & _ & _ & _ & _ & _ & _ & Hp1 & _).
  cbn [GameState.players markBoxOpened GameState.set_boxes] in Hp1.
  clearbody gs1.
  assert (Hall1 : forall gs', GameState.players gs' = GameState.players gs1 ->
                              scoresOk gs' /\ valued gs').
  { intros gs' Hp'. unfold scoresOk, valued. rewrite Hp', Hp1. auto. }
  destruct (_ || _).
  - apply Hall1. reflexivity.
  - destruct (negb _).
    + apply sc_setCurrentTurn; apply Hall1; reflexivity.
    + apply Hall1. reflexivity.
Qed.

(** *** The start of the game and the lobby *)

Lemma wf_box_nonNegative gs b :
  wellFormed gs -> In b (GameState.boxes gs) -> (0 <= Box.value b)%Q.
Proof.
  intros Hwf Hin. pose proof BOX_VALUES_nonNegative as Hall.
  rewrite <- (wf_box_values _ Hwf) in Hall.
  rewrite List.Forall_forall in Hall. apply Hall. now apply in_map.
Qed.

Lemma seats_valued gs :
  seatsOk gs -> wellFormed gs -> GameState.phase gs <> Waiting -> valued gs.
Proof.
  intros [Hall _] Hwf Hnw. unfold valued.
  eapply List.Forall_impl; [|exact Hall].
  intros p (Hval & _ & Hrun) Hrole.
  destruct (Hrun Hnw Hrole) as (_ & n & v & Hn & Hv).
  exists v. split; [exact Hv|].
  destruct (Hval v Hv) as (n' & _ & Hholds).
  apply in_map_iff in Hholds as (box & [= _ <-] & Hin).
  now apply (wf_box_nonNegative gs).
Qed.

Lemma sameScore_assignBoxValues gs :
  Forall2 sameScore (GameState.players gs)
    (GameState.players (assignBoxValues gs)).
Proof.
  cbn. apply Forall2_map_self. intros p.
  destruct (_ && _); [|apply sameScore_refl].
  destruct (findBox _ _); [|apply sameScore_refl].
  unfold sameScore. cbn. auto.
Qed.

Lemma valued_assignBoxValues gs :
  wellFormed gs -> allPlayersReady gs = true -> valued (assignBoxValues gs).
Proof.
  intros Hwf Hready. apply allPlayersReady_spec in Hready as [_ Hready].
  unfold valued. cbn [assignBoxValues GameState.players GameState.set_players].
  apply List.Forall_forall. intros p' Hin'.
  apply in_map_iff in Hin' as (p & <- & Hin).
  destruct (isRolePlayer p) eqn:Hrole.
  - destruct (Hready p Hin Hrole) as [_ Hbox]. rewrite Hbox. cbn [andb].
    unfold hasBoxNumber in Hbox.
    destruct (Player.boxNumber p) as [n|] eqn:Hbn; [|discriminate].
    destruct (wf_box_owner _ Hwf p n Hin Hbn) as [Hrange _].
    destruct (wf_findBox _ n Hwf Hrange) as (box & Hfind). rewrite Hfind.
    intros _. exists (Box.value box). split; [reflexivity|].
    apply (wf_box_nonNegative gs); [exact Hwf|].
    now destruct (findBox_In gs n box Hfind).
  - rewrite andb_false_r. intros H. congruence.
Qed.

Lemma sc_on_start_game w playerId random0 now random :
  scoresOk (gameState w) -> wellFormed (gameState w) ->
  scoresOk (gameState (on_start_game w playerId random0 now random)).
Proof.
  intros Hall Hwf. unfold on_start_game.
  destruct (negb _); [exact Hall|].
  destruct (allPlayersReady (gameState w)) eqn:Hready; cbn [negb]; [|exact Hall].
  apply sc_setCurrentTurn.
  - apply (scoresOk_same (GameState.players (gameState w))); [|exact Hall].
    apply sameScore_assignBoxValues.
  - now apply valued_assignBoxValues.
Qed.

Lemma sc_on_join_room w playerId socketId playerName password asSpectator :
  scoresOk (gameState w) -> getPlayer (gameState w) playerId = None ->
  scoresOk
    (gameState (on_join_room w playerId socketId playerName password asSpectator)).
Proof.
  intros Hall Hfresh.
  destruct (on_join_room_players w playerId socketId playerName password
              asSpectator Hfresh)
    as [Heq | (new & Heq & _ & Hrole & _ & Hd & Ha & _ & Hp & _)];
    cbv zeta in Heq; unfold scoresOk; rewrite Heq; [exact Hall|].
  apply Forall_app. split; [exact Hall|].
  constructor; [|constructor].
  unfold scoreOk, isRolePlayer. rewrite Hp, Ha, Hd, Hrole.
  split; [exists 0; split; [reflexivity | lia]|].
  split; [now left|]. split; [intros H; now contradiction H|].
  destruct asSpectator; discriminate.
Qed.

Lemma sc_on_select_box w playerId boxNumber :
  scoresOk (gameState w) ->
  scoresOk (gameState (on_select_box w playerId boxNumber)).
Proof.
  intros Hall. unfold on_select_box.
  destruct (getPlayer _ _) as [player|]; [|exact Hall].
  destruct (negb (isRolePlayer player)); [exact Hall|].
  destruct (_ && _); [exact Hall|].
  destruct (Player.isReady player); [exact Hall|].
  destruct (_ || _); [exact Hall|].
  destruct (existsb _ _); [exact Hall|].
  apply (scoresOk_same (GameState.players (gameState w))); [|exact Hall].
  apply any_updatePlayer; [apply sameScore_refl|].
  intros p. unfold sameScore. cbn. auto.
Qed.

Lemma waiting_or_not gs :
  GameState.phase gs = Waiting \/ GameState.phase gs <> Waiting.
Proof. destruct (GameState.phase gs); auto; right; discriminate. Qed.

Lemma sc_step w now random ev :
  scoresOk (gameState w) -> seatsOk (gameState w) -> phaseOk w ->
  wellFormed (gameState w) -> admissible w random ev ->
  scoresOk (gameState (step w now random ev)).
Proof.
  intros Hall Hseats Hok Hwf [_ Hadm].
  assert (Hval : GameState.phase (gameState w) <> Waiting ->
                 valued (gameState w)).
  { now apply seats_valued. }
  assert (Hplaying : GameState.phase (gameState w) = Waiting ->
                     isPhase Playing (gameState w) = false).
  { intros E. apply isPhase_false. congruence. }
  assert (Hoffer : GameState.phase (gameState w) = Waiting ->
                   isPhase Offer (gameState w) = false).
  { intros E. apply isPhase_false. congruence. }
  destruct ev; cbn [step].
  - now apply sc_on_join_room.
  - apply (scoresOk_same (GameState.players (gameState w))); [|exact Hall].
    apply any_updatePlayer; [apply sameScore_refl|].
    intros p. unfold sameScore. cbn. auto.
  - apply (scoresOk_same (GameState.players (gameState w))); [|exact Hall].
    apply any_updatePlayer; [apply sameScore_refl|].
    intros p. unfold sameScore. cbn. auto.
  - now apply sc_on_select_box.
  - apply (scoresOk_same (GameState.players (gameState w))); [|exact Hall].
    apply any_on_player_ready; [apply sameScore_refl|].
    intros p. unfold sameScore. cbn. auto.
  - now apply sc_on_start_game.
  - unfold scoresOk. now rewrite on_set_room_password_players.
  - destruct (waiting_or_not (gameState w)) as [E|E].
    + unfold on_open_box. now rewrite (Hplaying E).
    + apply sc_on_open_box; auto.
  - destruct boxNumbers as [|boxNumber ?]; [exact Hall|].
    cbn [on_open_boxes].
    destruct (waiting_or_not (gameState w)) as [E|E].
    + unfold on_open_box. now rewrite (Hplaying E).
    + apply sc_on_open_box; auto.
  - destruct (waiting_or_not (gameState w)) as [E|E].
    + unfold on_deal_response. now rewrite (Hoffer E).
    + apply sc_on_deal_response; auto.
  - destruct (turnTimer w); [|exact Hall].
    destruct (waiting_or_not (gameState w)) as [E|E].
    + unfold handleTurnTimeout. cbn [gameState clearTurnTimer].
      now rewrite (Hplaying E).
    + apply sc_handleTurnTimeout; cbn [gameState clearTurnTimer]; auto.
  - destruct (offerTimer w); [|exact Hall].
    destruct (waiting_or_not (gameState w)) as [E|E].
    + unfold handleOfferTimeout. cbn [gameState clearOfferTimer].
      now rewrite (Hoffer E).
    + apply sc_handleOfferTimeout; cbn [gameState clearOfferTimer]; auto.
  - destruct (offerDelays w) as [|n] eqn:Hd; [exact Hall|].
    assert (Hnw : GameState.phase (gameState w) <> Waiting).
    { intros Hwait. destruct (ph_waiting _ Hok Hwait) as [H0 _]. congruence. }
    apply sc_triggerBankerOffer; cbn [gameState]; auto.
Qed.

Lemma sc_createRoom roomCode playerId random now hostSocketId hostName :
  scoresOk
    (gameState (createRoom roomCode playerId random now hostSocketId hostName)).
Proof.
  constructor; [|constructor]. unfold scoreOk. cbn.
  split; [exists 0; split; [reflexivity | lia]|].
  split; [now left|]. split; [intros H; now contradiction H | discriminate].
Qed.

Lemma reachable_scoresOk w : reachable w -> scoresOk (gameState w).
Proof.
  induction 1 as [| w now random ev Hreach IH Hadm].
  - apply sc_createRoom.
  - apply sc_step; auto.
    + now apply reachable_seatsOk.
    + now apply reachable_phaseOk.
    + now apply reachable_wellFormed.
Qed.


(* ================================================================== *)
(** * A finished game has nobody left to play *)
(* ================================================================== *)

Lemma filter_nil_Forall {A} (f : A -> bool) l :
  List.filter f l = [] <-> Forall (fun x => f x = false) l.
Proof.
  induction l as [|x l IH]; cbn [List.filter]; [split; auto|].
  destruct (f x) eqn:E; split.
  - discriminate.
  - intros H. inversion H; subst. congruence.
  - intros H. constructor; [exact E | now apply IH].
  - intros H. inversion H; subst. now apply IH.
Qed.

Lemma finishedOk_other gs :
  GameState.phase gs <> Finished -> finishedOk gs.
Proof. intros Hne Hph. contradiction. Qed.

Lemma finishedOk_frame gs gs' :
  GameState.phase gs' = GameState.phase gs ->
  Forall2 (fun p p' => isActivePlayer p' = isActivePlayer p)
    (GameState.players gs) (GameState.players gs') ->
  finishedOk gs -> finishedOk gs'.
Proof.
  unfold finishedOk, activePlayers. intros -> Hsame Hok Hph.
  specialize (Hok Hph). apply filter_nil_Forall in Hok.
  apply filter_nil_Forall. clear Hph.
  induction Hsame as [|p p' l l' Hs _ IH]; [constructor|].
  inversion Hok; subst. constructor; [congruence | now apply IH].
Qed.

Lemma fin_finishGame w now :
  activePlayers (gameState w) = [] -> finishedOk (gameState (finishGame w now)).
Proof.
  intros Hnone _. unfold activePlayers in *.
  apply filter_nil_Forall in Hnone. apply filter_nil_Forall.
  unfold finishGame.
  cbn [gameState withState clearOfferTimer clearTurnTimer GameState.players
       GameState.set_offerResponses GameState.set_offerEligiblePlayerIds
       GameState.set_turnExpiresAt GameState.set_currentTurnPlayerId
       GameState.set_offerExpiresAt GameState.set_currentOffer
       GameState.set_finishedAt GameState.set_phase GameState.set_players].
  apply List.Forall_forall. intros p' Hin.
  apply in_map_iff in Hin as (p & <- & Hin).
  rewrite List.Forall_forall in Hnone. specialize (Hnone p Hin).
  destruct (isContestant p); exact Hnone.
Qed.

(** Marking the only active player as dealt leaves nobody active. *)
Lemma last_player_dealt f (l : list Player) x :
  List.NoDup (map Player.id l) ->
  List.filter isActivePlayer l = [x] ->
  (forall p, isActivePlayer (f p) = false) ->
  Forall (fun p => isActivePlayer p = false)
    (updateFirst (hasId (Player.id x)) f l).
Proof.
  intros Hnd Hone Hf. induction l as [|p l IH]; cbn; [constructor|].
  cbn [List.filter] in Hone. cbn [map] in Hnd.
  inversion Hnd as [|? ? Hnotin Hnd']; subst.
  destruct (isActivePlayer p) eqn:Hact.
  - injection Hone as -> Hrest.
    unfold hasId at 1. rewrite String.eqb_refl.
    constructor; [apply Hf | now apply filter_nil_Forall].
  - assert (Hin : In x l).
    { assert (H : In x (List.filter isActivePlayer l))
        by (rewrite Hone; now left).
      now apply filter_In in H as [H _]. }
    assert (Hne : hasId (Player.id x) p = false).
    { unfold hasId. apply String.eqb_neq. intros E. apply Hnotin.
      rewrite E. now apply in_map. }
    rewrite Hne. constructor; [exact Hact | now apply IH].
Qed.

Lemma fin_finishLastPlayer w player now :
  List.NoDup (map Player.id (GameState.players (gameState w))) ->
  getLastActivePlayer (gameState w) = Some player ->
  finishedOk (gameState (finishLastPlayer w player now)).
Proof.
  intros Hnd Hlast.
  destruct (finishLastPlayer_players w player now) as (gs1 & -> & Hp & _).
  apply fin_finishGame. unfold activePlayers. cbn [gameState withState].
  rewrite Hp. apply filter_nil_Forall. apply last_player_dealt; [exact Hnd| |].
  - unfold getLastActivePlayer, activePlayers in Hlast.
    destruct (List.filter _ _) as [|q [|]]; try discriminate.
    now injection Hlast as ->.
  - intros p. unfold isActivePlayer. cbn. apply andb_false_r.
Qed.

Lemma checkGameEnd_true gs : checkGameEnd gs = true -> activePlayers gs = [].
Proof.
  unfold checkGameEnd. intros H. apply Nat.eqb_eq in H.
  now destruct (activePlayers gs).
Qed.

Lemma fin_triggerBankerOffer w now random :
  List.NoDup (map Player.id (GameState.players (gameState w))) ->
  finishedOk (gameState (triggerBankerOffer w now random)).
Proof.
  intros Hnd. unfold triggerBankerOffer.
  cbn [gameState clearOfferTimer clearTurnTimer].
  destruct (getLastActivePlayer _) as [p|] eqn:Hlast.
  - now apply fin_finishLastPlayer.
  - destruct (checkGameEnd _) eqn:Hend.
    + apply fin_finishGame. now apply checkGameEnd_true.
    + apply finishedOk_other. cbn. discriminate.
Qed.

Lemma fin_setCurrentTurn w now random :
  List.NoDup (map Player.id (GameState.players (gameState w))) ->
  GameState.phase (gameState w) <> Finished ->
  finishedOk (gameState (setCurrentTurn w now random)).
Proof.
  intros Hnd Hne. unfold setCurrentTurn.
  destruct (negb (isPhase _ _)); [now apply finishedOk_other|].
  destruct (negb (hasOpenableBoxes _)); [now apply fin_triggerBankerOffer|].
  destruct (_ =? -1); [now apply finishedOk_other|].
  destruct (arrayGet _ _); now apply finishedOk_other.
Qed.

Lemma fin_startNewRound w now random :
  List.NoDup (map Player.id (GameState.players (gameState w))) ->
  finishedOk (gameState (startNewRound w now random)).
Proof.
  intros Hnd. unfold startNewRound.
  cbn [gameState clearOfferTimer clearTurnTimer].
  destruct (getLastActivePlayer _) as [p|] eqn:Hlast.
  - now apply fin_finishLastPlayer.
  - apply fin_setCurrentTurn; [exact Hnd | cbn; discriminate].
Qed.

Lemma fin_endOfferAndContinue w now random :
  List.NoDup (map Player.id (GameState.players (gameState w))) ->
  finishedOk (gameState (endOfferAndContinue w now random)).
Proof.
  intros Hnd. unfold endOfferAndContinue.
  cbn [gameState clearOfferTimer].
  destruct (checkGameEnd _) eqn:Hend.
  - apply fin_finishGame. now apply checkGameEnd_true.
  - destruct (getLastActivePlayer _) as [p|] eqn:Hlast.
    + now apply fin_finishLastPlayer.
    + now apply (fin_startNewRound (clearOfferTimer w)).
Qed.

Lemma ids_settled l l' :
  Forall2 settled l l' -> map Player.id l' = map Player.id l.
Proof.
  induction 1 as [|p p' l l' Hs _ IH]; [reflexivity|].
  cbn [map]. destruct Hs as (-> & _). now rewrite IH.
Qed.

Lemma fin_handleOfferTimeout w now random :
  List.NoDup (map Player.id (GameState.players (gameState w))) ->
  finishedOk (gameState w) ->
  finishedOk (gameState (handleOfferTimeout w now random)).
Proof.
  intros Hnd Hok. unfold handleOfferTimeout.
  destruct (negb (isPhase _ _)); [exact Hok|].
  apply fin_endOfferAndContinue. cbn [gameState withState].
  rewrite (ids_settled (GameState.players (gameState w))); [exact Hnd|].
  apply any_applyOfferTimeout;
    [apply settled_refl | apply settled_trans | apply settled_timeout].
Qed.

Lemma fin_handleTurnTimeout w playerId now random :
  List.NoDup (map Player.id (GameState.players (gameState w))) ->
  finishedOk (gameState w) ->
  finishedOk (gameState (handleTurnTimeout w playerId now random)).
Proof.
  intros Hnd Hok. unfold handleTurnTimeout.
  destruct (isPhase Playing (gameState w)) eqn:Hph; cbn [negb]; [|exact Hok].
  apply isPhase_true in Hph.
  destruct (GameState.currentTurnPlayerId _); [|exact Hok].
  destruct (negb _); [exact Hok|].
  set (gs1 := updatePlayer (gameState w) playerId _).
  assert (Hnd1 : List.NoDup (map Player.id (GameState.players gs1))).
  { rewrite (ids_settled (GameState.players (gameState w))); [exact Hnd|].
    apply any_updatePlayer; [apply settled_refl|].
    intros p. apply settled_timeout. }
  assert (Hph1 : GameState.phase gs1 = Playing) by exact Hph.
  clearbody gs1.
  destruct (_ =? -1).
  - destruct (_ >=? _); [now apply fin_triggerBankerOffer|].
    apply finishedOk_other. cbn. congruence.
  - apply fin_setCurrentTurn; cbn; [exact Hnd1 | congruence].
Qed.

Lemma fin_on_deal_response w playerId accepted now random :
  List.NoDup (map Player.id (GameState.players (gameState w))) ->
  finishedOk (gameState w) ->
  finishedOk (gameState (on_deal_response w playerId accepted now random)).
Proof.
  intros Hnd Hok. unfold on_deal_response.
  destruct (isPhase Offer (gameState w)) eqn:Hph; cbn [negb]; [|exact Hok].
  apply isPhase_true in Hph.
  destruct (getPlayer _ _) as [player|]; [|exact Hok].
  destruct (_ || _); [exact Hok|].
  destruct (bool_decide _); [exact Hok|].
  destruct (negb _); [exact Hok|].
  destruct (recordDealResponse_frame (gameState w) player accepted)
    as (Hp & _).
  destruct (allResponded _).
  - apply fin_endOfferAndContinue. cbn [gameState withState].
    rewrite (ids_settled (GameState.players (gameState w))); [exact Hnd|].
    apply any_recordDealResponse; [apply settled_refl|].
    intros. apply settled_deal.
  - apply finishedOk_other. cbn [gameState withState]. congruence.
Qed.

Lemma fin_on_open_box w playerId boxNumber now random :
  List.NoDup (map Player.id (GameState.players (gameState w))) ->
  finishedOk (gameState w) ->
  finishedOk (gameState (on_open_box w playerId boxNumber now random)).
Proof.
  intros Hnd Hok. unfold on_open_box.
  destruct (isPhase Playing (gameState w)) eqn:Hph; cbn [negb]; [|exact Hok].
  apply isPhase_true in Hph.
  destruct (negb (isCurrentTurn _ _)); [exact Hok|].
  destruct (getPlayer _ _) as [player|]; [|exact Hok].
  destruct (_ || _); [exact Hok|].
  destruct (_ >=? _); [exact Hok|].
  destruct (findBox _ _) as [box|]; [|exact Hok].
  destruct (Box.isOpened box); [exact Hok|].
  destruct (existsb _ _); [exact Hok|].
  match goal with
  | |- context [eliminateValue ?v ?g] =>
      pose proof (eliminateValue_frame v g) as Hfr;
      set (gs1 := eliminateValue v g) in *
  end.
  cbv zeta in Hfr. destruct Hfr as (Hph1 & _ & _ & _ & _ & _ & _ & Hp1 & _).
  cbn [GameState.players GameState.phase markBoxOpened GameState.set_boxes]
    in Hp1, Hph1.
  clearbody gs1.
  destruct (_ || _).
  - apply finishedOk_other. cbn. congruence.
  - destruct (negb _).
    + apply fin_setCurrentTurn; cbn; [now rewrite Hp1 | congruence].
    + apply finishedOk_other. cbn. congruence.
Qed.

Lemma fin_on_start_game w playerId random0 now random :
  List.NoDup (map Player.id (GameState.players (gameState w))) ->
  finishedOk (gameState w) ->
  finishedOk (gameState (on_start_game w playerId random0 now random)).
Proof.
  intros Hnd Hok. unfold on_start_game.
  destruct (negb _); [exact Hok|].
  destruct (negb _); [exact Hok|].
  apply fin_setCurrentTurn; cbn; [|discriminate].
  rewrite map_map.
  erewrite map_ext; [exact Hnd|].
  intros p. cbn. destruct (_ && _); [|reflexivity].
  now destruct (findBox _ _).
Qed.

Lemma fin_on_join_room w playerId socketId playerName password asSpectator :
  finishedOk (gameState w) -> getPlayer (gameState w) playerId = None ->
  finishedOk
    (gameState (on_join_room w playerId socketId playerName password asSpectator)).
Proof.
  intros Hok Hfresh.
  destruct (turns_on_join_room w playerId socketId playerName password
              asSpectator) as (_ & _ & Hp & _).
  destruct (on_join_room_players w playerId socketId playerName password
              asSpectator Hfresh)
    as [Heq | (new & Heq & _ & Hrole & _ & _ & _ & _ & _ & Hseat)];
    cbv zeta in Heq; intros Hph; unfold activePlayers; rewrite Heq;
    rewrite Hp in Hph; specialize (Hok Hph); [exact Hok|].
  rewrite List.filter_app. unfold activePlayers in Hok. rewrite Hok.
  cbn. unfold isActivePlayer, isRolePlayer. rewrite Hrole.
  destruct asSpectator; [reflexivity|].
  destruct (Hseat eq_refl) as [Hw _]. congruence.
Qed.

Lemma fin_on_select_box w playerId boxNumber :
  finishedOk (gameState w) ->
  finishedOk (gameState (on_select_box w playerId boxNumber)).
Proof.
  intros Hok. unfold on_select_box.
  destruct (getPlayer _ _) as [player|]; [|exact Hok].
  destruct (negb (isRolePlayer player)); [exact Hok|].
  destruct (negb (isPhase Waiting _) && negb (isPhase Selection _)) eqn:Hph;
    [exact Hok|].
  destruct (Player.isReady player); [exact Hok|].
  destruct (_ || _); [exact Hok|].
  destruct (existsb _ _); [exact Hok|].
  apply finishedOk_other. cbn [gameState withState].
  change (GameState.phase (gameState w) <> Finished). intros E.
  assert (isPhase Waiting (gameState w) = false) as Hw
    by (apply isPhase_false; congruence).
  assert (isPhase Selection (gameState w) = false) as Hs
    by (apply isPhase_false; congruence).
  rewrite Hw, Hs in Hph. discriminate.
Qed.

Lemma fin_step w now random ev :
  finishedOk (gameState w) -> wellFormed (gameState w) ->
  admissible w random ev ->
  finishedOk (gameState (step w now random ev)).
Proof.
  intros Hok Hwf [_ Hadm]. pose proof (wf_player_ids _ Hwf) as Hnd.
  destruct ev; cbn [step].
  - now apply fin_on_join_room.
  - apply (finishedOk_frame (gameState w)); [reflexivity| |exact Hok].
    apply any_updatePlayer; [reflexivity|]. intros p. reflexivity.
  - apply (finishedOk_frame (gameState w)); [reflexivity| |exact Hok].
    apply any_updatePlayer; [reflexivity|]. intros p. reflexivity.
  - now apply fin_on_select_box.
  - destruct (turns_on_player_ready w playerId) as (_ & _ & Hp & _).
    apply (finishedOk_frame (gameState w)); [exact Hp| |exact Hok].
    apply any_on_player_ready; [reflexivity|]. intros p. reflexivity.
  - now apply fin_on_start_game.
  - destruct (turns_on_set_room_password w playerId password)
      as (_ & _ & Hp & _).
    apply (finishedOk_frame (gameState w)); [exact Hp| |exact Hok].
    rewrite on_set_room_password_players.
    apply Forall2_same_length_lookup_2; [reflexivity|].
    intros i x y Hx Hy. congruence.
  - now apply fin_on_open_box.
  - destruct boxNumbers; [exact Hok | now apply fin_on_open_box].
  - now apply fin_on_deal_response.
  - destruct (turnTimer w); [|exact Hok]. now apply fin_handleTurnTimeout.
  - destruct (offerTimer w); [|exact Hok]. now apply fin_handleOfferTimeout.
  - destruct (offerDelays w); [exact Hok|]. now apply fin_triggerBankerOffer.
Qed.

Lemma reachable_finishedOk w : reachable w -> finishedOk (gameState w).
Proof.
  induction 1 as [| w now random ev Hreach IH Hadm].
  - apply finishedOk_other. cbn. discriminate.
  - apply fin_step; auto. now apply reachable_wellFormed.
Qed.

Lemma sample_finished_reachable : reachable sample_finished.
Proof.
  apply reachable_run; [apply sample_offer_reachable | now vm_compute].
Qed.

(** X29: no player record of a room ever holds a NaN. The points are a
    non-negative integer; a deal amount, once set, is a non-negative
    amount and belongs to a player who has dealt; and a seated player who
    has dealt has a deal amount. *)
Theorem scores_are_numbers w p :
  reachable w -> In p (GameState.players (gameState w)) ->
  (exists n, Player.points p = Fin n /\ 0 <= n)
  /\ (Player.dealAmount p = None
      \/ exists q, Player.dealAmount p = Some (Fin q) /\ (0 <= q)%Q)
  /\ (Player.dealAmount p <> None -> Player.hasDealt p = true)
  /\ (isRolePlayer p = true -> Player.hasDealt p = true ->
      Player.dealAmount p <> None).
Proof.
  intros Hreach Hin. pose proof (reachable_scoresOk w Hreach) as Hall.
  unfold scoresOk in Hall. rewrite List.Forall_forall in Hall.
  exact (Hall p Hin).
Qed.

Lemma scores_are_numbers_witness :
  (exists n, Player.points sample_scored_K = Fin n /\ 0 <= n)
  /\ (Player.dealAmount sample_scored_K = None
      \/ exists q, Player.dealAmount sample_scored_K = Some (Fin q)
                   /\ (0 <= q)%Q)
  /\ (Player.dealAmount sample_scored_K <> None ->
      Player.hasDealt sample_scored_K = true)
  /\ (isRolePlayer sample_scored_K = true ->
      Player.hasDealt sample_scored_K = true ->
      Player.dealAmount sample_scored_K <> None).
Proof.
  apply (scores_are_numbers sample_finished sample_scored_K).
  - apply sample_finished_reachable.
  - vm_compute. right. right. left. reflexivity.
Defined.

(** X30: when a game is finished nobody is left to play: every
    contestant has dealt, holds a deal amount and points that are
    non-negative numbers, and carries the value of the own box. *)
Theorem finished_game_settled w p :
  reachable w -> GameState.phase (gameState w) = Finished ->
  In p (GameState.players (gameState w)) -> isContestant p = true ->
  Player.hasDealt p = true
  /\ (exists q, Player.dealAmount p = Some (Fin q) /\ (0 <= q)%Q)
  /\ (exists n, Player.points p = Fin n /\ 0 <= n)
  /\ (exists v, Player.boxValue p = Some v).
Proof.
  intros Hreach Hph Hin Hc.
  pose proof (reachable_finishedOk w Hreach Hph) as Hnone.
  unfold activePlayers in Hnone. apply filter_nil_Forall in Hnone.
  rewrite List.Forall_forall in Hnone. specialize (Hnone p Hin).
  unfold isActivePlayer in Hnone. fold (isContestant p) in Hnone.
  rewrite Hc in Hnone. cbn [andb] in Hnone.
  assert (Hd : Player.hasDealt p = true) by (now destruct (Player.hasDealt p)).
  assert (Hrole : isRolePlayer p = true).
  { unfold isContestant in Hc. now apply andb_true_iff in Hc as [Hr _]. }
  pose proof (reachable_scoresOk w Hreach) as Hall.
  unfold scoresOk in Hall. rewrite List.Forall_forall in Hall.
  destruct (Hall p Hin) as (Hpts & Hamount & _ & Hsome).
  split; [exact Hd|]. split; [|split; [exact Hpts|]].
  - destruct Hamount as [Hn | Hs]; [|exact Hs].
    exfalso. now apply (Hsome Hrole Hd).
  - destruct (reachable_seatsOk w Hreach) as [Hseats _].
    rewrite List.Forall_forall in Hseats.
    destruct (Hseats p Hin) as (_ & _ & Hrun).
    destruct Hrun as (_ & n & v & _ & Hv); [congruence | exact Hrole|].
    eauto.
Qed.

Lemma finished_game_settled_witness :
  Player.hasDealt sample_scored_K = true
  /\ (exists q, Player.dealAmount sample_scored_K = Some (Fin q) /\ (0 <= q)%Q)
  /\ (exists n, Player.points sample_scored_K = Fin n /\ 0 <= n)
  /\ (exists v, Player.boxValue sample_scored_K = Some v).
Proof.
  apply (finished_game_settled sample_finished sample_scored_K).
  - apply sample_finished_reachable.
  - vm_compute. reflexivity.
  - vm_compute. right. right. left. reflexivity.
  - vm_compute. reflexivity.
Defined.
